(** * FOORS+ routing core: the simulation model in Rocq

    A shallow embedding of [src/models/SimulationModel.ts] together with the
    types of [src/types/Node.ts] and [src/types/Message.ts], and the
    properties of the routing core proved about it.

    Conventions of the embedding.
    - JavaScript numbers that hold wall-clock milliseconds ([Date.now()],
      [lastUpdate], [inactiveSince], the two timeouts) are integers [Z];
      numbers that hold geometry or message progress are binary64 [float]s,
      which is what they are in the source.
    - A [Set<string>] is the list of its elements in insertion order and a
      [Map<string, V>] the list of its bindings in insertion order: both
      orders are observable in the source ([forEach] decides in which order
      messages are pushed and how ties are broken).
    - Objects held by reference in an array are addressed by their index in
      that array; a method that mutates [this] is a function from model state
      to model state.
    - [Date.now()] is read once per public call and passed down as [now].
    - [console.log] calls are dropped. *)

From Stdlib Require Import String List ZArith Arith Bool Lia Floats Sorted.
Import ListNotations.

Local Open Scope list_scope.

(** ** JavaScript collections *)

Definition JsSet : Type := list string.
Definition JsMap (V : Type) : Type := list (string * V).

Module Js.

(** *** [Set<string>] *)

Definition has (x : string) (s : JsSet) : bool := existsb (String.eqb x) s.

Definition add (x : string) (s : JsSet) : JsSet :=
  if has x s then s else s ++ [x].

Definition delete (x : string) (s : JsSet) : JsSet :=
  filter (fun y => negb (String.eqb x y)) s.

(** *** [Map<string, V>] *)

Section Maps.
Context {V : Type}.

Fixpoint get (k : string) (m : JsMap V) : option V :=
  match m with
  | [] => None
  | (k', v) :: m' => if String.eqb k k' then Some v else get k m'
  end.

Definition mhas (k : string) (m : JsMap V) : bool :=
  match get k m with Some _ => true | None => false end.

(** [Map.prototype.set]: an existing key keeps its place, a new key goes
    last. *)
Fixpoint set (k : string) (v : V) (m : JsMap V) : JsMap V :=
  match m with
  | [] => [(k, v)]
  | (k', v') :: m' =>
      if String.eqb k k' then (k, v) :: m' else (k', v') :: set k v m'
  end.

Definition mdelete (k : string) (m : JsMap V) : JsMap V :=
  filter (fun kv => negb (String.eqb k (fst kv))) m.

Definition keys (m : JsMap V) : list string := map fst m.

End Maps.

(** [array.find(p)] and [array.findIndex(p)]. *)
Fixpoint findIndex {A : Type} (p : A -> bool) (l : list A) : option nat :=
  match l with
  | [] => None
  | x :: l' =>
      if p x then Some 0
      else match findIndex p l' with Some i => Some (S i) | None => None end
  end.

(** Assignment through a reference to the [i]-th object of an array. *)
Fixpoint update {A : Type} (i : nat) (f : A -> A) (l : list A) : list A :=
  match l, i with
  | [], _ => []
  | x :: l', 0 => f x :: l'
  | x :: l', S i' => x :: update i' f l'
  end.

(** A non-empty string is truthy, [""] and [undefined] are falsy. *)
Definition truthy (o : option string) : bool :=
  match o with
  | Some s => negb (String.eqb s EmptyString)
  | None => false
  end.

End Js.

(** ** Data model *)

Inductive NodeType : Type := source | sink.

Inductive RoutingMode : Type :=
  intelligent | flooding | no_connections | inactive.

Inductive FloodingReason : Type :=
  | no_routes
  | routes_expired
  | reason_no_connections
  | has_inactive_routes.

Inductive TriageSeverity : Type := black | green | yellow | red.

Inductive MessageType : Type := triage | normal.

Definition NodeType_eqb (a b : NodeType) : bool :=
  match a, b with source, source | sink, sink => true | _, _ => false end.

Definition RoutingMode_eqb (a b : RoutingMode) : bool :=
  match a, b with
  | intelligent, intelligent | flooding, flooding
  | no_connections, no_connections | inactive, inactive => true
  | _, _ => false
  end.

Definition MessageType_eqb (a b : MessageType) : bool :=
  match a, b with triage, triage | normal, normal => true | _, _ => false end.

Record RoutingTableEntry : Type := {
  nextHops : JsMap nat;
  lastUpdate : Z
}.

Record InactiveRoutingTableEntry : Type := {
  sinkId : string;
  lastActiveEntry : RoutingTableEntry;
  inactiveSince : Z
}.

Record RoutingState : Type := {
  mode : RoutingMode;
  activeRoutes : nat;
  expiredRoutes : nat;
  inactiveRoutes : nat;
  floodingReason : option FloodingReason;
  lastStateChange : Z
}.

Record QueuedTriage : Type := {
  q_triageId : string;
  q_severity : TriageSeverity;
  queuedAt : Z
}.

(** [Node] of types/Node.ts.  The position and velocity objects are flattened
    into their two coordinates; the optional [metadata] bag, which the model
    never reads or writes, is left out. *)
Module Node.

Record t : Type := mk {
  id : string;
  type : NodeType;
  position_x : float;
  position_y : float;
  velocity_x : float;
  velocity_y : float;
  radius : float;
  connectionRadius : float;
  color : string;
  selected : bool;
  connections : JsSet;
  lastMessageReceivedAt : option Z;
  triageStore : JsSet;
  triageQueue : list QueuedTriage;
  sentTriagesToSinks : JsMap JsSet;
  routingTable : JsMap RoutingTableEntry;
  inactiveRoutingTables : JsMap InactiveRoutingTableEntry;
  routingState : RoutingState
}.

Definition set_type (v : NodeType) (r : t) : t :=
  {| id := id r; type := v; position_x := position_x r;
     position_y := position_y r; velocity_x := velocity_x r;
     velocity_y := velocity_y r; radius := radius r;
     connectionRadius := connectionRadius r; color := color r;
     selected := selected r; connections := connections r;
     lastMessageReceivedAt := lastMessageReceivedAt r;
     triageStore := triageStore r; triageQueue := triageQueue r;
     sentTriagesToSinks := sentTriagesToSinks r;
     routingTable := routingTable r;
     inactiveRoutingTables := inactiveRoutingTables r;
     routingState := routingState r |}.

Definition set_position_x (v : float) (r : t) : t :=
  {| id := id r; type := type r; position_x := v; position_y := position_y r;
     velocity_x := velocity_x r; velocity_y := velocity_y r;
     radius := radius r; connectionRadius := connectionRadius r;
     color := color r; selected := selected r; connections := connections r;
     lastMessageReceivedAt := lastMessageReceivedAt r;
     triageStore := triageStore r; triageQueue := triageQueue r;
     sentTriagesToSinks := sentTriagesToSinks r;
     routingTable := routingTable r;
     inactiveRoutingTables := inactiveRoutingTables r;
     routingState := routingState r |}.

Definition set_position_y (v : float) (r : t) : t :=
  {| id := id r; type := type r; position_x := position_x r; position_y := v;
     velocity_x := velocity_x r; velocity_y := velocity_y r;
     radius := radius r; connectionRadius := connectionRadius r;
     color := color r; selected := selected r; connections := connections r;
     lastMessageReceivedAt := lastMessageReceivedAt r;
     triageStore := triageStore r; triageQueue := triageQueue r;
     sentTriagesToSinks := sentTriagesToSinks r;
     routingTable := routingTable r;
     inactiveRoutingTables := inactiveRoutingTables r;
     routingState := routingState r |}.

Definition set_velocity_x (v : float) (r : t) : t :=
  {| id := id r; type := type r; position_x := position_x r;
     position_y := position_y r; velocity_x := v; velocity_y := velocity_y r;
     radius := radius r; connectionRadius := connectionRadius r;
     color := color r; selected := selected r; connections := connections r;
     lastMessageReceivedAt := lastMessageReceivedAt r;
     triageStore := triageStore r; triageQueue := triageQueue r;
     sentTriagesToSinks := sentTriagesToSinks r;
     routingTable := routingTable r;
     inactiveRoutingTables := inactiveRoutingTables r;
     routingState := routingState r |}.

Definition set_velocity_y (v : float) (r : t) : t :=
  {| id := id r; type := type r; position_x := position_x r;
     position_y := position_y r; velocity_x := velocity_x r; velocity_y := v;
     radius := radius r; connectionRadius := connectionRadius r;
     color := color r; selected := selected r; connections := connections r;
     lastMessageReceivedAt := lastMessageReceivedAt r;
     triageStore := triageStore r; triageQueue := triageQueue r;
     sentTriagesToSinks := sentTriagesToSinks r;
     routingTable := routingTable r;
     inactiveRoutingTables := inactiveRoutingTables r;
     routingState := routingState r |}.

Definition set_connectionRadius (v : float) (r : t) : t :=
  {| id := id r; type := type r; position_x := position_x r;
     position_y := position_y r; velocity_x := velocity_x r;
     velocity_y := velocity_y r; radius := radius r; connectionRadius := v;
     color := color r; selected := selected r; connections := connections r;
     lastMessageReceivedAt := lastMessageReceivedAt r;
     triageStore := triageStore r; triageQueue := triageQueue r;
     sentTriagesToSinks := sentTriagesToSinks r;
     routingTable := routingTable r;
     inactiveRoutingTables := inactiveRoutingTables r;
     routingState := routingState r |}.

Definition set_color (v : string) (r : t) : t :=
  {| id := id r; type := type r; position_x := position_x r;
     position_y := position_y r; velocity_x := velocity_x r;
     velocity_y := velocity_y r; radius := radius r;
     connectionRadius := connectionRadius r; color := v;
     selected := selected r; connections := connections r;
     lastMessageReceivedAt := lastMessageReceivedAt r;
     triageStore := triageStore r; triageQueue := triageQueue r;
     sentTriagesToSinks := sentTriagesToSinks r;
     routingTable := routingTable r;
     inactiveRoutingTables := inactiveRoutingTables r;
     routingState := routingState r |}.

Definition set_selected (v : bool) (r : t) : t :=
  {| id := id r; type := type r; position_x := position_x r;
     position_y := position_y r; velocity_x := velocity_x r;
     velocity_y := velocity_y r; radius := radius r;
     connectionRadius := connectionRadius r; color := color r; selected := v;
     connections := connections r;
     lastMessageReceivedAt := lastMessageReceivedAt r;
     triageStore := triageStore r; triageQueue := triageQueue r;
     sentTriagesToSinks := sentTriagesToSinks r;
     routingTable := routingTable r;
     inactiveRoutingTables := inactiveRoutingTables r;
     routingState := routingState r |}.

Definition set_connections (v : JsSet) (r : t) : t :=
  {| id := id r; type := type r; position_x := position_x r;
     position_y := position_y r; velocity_x := velocity_x r;
     velocity_y := velocity_y r; radius := radius r;
     connectionRadius := connectionRadius r; color := color r;
     selected := selected r; connections := v;
     lastMessageReceivedAt := lastMessageReceivedAt r;
     triageStore := triageStore r; triageQueue := triageQueue r;
     sentTriagesToSinks := sentTriagesToSinks r;
     routingTable := routingTable r;
     inactiveRoutingTables := inactiveRoutingTables r;
     routingState := routingState r |}.

Definition set_lastMessageReceivedAt (v : option Z) (r : t) : t :=
  {| id := id r; type := type r; position_x := position_x r;
     position_y := position_y r; velocity_x := velocity_x r;
     velocity_y := velocity_y r; radius := radius r;
     connectionRadius := connectionRadius r; color := color r;
     selected := selected r; connections := connections r;
     lastMessageReceivedAt := v; triageStore := triageStore r;
     triageQueue := triageQueue r;
     sentTriagesToSinks := sentTriagesToSinks r;
     routingTable := routingTable r;
     inactiveRoutingTables := inactiveRoutingTables r;
     routingState := routingState r |}.

Definition set_triageStore (v : JsSet) (r : t) : t :=
  {| id := id r; type := type r; position_x := position_x r;
     position_y := position_y r; velocity_x := velocity_x r;
     velocity_y := velocity_y r; radius := radius r;
     connectionRadius := connectionRadius r; color := color r;
     selected := selected r; connections := connections r;
     lastMessageReceivedAt := lastMessageReceivedAt r; triageStore := v;
     triageQueue := triageQueue r;
     sentTriagesToSinks := sentTriagesToSinks r;
     routingTable := routingTable r;
     inactiveRoutingTables := inactiveRoutingTables r;
     routingState := routingState r |}.

Definition set_triageQueue (v : list QueuedTriage) (r : t) : t :=
  {| id := id r; type := type r; position_x := position_x r;
     position_y := position_y r; velocity_x := velocity_x r;
     velocity_y := velocity_y r; radius := radius r;
     connectionRadius := connectionRadius r; color := color r;
     selected := selected r; connections := connections r;
     lastMessageReceivedAt := lastMessageReceivedAt r;
     triageStore := triageStore r; triageQueue := v;
     sentTriagesToSinks := sentTriagesToSinks r;
     routingTable := routingTable r;
     inactiveRoutingTables := inactiveRoutingTables r;
     routingState := routingState r |}.

Definition set_sentTriagesToSinks (v : JsMap JsSet) (r : t) : t :=
  {| id := id r; type := type r; position_x := position_x r;
     position_y := position_y r; velocity_x := velocity_x r;
     velocity_y := velocity_y r; radius := radius r;
     connectionRadius := connectionRadius r; color := color r;
     selected := selected r; connections := connections r;
     lastMessageReceivedAt := lastMessageReceivedAt r;
     triageStore := triageStore r; triageQueue := triageQueue r;
     sentTriagesToSinks := v; routingTable := routingTable r;
     inactiveRoutingTables := inactiveRoutingTables r;
     routingState := routingState r |}.

Definition set_routingTable (v : JsMap RoutingTableEntry) (r : t) : t :=
  {| id := id r; type := type r; position_x := position_x r;
     position_y := position_y r; velocity_x := velocity_x r;
     velocity_y := velocity_y r; radius := radius r;
     connectionRadius := connectionRadius r; color := color r;
     selected := selected r; connections := connections r;
     lastMessageReceivedAt := lastMessageReceivedAt r;
     triageStore := triageStore r; triageQueue := triageQueue r;
     sentTriagesToSinks := sentTriagesToSinks r; routingTable := v;
     inactiveRoutingTables := inactiveRoutingTables r;
     routingState := routingState r |}.

Definition set_inactiveRoutingTables (v : JsMap InactiveRoutingTableEntry) (r : t) : t :=
  {| id := id r; type := type r; position_x := position_x r;
     position_y := position_y r; velocity_x := velocity_x r;
     velocity_y := velocity_y r; radius := radius r;
     connectionRadius := connectionRadius r; color := color r;
     selected := selected r; connections := connections r;
     lastMessageReceivedAt := lastMessageReceivedAt r;
     triageStore := triageStore r; triageQueue := triageQueue r;
     sentTriagesToSinks := sentTriagesToSinks r;
     routingTable := routingTable r; inactiveRoutingTables := v;
     routingState := routingState r |}.

Definition set_routingState (v : RoutingState) (r : t) : t :=
  {| id := id r; type := type r; position_x := position_x r;
     position_y := position_y r; velocity_x := velocity_x r;
     velocity_y := velocity_y r; radius := radius r;
     connectionRadius := connectionRadius r; color := color r;
     selected := selected r; connections := connections r;
     lastMessageReceivedAt := lastMessageReceivedAt r;
     triageStore := triageStore r; triageQueue := triageQueue r;
     sentTriagesToSinks := sentTriagesToSinks r;
     routingTable := routingTable r;
     inactiveRoutingTables := inactiveRoutingTables r; routingState := v |}.

End Node.
(** [Message] of types/Message.ts.  [progress] is the only field the model
    mutates after creation. *)
Module Message.

Record t : Type := mk {
  id : string;
  fromNodeId : string;
  toNodeId : string;
  progress : float;
  speed : float;
  color : string;
  createdAt : Z;
  type : MessageType;
  triageId : option string;
  triageSeverity : option TriageSeverity
}.

Definition set_progress (v : float) (r : t) : t :=
  {| id := id r; fromNodeId := fromNodeId r; toNodeId := toNodeId r;
     progress := v; speed := speed r; color := color r;
     createdAt := createdAt r; type := type r; triageId := triageId r;
     triageSeverity := triageSeverity r |}.

End Message.
(** The private fields of class [SimulationModel].  Two fields stand for the
    collaborators the class calls into: [uuidCount] counts the calls made to
    the UUID factory so far, and [notifications] counts the calls of
    [notifyListeners] (each call runs every subscribed listener once). *)
Module Model.

Record t : Type := mk {
  nodes : list Node.t;
  messages : list Message.t;
  connectionRadius : float;
  inactiveRoutingTimeout : Z;
  isAutoGenerating : bool;
  triageGenerationInterval : Z;
  lastTriageGeneration : Z;
  uuidCount : nat;
  notifications : nat
}.

Definition set_nodes (v : list Node.t) (r : t) : t :=
  {| nodes := v; messages := messages r;
     connectionRadius := connectionRadius r;
     inactiveRoutingTimeout := inactiveRoutingTimeout r;
     isAutoGenerating := isAutoGenerating r;
     triageGenerationInterval := triageGenerationInterval r;
     lastTriageGeneration := lastTriageGeneration r;
     uuidCount := uuidCount r; notifications := notifications r |}.

Definition set_messages (v : list Message.t) (r : t) : t :=
  {| nodes := nodes r; messages := v; connectionRadius := connectionRadius r;
     inactiveRoutingTimeout := inactiveRoutingTimeout r;
     isAutoGenerating := isAutoGenerating r;
     triageGenerationInterval := triageGenerationInterval r;
     lastTriageGeneration := lastTriageGeneration r;
     uuidCount := uuidCount r; notifications := notifications r |}.

Definition set_connectionRadius (v : float) (r : t) : t :=
  {| nodes := nodes r; messages := messages r; connectionRadius := v;
     inactiveRoutingTimeout := inactiveRoutingTimeout r;
     isAutoGenerating := isAutoGenerating r;
     triageGenerationInterval := triageGenerationInterval r;
     lastTriageGeneration := lastTriageGeneration r;
     uuidCount := uuidCount r; notifications := notifications r |}.

Definition set_inactiveRoutingTimeout (v : Z) (r : t) : t :=
  {| nodes := nodes r; messages := messages r;
     connectionRadius := connectionRadius r; inactiveRoutingTimeout := v;
     isAutoGenerating := isAutoGenerating r;
     triageGenerationInterval := triageGenerationInterval r;
     lastTriageGeneration := lastTriageGeneration r;
     uuidCount := uuidCount r; notifications := notifications r |}.

Definition set_isAutoGenerating (v : bool) (r : t) : t :=
  {| nodes := nodes r; messages := messages r;
     connectionRadius := connectionRadius r;
     inactiveRoutingTimeout := inactiveRoutingTimeout r;
     isAutoGenerating := v;
     triageGenerationInterval := triageGenerationInterval r;
     lastTriageGeneration := lastTriageGeneration r;
     uuidCount := uuidCount r; notifications := notifications r |}.

Definition set_triageGenerationInterval (v : Z) (r : t) : t :=
  {| nodes := nodes r; messages := messages r;
     connectionRadius := connectionRadius r;
     inactiveRoutingTimeout := inactiveRoutingTimeout r;
     isAutoGenerating := isAutoGenerating r; triageGenerationInterval := v;
     lastTriageGeneration := lastTriageGeneration r;
     uuidCount := uuidCount r; notifications := notifications r |}.

Definition set_lastTriageGeneration (v : Z) (r : t) : t :=
  {| nodes := nodes r; messages := messages r;
     connectionRadius := connectionRadius r;
     inactiveRoutingTimeout := inactiveRoutingTimeout r;
     isAutoGenerating := isAutoGenerating r;
     triageGenerationInterval := triageGenerationInterval r;
     lastTriageGeneration := v; uuidCount := uuidCount r;
     notifications := notifications r |}.

Definition set_uuidCount (v : nat) (r : t) : t :=
  {| nodes := nodes r; messages := messages r;
     connectionRadius := connectionRadius r;
     inactiveRoutingTimeout := inactiveRoutingTimeout r;
     isAutoGenerating := isAutoGenerating r;
     triageGenerationInterval := triageGenerationInterval r;
     lastTriageGeneration := lastTriageGeneration r; uuidCount := v;
     notifications := notifications r |}.

Definition set_notifications (v : nat) (r : t) : t :=
  {| nodes := nodes r; messages := messages r;
     connectionRadius := connectionRadius r;
     inactiveRoutingTimeout := inactiveRoutingTimeout r;
     isAutoGenerating := isAutoGenerating r;
     triageGenerationInterval := triageGenerationInterval r;
     lastTriageGeneration := lastTriageGeneration r;
     uuidCount := uuidCount r; notifications := v |}.

End Model.
(** ** Mode classifier ([updateRoutingStates]) *)

Definition ROUTE_TIMEOUT : Z := 5 * 60 * 1000.

(** The two counters of the [routingTable.forEach] loop, as the pair
    [(activeRoutes, expiredRoutes)]. *)
Definition countRoutes (now : Z) (rt : JsMap RoutingTableEntry) : nat * nat :=
  fold_left
    (fun (c : nat * nat) (kv : string * RoutingTableEntry) =>
       let routeAge := (now - lastUpdate (snd kv))%Z in
       if (routeAge <? ROUTE_TIMEOUT)%Z then (S (fst c), snd c)
       else (fst c, S (snd c)))
    rt (0, 0).

(** The [if] cascade that picks [mode] and [floodingReason]. *)
Definition decideMode (node : Node.t) (activeRoutes expiredRoutes inactiveRoutes : nat)
  : RoutingMode * option FloodingReason :=
  if length (Node.connections node) =? 0 then
    (no_connections, Some reason_no_connections)
  else if NodeType_eqb (Node.type node) sink
          && (activeRoutes =? 0) && (expiredRoutes =? 0) && (inactiveRoutes =? 0) then
    (intelligent, None)
  else if 0 <? inactiveRoutes then (inactive, Some has_inactive_routes)
  else if 0 <? activeRoutes then (intelligent, None)
  else if 0 <? expiredRoutes then (flooding, Some routes_expired)
  else (flooding, Some no_routes).

(** The body of [this.nodes.forEach] in [updateRoutingStates]. *)
Definition updateRoutingState (now : Z) (node : Node.t) : Node.t :=
  let '(activeRoutes, expiredRoutes) := countRoutes now (Node.routingTable node) in
  let inactiveRoutes := length (Node.inactiveRoutingTables node) in
  let '(mode', floodingReason') :=
    decideMode node activeRoutes expiredRoutes inactiveRoutes in
  let previousMode := mode (Node.routingState node) in
  let modeChanged := negb (RoutingMode_eqb mode' previousMode) in
  Node.set_routingState
    {| mode := mode';
       activeRoutes := activeRoutes;
       expiredRoutes := expiredRoutes;
       inactiveRoutes := inactiveRoutes;
       floodingReason := floodingReason';
       lastStateChange :=
         if modeChanged then now else lastStateChange (Node.routingState node) |}
    node.

Definition updateRoutingStates (now : Z) (s : Model.t) : Model.t :=
  Model.set_nodes (map (updateRoutingState now) (Model.nodes s)) s.

(** ** Target selector ([getMultiRouteCap], [selectRoutingTargets]) *)

Definition getMultiRouteCap (messageType : option MessageType)
    (triageSeverity : option TriageSeverity) : nat :=
  match messageType with
  | Some triage =>
      match triageSeverity with
      | Some red => 3
      | Some yellow => 2
      | _ => 1
      end
  | _ => 1
  end.

(** [neighborCoverage]: for each next-hop peer, the sinks it is an active
    route to.  Peers and sinks both appear in the order the nested [forEach]
    first meets them. *)
Definition coverAdd (sinkId : string) (peerId : string) (cov : JsMap JsSet)
  : JsMap JsSet :=
  match Js.get peerId cov with
  | Some sinks => Js.set peerId (Js.add sinkId sinks) cov
  | None => Js.set peerId (Js.add sinkId []) cov
  end.

Definition neighborCoverage (now : Z) (excludeNodeId : option string)
    (rt : JsMap RoutingTableEntry) : JsMap JsSet :=
  fold_left
    (fun cov (kv : string * RoutingTableEntry) =>
       let routeAge := (now - lastUpdate (snd kv))%Z in
       if (routeAge <? ROUTE_TIMEOUT)%Z then
         fold_left
           (fun cov (hop : string * nat) =>
              let peerId := fst hop in
              match excludeNodeId with
              | Some x => if String.eqb peerId x then cov else coverAdd (fst kv) peerId cov
              | None => coverAdd (fst kv) peerId cov
              end)
           (nextHops (snd kv)) cov
       else cov)
    rt [].

(** [getLoad]: in-flight messages from [nodeId] to [peerId]. *)
Definition getLoad (msgs : list Message.t) (nodeId peerId : string) : nat :=
  fold_left
    (fun count m =>
       if String.eqb (Message.fromNodeId m) nodeId
          && String.eqb (Message.toNodeId m) peerId
          && PrimFloat.ltb (Message.progress m) 1
       then S count else count)
    msgs 0.

(** The marginal gain of a peer: sinks it covers that are not covered yet. *)
Definition gainOf (coveredSinks : JsSet) (sinks : JsSet) : nat :=
  fold_left (fun gain s => if Js.has s coveredSinks then gain else S gain) sinks 0.

Definition coverageOf (cov : JsMap JsSet) (peerId : string) : JsSet :=
  match Js.get peerId cov with Some sinks => sinks | None => [] end.

(** The running best of the [remaining.forEach] loop.  [bestGain] starts at
    [-1] and [bestLoad] at [Infinity], so [None] stands for that start: any
    peer beats it. *)
Definition betterPeer (gain load : nat) (best : option (string * nat * nat)) : bool :=
  match best with
  | None => true
  | Some (_, bestGain, bestLoad) =>
      (bestGain <? gain) || ((gain =? bestGain) && (load <? bestLoad))
  end.

Definition pickBest (load : string -> nat) (cov : JsMap JsSet)
    (coveredSinks : JsSet) (remaining : JsSet) : option (string * nat * nat) :=
  fold_left
    (fun best peerId =>
       let gain := gainOf coveredSinks (coverageOf cov peerId) in
       let l := load peerId in
       if betterPeer gain l best then Some (peerId, gain, l) else best)
    remaining None.

(** The [while (selected.size < cap && remaining.size > 0)] loop.  Every turn
    either stops or removes a peer from [remaining], so [length remaining]
    turns are enough; the fuel is only there for the recursion to be
    structural. *)
Fixpoint greedyLoop (fuel : nat) (load : string -> nat) (cov : JsMap JsSet)
    (cap : nat) (selected coveredSinks remaining : JsSet) : JsSet :=
  match fuel with
  | 0 => selected
  | S fuel' =>
      if (length selected <? cap) && (0 <? length remaining) then
        match pickBest load cov coveredSinks remaining with
        | None => selected
        | Some (bestPeer, _, _) =>
            greedyLoop fuel' load cov cap
              (Js.add bestPeer selected)
              (fold_left (fun c s => Js.add s c) (coverageOf cov bestPeer) coveredSinks)
              (Js.delete bestPeer remaining)
        end
      else selected
  end.

(** The fallback after the loop: the first candidate of least load. *)
Definition lowestLoad (load : string -> nat) (candidates : list string)
  : option string :=
  option_map fst
    (fold_left
       (fun (pick : option (string * nat)) peerId =>
          let l := load peerId in
          match pick with
          | None => Some (peerId, l)
          | Some (_, minLoad) => if l <? minLoad then Some (peerId, l) else pick
          end)
       candidates None).

Definition selectIntelligent (now : Z) (msgs : list Message.t) (node : Node.t)
    (excludeNodeId : option string) (messageType : option MessageType)
    (triageSeverity : option TriageSeverity) : JsSet :=
  let cov := neighborCoverage now excludeNodeId (Node.routingTable node) in
  let candidates := Js.keys cov in
  if length candidates =? 0 then []
  else
    let cap := getMultiRouteCap messageType triageSeverity in
    if length candidates <=? cap then fold_left (fun t c => Js.add c t) candidates []
    else
      let load := getLoad msgs (Node.id node) in
      let selected :=
        greedyLoop (length candidates) load cov cap [] [] candidates in
      let selected :=
        if length selected =? 0 then
          match lowestLoad load candidates with
          | Some pick => if Js.truthy (Some pick) then Js.add pick selected else selected
          | None => selected
          end
        else selected in
      fold_left (fun t p => Js.add p t) selected [].

Definition selectFlooding (node : Node.t) (excludeNodeId : option string) : JsSet :=
  fold_left
    (fun targets peerId =>
       match excludeNodeId with
       | Some x => if String.eqb peerId x then targets else Js.add peerId targets
       | None => Js.add peerId targets
       end)
    (Node.connections node) [].

Definition selectRoutingTargets (now : Z) (msgs : list Message.t) (node : Node.t)
    (excludeNodeId : option string) (messageType : option MessageType)
    (triageSeverity : option TriageSeverity) : JsSet :=
  match mode (Node.routingState node) with
  | intelligent =>
      selectIntelligent now msgs node excludeNodeId messageType triageSeverity
  | flooding | inactive => selectFlooding node excludeNodeId
  | no_connections => []
  end.

(** ** Message pipeline *)

(** [DEFAULT_MESSAGE_CONFIG] of types/Message.ts and the two node colours of
    [DEFAULT_NODE_CONFIG]. *)
Definition defaultSpeed : float := 2%float.
Definition defaultColor : string := "#F59E0B".
Definition triageColor : string := "#EF4444".
Definition sourceColor : string := "#10B981".
Definition sinkColor : string := "#6366F1".
Definition defaultRadius : float := 0x1.999999999999ap-2%float.
Definition defaultConnectionRadius : float := 2%float.

Definition triageSeverityColors (sev : TriageSeverity) : string :=
  match sev with
  | black => "#4B5563"
  | green => "#10B981"
  | yellow => "#F59E0B"
  | red => "#EF4444"
  end.

Definition idIs (i : string) (n : Node.t) : bool := String.eqb (Node.id n) i.

Definition notifyListeners (s : Model.t) : Model.t :=
  Model.set_notifications (S (Model.notifications s)) s.

(** Mutation of the node object at index [i] of [this.nodes]. *)
Definition updNode (i : nat) (f : Node.t -> Node.t) (s : Model.t) : Model.t :=
  Model.set_nodes (Js.update i f (Model.nodes s)) s.

Definition pushMessage (m : Message.t) (s : Model.t) : Model.t :=
  Model.set_messages (Model.messages s ++ [m]) s.

(** [sinkIdsForSend] / [sinkIdsForForward]: the node itself when it is a
    sink, then every key of its routing table. *)
Definition sinkIdsFor (node : Node.t) : JsSet :=
  fold_left (fun acc kv => Js.add (fst kv) acc) (Node.routingTable node)
    (match Node.type node with sink => Js.add (Node.id node) [] | source => [] end).

(** [per = map.get(triageId) ?? new Set(); ids.forEach(id => per.add(id))],
    with the new set stored in the map. *)
Definition markSent (triageId : string) (ids : list string) (sent : JsMap JsSet)
  : JsMap JsSet :=
  let per := match Js.get triageId sent with Some p => p | None => [] end in
  Js.set triageId (fold_left (fun p x => Js.add x p) ids per) sent.

Section WithUuid.

(** The UUID factory: [uuidv4 k] is the string the [k]-th call returns. *)
Variable uuidv4 : nat -> string.

Definition freshUuid (s : Model.t) : string * Model.t :=
  (uuidv4 (Model.uuidCount s), Model.set_uuidCount (S (Model.uuidCount s)) s).

Definition nodeAt (i : nat) (s : Model.t) : option Node.t :=
  nth_error (Model.nodes s) i.

(** The value of an optional string where the source has already tested it. *)
Definition unwrap (o : option string) : string :=
  match o with Some x => x | None => EmptyString end.

(** [messageType === 'triage' && triageId] *)
Definition isTriageWithId (messageType : MessageType) (triageId : option string)
  : bool :=
  MessageType_eqb messageType triage && Js.truthy triageId.

(** The bookkeeping at the end of each turn of [targetPeers.forEach], in
    [sendMessage] and in [onMessageArrival] alike. *)
Definition markTargeted (i : nat) (messageType : MessageType)
    (triageId : option string) (sinkIds : JsSet) (s : Model.t) : Model.t :=
  if isTriageWithId messageType triageId && (0 <? length sinkIds) then
    updNode i
      (fun n => Node.set_sentTriagesToSinks
                  (markSent (unwrap triageId) sinkIds (Node.sentTriagesToSinks n)) n)
      s
  else s.

(** The message [sendMessage] builds for one target. *)
Definition sentMessage (now : Z) (fromNodeId : string) (messageType : MessageType)
    (triageId : option string) (severity : option TriageSeverity)
    (msgId toNodeId : string) : Message.t :=
  {| Message.id := msgId;
     Message.fromNodeId := fromNodeId;
     Message.toNodeId := toNodeId;
     Message.progress := 0%float;
     Message.speed := defaultSpeed;
     Message.color :=
       match messageType, severity with
       | triage, Some sev => triageSeverityColors sev
       | triage, None => triageColor
       | normal, _ => defaultColor
       end;
     Message.createdAt := now;
     Message.type := messageType;
     Message.triageId := triageId;
     Message.triageSeverity := severity |}.

(** One turn of [targetPeers.forEach] in [sendMessage]. *)
Definition sendOne (now : Z) (i : nat) (fromNodeId : string)
    (messageType : MessageType) (triageId : option string)
    (severity : option TriageSeverity) (sinkIdsForSend : JsSet)
    (s : Model.t) (toNodeId : string) : Model.t :=
  let '(msgId, s) := freshUuid s in
  markTargeted i messageType triageId sinkIdsForSend
    (pushMessage
       (sentMessage now fromNodeId messageType triageId severity msgId toNodeId) s).

Definition enqueue (triageId : string) (severity : option TriageSeverity)
    (now : Z) (n : Node.t) : Node.t :=
  Node.set_triageQueue
    (Node.triageQueue n ++
     [{| q_triageId := triageId;
         q_severity := match severity with Some sev => sev | None => red end;
         queuedAt := now |}])
    n.

Definition sendMessage (now : Z) (fromNodeId : string) (messageType : MessageType)
    (triageSeverity : option TriageSeverity) (s : Model.t) : Model.t :=
  match Js.findIndex (idIs fromNodeId) (Model.nodes s) with
  | None => s
  | Some i =>
      let '(triageId, s) :=
        match messageType with
        | triage => let '(u, s) := freshUuid s in (Some u, s)
        | normal => (None, s)
        end in
      let severity :=
        match messageType with
        | triage => Some (match triageSeverity with Some sev => sev | None => red end)
        | normal => None
        end in
      let s :=
        if isTriageWithId messageType triageId then
          updNode i
            (fun n => Node.set_triageStore
                        (Js.add (unwrap triageId) (Node.triageStore n)) n)
            s
        else s in
      match nodeAt i s with
      | None => s
      | Some fromNode =>
          if isTriageWithId messageType triageId
             && (length (Node.connections fromNode) =? 0) then
            notifyListeners (updNode i (enqueue (unwrap triageId) severity now) s)
          else
            let targetPeers :=
              selectRoutingTargets now (Model.messages s) fromNode
                (Some fromNodeId) (Some messageType) severity in
            let sinkIdsForSend :=
              if isTriageWithId messageType triageId then sinkIdsFor fromNode
              else [] in
            notifyListeners
              (fold_left
                 (sendOne now i fromNodeId messageType triageId severity sinkIdsForSend)
                 targetPeers s)
      end
  end.

(** [sendQueuedTriage]: flood one queued triage to every neighbour of the
    node at index [i]. *)
Definition queuedMessage (now : Z) (fromNode : Node.t) (triageId : string)
    (severity : TriageSeverity) (msgId toNodeId : string) : Message.t :=
  {| Message.id := msgId;
     Message.fromNodeId := Node.id fromNode;
     Message.toNodeId := toNodeId;
     Message.progress := 0%float;
     Message.speed := defaultSpeed;
     Message.color := triageSeverityColors severity;
     Message.createdAt := now;
     Message.type := triage;
     Message.triageId := Some triageId;
     Message.triageSeverity := Some severity |}.

Definition sendQueuedTriage (now : Z) (i : nat) (triageId : string)
    (severity : TriageSeverity) (s : Model.t) : Model.t :=
  match nodeAt i s with
  | None => s
  | Some fromNode =>
      if negb (Js.has triageId (Node.triageStore fromNode)) then s
      else
        let targetPeers :=
          fold_left (fun t peerId => Js.add peerId t) (Node.connections fromNode) [] in
        notifyListeners
          (fold_left
             (fun s toNodeId =>
                let '(msgId, s) := freshUuid s in
                pushMessage
                  (queuedMessage now fromNode triageId severity msgId toNodeId) s)
             targetPeers s)
  end.

(** *** Arrival and forward ([onMessageArrival]) *)

Definition isFloodingStyle (m : RoutingMode) : bool :=
  match m with flooding | inactive => true | _ => false end.

(** The copy [onMessageArrival] forwards to one target: colour, type, triage
    id and severity are those of the message that arrived. *)
Definition forwardedMessage (now : Z) (nodeId : string) (message : Message.t)
    (msgId toNodeId : string) : Message.t :=
  {| Message.id := msgId;
     Message.fromNodeId := nodeId;
     Message.toNodeId := toNodeId;
     Message.progress := 0%float;
     Message.speed := defaultSpeed;
     Message.color := Message.color message;
     Message.createdAt := now;
     Message.type := Message.type message;
     Message.triageId := Message.triageId message;
     Message.triageSeverity := Message.triageSeverity message |}.

(** One turn of [targetPeers.forEach] in [onMessageArrival]. *)
Definition forwardOne (now : Z) (i : nat) (nodeId : string) (message : Message.t)
    (sinkIdsForForward : JsSet) (s : Model.t) (toNodeId : string) : Model.t :=
  let '(msgId, s) := freshUuid s in
  markTargeted i (Message.type message) (Message.triageId message)
    sinkIdsForForward
    (pushMessage (forwardedMessage now nodeId message msgId toNodeId) s).

(** [allAlreadySent] of the per-sink suppression. *)
Definition allAlreadySent (triageId : string) (sinkIds : JsSet) (node : Node.t)
  : bool :=
  match Js.get triageId (Node.sentTriagesToSinks node) with
  | Some perTriage =>
      if 0 <? length sinkIds then forallb (fun x => Js.has x perTriage) sinkIds
      else false
  | None => false
  end.

(** The forwarding block that closes [onMessageArrival]. *)
Definition forwardFrom (now : Z) (i : nat) (message : Message.t) (s : Model.t)
  : Model.t :=
  match nodeAt i s with
  | None => s
  | Some node =>
      let targetPeers :=
        selectRoutingTargets now (Model.messages s) node
          (Some (Message.fromNodeId message)) (Some (Message.type message))
          (Message.triageSeverity message) in
      let isTriage := isTriageWithId (Message.type message) (Message.triageId message) in
      let sinkIdsForForward := if isTriage then sinkIdsFor node else [] in
      if isTriage
         && RoutingMode_eqb (mode (Node.routingState node)) intelligent
         && allAlreadySent (unwrap (Message.triageId message)) sinkIdsForForward node
      then s
      else
        notifyListeners
          (fold_left (forwardOne now i (Node.id node) message sinkIdsForForward)
             targetPeers s)
  end.

(** What [onMessageArrival] does with a triage once the deduplication has let
    it through: remember it, then queue it when the node is isolated and
    forward it otherwise. *)
Definition acceptTriage (now : Z) (i : nat) (message : Message.t) (node : Node.t)
    (s : Model.t) : Model.t :=
  let tid := unwrap (Message.triageId message) in
  if length (Node.connections node) =? 0 then
    notifyListeners (updNode i (enqueue tid (Message.triageSeverity message) now) s)
  else forwardFrom now i message s.

Definition storeTriage (i : nat) (tid : string) (s : Model.t) : Model.t :=
  updNode i (fun n => Node.set_triageStore (Js.add tid (Node.triageStore n)) n) s.

Definition onMessageArrival (now : Z) (message : Message.t) (s : Model.t)
  : Model.t :=
  match Js.findIndex (idIs (Message.toNodeId message)) (Model.nodes s) with
  | None => s
  | Some i =>
      let s := updNode i (Node.set_lastMessageReceivedAt (Some now)) s in
      match nodeAt i s with
      | None => s
      | Some node =>
          if isTriageWithId (Message.type message) (Message.triageId message) then
            let tid := unwrap (Message.triageId message) in
            if isFloodingStyle (mode (Node.routingState node)) then
              if Js.has tid (Node.triageStore node) then s
              else acceptTriage now i message node (storeTriage i tid s)
            else
              acceptTriage now i message node
                (if negb (Js.has tid (Node.triageStore node)) then storeTriage i tid s
                 else s)
          else forwardFrom now i message s
      end
  end.

(** *** Advance ([updateMessages]) *)

(** The callback of [this.messages.forEach] for the message at index [k].
    The boolean tells whether [onMessageArrival] was called. *)
Definition advanceMessage (now : Z) (deltaTime : float) (k : nat) (s : Model.t)
  : Model.t * bool :=
  match nth_error (Model.messages s) k with
  | None => (s, false)
  | Some message =>
      let oldProgress := Message.progress message in
      let message' :=
        Message.set_progress
          (PrimFloat.add oldProgress (PrimFloat.mul (Message.speed message) deltaTime))
          message in
      let s := Model.set_messages (Js.update k (fun _ => message') (Model.messages s)) s in
      if PrimFloat.ltb oldProgress 1 && PrimFloat.leb 1 (Message.progress message')
      then (onMessageArrival now message' s, true)
      else (s, false)
  end.

(** [Array.prototype.forEach] reads the length once, before the first
    callback: the loop visits the indices below the initial length, in order,
    whatever the callbacks push.  The second component lists the indices whose
    callback called [onMessageArrival], in call order. *)
Definition advanceAll (now : Z) (deltaTime : float) (s : Model.t)
  : Model.t * list nat :=
  fold_left
    (fun (st : Model.t * list nat) k =>
       let '(s', arrived) := advanceMessage now deltaTime k (fst st) in
       (s', if arrived then snd st ++ [k] else snd st))
    (seq 0 (length (Model.messages s))) (s, []).

Definition inFlight (m : Message.t) : bool := PrimFloat.ltb (Message.progress m) 1.

Definition updateMessages (now : Z) (deltaTime : float) (s : Model.t) : Model.t :=
  let s' := fst (advanceAll now deltaTime s) in
  Model.set_messages (filter inFlight (Model.messages s')) s'.

(** ** Link recomputer and boundary replay ([updateConnections]) *)

(** [Math.max] on two numbers.  (It returns [+0] for [Math.max(-0, +0)] where
    this returns the first argument; the two compare equal.) *)
Definition Math_max (a b : float) : float :=
  if PrimFloat.is_nan a || PrimFloat.is_nan b then PrimFloat.nan
  else if PrimFloat.ltb a b then b else a.

(** [distance <= maxRadius] for the pair [(nodeA, nodeB)]. *)
Definition withinRange (nodeA nodeB : Node.t) : bool :=
  let dx := PrimFloat.sub (Node.position_x nodeB) (Node.position_x nodeA) in
  let dy := PrimFloat.sub (Node.position_y nodeB) (Node.position_y nodeA) in
  let distance :=
    PrimFloat.sqrt (PrimFloat.add (PrimFloat.mul dx dx) (PrimFloat.mul dy dy)) in
  let maxRadius :=
    Math_max (Node.connectionRadius nodeA) (Node.connectionRadius nodeB) in
  PrimFloat.leb distance maxRadius.

Definition addConnection (peerId : string) (n : Node.t) : Node.t :=
  Node.set_connections (Js.add peerId (Node.connections n)) n.

(** The body of the double loop for the pair of indices [i < j]. *)
Definition linkPair (i j : nat) (ns : list Node.t) : list Node.t :=
  match nth_error ns i, nth_error ns j with
  | Some nodeA, Some nodeB =>
      if withinRange nodeA nodeB then
        Js.update j (addConnection (Node.id nodeA))
          (Js.update i (addConnection (Node.id nodeB)) ns)
      else ns
  | _, _ => ns
  end.

(** Clear every connection set, then run the double loop. *)
Definition rebuildLinks (ns : list Node.t) : list Node.t :=
  let n := length ns in
  fold_left
    (fun ns i => fold_left (fun ns j => linkPair i j ns) (seq (S i) (n - S i)) ns)
    (seq 0 n)
    (map (Node.set_connections []) ns).

(** [previousNeighbors]: node id to a copy of its connection set. *)
Definition previousNeighbors (ns : list Node.t) : JsMap JsSet :=
  fold_left (fun m n => Js.set (Node.id n) (Node.connections n) m) ns [].

(** The queue flush of the node at index [i]. *)
Definition flushQueue (now : Z) (i : nat) (s : Model.t) : Model.t :=
  match nodeAt i s with
  | None => s
  | Some node =>
      if (0 <? length (Node.connections node)) && (0 <? length (Node.triageQueue node))
      then
        let queuedTriages := Node.triageQueue node in
        let s := updNode i (Node.set_triageQueue []) s in
        fold_left
          (fun s queuedTriage =>
             sendQueuedTriage now i (q_triageId queuedTriage) (q_severity queuedTriage) s)
          queuedTriages s
      else s
  end.

(** The message both replay branches build, always with severity ['red']. *)
Definition replayMessage (now : Z) (fromId toId triageId msgId : string) : Message.t :=
  let severity := red in
  {| Message.id := msgId;
     Message.fromNodeId := fromId;
     Message.toNodeId := toId;
     Message.progress := 0%float;
     Message.speed := defaultSpeed;
     Message.color := triageSeverityColors severity;
     Message.createdAt := now;
     Message.type := triage;
     Message.triageId := Some triageId;
     Message.triageSeverity := Some severity |}.

Definition pushReplay (now : Z) (fromId toId triageId : string) (s : Model.t)
  : Model.t :=
  let '(msgId, s) := freshUuid s in
  pushMessage (replayMessage now fromId toId triageId msgId) s.

Definition notifyIfMessages (s : Model.t) : Model.t :=
  if 0 <? length (Model.messages s) then notifyListeners s else s.

(** New link to a sink: push every triage the sink has not seen. *)
Definition replayToSink (now : Z) (node peer : Node.t) (s : Model.t) : Model.t :=
  notifyIfMessages
    (fold_left
       (fun s triageId =>
          if negb (Js.has triageId (Node.triageStore peer)) then
            pushReplay now (Node.id node) (Node.id peer) triageId s
          else s)
       (Node.triageStore node) s).

(** [reachableSinksFromPeer.some(sinkId => !perTriage || !perTriage.has(sinkId))] *)
Definition hasNewSinkTarget (reachable : list string) (perTriage : option JsSet)
  : bool :=
  existsb
    (fun sinkId =>
       match perTriage with
       | None => true
       | Some per => negb (Js.has sinkId per)
       end)
    reachable.

(** New link to any other peer: seed the triages that still have a sink to
    reach through it. *)
Definition replayToPeer (now : Z) (i : nat) (node peer : Node.t) (s : Model.t)
  : Model.t :=
  let reachableSinksFromPeer := Js.keys (Node.routingTable peer) in
  if (0 <? length reachableSinksFromPeer) && (0 <? length (Node.triageStore node))
  then
    notifyIfMessages
      (fold_left
         (fun s triageId =>
            match nodeAt i s with
            | None => s
            | Some cur =>
                let perTriage := Js.get triageId (Node.sentTriagesToSinks cur) in
                if negb (hasNewSinkTarget reachableSinksFromPeer perTriage) then s
                else
                  let s :=
                    if negb (Js.has triageId (Node.triageStore peer)) then
                      pushReplay now (Node.id node) (Node.id peer) triageId s
                    else s in
                  updNode i
                    (fun n => Node.set_sentTriagesToSinks
                                (markSent triageId reachableSinksFromPeer
                                   (Node.sentTriagesToSinks n)) n)
                    s
            end)
         (Node.triageStore node) s)
  else s.

(** The callback of [node.connections.forEach] for one [peerId]. *)
Definition replayNewLink (now : Z) (prev : JsSet) (i : nat) (s : Model.t)
    (peerId : string) : Model.t :=
  if negb (Js.has peerId prev) then
    match nodeAt i s, find (idIs peerId) (Model.nodes s) with
    | Some node, Some peer =>
        if NodeType_eqb (Node.type peer) sink && (0 <? length (Node.triageStore node))
        then replayToSink now node peer s
        else replayToPeer now i node peer s
    | _, _ => s
    end
  else s.

(** The third loop of [updateConnections], for the node at index [i]. *)
Definition syncNode (now : Z) (prevNeighbors : JsMap JsSet) (s : Model.t) (i : nat)
  : Model.t :=
  let s := flushQueue now i s in
  match nodeAt i s with
  | None => s
  | Some node =>
      let prev :=
        match Js.get (Node.id node) prevNeighbors with Some p => p | None => [] end in
      fold_left (replayNewLink now prev i) (Node.connections node) s
  end.

Definition updateConnections (now : Z) (s : Model.t) : Model.t :=
  let prevNeighbors := previousNeighbors (Model.nodes s) in
  let s := Model.set_nodes (rebuildLinks (Model.nodes s)) s in
  fold_left (syncNode now prevNeighbors) (seq 0 (length (Model.nodes s))) s.

(** ** New-sink replay ([syncNewSinkFromExistingSinks]) *)

(** The callback of [sink.triageStore.forEach] for the existing sink at index
    [j], whose route to the new sink is [routeEntry]. *)
Definition syncTriage (now : Z) (newSink : Node.t) (j : nat) (sinkIdJ : string)
    (routeEntry : RoutingTableEntry) (s : Model.t) (triageId : string) : Model.t :=
  if Js.has triageId (Node.triageStore newSink) then s
  else
    match nodeAt j s with
    | None => s
    | Some cur =>
        let alreadySent :=
          match Js.get triageId (Node.sentTriagesToSinks cur) with
          | Some perTriage => Js.has (Node.id newSink) perTriage
          | None => false
          end in
        if alreadySent then s
        else
          let s :=
            fold_left
              (fun s (hop : string * nat) => pushReplay now sinkIdJ (fst hop) triageId s)
              (nextHops routeEntry) s in
          updNode j
            (fun n => Node.set_sentTriagesToSinks
                        (markSent triageId [Node.id newSink] (Node.sentTriagesToSinks n)) n)
            s
    end.

(** The callback of [existingSinks.forEach]. *)
Definition syncFromSink (now : Z) (newSink : Node.t) (s : Model.t) (j : nat)
  : Model.t :=
  match nodeAt j s with
  | None => s
  | Some sinkJ =>
      match Js.get (Node.id newSink) (Node.routingTable sinkJ) with
      | None => s
      | Some routeEntry =>
          if length (nextHops routeEntry) =? 0 then s
          else
            fold_left (syncTriage now newSink j (Node.id sinkJ) routeEntry)
              (Node.triageStore sinkJ) s
      end
  end.

(** Indices of the nodes that satisfy [p], in array order ([filter] on an
    array of references). *)
Definition indicesWhere (p : Node.t -> bool) (ns : list Node.t) : list nat :=
  filter (fun i => match nth_error ns i with Some n => p n | None => false end)
    (seq 0 (length ns)).

Definition syncNewSinkFromExistingSinks (now : Z) (k : nat) (s : Model.t) : Model.t :=
  match nodeAt k s with
  | None => s
  | Some newSink =>
      if negb (NodeType_eqb (Node.type newSink) sink) then s
      else
        let existingSinks :=
          indicesWhere
            (fun n => NodeType_eqb (Node.type n) sink
                      && negb (String.eqb (Node.id n) (Node.id newSink)))
            (Model.nodes s) in
        if length existingSinks =? 0 then s
        else notifyListeners (fold_left (syncFromSink now newSink) existingSinks s)
  end.

(** ** Routing-table builder ([updateRoutingTables]) *)

Definition isSink (n : Node.t) : bool := NodeType_eqb (Node.type n) sink.

(** Move the entry for [sinkId] from the routing table to the inactive
    tables.  (The source reads the entry with [get(sinkId)!]; where there is
    none this leaves the node alone.) *)
Definition demote (now : Z) (sinkId : string) (node : Node.t) : Node.t :=
  match Js.get sinkId (Node.routingTable node) with
  | Some entry =>
      Node.set_routingTable (Js.mdelete sinkId (Node.routingTable node))
        (Node.set_inactiveRoutingTables
           (Js.set sinkId
              {| sinkId := sinkId; lastActiveEntry := entry; inactiveSince := now |}
              (Node.inactiveRoutingTables node))
           node)
  | None => node
  end.

(** First pass: entries whose sink is no longer a sink of the world. *)
Definition retireVanishedSinks (now : Z) (sinkIds : JsSet) (node : Node.t) : Node.t :=
  let keysToTransition :=
    filter (fun k => negb (Js.has k sinkIds)) (Js.keys (Node.routingTable node)) in
  fold_left (fun n k => demote now k n) keysToTransition node.

(** Second pass: inactive entries older than the timeout. *)
Definition dropExpiredInactive (now timeout : Z) (node : Node.t) : Node.t :=
  let keysToDelete :=
    Js.keys
      (filter
         (fun kv : string * InactiveRoutingTableEntry =>
            let inactiveDuration := (now - inactiveSince (snd kv))%Z in
            (timeout <? inactiveDuration)%Z)
         (Node.inactiveRoutingTables node)) in
  Node.set_inactiveRoutingTables
    (fold_left (fun m k => Js.mdelete k m) keysToDelete (Node.inactiveRoutingTables node))
    node.

(** *** Breadth-first search from a sink *)

(** [currentNode.connections.forEach]: every neighbour without a distance
    gets [currentDistance + 1] and joins the queue.  ([parents] is written by
    the source and never read; it is left out.) *)
Definition visitNeighbors (currentDistance : nat) (conns : JsSet)
    (st : JsMap nat * list string) : JsMap nat * list string :=
  fold_left
    (fun (st : JsMap nat * list string) neighborId =>
       if Js.mhas neighborId (fst st) then st
       else (Js.set neighborId (S currentDistance) (fst st), snd st ++ [neighborId]))
    conns st.

(** The [while (queue.length > 0)] loop; the result is the pair of
    [distances] and what is left of the queue when the fuel runs out. *)
Fixpoint bfsLoop (fuel : nat) (ns : list Node.t) (distances : JsMap nat)
    (queue : list string) : JsMap nat * list string :=
  match fuel with
  | 0 => (distances, queue)
  | S fuel' =>
      match queue with
      | [] => (distances, [])
      | currentId :: rest =>
          match find (idIs currentId) ns with
          | None => bfsLoop fuel' ns distances rest
          | Some currentNode =>
              let currentDistance :=
                match Js.get currentId distances with Some d => d | None => 0 end in
              let '(distances', queue') :=
                visitNeighbors currentDistance (Node.connections currentNode)
                  (distances, rest) in
              bfsLoop fuel' ns distances' queue'
          end
      end
  end.

(** Every identifier enters the queue at most once, so the loop body runs at
    most once for the start and once per identifier found in a connection
    set; one more turn sees the empty queue. *)
Definition bfsFuel (ns : list Node.t) : nat :=
  2 + length (concat (map Node.connections ns)).

Definition bfs (ns : list Node.t) (sinkId : string) : JsMap nat :=
  fst (bfsLoop (bfsFuel ns) ns [(sinkId, 0)] [sinkId]).

(** *** Writing the routes of one sink *)

(** [nextHops]: the neighbours strictly closer to the sink, with the hop
    count through each. *)
Definition computeNextHops (distances : JsMap nat) (hopCount : nat) (conns : JsSet)
  : JsMap nat :=
  fold_left
    (fun nh neighborId =>
       match Js.get neighborId distances with
       | Some neighborDistance =>
           if neighborDistance <? hopCount then Js.set neighborId (S neighborDistance) nh
           else nh
       | None => nh
       end)
    conns [].

(** The callback of the inner [this.nodes.forEach], for sink [sinkId0]. *)
Definition routeNode (now : Z) (sinkId0 : string) (distances : JsMap nat)
    (node : Node.t) : Node.t :=
  if String.eqb (Node.id node) sinkId0 then node
  else
    match Js.get (Node.id node) distances with
    | None => demote now sinkId0 node
    | Some hopCount =>
        let nextHops' := computeNextHops distances hopCount (Node.connections node) in
        if 0 <? length nextHops' then
          let node :=
            Node.set_routingTable
              (Js.set sinkId0 {| nextHops := nextHops'; lastUpdate := now |}
                 (Node.routingTable node))
              node in
          if Js.mhas sinkId0 (Node.inactiveRoutingTables node) then
            Node.set_inactiveRoutingTables
              (Js.mdelete sinkId0 (Node.inactiveRoutingTables node)) node
          else node
        else
          let node :=
            match Js.get sinkId0 (Node.routingTable node) with
            | Some existingEntry =>
                Node.set_inactiveRoutingTables
                  (Js.set sinkId0
                     {| sinkId := sinkId0;
                        lastActiveEntry := existingEntry;
                        inactiveSince := now |}
                     (Node.inactiveRoutingTables node))
                  node
            | None => node
            end in
          Node.set_routingTable (Js.mdelete sinkId0 (Node.routingTable node)) node
    end.

(** The callback of [sinks.forEach]: search, then rewrite every node. *)
Definition routeSink (now : Z) (ns : list Node.t) (sinkId0 : string) : list Node.t :=
  map (routeNode now sinkId0 (bfs ns sinkId0)) ns.

(** The three table passes of [updateRoutingTables], on the node array. *)
Definition rebuildRoutes (now timeout : Z) (ns : list Node.t) : list Node.t :=
  let sinks := filter isSink ns in
  let sinkIds := fold_left (fun acc n => Js.add (Node.id n) acc) sinks [] in
  let ns := map (retireVanishedSinks now sinkIds) ns in
  let ns := map (dropExpiredInactive now timeout) ns in
  fold_left (routeSink now) (map Node.id sinks) ns.

(** [sinks.some(other => other.id !== id && other.routingTable.has(id))] *)
Definition someOtherSinkHasRoute (sinks : list nat) (potentialId : string)
    (s : Model.t) : bool :=
  existsb
    (fun j =>
       match nodeAt j s with
       | Some other =>
           negb (String.eqb (Node.id other) potentialId)
           && Js.mhas potentialId (Node.routingTable other)
       | None => false
       end)
    sinks.

Definition updateRoutingTables (now : Z) (s : Model.t) : Model.t :=
  let sinks := indicesWhere isSink (Model.nodes s) in
  let s :=
    Model.set_nodes
      (rebuildRoutes now (Model.inactiveRoutingTimeout s) (Model.nodes s)) s in
  let s := updateRoutingStates now s in
  fold_left
    (fun s k =>
       match nodeAt k s with
       | Some potentialNewSink =>
           if someOtherSinkHasRoute sinks (Node.id potentialNewSink) s
           then syncNewSinkFromExistingSinks now k s
           else s
       | None => s
       end)
    sinks s.

(** ** Public mutation API *)

Definition setInactiveRoutingTimeout (timeout : Z) (s : Model.t) : Model.t :=
  notifyListeners (Model.set_inactiveRoutingTimeout timeout s).

Definition setTriageGenerationInterval (interval : Z) (s : Model.t) : Model.t :=
  notifyListeners (Model.set_triageGenerationInterval interval s).

Definition startAutoGeneration (now : Z) (s : Model.t) : Model.t :=
  notifyListeners
    (Model.set_lastTriageGeneration now (Model.set_isAutoGenerating true s)).

Definition stopAutoGeneration (s : Model.t) : Model.t :=
  notifyListeners (Model.set_isAutoGenerating false s).

Definition reset (s : Model.t) : Model.t :=
  notifyListeners
    (Model.set_isAutoGenerating false (Model.set_messages [] (Model.set_nodes [] s))).

Definition clearNodes (s : Model.t) : Model.t :=
  notifyListeners (Model.set_nodes [] s).

Definition setConnectionRadius (now : Z) (radius : float) (s : Model.t) : Model.t :=
  let s := Model.set_connectionRadius radius s in
  let s :=
    Model.set_nodes (map (Node.set_connectionRadius radius) (Model.nodes s)) s in
  notifyListeners (updateConnections now s).

(** [createNode] of utils/nodeUtils.ts, the identifier being the UUID just
    drawn. *)
Definition createNode (now : Z) (nodeId : string) (x y : float) (type : NodeType)
    (connectionRadius : float) : Node.t :=
  {| Node.id := nodeId;
     Node.type := type;
     Node.position_x := x;
     Node.position_y := y;
     Node.velocity_x := 0%float;
     Node.velocity_y := 0%float;
     Node.radius := defaultRadius;
     Node.connectionRadius := connectionRadius;
     Node.color := match type with sink => sinkColor | source => sourceColor end;
     Node.selected := false;
     Node.connections := [];
     Node.lastMessageReceivedAt := None;
     Node.triageStore := [];
     Node.triageQueue := [];
     Node.sentTriagesToSinks := [];
     Node.routingTable := [];
     Node.inactiveRoutingTables := [];
     Node.routingState :=
       {| mode := no_connections;
          activeRoutes := 0;
          expiredRoutes := 0;
          inactiveRoutes := 0;
          floodingReason := Some reason_no_connections;
          lastStateChange := now |} |}.

Definition addNode (now : Z) (x y : float) (type : NodeType) (s : Model.t)
  : Model.t :=
  let '(nodeId, s) := freshUuid s in
  let node := createNode now nodeId x y type (Model.connectionRadius s) in
  let k := length (Model.nodes s) in
  let s := Model.set_nodes (Model.nodes s ++ [node]) s in
  let s := updateConnections now s in
  let s := updateRoutingTables now s in
  let s :=
    match type with
    | sink => syncNewSinkFromExistingSinks now k s
    | source => s
    end in
  let anyCurrentlySelected := existsb Node.selected (Model.nodes s) in
  let s :=
    if negb anyCurrentlySelected then
      updNode k (Node.set_selected true)
        (Model.set_nodes (map (Node.set_selected false) (Model.nodes s)) s)
    else s in
  notifyListeners s.

Definition removeNode (nodeId : string) (s : Model.t) : Model.t :=
  let ns :=
    map (fun n => Node.set_connections (Js.delete nodeId (Node.connections n)) n)
      (Model.nodes s) in
  let ns := filter (fun n => negb (String.eqb (Node.id n) nodeId)) ns in
  notifyListeners (Model.set_nodes ns s).

Definition toggleNodeType (now : Z) (nodeId : string) (s : Model.t) : Model.t :=
  match Js.findIndex (idIs nodeId) (Model.nodes s) with
  | Some i =>
      match nodeAt i s with
      | Some node =>
          let wasSink := NodeType_eqb (Node.type node) sink in
          let type' := match Node.type node with source => sink | sink => source end in
          let color' := match type' with sink => sinkColor | source => sourceColor end in
          let s := updNode i (fun n => Node.set_color color' (Node.set_type type' n)) s in
          let s :=
            if negb wasSink && NodeType_eqb type' sink then
              syncNewSinkFromExistingSinks now i (updateRoutingTables now s)
            else s in
          notifyListeners s
      | None => s
      end
  | None => s
  end.

Definition updateNodePosition (now : Z) (nodeId : string) (x y : float)
    (s : Model.t) : Model.t :=
  match Js.findIndex (idIs nodeId) (Model.nodes s) with
  | Some i =>
      let s :=
        updNode i (fun n => Node.set_position_y y (Node.set_position_x x n)) s in
      notifyListeners (updateConnections now s)
  | None => s
  end.

Definition updateNodeVelocity (nodeId : string) (vx vy : float) (s : Model.t)
  : Model.t :=
  match Js.findIndex (idIs nodeId) (Model.nodes s) with
  | Some i =>
      notifyListeners
        (updNode i (fun n => Node.set_velocity_y vy (Node.set_velocity_x vx n)) s)
  | None => s
  end.

(** *** Auto-generation and [tick] *)

(** [Math.random()] is an input: [pickNode] and [pickSeverity] stand for the
    two draws, reduced to an index below the length of the array they pick
    from, as [Math.floor(Math.random() * length)] is. *)
Definition updateAutoGeneration (now : Z) (pickNode pickSeverity : nat)
    (s : Model.t) : Model.t :=
  let timeSinceLastGeneration := (now - Model.lastTriageGeneration s)%Z in
  if (Model.triageGenerationInterval s <=? timeSinceLastGeneration)%Z then
    let sourceNodes :=
      filter
        (fun n => NodeType_eqb (Node.type n) source
                  && (0 <? length (Node.connections n)))
        (Model.nodes s) in
    let s :=
      match nth_error sourceNodes (pickNode mod length sourceNodes) with
      | Some randomNode =>
          let severity := nth (pickSeverity mod 4) [black; green; yellow; red] red in
          sendMessage now (Node.id randomNode) triage (Some severity) s
      | None => s
      end in
    Model.set_lastTriageGeneration now s
  else s.

Definition moveNode (deltaTime : float) (n : Node.t) : Node.t :=
  Node.set_position_y
    (PrimFloat.add (Node.position_y n) (PrimFloat.mul (Node.velocity_y n) deltaTime))
    (Node.set_position_x
       (PrimFloat.add (Node.position_x n) (PrimFloat.mul (Node.velocity_x n) deltaTime))
       n).

Definition tick (now : Z) (pickNode pickSeverity : nat) (deltaTime : float)
    (s : Model.t) : Model.t :=
  let s := Model.set_nodes (map (moveNode deltaTime) (Model.nodes s)) s in
  let s := updateConnections now s in
  let s := updateRoutingTables now s in
  let s :=
    if Model.isAutoGenerating s then updateAutoGeneration now pickNode pickSeverity s
    else s in
  let s := updateMessages now deltaTime s in
  notifyListeners s.

End WithUuid.

(** ** Sidebar handler for the inactive-route timeout

    [handleInactiveTimeoutChange] of components/Sidebar.tsx, on a slider
    value in whole seconds (the slider has [step = 1]): clamp to one second
    ... five minutes, convert to milliseconds, hand over to the model's
    setter. *)
Definition handleInactiveTimeoutChange (valueSeconds : Z) (s : Model.t) : Model.t :=
  let clamped := Z.max 1 (Z.min (5 * 60) valueSeconds) in
  let valueMs := (clamped * 1000)%Z in
  setInactiveRoutingTimeout valueMs s.


(** ** Queries ([getNode], [getConnections], [getStats]) *)

Definition getNode (nodeId : string) (s : Model.t) : option Node.t :=
  find (idIs nodeId) (Model.nodes s).

(** [[a, b].sort().join('-')]: the default [sort] orders strings by code
    unit, so the smaller identifier comes first. *)
Definition pairKey (a b : string) : string :=
  if String.ltb b a then (b ++ "-" ++ a)%string else (a ++ "-" ++ b)%string.

(** The callback of [node.connections.forEach] in [getConnections], on the
    pair of [connections] and [seen]. *)
Definition visitConnection (nodeId : string) (st : list (string * string) * JsSet)
    (connectedId : string) : list (string * string) * JsSet :=
  let key := pairKey nodeId connectedId in
  if negb (Js.has key (snd st)) then
    (fst st ++ [(nodeId, connectedId)], Js.add key (snd st))
  else st.

Definition getConnections (s : Model.t) : list (string * string) :=
  fst (fold_left
         (fun st node =>
            fold_left (visitConnection (Node.id node)) (Node.connections node) st)
         (Model.nodes s) ([], [])).

(** The object [getStats] returns, without [totalVelocity] (a sum of
    [Math.sqrt(vx ** 2 + vy ** 2)], whose [**] ECMAScript leaves
    implementation-approximated). *)
Module Stats.

Record t : Type := mk {
  nodeCount : nat;
  connectionCount : nat;
  sinkCount : nat;
  sourceCount : nat;
  intelligentCount : nat;
  floodingCount : nat;
  inactiveCount : nat;
  noConnectionsCount : nat;
  queuedTriages : nat;
  messagesInFlight : nat;
  triagesSeenAtSinks : nat
}.

End Stats.

Definition countMode (m : RoutingMode) (ns : list Node.t) : nat :=
  length (filter (fun n => RoutingMode_eqb (mode (Node.routingState n)) m) ns).

Definition getStats (s : Model.t) : Stats.t :=
  let connections := getConnections s in
  let sinks := filter (fun node => NodeType_eqb (Node.type node) sink) (Model.nodes s) in
  let sources :=
    filter (fun node => NodeType_eqb (Node.type node) source) (Model.nodes s) in
  let totalQueuedTriages :=
    fold_left (fun sum n => sum + length (Node.triageQueue n)) (Model.nodes s) 0 in
  let totalMessagesInFlight :=
    length (filter (fun m => PrimFloat.ltb (Message.progress m) 1) (Model.messages s)) in
  let totalTriagesSeenAtSinks :=
    fold_left
      (fun seen sinkNode =>
         fold_left (fun seen triageId => Js.add triageId seen)
           (Node.triageStore sinkNode) seen)
      sinks [] in
  {| Stats.nodeCount := length (Model.nodes s);
     Stats.connectionCount := length connections;
     Stats.sinkCount := length sinks;
     Stats.sourceCount := length sources;
     Stats.intelligentCount := countMode intelligent (Model.nodes s);
     Stats.floodingCount := countMode flooding (Model.nodes s);
     Stats.inactiveCount := countMode inactive (Model.nodes s);
     Stats.noConnectionsCount := countMode no_connections (Model.nodes s);
     Stats.queuedTriages := totalQueuedTriages;
     Stats.messagesInFlight := totalMessagesInFlight;
     Stats.triagesSeenAtSinks := length totalTriagesSeenAtSinks |}.

(** ** The mode table of the specification

    The six rows of the classifier table, in order, as data: a precondition
    on the facts about a node, the mode and the flooding reason.  The mode of
    a node is the one of the first row whose precondition holds. *)

Module ModeTable.









End ModeTable.

(** ** Greedy maximum coverage, as the specification words it *)

Module Greedy.

(** The marginal gain of [peer]: the sinks it covers that are not covered
    yet. *)
Definition gain (cov : JsMap JsSet) (covered : JsSet) (peer : string) : nat :=
  length (filter (fun s => negb (Js.has s covered)) (coverageOf cov peer)).

(** [covered] after it has absorbed the coverage of [peer]. *)
Definition absorb (cov : JsMap JsSet) (covered : JsSet) (peer : string) : JsSet :=
  fold_left (fun c s => Js.add s c) (coverageOf cov peer) covered.

(** The current load of the link to [peer]: the in-flight messages from
    [nodeId] to it. *)
Definition load (msgs : list Message.t) (nodeId peer : string) : nat :=
  length
    (filter
       (fun m =>
          String.eqb (Message.fromNodeId m) nodeId
          && String.eqb (Message.toNodeId m) peer
          && PrimFloat.ltb (Message.progress m) 1)
       msgs).

(** [best] is a greedy choice among [remaining]: no peer has a higher gain,
    and none of the same gain has a lower load. *)
Definition bestChoice (load : string -> nat) (cov : JsMap JsSet)
    (covered remaining : JsSet) (best : string) : Prop :=
  In best remaining
  /\ forall q, In q remaining ->
       gain cov covered q <= gain cov covered best
       /\ (gain cov covered q = gain cov covered best -> load best <= load q).

(** [picks] are [n] successive greedy choices, each absorbed and removed
    before the next is made. *)
Inductive Picks (load : string -> nat) (cov : JsMap JsSet)
  : JsSet -> JsSet -> nat -> list string -> Prop :=
  | picks_none covered remaining : Picks load cov covered remaining 0 []
  | picks_next covered remaining n best picks :
      bestChoice load cov covered remaining best ->
      Picks load cov (absorb cov covered best) (Js.delete best remaining) n picks ->
      Picks load cov covered remaining (S n) (best :: picks).

End Greedy.

(** * Vocabulary of the statements *)

(** ** Views of a state

    The projections of a state that the statements below compare: what a
    call leaves alone is said as an equality of views. *)

(** The identifiers and link sets of a world, node by node. *)
Definition linksOf (s : Model.t) : list (string * JsSet) :=
  map (fun n => (Node.id n, Node.connections n)) (Model.nodes s).

(** [s'] is [s] with the messages [new] pushed. *)
Definition emits (s s' : Model.t) (new : list Message.t) : Prop :=
  Model.messages s' = Model.messages s ++ new.

(** The view of a state under a projection [g] of its nodes. *)
Definition viewOf {B : Type} (g : Node.t -> B) (s : Model.t) : list B :=
  map g (Model.nodes s).

(** What link recomputation writes per node: identifier and links. *)
Definition linkView (n : Node.t) : string * JsSet := (Node.id n, Node.connections n).

(** What new-sink replay reads of a node: identifier, links, routes. *)
Definition routeView (n : Node.t) : string * JsSet * JsMap RoutingTableEntry :=
  (Node.id n, Node.connections n, Node.routingTable n).

(** What the routing pass writes per node: identifier, links, both tables. *)
Definition tablesView (n : Node.t)
  : string * JsSet * JsMap RoutingTableEntry * JsMap InactiveRoutingTableEntry :=
  (Node.id n, Node.connections n, Node.routingTable n, Node.inactiveRoutingTables n).

(** Nodes other than the [j]-th are what they were. *)
Definition othersUntouched (j : nat) (s s' : Model.t) : Prop :=
  forall i, i <> j -> nodeAt i s' = nodeAt i s.

(** [b] is [a] with other links. *)
Definition sameButLinks (a b : Node.t) : Prop :=
  Node.set_connections (Node.connections b) a = b.

(** ** Messages by origin

    The shapes of the messages each path of the pipeline builds. *)

(** The effective severity of a send: ['red'] for a triage sent without one,
    none for a normal message. *)
Definition sendSeverity (messageType : MessageType)
    (triageSeverity : option TriageSeverity) : option TriageSeverity :=
  match messageType with
  | triage => Some (match triageSeverity with Some sev => sev | None => red end)
  | normal => None
  end.

(** The message at index [k] once its callback has run. *)
Definition advanced (deltaTime : float) (m : Message.t) : Message.t :=
  Message.set_progress
    (PrimFloat.add (Message.progress m) (PrimFloat.mul (Message.speed m) deltaTime)) m.

(** The arrival test of the callback. *)
Definition crosses (deltaTime : float) (m : Message.t) : bool :=
  PrimFloat.ltb (Message.progress m) 1
  && PrimFloat.leb 1 (Message.progress (advanced deltaTime m)).

(** The same test on the [k]-th message of [old]. *)
Definition crossesAt (deltaTime : float) (old : list Message.t) (k : nat) : bool :=
  match nth_error old k with
  | Some m => crosses deltaTime m
  | None => false
  end.

(** The state of the [forEach] loop after [k] callbacks. *)
Definition advancedUpTo (deltaTime : float) (old : list Message.t) (k : nat)
    (st : Model.t * list nat) : Prop :=
  exists new,
    Model.messages (fst st)
    = map (advanced deltaTime) (firstn k old) ++ skipn k old ++ new
    /\ Forall (fun m => Message.progress m = 0%float) new
    /\ snd st = filter (crossesAt deltaTime old) (seq 0 k).

(** The messages a replay from [fromId] to [toId] builds. *)
Definition replayed (fromId toId : string) (m : Message.t) : Prop :=
  exists now triageId msgId, m = replayMessage now fromId toId triageId msgId.

(** A message of the new-sink replay: from an existing sink to a next hop of
    its route to the new sink, with severity ['red']. *)
Definition replayedAlongRoute (s : Model.t) (newSinkId : string) (m : Message.t)
  : Prop :=
  exists sinkJ routeEntry,
    In sinkJ (Model.nodes s)
    /\ Node.id sinkJ <> newSinkId
    /\ Js.get newSinkId (Node.routingTable sinkJ) = Some routeEntry
    /\ In (Message.toNodeId m) (Js.keys (nextHops routeEntry))
    /\ replayed (Node.id sinkJ) (Message.toNodeId m) m.

(** A flushed message: from [node] to one of its neighbours, with the triage
    id and the severity of an entry of its queue. *)
Definition flushed (node : Node.t) (m : Message.t) : Prop :=
  exists q,
    In q (Node.triageQueue node)
    /\ Message.fromNodeId m = Node.id node
    /\ In (Message.toNodeId m) (Node.connections node)
    /\ Message.type m = triage
    /\ Message.triageId m = Some (q_triageId q)
    /\ Message.triageSeverity m = Some (q_severity q)
    /\ Message.progress m = 0%float.

(** A message of the new-link replay from [node]: to one of its neighbours,
    with severity ['red']. *)
Definition replayedToNeighbour (node : Node.t) (m : Message.t) : Prop :=
  exists peerId, In peerId (Node.connections node) /\ replayed (Node.id node) peerId m.

(** ** Scores of the greedy selector *)

(** [(g, l)] is at least as good a score as [(g', l')]. *)
Definition atLeastAsGood (g l g' l' : nat) : Prop := g' < g \/ (g' = g /\ l <= l').

(** ** The neighbour graph

    Well-formedness of the link sets, and what it means for routing tables
    to follow them. *)

(** The identifier [x] names no node and no link of [ns]. *)
Definition unknownId (x : string) (ns : list Node.t) : Prop :=
  forall n, In n ns -> Node.id n <> x /\ ~ In x (Node.connections n).

(** Every link set names nodes of the world. *)
Definition linksClosed (ns : list Node.t) : Prop :=
  forall x a q, nth_error ns x = Some a -> In q (Node.connections a) ->
    In q (map Node.id ns).

(** Links go both ways. *)
Definition linksSymmetric (ns : list Node.t) : Prop :=
  forall x y a b, nth_error ns x = Some a -> nth_error ns y = Some b ->
    In (Node.id b) (Node.connections a) -> In (Node.id a) (Node.connections b).

(** Identifiers are unique and the links form an undirected graph on them. *)
Definition wellLinked (ns : list Node.t) : Prop :=
  NoDup (map Node.id ns) /\ linksClosed ns /\ linksSymmetric ns.

(** [a] and [b] are neighbours: each is in the other's connection set. *)
Definition neighbours (s : Model.t) (a b : string) : Prop :=
  exists nodeA nodeB,
    In nodeA (Model.nodes s) /\ In nodeB (Model.nodes s)
    /\ Node.id nodeA = a /\ Node.id nodeB = b
    /\ In b (Node.connections nodeA) /\ In a (Node.connections nodeB).

(** The message [m] goes from a node to one of its neighbours. *)
Definition betweenNeighbours (s : Model.t) (m : Message.t) : Prop :=
  neighbours s (Message.fromNodeId m) (Message.toNodeId m).


(** The next hops a node lists are among its links. *)
Definition followsLinks (node : Node.t) : Prop :=
  forall sinkId0 e p,
    In (sinkId0, e) (Node.routingTable node) ->
    In p (Js.keys (nextHops e)) ->
    In p (Node.connections node).

(** Every node of [ns] does. *)
Definition routesFollowLinks (ns : list Node.t) : Prop :=
  forall node, In node ns -> followsLinks node.

(** Routing tables are maps (no key twice) without an entry for the node
    itself. *)
Definition tablesOk (ns : list Node.t) : Prop :=
  forall node, In node ns ->
    NoDup (Js.keys (Node.routingTable node))
    /\ Js.get (Node.id node) (Node.routingTable node) = None.

(** The entries of [node] are for other nodes, and each either waits for its
    sink to be routed or lists links only. *)
Definition routedExcept (pending : list string) (node : Node.t) : Prop :=
  NoDup (Js.keys (Node.routingTable node))
  /\ forall k e,
       Js.get k (Node.routingTable node) = Some e ->
       k <> Node.id node
       /\ (In k pending
           \/ forall p, In p (Js.keys (nextHops e)) -> In p (Node.connections node)).

(** ** Breadth-first search

    The loop invariant of the search, its termination measure, and the
    intermediate states of a routing pass. *)

(** The queue is in order of distance. *)
Definition nearerIn (dist : JsMap nat) (a b : string) : Prop :=
  forall va vb, Js.get a dist = Some va -> Js.get b dist = Some vb -> va <= vb.

(** The node [x], once taken from the queue at distance [v], has given a
    distance of at most [v + 1] to each of its neighbours. *)
Definition expanded (ns : list Node.t) (dist : JsMap nat) (x : string) (v : nat)
  : Prop :=
  forall node, find (idIs x) ns = Some node ->
    forall y, In y (Node.connections node) ->
      exists j, Js.get y dist = Some j /\ j <= S v.

(** The invariant of the search loop from [sinkId0] over the nodes [ns]. *)
Record bfsInv (ns : list Node.t) (sinkId0 : string) (dist : JsMap nat)
    (queue : list string) : Prop := {
  inv_queued : forall q, In q queue -> exists v, Js.get q dist = Some v;
  inv_sorted : StronglySorted (nearerIn dist) queue;
  inv_bound : forall h rest vh, queue = h :: rest -> Js.get h dist = Some vh ->
                forall x v, Js.get x dist = Some v -> v <= S vh;
  inv_expanded : forall x v, Js.get x dist = Some v -> In x queue \/ expanded ns dist x v;
  inv_parent : forall x v, Js.get x dist = Some (S v) ->
                 exists c node,
                   find (idIs c) ns = Some node
                   /\ Js.get c dist = Some v
                   /\ In x (Node.connections node);
  inv_root : Js.get sinkId0 dist = Some 0
             /\ forall x, Js.get x dist = Some 0 -> x = sinkId0
}.

(** The number of identifiers of [ids] without a distance yet. *)
Definition undefinedIn (dist : JsMap nat) (ids : list string) : nat :=
  length (filter (fun u => negb (Js.mhas u dist)) ids).

(** Every link of every node, with repetitions. *)
Definition allLinks (ns : list Node.t) : list string :=
  concat (map Node.connections ns).

(** A walk of [k] links from [a] to [b], each link read off the connection
    set of the node found under the identifier it leaves. *)
Inductive walk (ns : list Node.t) (a : string) : string -> nat -> Prop :=
| walk_here : walk ns a a 0
| walk_step (b c : string) (k : nat) (node : Node.t) :
    walk ns a b k ->
    find (idIs b) ns = Some node ->
    In c (Node.connections node) ->
    walk ns a c (S k).

(** [d] is the length of a shortest walk from [a] to [b]. *)
Definition hopDistance (ns : list Node.t) (a b : string) (d : nat) : Prop :=
  walk ns a b d /\ forall k, walk ns a b k -> d <= k.

(** [p] qualifies as next hop towards a sink at distance [hopCount], with
    total hop count [h]. *)
Definition nearer (distances : JsMap nat) (hopCount : nat) (p : string) (h : nat)
  : Prop :=
  exists dp, Js.get p distances = Some dp /\ dp < hopCount /\ h = S dp.

(** The node array between the two first passes and the per-sink loop. *)
Definition beforeSearch (now timeout : Z) (ns : list Node.t) : list Node.t :=
  map (dropExpiredInactive now timeout)
    (map (retireVanishedSinks now
            (fold_left (fun acc n => Js.add (Node.id n) acc) (filter isSink ns) []))
       ns).

(** The state between the table passes and the new-sink replays. *)
Definition afterTables (now : Z) (s : Model.t) : Model.t :=
  updateRoutingStates now
    (Model.set_nodes
       (rebuildRoutes now (Model.inactiveRoutingTimeout s) (Model.nodes s)) s).

(** ** Example worlds

    Concrete nodes, messages and worlds on which the statements are run. *)

(** A world without nodes. *)
Definition emptyModel : Model.t :=
  {| Model.nodes := [];
     Model.messages := [];
     Model.connectionRadius := 2%float;
     Model.inactiveRoutingTimeout := 1000;
     Model.isAutoGenerating := false;
     Model.triageGenerationInterval := 3000;
     Model.lastTriageGeneration := 0;
     Model.uuidCount := 0;
     Model.notifications := 0 |}.

(** A source with one neighbour and a single route last updated exactly five
    minutes before [now]. *)
Definition nodeAtTimeout : Node.t :=
  {| Node.id := "N";
     Node.type := source;
     Node.position_x := 0%float;
     Node.position_y := 0%float;
     Node.velocity_x := 0%float;
     Node.velocity_y := 0%float;
     Node.radius := defaultRadius;
     Node.connectionRadius := defaultConnectionRadius;
     Node.color := sourceColor;
     Node.selected := false;
     Node.connections := ["P"%string];
     Node.lastMessageReceivedAt := None;
     Node.triageStore := [];
     Node.triageQueue := [];
     Node.sentTriagesToSinks := [];
     Node.routingTable :=
       [("S"%string, {| nextHops := [("P"%string, 1)]; lastUpdate := 0 |})];
     Node.inactiveRoutingTables := [];
     Node.routingState :=
       {| mode := intelligent;
          activeRoutes := 1;
          expiredRoutes := 0;
          inactiveRoutes := 0;
          floodingReason := None;
          lastStateChange := 0 |} |}.

(** The world of that single node. *)
Definition oneNodeWorld : Model.t := Model.set_nodes [nodeAtTimeout] emptyModel.

(** An identifier factory that hands out ["a"], ["b"], ["c"], ... *)
Definition letterUuid (k : nat) : string :=
  String (Ascii.ascii_of_nat (97 + k)) EmptyString.

(** An isolated source. *)
Definition isolatedNode : Node.t :=
  createNode 0 "A" 0%float 0%float source defaultConnectionRadius.

(** The same node with one neighbour, in flooding mode, having seen triage
    ["t"]. *)
Definition floodingNode : Node.t :=
  Node.set_routingState
    {| mode := flooding;
       activeRoutes := 0;
       expiredRoutes := 0;
       inactiveRoutes := 0;
       floodingReason := Some no_routes;
       lastStateChange := 0 |}
    (Node.set_triageStore ["t"%string]
       (Node.set_connections ["B"%string] isolatedNode)).

(** A yellow copy of triage ["t"] about to arrive at ["A"]. *)
Definition triageInFlight : Message.t :=
  {| Message.id := "m";
     Message.fromNodeId := "B";
     Message.toNodeId := "A";
     Message.progress := 1%float;
     Message.speed := defaultSpeed;
     Message.color := triageSeverityColors yellow;
     Message.createdAt := 0;
     Message.type := triage;
     Message.triageId := Some "t"%string;
     Message.triageSeverity := Some yellow |}.

(** The diamond: a source ["a"] at the origin, sources ["b"] and ["c"] at
    [(1, 1)] and [(1, -1)], a sink ["d"] at [(2, 0)], with a connection
    radius of 1.6.  Both ["b"] and ["c"] are next hops of ["a"] to ["d"]. *)
Definition diamond : Model.t :=
  addNode letterUuid 0 2%float 0%float sink
    (addNode letterUuid 0 1%float (-1)%float source
       (addNode letterUuid 0 1%float 1%float source
          (addNode letterUuid 0 0%float 0%float source
             (Model.set_connectionRadius 0x1.999999999999ap+0%float emptyModel)))).

(** The source ["a"] and the sink ["d"] of the diamond. *)
Definition diamondSource : Node.t :=
  match nodeAt 0 diamond with Some n => n | None => isolatedNode end.

Definition diamondSink : Node.t :=
  match nodeAt 3 diamond with Some n => n | None => isolatedNode end.

(** The diamond once ["b"] has been dragged away: the links are recomputed,
    the routing tables are not, and ["a"] still lists ["b"] as next hop. *)
Definition diamondAfterDrag : Model.t :=
  updateNodePosition letterUuid 5 "b" 100%float 100%float diamond.

(** ** Views for the properties of the whole model *)

(** A node without its delivery bookkeeping: what is left is its identity,
    type, geometry, colour, selection, links, routing tables and routing
    state. *)
Definition routingView (n : Node.t) : Node.t :=
  Node.set_lastMessageReceivedAt None
    (Node.set_triageStore []
       (Node.set_triageQueue [] (Node.set_sentTriagesToSinks [] n))).

(** A node without the two fields the queue flush and the replays write. *)
Definition bodyView (n : Node.t) : Node.t :=
  Node.set_triageQueue [] (Node.set_sentTriagesToSinks [] n).

(** ** The double loop of the link recomputer *)

(** The pairs of indices the double loop visits, in the order it visits
    them: [i < j < n]. *)
Definition indexPairs (n : nat) : list (nat * nat) :=
  flat_map (fun i => map (pair i) (seq (S i) (n - S i))) (seq 0 n).

(** The node at index [x] gets the link [q] from one of the pairs [ps]: the
    pair is in range, [x] is one of its ends and [q] names the other. *)
Definition linkedThrough (ns : list Node.t) (ps : list (nat * nat)) (x : nat)
    (q : string) : Prop :=
  exists i j nodeA nodeB,
    In (i, j) ps
    /\ nth_error ns i = Some nodeA /\ nth_error ns j = Some nodeB
    /\ withinRange nodeA nodeB = true
    /\ ((x = i /\ q = Node.id nodeB) \/ (x = j /\ q = Node.id nodeA)).

(** ** More example worlds *)

(** The single-node world after a routing pass at time 7: its route to
    ["S"], which names no sink, has been retired. *)
Definition worldAfterRetire : Model.t := updateRoutingTables letterUuid 7 oneNodeWorld.

Definition retiredNode : Node.t :=
  match nodeAt 0 worldAfterRetire with Some n => n | None => nodeAtTimeout end.

(** The node ["b"] of the diamond after it has been dragged away. *)
Definition draggedNode : Node.t :=
  match nodeAt 1 diamondAfterDrag with Some n => n | None => isolatedNode end.

(** The sink ["d"] of that world. *)
Definition draggedSink : Node.t :=
  match nodeAt 3 diamondAfterDrag with Some n => n | None => isolatedNode end.

(** A flooding node with two neighbours, and a triage it has not seen on
    its way to it from the first of them. *)
Definition floodingRelay : Node.t :=
  Node.set_connections ["B"; "C"]%string floodingNode.




(** A node that queued the yellow triage ["t"] while it was alone and now
    has two neighbours. *)
Definition queuedNode : Node.t :=
  Node.set_triageQueue [{| q_triageId := "t"; q_severity := yellow; queuedAt := 5 |}]
    floodingRelay.

(** Four nodes whose identifiers hold the separator of the connection keys:
    ["a-b"] is linked to ["c"], and ["a"] to ["b-c"]. *)
Definition hyphenWorld : Model.t :=
  Model.set_nodes
    [Node.set_connections ["c"%string] (createNode 0 "a-b" 0%float 0%float source 2%float);
     Node.set_connections ["a-b"%string] (createNode 0 "c" 1%float 0%float source 2%float);
     Node.set_connections ["b-c"%string] (createNode 0 "a" 9%float 0%float source 2%float);
     Node.set_connections ["a"%string] (createNode 0 "b-c" 10%float 0%float source 2%float)]
    emptyModel.

(** ** Well-formed worlds *)

(** What [tablesOk] reads of a node. *)
Definition tableView (n : Node.t) : string * JsMap RoutingTableEntry :=
  (Node.id n, Node.routingTable n).

(** What the range test and the links read of a node: identifier, links,
    position and connection radius. *)
Definition placeView (n : Node.t) : string * JsSet * float * float * float :=
  (Node.id n, Node.connections n, Node.position_x n, Node.position_y n,
   Node.connectionRadius n).

(** Both, with the routing table. *)
Definition shapeView (n : Node.t)
  : string * JsSet * float * float * float * JsMap RoutingTableEntry :=
  (placeView n, Node.routingTable n).

(** A node without what the routing pass writes: its two tables, its routing
    state and its per-sink bookkeeping. *)
Definition staticView (n : Node.t) : Node.t :=
  Node.set_routingState
    {| mode := no_connections; activeRoutes := 0; expiredRoutes := 0;
       inactiveRoutes := 0; floodingReason := None; lastStateChange := 0 |}
    (Node.set_inactiveRoutingTables []
       (Node.set_routingTable [] (Node.set_sentTriagesToSinks [] n))).

(** The nodes [a] and [b], [a] being the earlier one in the node array, are
    linked, each to the other, exactly when they are within range. *)
Definition linkedAsInRange (a b : Node.t) : Prop :=
  (In (Node.id b) (Node.connections a) <-> withinRange a b = true)
  /\ (In (Node.id a) (Node.connections b) <-> withinRange a b = true).

(** The links are those of the positions the nodes have now, and no node is
    linked to itself. *)
Definition linksCurrent (ns : list Node.t) : Prop :=
  Forall (fun n => ~ In (Node.id n) (Node.connections n)) ns
  /\ ForallOrdPairs linkedAsInRange ns.

(** Unique identifiers, closed and symmetric links that agree with the
    positions, and routing tables that are maps without an entry for the
    node itself. *)
Definition wellFormed (s : Model.t) : Prop :=
  wellLinked (Model.nodes s) /\ tablesOk (Model.nodes s)
  /\ linksCurrent (Model.nodes s).

(** The worlds a run of the public interface reaches from a world without
    nodes, as long as every node added gets an identifier that is not in
    use. *)
Inductive reachable (uuidv4 : nat -> string) : Model.t -> Prop :=
| reach_start (s : Model.t) :
    Model.nodes s = [] -> reachable uuidv4 s
| reach_addNode (now : Z) (x y : float) (type : NodeType) (s : Model.t) :
    reachable uuidv4 s ->
    ~ In (uuidv4 (Model.uuidCount s)) (map Node.id (Model.nodes s)) ->
    reachable uuidv4 (addNode uuidv4 now x y type s)
| reach_removeNode (nodeId : string) (s : Model.t) :
    reachable uuidv4 s -> reachable uuidv4 (removeNode nodeId s)
| reach_toggleNodeType (now : Z) (nodeId : string) (s : Model.t) :
    reachable uuidv4 s -> reachable uuidv4 (toggleNodeType uuidv4 now nodeId s)
| reach_updateNodePosition (now : Z) (nodeId : string) (x y : float) (s : Model.t) :
    reachable uuidv4 s -> reachable uuidv4 (updateNodePosition uuidv4 now nodeId x y s)
| reach_updateNodeVelocity (nodeId : string) (vx vy : float) (s : Model.t) :
    reachable uuidv4 s -> reachable uuidv4 (updateNodeVelocity nodeId vx vy s)
| reach_setConnectionRadius (now : Z) (radius : float) (s : Model.t) :
    reachable uuidv4 s -> reachable uuidv4 (setConnectionRadius uuidv4 now radius s)
| reach_sendMessage (now : Z) (fromNodeId : string) (messageType : MessageType)
    (triageSeverity : option TriageSeverity) (s : Model.t) :
    reachable uuidv4 s ->
    reachable uuidv4 (sendMessage uuidv4 now fromNodeId messageType triageSeverity s)
| reach_tick (now : Z) (pickNode pickSeverity : nat) (deltaTime : float) (s : Model.t) :
    reachable uuidv4 s ->
    reachable uuidv4 (tick uuidv4 now pickNode pickSeverity deltaTime s)
| reach_clearNodes (s : Model.t) :
    reachable uuidv4 s -> reachable uuidv4 (clearNodes s)
| reach_reset (s : Model.t) :
    reachable uuidv4 s -> reachable uuidv4 (reset s)
| reach_setInactiveRoutingTimeout (timeout : Z) (s : Model.t) :
    reachable uuidv4 s -> reachable uuidv4 (setInactiveRoutingTimeout timeout s)
| reach_setTriageGenerationInterval (interval : Z) (s : Model.t) :
    reachable uuidv4 s -> reachable uuidv4 (setTriageGenerationInterval interval s)
| reach_startAutoGeneration (now : Z) (s : Model.t) :
    reachable uuidv4 s -> reachable uuidv4 (startAutoGeneration now s)
| reach_stopAutoGeneration (s : Model.t) :
    reachable uuidv4 s -> reachable uuidv4 (stopAutoGeneration s).


(** ** What the editing operations leave alone *)

(** A node without its links, its queue and its bookkeeping of sent
    triages: all that link recomputation writes. *)
Definition placedView (n : Node.t) : Node.t :=
  Node.set_connections [] (bodyView n).


(** The effect of [toggleNodeType] on the node it names. *)
Definition flipType (n : Node.t) : Node.t :=
  let type' := match Node.type n with source => sink | sink => source end in
  Node.set_color (match type' with sink => sinkColor | source => sourceColor end)
    (Node.set_type type' n).

(** The distance the range test computes for the pair [(nodeA, nodeB)]. *)
Definition distance (nodeA nodeB : Node.t) : float :=
  let dx := PrimFloat.sub (Node.position_x nodeB) (Node.position_x nodeA) in
  let dy := PrimFloat.sub (Node.position_y nodeB) (Node.position_y nodeA) in
  PrimFloat.sqrt (PrimFloat.add (PrimFloat.mul dx dx) (PrimFloat.mul dy dy)).

(** ** What no operation undoes *)

(** [n'] is [n] later on: the same identifier, and every triage [n] has
    stored is still in the store. *)
Definition grows (n n' : Node.t) : Prop :=
  Node.id n' = Node.id n /\ incl (Node.triageStore n) (Node.triageStore n').

(** Every node of [s] is still there in [s'], at its index, and has
    forgotten nothing. *)
Definition keeps (s s' : Model.t) : Prop :=
  forall x n, nodeAt x s = Some n -> exists n', nodeAt x s' = Some n' /\ grows n n'.

(** The settings of the simulation: connection radius, timeout of inactive
    routes, whether triages are generated, and how often. *)
Definition settingsOf (s : Model.t) : float * Z * bool * Z :=
  (Model.connectionRadius s, Model.inactiveRoutingTimeout s,
   Model.isAutoGenerating s, Model.triageGenerationInterval s).

(** [P] survives the writes the pipeline is made of: a message with a
    freshly drawn identifier at the end of the list, a draw from the
    identifier factory, a notification, and a write to the node array in
    which every node keeps its identifier and its triages. *)
Definition survives (uuidv4 : nat -> string) (P : Model.t -> Prop) : Prop :=
  (forall m s, Message.id m = uuidv4 (Model.uuidCount s) -> P s ->
     P (pushMessage m (Model.set_uuidCount (S (Model.uuidCount s)) s)))
  /\ (forall s, P s -> P (Model.set_uuidCount (S (Model.uuidCount s)) s))
  /\ (forall v s, P s -> P (Model.set_notifications v s))
  /\ (forall ns s, Forall2 grows (Model.nodes s) ns -> P s -> P (Model.set_nodes ns s)).

(** [P] survives the two writes of the advance phase: a new progress for
    one message, and the removal of messages. *)
Definition survivesAdvance (P : Model.t -> Prop) : Prop :=
  (forall k m p s, nth_error (Model.messages s) k = Some m -> P s ->
     P (Model.set_messages
          (Js.update k (fun _ => Message.set_progress p m) (Model.messages s)) s))
  /\ (forall f s, P s -> P (Model.set_messages (filter f (Model.messages s)) s)).

(** The nodes of [s0] are the first nodes of [s], and have forgotten
    nothing. *)
Definition descendsFrom (s0 s : Model.t) : Prop :=
  Forall2 grows (Model.nodes s0) (firstn (length (Model.nodes s0)) (Model.nodes s)).

(** [tick] up to the advance phase: move, relink, reroute, generate. *)
Definition beforeAdvance (uuidv4 : nat -> string) (now : Z)
    (pickNode pickSeverity : nat) (deltaTime : float) (s : Model.t) : Model.t :=
  let s := Model.set_nodes (map (moveNode deltaTime) (Model.nodes s)) s in
  let s := updateRoutingTables uuidv4 now (updateConnections uuidv4 now s) in
  if Model.isAutoGenerating s then updateAutoGeneration uuidv4 now pickNode pickSeverity s
  else s.


(** [s] comes after [s0]: the nodes of [s0] are still there and have
    forgotten nothing, and the messages of [s0] are the first messages of
    [s], unchanged. *)
Definition extends (s0 s : Model.t) : Prop :=
  descendsFrom s0 s /\ exists new, emits s0 s new.


(** The identifiers of the messages of [s] are draws of the identifier
    factory made so far, one draw per message. *)
Definition idsDrawn (uuidv4 : nat -> string) (s : Model.t) : Prop :=
  exists ks,
    map Message.id (Model.messages s) = map uuidv4 ks
    /\ NoDup ks
    /\ Forall (fun k => k < Model.uuidCount s) ks.
(** * Properties *)

(** ** JavaScript collections *)

Lemma has_true_iff (x : string) (s : JsSet) : Js.has x s = true <-> In x s.
Proof.
  unfold Js.has. rewrite existsb_exists. split.
  - intros [y [Hy Heq]]. apply String.eqb_eq in Heq. now subst.
  - intros H. exists x. split; [assumption | apply String.eqb_refl].
Qed.

Lemma has_false_iff (x : string) (s : JsSet) : Js.has x s = false <-> ~ In x s.
Proof.
  rewrite <- has_true_iff. destruct (Js.has x s); split; congruence.
Qed.

Lemma in_add_iff (x y : string) (s : JsSet) :
  In y (Js.add x s) <-> y = x \/ In y s.
Proof.
  unfold Js.add. destruct (Js.has x s) eqn:E.
  - apply has_true_iff in E. split; [tauto | intros [-> | H]; assumption].
  - rewrite in_app_iff. simpl. split; intros H; intuition (subst; auto).
Qed.

Lemma in_delete_iff (x y : string) (s : JsSet) :
  In y (Js.delete x s) <-> y <> x /\ In y s.
Proof.
  unfold Js.delete. rewrite filter_In, negb_true_iff, String.eqb_neq.
  split; intros [H1 H2]; split; auto.
Qed.

Lemma add_fresh (x : string) (s : JsSet) : ~ In x s -> Js.add x s = s ++ [x].
Proof.
  intros H. unfold Js.add. apply has_false_iff in H. now rewrite H.
Qed.

Lemma add_nodup (x : string) (s : JsSet) : NoDup s -> NoDup (Js.add x s).
Proof.
  intros H. unfold Js.add. destruct (Js.has x s) eqn:E; [assumption |].
  apply has_false_iff in E.
  apply NoDup_app; [assumption | repeat constructor; auto | ].
  intros y Hy [<- | []]. contradiction.
Qed.

(** Copying a duplicate-free list into a fresh [Set] keeps it as it is. *)
Lemma fold_add_app (l acc : JsSet) :
  NoDup (acc ++ l) -> fold_left (fun t c => Js.add c t) l acc = acc ++ l.
Proof.
  revert acc. induction l as [| x l IH]; intros acc H; simpl.
  - now rewrite app_nil_r.
  - assert (Hx : ~ In x acc).
    { apply NoDup_remove_2 in H. intros Hin. apply H. apply in_or_app. now left. }
    rewrite (add_fresh _ _ Hx).
    replace (acc ++ x :: l) with ((acc ++ [x]) ++ l) in * by now rewrite <- app_assoc.
    now apply IH.
Qed.

Lemma in_fold_add_iff (l acc : JsSet) (y : string) :
  In y (fold_left (fun t c => Js.add c t) l acc) <-> In y acc \/ In y l.
Proof.
  revert acc. induction l as [| x l IH]; intros acc; simpl; [tauto |].
  rewrite IH, in_add_iff. intuition (subst; auto).
Qed.

Section MapLemmas.
Context {V : Type}.
Implicit Types (m : JsMap V) (k : string) (v : V).

Lemma get_set_eq k v m : Js.get k (Js.set k v m) = Some v.
Proof.
  induction m as [| [k' v'] m IH]; simpl.
  - now rewrite String.eqb_refl.
  - destruct (String.eqb k k') eqn:E; simpl; rewrite ?String.eqb_refl, ?E; auto.
Qed.

Lemma get_set_neq k k' v m : k' <> k -> Js.get k' (Js.set k v m) = Js.get k' m.
Proof.
  intros Hne. induction m as [| [k0 v0] m IH]; simpl.
  - apply String.eqb_neq in Hne. now rewrite Hne.
  - destruct (String.eqb k k0) eqn:E; simpl.
    + apply String.eqb_eq in E. subst k0.
      apply String.eqb_neq in Hne. now rewrite Hne.
    + now rewrite IH.
Qed.

Lemma get_mdelete_eq k m : Js.get k (Js.mdelete k m) = None.
Proof.
  induction m as [| [k0 v0] m IH]; simpl; [reflexivity |].
  destruct (String.eqb k k0) eqn:E; simpl; [assumption |].
  now rewrite E.
Qed.

Lemma get_mdelete_neq k k' m : k' <> k -> Js.get k' (Js.mdelete k m) = Js.get k' m.
Proof.
  intros Hne. induction m as [| [k0 v0] m IH]; simpl; [reflexivity |].
  destruct (String.eqb k k0) eqn:E; simpl.
  - apply String.eqb_eq in E. subst k0.
    apply String.eqb_neq in Hne. now rewrite Hne.
  - now rewrite IH.
Qed.

Lemma get_some_in_keys k v m : Js.get k m = Some v -> In k (Js.keys m).
Proof.
  induction m as [| [k0 v0] m IH]; simpl; [discriminate |].
  destruct (String.eqb k k0) eqn:E.
  - apply String.eqb_eq in E. auto.
  - auto.
Qed.

Lemma in_keys_get k m : In k (Js.keys m) -> exists v, Js.get k m = Some v.
Proof.
  induction m as [| [k0 v0] m IH]; simpl; [tauto |].
  intros [-> | H].
  - rewrite String.eqb_refl. eauto.
  - destruct (String.eqb k k0); eauto.
Qed.

Lemma get_in k v m : Js.get k m = Some v -> In (k, v) m.
Proof.
  induction m as [| [k0 v0] m IH]; simpl; [discriminate |].
  destruct (String.eqb k k0) eqn:E.
  - apply String.eqb_eq in E. intros [= ->]. subst. auto.
  - auto.
Qed.

Lemma mhas_true_iff k m : Js.mhas k m = true <-> exists v, Js.get k m = Some v.
Proof.
  unfold Js.mhas. destruct (Js.get k m); split; eauto; try discriminate.
  intros [v Hv]. discriminate.
Qed.

Lemma keys_set k v m :
  Js.keys (Js.set k v m) = if Js.mhas k m then Js.keys m else Js.keys m ++ [k].
Proof.
  unfold Js.mhas. induction m as [| [k0 v0] m IH]; simpl; [reflexivity |].
  destruct (String.eqb k k0) eqn:E; simpl.
  - apply String.eqb_eq in E. now subst.
  - rewrite IH. now destruct (Js.get k m).
Qed.

End MapLemmas.

(** *** Arrays of objects *)

Section UpdateLemmas.
Context {A : Type}.
Implicit Types (l : list A) (f : A -> A).

Lemma nth_error_update_eq i f l :
  nth_error (Js.update i f l) i = option_map f (nth_error l i).
Proof.
  revert i. induction l as [| x l IH]; intros [| i]; simpl; auto.
Qed.

Lemma nth_error_update_neq i j f l :
  i <> j -> nth_error (Js.update i f l) j = nth_error l j.
Proof.
  revert i j. induction l as [| x l IH]; intros [| i] [| j] H; simpl; auto.
  congruence.
Qed.

Lemma map_update {B : Type} (g : A -> B) i f l :
  (forall x, g (f x) = g x) -> map g (Js.update i f l) = map g l.
Proof.
  intros H. revert i. induction l as [| x l IH]; intros [| i]; simpl; auto.
  - now rewrite H.
  - now rewrite IH.
Qed.

Lemma findIndex_nth_error (p : A -> bool) l i :
  Js.findIndex p l = Some i ->
  exists x, nth_error l i = Some x /\ p x = true /\ find p l = Some x.
Proof.
  revert i. induction l as [| y l IH]; simpl; intros i H; [discriminate |].
  destruct (p y) eqn:E.
  - injection H as <-. simpl. eauto.
  - destruct (Js.findIndex p l) as [j |]; [| discriminate].
    injection H as <-. simpl. destruct (IH j eq_refl) as [x Hx]. eauto.
Qed.

Lemma findIndex_none (p : A -> bool) l :
  Js.findIndex p l = None <-> forall x, In x l -> p x = false.
Proof.
  induction l as [| y l IH]; simpl.
  - split; [intros _ x [] | reflexivity].
  - destruct (p y) eqn:E.
    + split; [discriminate |]. intros H. specialize (H y (or_introl eq_refl)).
      congruence.
    + destruct (Js.findIndex p l).
      * split; [discriminate |]. intros H.
        assert (Hn : @None nat = None) by reflexivity.
        destruct IH as [_ IH]. discriminate IH. intros x Hx. apply H. now right.
      * split; [| reflexivity]. intros _ x [<- | Hx]; [assumption |].
        destruct IH as [IH _]. now apply IH.
Qed.

End UpdateLemmas.

(** ** Mode classifier *)







(** ** Parameter setters *)

(** C6 (as amended).  The two setters store their argument as it is and
    notify the listeners once; they do not clamp.  The clamp to one second
    ... five minutes is the sidebar handler's: whatever the slider value, the
    timeout it hands to the setter lies in [1000, 300000] milliseconds. *)
Theorem setters_store_their_argument (timeout interval seconds : Z) (s : Model.t) :
  Model.inactiveRoutingTimeout (setInactiveRoutingTimeout timeout s) = timeout
  /\ Model.notifications (setInactiveRoutingTimeout timeout s)
     = S (Model.notifications s)
  /\ Model.triageGenerationInterval (setTriageGenerationInterval interval s) = interval
  /\ Model.notifications (setTriageGenerationInterval interval s)
     = S (Model.notifications s)
  /\ (1000 <= Model.inactiveRoutingTimeout (handleInactiveTimeoutChange seconds s)
      <= 300000)%Z.
Proof.
  repeat split; try reflexivity;
    unfold handleInactiveTimeoutChange, setInactiveRoutingTimeout; simpl; lia.
Qed.

(** C6 (as stated) fails: a timeout of [0] is stored as [0], and an interval
    of [60000] as [60000]; neither is within its documented range. *)
Lemma setters_do_not_clamp :
  ~ ((1000 <= Model.inactiveRoutingTimeout (setInactiveRoutingTimeout 0 emptyModel)
      <= 300000)%Z
     \/ (500 <= Model.triageGenerationInterval
                  (setTriageGenerationInterval 60000 emptyModel)
         <= 10000)%Z).
Proof. simpl. lia. Qed.

(** ** Unknown identifiers *)

Lemma delete_absent (x : string) (s : JsSet) : ~ In x s -> Js.delete x s = s.
Proof.
  intros H. unfold Js.delete. induction s as [| y s IH]; simpl; [reflexivity |].
  destruct (String.eqb x y) eqn:E.
  - apply String.eqb_eq in E. subst. exfalso. apply H. now left.
  - simpl. f_equal. apply IH. intros Hin. apply H. now right.
Qed.

Lemma set_connections_same (n : Node.t) : Node.set_connections (Node.connections n) n = n.
Proof. now destruct n. Qed.



Lemma findIndex_unknown (x : string) (ns : list Node.t) :
  unknownId x ns -> Js.findIndex (idIs x) ns = None.
Proof.
  intros H. apply findIndex_none. intros n Hn. unfold idIs.
  apply String.eqb_neq. now apply H.
Qed.

(** Once removed, an identifier is unknown. *)
Lemma removeNode_makes_unknown (x : string) (s : Model.t) :
  unknownId x (Model.nodes (removeNode x s)).
Proof.
  unfold removeNode. simpl. intros n Hn.
  apply filter_In in Hn. destruct Hn as [Hin Hid].
  apply negb_true_iff, String.eqb_neq in Hid. split; [assumption |].
  apply in_map_iff in Hin. destruct Hin as [m [<- _]]. simpl.
  rewrite in_delete_iff. tauto.
Qed.

Section UnknownId.
Variable uuidv4 : nat -> string.


End UnknownId.



(** ** Message pipeline *)

Lemma nodeAt_updNode_eq (i : nat) (f : Node.t -> Node.t) (s : Model.t) :
  nodeAt i (updNode i f s) = option_map f (nodeAt i s).
Proof. unfold nodeAt, updNode. simpl. apply nth_error_update_eq. Qed.

Lemma nodeAt_updNode_neq (i j : nat) (f : Node.t -> Node.t) (s : Model.t) :
  i <> j -> nodeAt j (updNode i f s) = nodeAt j s.
Proof. intros H. unfold nodeAt, updNode. simpl. now apply nth_error_update_neq. Qed.

Lemma truthy_some (x : string) : x <> EmptyString -> Js.truthy (Some x) = true.
Proof. intros H. simpl. now apply negb_true_iff, String.eqb_neq. Qed.

Section Pipeline.
Variable uuidv4 : nat -> string.

(** What [sendMessage] comes to for a triage sent from an isolated node. *)
Lemma sendMessage_isolated (now : Z) (fromNodeId : string)
    (severity : option TriageSeverity) (s : Model.t) (i : nat) (fromNode : Node.t) :
  Js.findIndex (idIs fromNodeId) (Model.nodes s) = Some i ->
  nodeAt i s = Some fromNode ->
  Node.connections fromNode = [] ->
  uuidv4 (Model.uuidCount s) <> EmptyString ->
  sendMessage uuidv4 now fromNodeId triage severity s
  = notifyListeners
      (updNode i
         (enqueue (uuidv4 (Model.uuidCount s))
            (Some (match severity with Some sev => sev | None => red end)) now)
         (storeTriage i (uuidv4 (Model.uuidCount s))
            (Model.set_uuidCount (S (Model.uuidCount s)) s))).
Proof.
  intros Hfind Hnode Hconn Hne.
  unfold sendMessage. rewrite Hfind. unfold freshUuid.
  assert (Ht : isTriageWithId triage (Some (uuidv4 (Model.uuidCount s))) = true).
  { unfold isTriageWithId. now rewrite (truthy_some _ Hne). }
  rewrite Ht. cbv iota beta. rewrite nodeAt_updNode_eq.
  change (nodeAt i (Model.set_uuidCount (S (Model.uuidCount s)) s)) with (nodeAt i s).
  rewrite Hnode. simpl option_map. cbv iota beta.
  simpl Node.connections. rewrite Hconn. reflexivity.
Qed.

(** C8.  A triage send from a node without neighbours draws the factory's
    next identifier as triage id, adds it to the sender's [triageStore],
    appends [(triageId, severity, now)] to the sender's [triageQueue] (the
    severity being ['red'] when none was given), and emits nothing: the
    message list is as it was, and so is every other node. *)
Theorem isolated_triage_send_is_queued (now : Z) (fromNodeId : string)
    (severity : option TriageSeverity) (s : Model.t) (i : nat) (fromNode : Node.t) :
  Js.findIndex (idIs fromNodeId) (Model.nodes s) = Some i ->
  nodeAt i s = Some fromNode ->
  Node.connections fromNode = [] ->
  uuidv4 (Model.uuidCount s) <> EmptyString ->
  let triageId := uuidv4 (Model.uuidCount s) in
  let s' := sendMessage uuidv4 now fromNodeId triage severity s in
  Model.messages s' = Model.messages s
  /\ Model.uuidCount s' = S (Model.uuidCount s)
  /\ (exists fromNode',
        nodeAt i s' = Some fromNode'
        /\ Node.triageStore fromNode' = Js.add triageId (Node.triageStore fromNode)
        /\ In triageId (Node.triageStore fromNode')
        /\ Node.triageQueue fromNode'
           = Node.triageQueue fromNode ++
             [{| q_triageId := triageId;
                 q_severity := match severity with Some sev => sev | None => red end;
                 queuedAt := now |}]
        /\ Node.connections fromNode' = [])
  /\ (forall j, j <> i -> nodeAt j s' = nodeAt j s).
Proof.
  intros Hfind Hnode Hconn Hne triageId s'.
  subst s'. rewrite (sendMessage_isolated _ _ _ _ _ _ Hfind Hnode Hconn Hne).
  fold triageId. repeat split.
  - unfold nodeAt in *. simpl. rewrite !nth_error_update_eq, Hnode. simpl.
    eexists. split; [reflexivity |]. simpl.
    repeat split; auto.
    apply in_add_iff. now left.
  - intros j Hj. unfold nodeAt. simpl.
    now rewrite !nth_error_update_neq by congruence.
Qed.

(** C4.  A triage that arrives at a node in mode [flooding] or [inactive]
    whose [triageStore] already holds its id is dropped: the arrival only
    stamps [lastMessageReceivedAt].  No message is emitted, no listener runs,
    and the node's [triageStore], [triageQueue] and [sentTriagesToSinks] are
    what they were. *)
Theorem duplicate_triage_dropped_under_flooding (now : Z) (message : Message.t)
    (triageId : string) (s : Model.t) (i : nat) (node : Node.t) :
  Message.type message = triage ->
  Message.triageId message = Some triageId ->
  triageId <> EmptyString ->
  Js.findIndex (idIs (Message.toNodeId message)) (Model.nodes s) = Some i ->
  nodeAt i s = Some node ->
  mode (Node.routingState node) = flooding \/ mode (Node.routingState node) = inactive ->
  In triageId (Node.triageStore node) ->
  let s' := onMessageArrival uuidv4 now message s in
  s' = updNode i (Node.set_lastMessageReceivedAt (Some now)) s
  /\ Model.messages s' = Model.messages s
  /\ Model.notifications s' = Model.notifications s
  /\ (exists node',
        nodeAt i s' = Some node'
        /\ Node.triageStore node' = Node.triageStore node
        /\ Node.triageQueue node' = Node.triageQueue node
        /\ Node.sentTriagesToSinks node' = Node.sentTriagesToSinks node)
  /\ (forall j, j <> i -> nodeAt j s' = nodeAt j s).
Proof.
  intros Hty Hid Hne Hfind Hnode Hmode Hin s'.
  assert (E : s' = updNode i (Node.set_lastMessageReceivedAt (Some now)) s).
  { subst s'. unfold onMessageArrival. rewrite Hfind.
    rewrite nodeAt_updNode_eq, Hnode. simpl option_map. cbv iota beta.
    unfold isTriageWithId. rewrite Hty, Hid, (truthy_some _ Hne). simpl.
    apply has_true_iff in Hin. rewrite Hin.
    now destruct Hmode as [-> | ->]. }
  rewrite E. repeat split.
  - rewrite nodeAt_updNode_eq, Hnode. simpl. eexists. split; [reflexivity |].
    simpl. auto.
  - intros j Hj. now apply nodeAt_updNode_neq.
Qed.

End Pipeline.

Lemma isolated_triage_send_is_queued_witness :
  Model.messages
    (sendMessage letterUuid 5 "A" triage (Some yellow)
       (Model.set_nodes [isolatedNode] emptyModel))
  = []
  /\ (exists fromNode',
        nodeAt 0
          (sendMessage letterUuid 5 "A" triage (Some yellow)
             (Model.set_nodes [isolatedNode] emptyModel))
        = Some fromNode'
        /\ Node.triageQueue fromNode'
           = [{| q_triageId := "a"; q_severity := yellow; queuedAt := 5 |}]).
Proof.
  destruct
    (isolated_triage_send_is_queued letterUuid 5 "A" (Some yellow)
       (Model.set_nodes [isolatedNode] emptyModel) 0 isolatedNode
       eq_refl eq_refl eq_refl)
    as [Hm [_ [[n' [Hn [_ [_ [Hq _]]]]] _]]].
  - vm_compute. discriminate.
  - split; [exact Hm |]. exists n'. split; [exact Hn | exact Hq].
Defined.

Lemma duplicate_triage_dropped_under_flooding_witness :
  Model.messages
    (onMessageArrival letterUuid 7 triageInFlight
       (Model.set_nodes [floodingNode] emptyModel))
  = [].
Proof.
  apply
    (duplicate_triage_dropped_under_flooding letterUuid 7 triageInFlight "t"
       (Model.set_nodes [floodingNode] emptyModel) 0 floodingNode
       eq_refl eq_refl).
  - discriminate.
  - reflexivity.
  - reflexivity.
  - left. reflexivity.
  - simpl. now left.
Defined.

(** ** Target selector *)

Lemma mhas_false_not_in_keys {V : Type} (k : string) (m : JsMap V) :
  Js.mhas k m = false -> ~ In k (Js.keys m).
Proof.
  intros H Hin. apply in_keys_get in Hin. apply mhas_true_iff in Hin. congruence.
Qed.

Lemma keys_set_nodup {V : Type} (k : string) (v : V) (m : JsMap V) :
  NoDup (Js.keys m) -> NoDup (Js.keys (Js.set k v m)).
Proof.
  intros H. rewrite keys_set. destruct (Js.mhas k m) eqn:E; [assumption |].
  apply NoDup_app; [assumption | repeat constructor; auto |].
  intros y Hy [<- | []]. now apply (mhas_false_not_in_keys _ _ E).
Qed.

Lemma coverAdd_nodup (sinkId peerId : string) (cov : JsMap JsSet) :
  NoDup (Js.keys cov) -> NoDup (Js.keys (coverAdd sinkId peerId cov)).
Proof.
  intros H. unfold coverAdd. destruct (Js.get peerId cov); now apply keys_set_nodup.
Qed.

Lemma neighborCoverage_nodup (now : Z) (excludeNodeId : option string)
    (rt : JsMap RoutingTableEntry) :
  NoDup (Js.keys (neighborCoverage now excludeNodeId rt)).
Proof.
  unfold neighborCoverage.
  assert (H0 : NoDup (Js.keys (@nil (string * JsSet)))) by constructor.
  revert H0. generalize (@nil (string * JsSet)) as cov.
  induction rt as [| kv rt IH]; intros cov H; simpl; [assumption |].
  apply IH. destruct (now - lastUpdate (snd kv) <? ROUTE_TIMEOUT)%Z; [| assumption].
  revert cov H. induction (nextHops (snd kv)) as [| hop hops IHh]; intros cov H; simpl;
    [assumption |].
  apply IHh. destruct excludeNodeId as [x |].
  - destruct (String.eqb (fst hop) x); [assumption | now apply coverAdd_nodup].
  - now apply coverAdd_nodup.
Qed.

(** *** The cap *)


Lemma getMultiRouteCap_pos (messageType : option MessageType)
    (severity : option TriageSeverity) :
  1 <= getMultiRouteCap messageType severity.
Proof. destruct messageType as [[] |], severity as [[] |]; simpl; lia. Qed.

(** *** The greedy loop *)

Lemma gainOf_acc (covered sinks : JsSet) (g : nat) :
  fold_left (fun gain s => if Js.has s covered then gain else S gain) sinks g
  = g + length (filter (fun s => negb (Js.has s covered)) sinks).
Proof.
  revert g. induction sinks as [| x sinks IH]; intros g; simpl; [lia |].
  rewrite IH. destruct (Js.has x covered); simpl; lia.
Qed.

Lemma gainOf_gain (cov : JsMap JsSet) (covered : JsSet) (peer : string) :
  gainOf covered (coverageOf cov peer) = Greedy.gain cov covered peer.
Proof. unfold gainOf, Greedy.gain. now rewrite gainOf_acc. Qed.

Lemma pickBest_acc (load : string -> nat) (cov : JsMap JsSet) (covered : JsSet)
    (remaining : JsSet) (best0 : option (string * nat * nat)) :
  (best0 <> None \/ remaining <> []) ->
  exists p g l,
    fold_left
      (fun best peerId =>
         let gain := gainOf covered (coverageOf cov peerId) in
         let l := load peerId in
         if betterPeer gain l best then Some (peerId, gain, l) else best)
      remaining best0
    = Some (p, g, l)
    /\ (best0 = Some (p, g, l)
        \/ (In p remaining /\ g = Greedy.gain cov covered p /\ l = load p))
    /\ (forall q, In q remaining ->
          atLeastAsGood g l (Greedy.gain cov covered q) (load q))
    /\ (forall p0 g0 l0, best0 = Some (p0, g0, l0) -> atLeastAsGood g l g0 l0).
Proof.
  revert best0. induction remaining as [| x rem IH]; intros best0 Hne; simpl.
  - destruct best0 as [[[p g] l] |]; [| destruct Hne; congruence].
    exists p, g, l. repeat split; auto.
    + intros q [].
    + intros p0 g0 l0 [= -> -> ->]. right. split; lia.
  - rewrite gainOf_gain.
    set (gx := Greedy.gain cov covered x). set (lx := load x).
    destruct (betterPeer gx lx best0) eqn:Hb.
    + destruct (IH (Some (x, gx, lx))) as [p [g [l [Hf [Hp [Hall Hbest]]]]]];
        [left; discriminate |].
      exists p, g, l. split; [exact Hf |].
      pose proof (Hbest x gx lx eq_refl) as Hx.
      split; [| split].
      * right. destruct Hp as [[= <- <- <-] | [Hin [Hg Hl]]]; auto.
      * intros q [<- | Hq]; [exact Hx | now apply Hall].
      * intros p0 g0 l0 ->. simpl in Hb.
        apply orb_true_iff in Hb.
        unfold atLeastAsGood in *.
        destruct Hb as [Hb | Hb].
        -- apply Nat.ltb_lt in Hb. lia.
        -- apply andb_true_iff in Hb. destruct Hb as [Hb1 Hb2].
           apply Nat.eqb_eq in Hb1. apply Nat.ltb_lt in Hb2. lia.
    + destruct best0 as [[[p0 g0] l0] |]; [| discriminate Hb].
      destruct (IH (Some (p0, g0, l0))) as [p [g [l [Hf [Hp [Hall Hbest]]]]]];
        [left; discriminate |].
      exists p, g, l. split; [exact Hf |].
      pose proof (Hbest p0 g0 l0 eq_refl) as H0.
      split; [| split].
      * destruct Hp as [Hp | [Hin [Hg Hl]]]; auto.
      * intros q [<- | Hq]; [| now apply Hall].
        simpl in Hb. apply orb_false_iff in Hb. destruct Hb as [Hb1 Hb2].
        apply Nat.ltb_ge in Hb1.
        unfold atLeastAsGood in *. fold gx lx.
        apply andb_false_iff in Hb2.
        destruct Hb2 as [Hb2 | Hb2].
        -- apply Nat.eqb_neq in Hb2. lia.
        -- apply Nat.ltb_ge in Hb2. lia.
      * intros p1 g1 l1 [= -> -> ->]. exact H0.
Qed.

Lemma pickBest_bestChoice (load : string -> nat) (cov : JsMap JsSet)
    (covered remaining : JsSet) :
  remaining <> [] ->
  exists p g l,
    pickBest load cov covered remaining = Some (p, g, l)
    /\ Greedy.bestChoice load cov covered remaining p.
Proof.
  intros Hne.
  destruct (pickBest_acc load cov covered remaining None (or_intror Hne))
    as [p [g [l [Hf [Hp [Hall _]]]]]].
  exists p, g, l. split; [exact Hf |].
  destruct Hp as [Hp | [Hin [-> ->]]]; [discriminate |].
  split; [assumption |].
  intros q Hq. specialize (Hall q Hq). unfold atLeastAsGood in Hall. lia.
Qed.

Lemma length_delete_nodup (x : string) (s : JsSet) :
  NoDup s -> In x s -> S (length (Js.delete x s)) = length s.
Proof.
  unfold Js.delete. induction 1 as [| y s Hy Hs IH]; intros Hin; [destruct Hin |].
  simpl. destruct (String.eqb x y) eqn:E; simpl.
  - apply String.eqb_eq in E. subst y. f_equal.
    change (filter _ s) with (Js.delete x s). now rewrite delete_absent.
  - f_equal. apply IH. destruct Hin as [-> | Hin]; [| assumption].
    rewrite String.eqb_refl in E. discriminate.
Qed.

Lemma delete_nodup (x : string) (s : JsSet) : NoDup s -> NoDup (Js.delete x s).
Proof. apply NoDup_filter. Qed.

Lemma greedyLoop_picks (load : string -> nat) (cov : JsMap JsSet) (cap fuel : nat) :
  forall selected covered remaining,
    NoDup remaining ->
    NoDup selected ->
    (forall x, In x selected -> ~ In x remaining) ->
    length remaining <= fuel ->
    exists picks,
      greedyLoop fuel load cov cap selected covered remaining = selected ++ picks
      /\ NoDup (selected ++ picks)
      /\ Greedy.Picks load cov covered remaining
           (Nat.min (cap - length selected) (length remaining)) picks.
Proof.
  induction fuel as [| fuel IH]; intros selected covered remaining Hrem Hsel Hdis Hfuel.
  - destruct remaining; [| simpl in Hfuel; lia].
    exists []. rewrite app_nil_r. simpl. rewrite Nat.min_0_r.
    repeat split; [assumption | constructor].
  - simpl.
    destruct (length selected <? cap) eqn:Hcap; simpl.
    2:{ apply Nat.ltb_ge in Hcap. exists []. rewrite app_nil_r.
        replace (cap - length selected) with 0 by lia. simpl.
        repeat split; [assumption | constructor]. }
    apply Nat.ltb_lt in Hcap.
    destruct remaining as [| r remaining'] eqn:Er.
    { simpl. exists []. rewrite app_nil_r. rewrite Nat.min_0_r.
      repeat split; [assumption | constructor]. }
    rewrite <- Er in *. 
    assert (Hne : remaining <> []) by (rewrite Er; discriminate).
    assert (Hpos : (0 <? length remaining) = true)
      by (apply Nat.ltb_lt; rewrite Er; simpl; lia).
    rewrite Hpos.
    destruct (pickBest_bestChoice load cov covered remaining Hne)
      as [p [g [l [Hpick Hbest]]]].
    rewrite Hpick.
    pose proof Hbest as [Hin _].
    assert (Hfresh : ~ In p selected) by (intros Hp; now apply (Hdis p Hp)).
    rewrite (add_fresh _ _ Hfresh).
    pose proof (length_delete_nodup p remaining Hrem Hin) as Hlen.
    destruct (IH (selected ++ [p]) (Greedy.absorb cov covered p) (Js.delete p remaining))
      as [picks [Heq [Hnd Hpicks]]].
    + now apply delete_nodup.
    + apply NoDup_app; [assumption | repeat constructor; auto |].
      intros y Hy [<- | []]. contradiction.
    + intros x Hx Hdel. apply in_delete_iff in Hdel. destruct Hdel as [Hne' Hxr].
      apply in_app_iff in Hx. destruct Hx as [Hx | [<- | []]].
      * now apply (Hdis x Hx).
      * congruence.
    + lia.
    + exists (p :: picks).
      unfold Greedy.absorb in Heq. rewrite Heq, <- app_assoc. simpl.
      split; [reflexivity |]. split; [now rewrite <- app_assoc in Hnd |].
      rewrite length_app in Hpicks. simpl in Hpicks.
      replace (Nat.min (cap - length selected) (length remaining))
        with (S (Nat.min (cap - (length selected + 1)) (length (Js.delete p remaining))))
        by lia.
      now constructor.
Qed.

Lemma picks_length (load : string -> nat) (cov : JsMap JsSet)
    (covered remaining : JsSet) (n : nat) (picks : list string) :
  Greedy.Picks load cov covered remaining n picks -> length picks = n.
Proof. induction 1; simpl; congruence. Qed.

(** The three cases of intelligent selection. *)
Lemma selectIntelligent_cases (now : Z) (msgs : list Message.t) (node : Node.t)
    (excludeNodeId : option string) (messageType : option MessageType)
    (severity : option TriageSeverity) :
  let cov := neighborCoverage now excludeNodeId (Node.routingTable node) in
  let candidates := Js.keys cov in
  let cap := getMultiRouteCap messageType severity in
  let targets := selectIntelligent now msgs node excludeNodeId messageType severity in
  (length candidates <= cap -> targets = candidates)
  /\ (cap < length candidates ->
      Greedy.Picks (getLoad msgs (Node.id node)) cov [] candidates cap targets).
Proof.
  intros cov candidates cap targets.
  pose proof (neighborCoverage_nodup now excludeNodeId (Node.routingTable node)) as Hnd.
  fold cov candidates in Hnd.
  subst targets. unfold selectIntelligent. fold cov candidates cap.
  split.
  - intros Hle. destruct (length candidates =? 0) eqn:E0.
    + apply Nat.eqb_eq in E0. destruct candidates; [reflexivity | discriminate].
    + apply Nat.leb_le in Hle. rewrite Hle.
      now apply (fold_add_app candidates []).
  - intros Hlt.
    assert (E0 : (length candidates =? 0) = false) by (apply Nat.eqb_neq; lia).
    assert (E1 : (length candidates <=? cap) = false) by (apply Nat.leb_gt; lia).
    rewrite E0, E1.
    destruct (greedyLoop_picks (getLoad msgs (Node.id node)) cov cap (length candidates)
                [] [] candidates Hnd (NoDup_nil _) (fun x H => False_ind _ H)
                (Nat.le_refl _))
      as [picks [Heq [Hndp Hpicks]]].
    simpl in Heq, Hndp, Hpicks. rewrite Nat.sub_0_r in Hpicks.
    rewrite Nat.min_l in Hpicks by lia.
    rewrite Heq.
    pose proof (picks_length _ _ _ _ _ _ Hpicks) as Hlen.
    pose proof (getMultiRouteCap_pos messageType severity) as Hcap. fold cap in Hcap.
    assert (E2 : (length picks =? 0) = false) by (apply Nat.eqb_neq; lia).
    rewrite E2. rewrite (fold_add_app picks []) by exact Hndp. exact Hpicks.
Qed.


(** ** What the emitting operations leave alone *)

Lemma emits_refl (s : Model.t) : emits s s [].
Proof. unfold emits. now rewrite app_nil_r. Qed.

Lemma emits_trans (s1 s2 s3 : Model.t) (new1 new2 : list Message.t) :
  emits s1 s2 new1 -> emits s2 s3 new2 -> emits s1 s3 (new1 ++ new2).
Proof. unfold emits. intros H1 H2. now rewrite H2, H1, app_assoc. Qed.

Lemma linksOf_updNode (i : nat) (f : Node.t -> Node.t) (s : Model.t) :
  (forall n, Node.id (f n) = Node.id n) ->
  (forall n, Node.connections (f n) = Node.connections n) ->
  linksOf (updNode i f s) = linksOf s.
Proof.
  intros Hid Hc. unfold linksOf, updNode. simpl.
  apply map_update. intros n. now rewrite Hid, Hc.
Qed.

Lemma linksOf_nodeAt (s s' : Model.t) (i : nat) (n : Node.t) :
  linksOf s' = linksOf s ->
  nodeAt i s = Some n ->
  exists n', nodeAt i s' = Some n'
             /\ Node.id n' = Node.id n /\ Node.connections n' = Node.connections n.
Proof.
  unfold linksOf, nodeAt. intros H Hn.
  assert (Hm : nth_error (map (fun n => (Node.id n, Node.connections n)) (Model.nodes s)) i
               = Some (Node.id n, Node.connections n))
    by now rewrite nth_error_map, Hn.
  rewrite <- H, nth_error_map in Hm.
  destruct (nth_error (Model.nodes s') i) as [n' |]; [| discriminate].
  simpl in Hm. injection Hm as H1 H2. eauto.
Qed.

Section Frames.
Variable uuidv4 : nat -> string.

Lemma markTargeted_messages (i : nat) (messageType : MessageType)
    (triageId : option string) (sinkIds : JsSet) (s : Model.t) :
  Model.messages (markTargeted i messageType triageId sinkIds s) = Model.messages s.
Proof. unfold markTargeted. now destruct (_ && _). Qed.

Lemma markTargeted_links (i : nat) (messageType : MessageType)
    (triageId : option string) (sinkIds : JsSet) (s : Model.t) :
  linksOf (markTargeted i messageType triageId sinkIds s) = linksOf s.
Proof.
  unfold markTargeted. destruct (_ && _); [| reflexivity].
  now apply linksOf_updNode.
Qed.

(** [sendMessage]'s loop pushes one message per target, in target order. *)
Lemma fold_sendOne (now : Z) (i : nat) (fromNodeId : string)
    (messageType : MessageType) (triageId : option string)
    (severity : option TriageSeverity) (sinkIds : JsSet) (targets : list string) :
  forall s,
  exists new,
    emits s
      (fold_left (sendOne uuidv4 now i fromNodeId messageType triageId severity sinkIds)
         targets s)
      new
    /\ Forall2
         (fun toNodeId m =>
            exists msgId,
              m = sentMessage now fromNodeId messageType triageId severity msgId toNodeId)
         targets new
    /\ linksOf
         (fold_left (sendOne uuidv4 now i fromNodeId messageType triageId severity sinkIds)
            targets s)
       = linksOf s.
Proof.
  induction targets as [| t targets IH]; intros s; simpl.
  - exists []. split; [apply emits_refl |]. split; [constructor | reflexivity].
  - destruct (IH (sendOne uuidv4 now i fromNodeId messageType triageId severity sinkIds s t))
      as [new [He [Hf Hl]]].
    exists (sentMessage now fromNodeId messageType triageId severity
              (uuidv4 (Model.uuidCount s)) t :: new).
    split; [| split].
    + unfold emits in *. rewrite He. unfold sendOne, freshUuid.
      rewrite markTargeted_messages. simpl. now rewrite <- app_assoc.
    + constructor; [eauto | exact Hf].
    + rewrite Hl. unfold sendOne, freshUuid. now rewrite markTargeted_links.
Qed.

(** So does [onMessageArrival]'s. *)
Lemma fold_forwardOne (now : Z) (i : nat) (nodeId : string) (message : Message.t)
    (sinkIds : JsSet) (targets : list string) :
  forall s,
  exists new,
    emits s (fold_left (forwardOne uuidv4 now i nodeId message sinkIds) targets s) new
    /\ Forall2
         (fun toNodeId m =>
            exists msgId, m = forwardedMessage now nodeId message msgId toNodeId)
         targets new
    /\ linksOf (fold_left (forwardOne uuidv4 now i nodeId message sinkIds) targets s)
       = linksOf s.
Proof.
  induction targets as [| t targets IH]; intros s; simpl.
  - exists []. split; [apply emits_refl |]. split; [constructor | reflexivity].
  - destruct (IH (forwardOne uuidv4 now i nodeId message sinkIds s t))
      as [new [He [Hf Hl]]].
    exists (forwardedMessage now nodeId message (uuidv4 (Model.uuidCount s)) t :: new).
    split; [| split].
    + unfold emits in *. rewrite He. unfold forwardOne, freshUuid.
      rewrite markTargeted_messages. simpl. now rewrite <- app_assoc.
    + constructor; [eauto | exact Hf].
    + rewrite Hl. unfold forwardOne, freshUuid. now rewrite markTargeted_links.
Qed.

(** The selector reads the mode, the routing table, the links and the
    identifier of the node, nothing else. *)
Lemma selectRoutingTargets_ext (now : Z) (msgs : list Message.t) (n n' : Node.t)
    (excludeNodeId : option string) (messageType : option MessageType)
    (severity : option TriageSeverity) :
  Node.routingState n' = Node.routingState n ->
  Node.routingTable n' = Node.routingTable n ->
  Node.connections n' = Node.connections n ->
  Node.id n' = Node.id n ->
  selectRoutingTargets now msgs n' excludeNodeId messageType severity
  = selectRoutingTargets now msgs n excludeNodeId messageType severity.
Proof.
  intros H1 H2 H3 H4.
  unfold selectRoutingTargets, selectIntelligent, selectFlooding.
  now rewrite H1, H2, H3, H4.
Qed.

(** [sendMessage], for a sender that exists: either the triage is queued and
    nothing is emitted, or one message goes to each selected target. *)
Lemma sendMessage_emits (now : Z) (fromNodeId : string) (messageType : MessageType)
    (triageSeverity : option TriageSeverity) (s : Model.t) (i : nat) (fromNode : Node.t) :
  Js.findIndex (idIs fromNodeId) (Model.nodes s) = Some i ->
  nodeAt i s = Some fromNode ->
  let severity := sendSeverity messageType triageSeverity in
  let triageId :=
    match messageType with
    | triage => Some (uuidv4 (Model.uuidCount s))
    | normal => None
    end in
  let s' := sendMessage uuidv4 now fromNodeId messageType triageSeverity s in
  exists new,
    emits s s' new
    /\ linksOf s' = linksOf s
    /\ (new = []
        \/ Forall2
             (fun toNodeId m =>
                exists msgId,
                  m = sentMessage now fromNodeId messageType triageId severity
                        msgId toNodeId)
             (selectRoutingTargets now (Model.messages s) fromNode (Some fromNodeId)
                (Some messageType) severity)
             new).
Proof.
  intros Hfind Hnode severity triageId s'. subst s'.
  unfold sendMessage. rewrite Hfind.
  set (st := match messageType with
             | triage => let '(u, s0) := freshUuid uuidv4 s in (Some u, s0)
             | normal => (None, s)
             end).
  assert (Est : st = (triageId,
                      match messageType with
                      | triage => Model.set_uuidCount (S (Model.uuidCount s)) s
                      | normal => s
                      end)).
  { subst st triageId. now destruct messageType. }
  rewrite Est. clear st Est. cbv iota beta.
  set (s1 := match messageType with
             | triage => Model.set_uuidCount (S (Model.uuidCount s)) s
             | normal => s
             end).
  assert (Hm1 : Model.messages s1 = Model.messages s) by (subst s1; now destruct messageType).
  assert (Hn1 : Model.nodes s1 = Model.nodes s) by (subst s1; now destruct messageType).
  fold (sendSeverity messageType triageSeverity). fold severity.
  set (s2 := if isTriageWithId messageType triageId
             then updNode i _ s1 else s1).
  assert (Hm2 : Model.messages s2 = Model.messages s)
    by (subst s2; destruct (isTriageWithId messageType triageId); simpl; assumption).
  assert (Hl2 : linksOf s2 = linksOf s).
  { subst s2. destruct (isTriageWithId messageType triageId).
    - rewrite linksOf_updNode by reflexivity. unfold linksOf. now rewrite Hn1.
    - unfold linksOf. now rewrite Hn1. }
  assert (Hnode2 : exists n2, nodeAt i s2 = Some n2
                     /\ Node.routingState n2 = Node.routingState fromNode
                     /\ Node.routingTable n2 = Node.routingTable fromNode
                     /\ Node.connections n2 = Node.connections fromNode
                     /\ Node.id n2 = Node.id fromNode).
  { subst s2. destruct (isTriageWithId messageType triageId).
    - rewrite nodeAt_updNode_eq. unfold nodeAt in *. rewrite Hn1, Hnode. simpl.
      eexists. split; [reflexivity |]. simpl. auto.
    - unfold nodeAt in *. rewrite Hn1, Hnode. exists fromNode. repeat split. }
  destruct Hnode2 as [n2 [Hn2 [Hrs [Hrt [Hc Hid]]]]].
  rewrite Hn2.
  destruct (isTriageWithId messageType triageId
            && (length (Node.connections n2) =? 0)).
  - exists []. split; [| split; [| now left]].
    + unfold emits. simpl. now rewrite Hm2, app_nil_r.
    + unfold notifyListeners. rewrite <- Hl2.
      now apply (linksOf_updNode i (enqueue (unwrap triageId) severity now) s2).
  - rewrite Hm2, (selectRoutingTargets_ext _ _ _ _ _ _ _ Hrs Hrt Hc Hid).
    match goal with
    | |- context [fold_left (sendOne ?u ?a ?b ?c ?d ?e ?f ?g) ?t s2] =>
        destruct (fold_sendOne a b c d e f g t s2) as [new [He [Hf Hl]]]
    end.
    exists new. split; [| split; [| now right]].
    + unfold emits in *. simpl. now rewrite He, Hm2.
    + unfold notifyListeners. unfold linksOf in *. simpl. now rewrite Hl.
Qed.

(** [onMessageArrival], for a receiver that exists: nothing is emitted, or
    one copy goes to each selected target. *)
Lemma forwardFrom_emits (now : Z) (i : nat) (message : Message.t) (s : Model.t)
    (node : Node.t) :
  nodeAt i s = Some node ->
  let s' := forwardFrom uuidv4 now i message s in
  exists new,
    emits s s' new
    /\ linksOf s' = linksOf s
    /\ (new = []
        \/ Forall2
             (fun toNodeId m =>
                exists msgId,
                  m = forwardedMessage now (Node.id node) message msgId toNodeId)
             (selectRoutingTargets now (Model.messages s) node
                (Some (Message.fromNodeId message)) (Some (Message.type message))
                (Message.triageSeverity message))
             new).
Proof.
  intros Hnode s'. subst s'. unfold forwardFrom. rewrite Hnode.
  destruct (_ && _).
  - exists []. split; [apply emits_refl |]. split; [reflexivity | now left].
  - match goal with
    | |- context [fold_left (forwardOne ?u ?a ?b ?c ?d ?e) ?t s] =>
        destruct (fold_forwardOne a b c d e t s) as [new [He [Hf Hl]]]
    end.
    exists new. split; [| split; [| now right]].
    + unfold emits in *. simpl. now rewrite He.
    + unfold notifyListeners. unfold linksOf in *. simpl. now rewrite Hl.
Qed.

Lemma onMessageArrival_emits (now : Z) (message : Message.t) (s : Model.t) (i : nat)
    (node : Node.t) :
  Js.findIndex (idIs (Message.toNodeId message)) (Model.nodes s) = Some i ->
  nodeAt i s = Some node ->
  let s' := onMessageArrival uuidv4 now message s in
  exists new,
    emits s s' new
    /\ linksOf s' = linksOf s
    /\ (new = []
        \/ Forall2
             (fun toNodeId m =>
                exists msgId,
                  m = forwardedMessage now (Node.id node) message msgId toNodeId)
             (selectRoutingTargets now (Model.messages s) node
                (Some (Message.fromNodeId message)) (Some (Message.type message))
                (Message.triageSeverity message))
             new).
Proof.
  intros Hfind Hnode s'. subst s'. unfold onMessageArrival. rewrite Hfind.
  rewrite nodeAt_updNode_eq, Hnode. simpl option_map. cbv iota beta.
  set (s1 := updNode i (Node.set_lastMessageReceivedAt (Some now)) s).
  set (n1 := Node.set_lastMessageReceivedAt (Some now) node).
  assert (Hl1 : linksOf s1 = linksOf s) by (now apply linksOf_updNode).
  assert (Hn1 : nodeAt i s1 = Some n1)
    by (subst s1 n1; now rewrite nodeAt_updNode_eq, Hnode).
  assert (Hquiet : exists new : list Message.t,
             emits s s1 new /\ linksOf s1 = linksOf s /\
             (new = [] \/
              Forall2
                (fun toNodeId m =>
                   exists msgId,
                     m = forwardedMessage now (Node.id node) message msgId toNodeId)
                (selectRoutingTargets now (Model.messages s) node
                   (Some (Message.fromNodeId message)) (Some (Message.type message))
                   (Message.triageSeverity message))
                new)).
  { exists []. split; [unfold emits; simpl; now rewrite app_nil_r |].
    split; [exact Hl1 | now left]. }
  (* forwarding from a state that differs from [s] in node bookkeeping only *)
  assert (Hfwd : forall s2 n2,
             Model.messages s2 = Model.messages s ->
             linksOf s2 = linksOf s ->
             nodeAt i s2 = Some n2 ->
             Node.routingState n2 = Node.routingState node ->
             Node.routingTable n2 = Node.routingTable node ->
             Node.connections n2 = Node.connections node ->
             Node.id n2 = Node.id node ->
             exists new : list Message.t,
               emits s (forwardFrom uuidv4 now i message s2) new /\
               linksOf (forwardFrom uuidv4 now i message s2) = linksOf s /\
               (new = [] \/
                Forall2
                  (fun toNodeId m =>
                     exists msgId,
                       m = forwardedMessage now (Node.id node) message msgId toNodeId)
                  (selectRoutingTargets now (Model.messages s) node
                     (Some (Message.fromNodeId message)) (Some (Message.type message))
                     (Message.triageSeverity message))
                  new)).
  { intros s2 n2 Hm2 Hl2 Hn2 Hrs Hrt Hc Hid.
    destruct (forwardFrom_emits now i message s2 n2 Hn2) as [new [He [Hl Hf]]].
    exists new. split; [| split].
    - unfold emits in *. now rewrite He, Hm2.
    - now rewrite Hl.
    - rewrite Hm2, Hid, (selectRoutingTargets_ext _ _ _ _ _ _ _ Hrs Hrt Hc Hid) in Hf.
      exact Hf. }
  assert (Hacc : forall s2 n2,
             Model.messages s2 = Model.messages s ->
             linksOf s2 = linksOf s ->
             nodeAt i s2 = Some n2 ->
             Node.routingState n2 = Node.routingState node ->
             Node.routingTable n2 = Node.routingTable node ->
             Node.connections n2 = Node.connections node ->
             Node.id n2 = Node.id node ->
             exists new : list Message.t,
               emits s (acceptTriage uuidv4 now i message n1 s2) new /\
               linksOf (acceptTriage uuidv4 now i message n1 s2) = linksOf s /\
               (new = [] \/
                Forall2
                  (fun toNodeId m =>
                     exists msgId,
                       m = forwardedMessage now (Node.id node) message msgId toNodeId)
                  (selectRoutingTargets now (Model.messages s) node
                     (Some (Message.fromNodeId message)) (Some (Message.type message))
                     (Message.triageSeverity message))
                  new)).
  { intros s2 n2 Hm2 Hl2 Hn2 Hrs Hrt Hc Hid. unfold acceptTriage.
    destruct (length (Node.connections n1) =? 0).
    - exists []. split; [| split; [| now left]].
      + unfold emits. simpl. now rewrite Hm2, app_nil_r.
      + unfold notifyListeners. rewrite <- Hl2.
        now apply (linksOf_updNode i
                     (enqueue (unwrap (Message.triageId message))
                        (Message.triageSeverity message) now) s2).
    - now apply (Hfwd s2 n2). }
  assert (Hstore : forall tid,
             exists n2, nodeAt i (storeTriage i tid s1) = Some n2
               /\ Node.routingState n2 = Node.routingState node
               /\ Node.routingTable n2 = Node.routingTable node
               /\ Node.connections n2 = Node.connections node
               /\ Node.id n2 = Node.id node).
  { intros tid. unfold storeTriage. rewrite nodeAt_updNode_eq, Hn1. simpl.
    eexists. split; [reflexivity |]. simpl. auto. }
  assert (Hstorel : forall tid, linksOf (storeTriage i tid s1) = linksOf s).
  { intros tid. unfold storeTriage. rewrite linksOf_updNode by reflexivity. exact Hl1. }
  destruct (isTriageWithId (Message.type message) (Message.triageId message)).
  - destruct (isFloodingStyle (mode (Node.routingState n1))).
    + destruct (Js.has _ _); [exact Hquiet |].
      destruct (Hstore (unwrap (Message.triageId message)))
        as [n2 [Hn2 [Hrs [Hrt [Hc Hid]]]]].
      now apply (Hacc _ n2).
    + destruct (negb (Js.has _ _)).
      * destruct (Hstore (unwrap (Message.triageId message)))
          as [n2 [Hn2 [Hrs [Hrt [Hc Hid]]]]].
        now apply (Hacc _ n2).
      * now apply (Hacc s1 n1).
  - now apply (Hfwd s1 n1).
Qed.

End Frames.




Section Cap.
Variable uuidv4 : nat -> string.


End Cap.


(** The diamond of scenario E2: red goes both ways, green one way. *)
Example diamond_red_and_green :
  map Message.toNodeId
    (Model.messages (sendMessage letterUuid 1 "a" triage (Some red) diamond))
  = ["b"; "c"]%string
  /\ map Message.toNodeId
       (Model.messages (sendMessage letterUuid 1 "a" triage (Some green) diamond))
     = ["b"]%string.
Proof. vm_compute. split; reflexivity. Qed.

(** ** Advance and arrival *)

Lemma update_middle {A : Type} (f : A -> A) (l1 l2 : list A) (x : A) (k : nat) :
  length l1 = k -> Js.update k f (l1 ++ x :: l2) = l1 ++ f x :: l2.
Proof.
  intros <-. induction l1 as [| y l1 IH]; simpl; [reflexivity | now rewrite IH].
Qed.

Lemma nth_error_middle {A : Type} (l1 l2 : list A) (x : A) (k : nat) :
  length l1 = k -> nth_error (l1 ++ x :: l2) k = Some x.
Proof. intros <-. induction l1 as [| y l1 IH]; simpl; auto. Qed.

(** A list cut at an index below its length: the part before, the element
    there, the part after. *)
Lemma split_at {A : Type} (l : list A) (k : nat) :
  k < length l ->
  exists x,
    nth_error l k = Some x
    /\ firstn (S k) l = firstn k l ++ [x]
    /\ skipn k l = x :: skipn (S k) l.
Proof.
  revert k. induction l as [| y l IH]; intros k Hk; simpl in Hk; [lia |].
  destruct k as [| k].
  - exists y. simpl. auto.
  - destruct (IH k) as [x [H1 [H2 H3]]]; [lia |].
    exists x. split; [exact H1 |]. split.
    + change (firstn (S (S k)) (y :: l)) with (y :: firstn (S k) l).
      rewrite H2. reflexivity.
    + exact H3.
Qed.

Lemma fold_left_seq_inv {A : Type} (P : nat -> A -> Prop) (f : A -> nat -> A) (n : nat)
    (a0 : A) :
  P 0 a0 ->
  (forall k a, k < n -> P k a -> P (S k) (f a k)) ->
  P n (fold_left f (seq 0 n) a0).
Proof.
  intros H0 Hstep. induction n as [| n IH].
  - exact H0.
  - rewrite seq_S, fold_left_app. simpl. apply Hstep; [lia |].
    apply IH. intros k a Hk. apply Hstep. lia.
Qed.


Lemma filter_all {A : Type} (p : A -> bool) (l : list A) :
  Forall (fun x => p x = true) l -> filter p l = l.
Proof.
  induction 1 as [| x l Hx _ IH]; simpl; [reflexivity |]. now rewrite Hx, IH.
Qed.

Section Advance.
Variable uuidv4 : nat -> string.

(** Whatever arrives wherever, [onMessageArrival] only pushes messages, and
    each starts at progress 0. *)
Lemma onMessageArrival_pushes (now : Z) (message : Message.t) (s : Model.t) :
  exists new,
    emits s (onMessageArrival uuidv4 now message s) new
    /\ Forall (fun m => Message.progress m = 0%float) new.
Proof.
  destruct (Js.findIndex (idIs (Message.toNodeId message)) (Model.nodes s)) as [i |] eqn:Hfind.
  - destruct (findIndex_nth_error _ _ _ Hfind) as [node [Hnode _]].
    destruct (onMessageArrival_emits uuidv4 now message s i node Hfind Hnode)
      as [new [He [_ Hnew]]].
    exists new. split; [exact He |].
    destruct Hnew as [-> | Hf]; [constructor |].
    clear He. induction Hf as [| t m ts ms [msgId ->] _ IH]; constructor; auto.
  - exists []. unfold onMessageArrival. rewrite Hfind.
    split; [apply emits_refl | constructor].
Qed.

Lemma advanceAll_invariant (now : Z) (deltaTime : float) (s : Model.t) :
  advancedUpTo deltaTime (Model.messages s) (length (Model.messages s))
    (advanceAll uuidv4 now deltaTime s).
Proof.
  unfold advanceAll. set (old := Model.messages s).
  apply (fold_left_seq_inv (advancedUpTo deltaTime old)).
  - exists []. simpl. rewrite app_nil_r. repeat split. constructor.
  - intros k [st arrived] Hk [new [Hmsgs [Hzero Harr]]]. simpl in Hmsgs, Harr.
    destruct (split_at old k Hk) as [m [Hnth [Hfirst Hskip]]].
    assert (Hlen : length (map (advanced deltaTime) (firstn k old)) = k).
    { rewrite length_map, length_firstn. fold old in Hk. lia. }
    assert (Hk' : nth_error (Model.messages st) k = Some m).
    { rewrite Hmsgs, Hskip, <- app_comm_cons. now apply nth_error_middle. }
    unfold advancedUpTo. simpl fst. unfold advanceMessage. rewrite Hk'.
    fold (advanced deltaTime m). fold (crosses deltaTime m).
    assert (Hupd :
      Js.update k (fun _ => advanced deltaTime m) (Model.messages st)
      = map (advanced deltaTime) (firstn (S k) old) ++ skipn (S k) old ++ new).
    { rewrite Hmsgs, Hskip, Hfirst, map_app, <- app_comm_cons.
      rewrite (update_middle _ _ _ _ k Hlen), <- app_assoc. reflexivity. }
    assert (Hseq : filter (crossesAt deltaTime old) (seq 0 (S k))
                   = filter (crossesAt deltaTime old) (seq 0 k)
                     ++ (if crosses deltaTime m then [k] else [])).
    { rewrite seq_S, filter_app. simpl. unfold crossesAt at 2. now rewrite Hnth. }
    destruct (crosses deltaTime m) eqn:Hc.
    + set (s1 := Model.set_messages _ st).
      destruct (onMessageArrival_pushes now (advanced deltaTime m) s1)
        as [new' [He Hzero']].
      exists (new ++ new'). cbn [fst snd]. split; [| split].
      * unfold emits in He. rewrite He. subst s1.
        cbn [Model.messages Model.set_messages]. rewrite Hupd.
        now rewrite <- !app_assoc.
      * apply Forall_app. now split.
      * now rewrite Hseq, Harr.
    + exists new. cbn [fst snd Model.messages Model.set_messages]. split; [| split].
      * exact Hupd.
      * exact Hzero.
      * now rewrite Hseq, Harr, app_nil_r.
Qed.


End Advance.

(** ** Queue flush and replay *)

(** A projection of the nodes that the bookkeeping of sent triages cannot
    change stays the same through every replay; one that the triage queue
    cannot change either stays the same through the queue flush. *)
Section Views.
Context {B : Type} (g : Node.t -> B).
Variable uuidv4 : nat -> string.

Hypothesis g_sent : forall v n, g (Node.set_sentTriagesToSinks v n) = g n.

Lemma viewOf_updNode (i : nat) (f : Node.t -> Node.t) (s : Model.t) :
  (forall n, g (f n) = g n) -> viewOf g (updNode i f s) = viewOf g s.
Proof. intros H. unfold viewOf, updNode. simpl. now apply map_update. Qed.

Lemma viewOf_nodeAt (s s' : Model.t) (i : nat) (n : Node.t) :
  viewOf g s' = viewOf g s -> nodeAt i s = Some n ->
  exists n', nodeAt i s' = Some n' /\ g n' = g n.
Proof.
  unfold viewOf, nodeAt. intros H Hn.
  assert (Hm : nth_error (map g (Model.nodes s)) i = Some (g n))
    by now rewrite nth_error_map, Hn.
  rewrite <- H, nth_error_map in Hm.
  destruct (nth_error (Model.nodes s') i) as [n' |]; [| discriminate].
  simpl in Hm. injection Hm as Hm. eauto.
Qed.

Lemma pushReplay_spec (now : Z) (fromId toId triageId : string) (s : Model.t) :
  emits s (pushReplay uuidv4 now fromId toId triageId s)
    [replayMessage now fromId toId triageId (uuidv4 (Model.uuidCount s))]
  /\ Model.nodes (pushReplay uuidv4 now fromId toId triageId s) = Model.nodes s.
Proof. unfold pushReplay, emits. simpl. auto. Qed.

Lemma notifyIfMessages_spec (s : Model.t) :
  Model.messages (notifyIfMessages s) = Model.messages s
  /\ Model.nodes (notifyIfMessages s) = Model.nodes s.
Proof. unfold notifyIfMessages. destruct (0 <? _); simpl; auto. Qed.

Lemma replayToSink_spec (now : Z) (node peer : Node.t) (s : Model.t) :
  exists new,
    emits s (replayToSink uuidv4 now node peer s) new
    /\ Model.nodes (replayToSink uuidv4 now node peer s) = Model.nodes s
    /\ Forall (replayed (Node.id node) (Node.id peer)) new.
Proof.
  unfold replayToSink.
  destruct (notifyIfMessages_spec
              (fold_left
                 (fun s0 triageId =>
                    if negb (Js.has triageId (Node.triageStore peer))
                    then pushReplay uuidv4 now (Node.id node) (Node.id peer) triageId s0
                    else s0)
                 (Node.triageStore node) s)) as [Hm Hn].
  unfold emits. rewrite Hm, Hn. clear Hm Hn.
  revert s. induction (Node.triageStore node) as [| t ts IH]; intros s; simpl.
  - exists []. rewrite app_nil_r. repeat split. constructor.
  - destruct (negb (Js.has t (Node.triageStore peer))).
    + destruct (IH (pushReplay uuidv4 now (Node.id node) (Node.id peer) t s))
        as [new [He [Hn Hf]]].
      eexists (_ :: new). rewrite He, Hn. simpl. rewrite <- app_assoc. simpl.
      split; [reflexivity |]. split; [reflexivity |].
      constructor; [| exact Hf]. unfold replayed. eauto.
    + apply IH.
Qed.

Lemma replayToPeer_spec (now : Z) (i : nat) (node peer : Node.t) (s : Model.t) :
  exists new,
    emits s (replayToPeer uuidv4 now i node peer s) new
    /\ viewOf g (replayToPeer uuidv4 now i node peer s) = viewOf g s
    /\ Forall (replayed (Node.id node) (Node.id peer)) new.
Proof.
  unfold replayToPeer. destruct (_ && _).
  2:{ exists []. split; [apply emits_refl |]. split; [reflexivity | constructor]. }
  match goal with
  | |- context [notifyIfMessages ?x] =>
      destruct (notifyIfMessages_spec x) as [Hm Hn]
  end.
  unfold emits, viewOf. rewrite Hm, Hn. clear Hm Hn.
  revert s. induction (Node.triageStore node) as [| t ts IH]; intros s; simpl.
  - exists []. rewrite app_nil_r. repeat split. constructor.
  - destruct (nodeAt i s) as [cur |]; [| apply IH].
    destruct (negb (hasNewSinkTarget _ _)); [apply IH |].
    destruct (negb (Js.has t (Node.triageStore peer))).
    + match goal with
      | |- context [fold_left ?f ts ?s1] => destruct (IH s1) as [new [He [Hv Hf]]]
      end.
      eexists (_ :: new). rewrite He, Hv. simpl. rewrite <- app_assoc. simpl.
      split; [reflexivity |]. split.
      * apply map_update. intros n. apply g_sent.
      * constructor; [| exact Hf]. unfold replayed. eauto.
    + match goal with
      | |- context [fold_left ?f ts ?s1] => destruct (IH s1) as [new [He [Hv Hf]]]
      end.
      exists new. rewrite He, Hv. simpl.
      split; [reflexivity |]. split; [| exact Hf].
      apply map_update. intros n. apply g_sent.
Qed.

Lemma find_idIs (x : string) (ns : list Node.t) (n : Node.t) :
  find (idIs x) ns = Some n -> In n ns /\ Node.id n = x.
Proof.
  intros H. apply find_some in H. destruct H as [Hin Hid].
  split; [assumption |]. now apply String.eqb_eq.
Qed.

(** New-link replay: whatever the peer, every message carries
    severity ['red']. *)
Lemma replayNewLink_spec (now : Z) (prev : JsSet) (i : nat) (s : Model.t)
    (peerId : string) (node : Node.t) :
  nodeAt i s = Some node ->
  exists new,
    emits s (replayNewLink uuidv4 now prev i s peerId) new
    /\ viewOf g (replayNewLink uuidv4 now prev i s peerId) = viewOf g s
    /\ Forall (replayed (Node.id node) peerId) new.
Proof.
  intros Hnode. unfold replayNewLink.
  destruct (negb (Js.has peerId prev)).
  2:{ exists []. split; [apply emits_refl |]. split; [reflexivity | constructor]. }
  rewrite Hnode.
  destruct (find (idIs peerId) (Model.nodes s)) as [peer |] eqn:Hpeer.
  2:{ exists []. split; [apply emits_refl |]. split; [reflexivity | constructor]. }
  destruct (find_idIs _ _ _ Hpeer) as [_ <-].
  destruct (_ && _).
  - destruct (replayToSink_spec now node peer s) as [new [He [Hn Hf]]].
    exists new. split; [exact He |]. split; [| exact Hf].
    unfold viewOf. now rewrite Hn.
  - apply replayToPeer_spec.
Qed.

(** *** New-sink replay *)

Lemma syncTriage_spec (now : Z) (newSink : Node.t) (j : nat) (sinkIdJ : string)
    (routeEntry : RoutingTableEntry) (s : Model.t) (triageId : string) :
  exists new,
    emits s (syncTriage uuidv4 now newSink j sinkIdJ routeEntry s triageId) new
    /\ viewOf g (syncTriage uuidv4 now newSink j sinkIdJ routeEntry s triageId)
       = viewOf g s
    /\ Forall
         (fun m => In (Message.toNodeId m) (Js.keys (nextHops routeEntry))
                   /\ replayed sinkIdJ (Message.toNodeId m) m)
         new.
Proof.
  unfold syncTriage.
  assert (Hquiet : exists new : list Message.t,
             emits s s new /\ viewOf g s = viewOf g s /\
             Forall
               (fun m => In (Message.toNodeId m) (Js.keys (nextHops routeEntry))
                         /\ replayed sinkIdJ (Message.toNodeId m) m) new).
  { exists []. split; [apply emits_refl |]. split; [reflexivity | constructor]. }
  destruct (Js.has triageId (Node.triageStore newSink)); [exact Hquiet |].
  destruct (nodeAt j s) as [cur |]; [| exact Hquiet].
  match goal with |- context [if ?b then s else _] => destruct b end;
    [exact Hquiet |].
  clear Hquiet cur.
  assert (Hloop : forall hops s0,
             (forall h, In h hops -> In (fst h) (Js.keys (nextHops routeEntry))) ->
             exists new,
               emits s0
                 (fold_left
                    (fun s1 (hop : string * nat) =>
                       pushReplay uuidv4 now sinkIdJ (fst hop) triageId s1)
                    hops s0) new
               /\ Model.nodes
                    (fold_left
                       (fun s1 (hop : string * nat) =>
                          pushReplay uuidv4 now sinkIdJ (fst hop) triageId s1)
                       hops s0)
                  = Model.nodes s0
               /\ Forall
                    (fun m => In (Message.toNodeId m) (Js.keys (nextHops routeEntry))
                              /\ replayed sinkIdJ (Message.toNodeId m) m) new).
  { induction hops as [| h hops IH]; intros s0 Hin; simpl.
    - exists []. split; [apply emits_refl |]. split; [reflexivity | constructor].
    - destruct (IH (pushReplay uuidv4 now sinkIdJ (fst h) triageId s0))
        as [new [He [Hn Hf]]].
      { intros h' Hh'. apply Hin. now right. }
      eexists (_ :: new). unfold emits in *. rewrite He, Hn. simpl.
      rewrite <- app_assoc. simpl.
      split; [reflexivity |]. split; [reflexivity |].
      constructor; [| exact Hf]. simpl. split.
      + apply Hin. now left.
      + unfold replayed. eauto. }
  destruct (Hloop (nextHops routeEntry) s) as [new [He [Hn Hf]]].
  { intros h Hh. unfold Js.keys. now apply in_map. }
  exists new. split; [| split; [| exact Hf]].
  - unfold emits in *. simpl. exact He.
  - rewrite viewOf_updNode by (intros n; apply g_sent).
    unfold viewOf. now rewrite Hn.
Qed.

Lemma syncFromSink_spec (now : Z) (newSink : Node.t) (s0 s : Model.t) (j : nat) :
  viewOf g s = viewOf g s0 ->
  exists new,
    emits s (syncFromSink uuidv4 now newSink s j) new
    /\ viewOf g (syncFromSink uuidv4 now newSink s j) = viewOf g s0
    /\ Forall
         (fun m =>
            exists sinkJ routeEntry,
              nodeAt j s = Some sinkJ
              /\ Js.get (Node.id newSink) (Node.routingTable sinkJ) = Some routeEntry
              /\ In (Message.toNodeId m) (Js.keys (nextHops routeEntry))
              /\ replayed (Node.id sinkJ) (Message.toNodeId m) m)
         new.
Proof.
  intros Hv. unfold syncFromSink.
  destruct (nodeAt j s) as [sinkJ |] eqn:Hj.
  2:{ exists []. split; [apply emits_refl |]. split; [exact Hv | constructor]. }
  destruct (Js.get (Node.id newSink) (Node.routingTable sinkJ)) as [routeEntry |] eqn:Hr.
  2:{ exists []. split; [apply emits_refl |]. split; [exact Hv | constructor]. }
  destruct (length (nextHops routeEntry) =? 0).
  { exists []. split; [apply emits_refl |]. split; [exact Hv | constructor]. }
  assert (Hloop : forall ts s1,
             exists new,
               emits s1
                 (fold_left (syncTriage uuidv4 now newSink j (Node.id sinkJ) routeEntry)
                    ts s1) new
               /\ viewOf g
                    (fold_left (syncTriage uuidv4 now newSink j (Node.id sinkJ) routeEntry)
                       ts s1)
                  = viewOf g s1
               /\ Forall
                    (fun m => In (Message.toNodeId m) (Js.keys (nextHops routeEntry))
                              /\ replayed (Node.id sinkJ) (Message.toNodeId m) m)
                    new).
  { induction ts as [| t ts IH]; intros s1; simpl.
    - exists []. split; [apply emits_refl |]. split; [reflexivity | constructor].
    - destruct (syncTriage_spec now newSink j (Node.id sinkJ) routeEntry s1 t)
        as [new1 [He1 [Hv1 Hf1]]].
      destruct (IH (syncTriage uuidv4 now newSink j (Node.id sinkJ) routeEntry s1 t))
        as [new2 [He2 [Hv2 Hf2]]].
      exists (new1 ++ new2). split; [now apply (emits_trans _ _ _ _ _ He1) |].
      split; [now rewrite Hv2 |].
      apply Forall_app. now split. }
  destruct (Hloop (Node.triageStore sinkJ) s) as [new [He [Hv' Hf]]].
  exists new. split; [exact He |]. split; [now rewrite Hv' |].
  eapply Forall_impl; [| exact Hf]. intros m [H1 H2].
  exists sinkJ, routeEntry. auto.
Qed.

End Views.

Lemma replayed_fields (fromId toId : string) (m : Message.t) :
  replayed fromId toId m ->
  Message.fromNodeId m = fromId
  /\ Message.toNodeId m = toId
  /\ Message.type m = triage
  /\ Message.triageSeverity m = Some red
  /\ Message.progress m = 0%float.
Proof. intros [now [tid [msgId ->]]]. simpl. auto. Qed.

Lemma indicesWhere_spec (p : Node.t -> bool) (ns : list Node.t) (j : nat) :
  In j (indicesWhere p ns) -> exists n, nth_error ns j = Some n /\ p n = true.
Proof.
  unfold indicesWhere. intros H. apply filter_In in H. destruct H as [_ H].
  destruct (nth_error ns j) as [n |]; [eauto | discriminate].
Qed.

Section Flush.
Variable uuidv4 : nat -> string.

(** New-sink replay: every message goes from an existing sink to a next
    hop of its route to the new sink, and carries severity ['red']. *)
Lemma syncNewSink_spec (now : Z) (k : nat) (s : Model.t) :
  exists new,
    emits s (syncNewSinkFromExistingSinks uuidv4 now k s) new
    /\ viewOf routeView (syncNewSinkFromExistingSinks uuidv4 now k s)
       = viewOf routeView s
    /\ Forall
         (fun m =>
            exists newSink,
              nodeAt k s = Some newSink /\ replayedAlongRoute s (Node.id newSink) m)
         new.
Proof.
  unfold syncNewSinkFromExistingSinks.
  destruct (nodeAt k s) as [newSink |] eqn:Hk.
  2:{ exists []. split; [apply emits_refl |]. split; [reflexivity | constructor]. }
  destruct (negb (NodeType_eqb (Node.type newSink) sink)).
  { exists []. split; [apply emits_refl |]. split; [reflexivity | constructor]. }
  set (p := fun n => NodeType_eqb (Node.type n) sink
                     && negb (String.eqb (Node.id n) (Node.id newSink))).
  destruct (length (indicesWhere p (Model.nodes s)) =? 0).
  { exists []. split; [apply emits_refl |]. split; [reflexivity | constructor]. }
  assert (Hloop : forall js s1,
             (forall j, In j js -> In j (indicesWhere p (Model.nodes s))) ->
             viewOf routeView s1 = viewOf routeView s ->
             exists new,
               emits s1 (fold_left (syncFromSink uuidv4 now newSink) js s1) new
               /\ viewOf routeView (fold_left (syncFromSink uuidv4 now newSink) js s1)
                  = viewOf routeView s
               /\ Forall (replayedAlongRoute s (Node.id newSink)) new).
  { induction js as [| j js IH]; intros s1 Hjs Hv; simpl.
    - exists []. split; [apply emits_refl |]. split; [exact Hv | constructor].
    - destruct (syncFromSink_spec routeView uuidv4 (fun _ _ => eq_refl)
                  now newSink s s1 j Hv) as [new1 [He1 [Hv1 Hf1]]].
      destruct (IH (syncFromSink uuidv4 now newSink s1 j)) as [new2 [He2 [Hv2 Hf2]]].
      { intros j' Hj'. apply Hjs. now right. }
      { exact Hv1. }
      exists (new1 ++ new2). split; [now apply (emits_trans _ _ _ _ _ He1) |].
      split; [exact Hv2 |]. apply Forall_app. split; [| exact Hf2].
      eapply Forall_impl; [| exact Hf1].
      intros m [sinkJ [routeEntry [Hj [Hget [Hin Hrep]]]]].
      destruct (indicesWhere_spec p _ j (Hjs j (or_introl eq_refl))) as [n0 [Hn0 Hp]].
      destruct (viewOf_nodeAt routeView s1 s j sinkJ (eq_sym Hv) Hj) as [n0' [Hn0' Hg]].
      unfold nodeAt in Hn0'. rewrite Hn0 in Hn0'. injection Hn0' as <-.
      unfold routeView in Hg. injection Hg as Hid Hc Hrt.
      exists n0, routeEntry. split; [eapply nth_error_In; eassumption |].
      split.
      { subst p. simpl in Hp. apply andb_true_iff in Hp. destruct Hp as [_ Hp].
        now apply negb_true_iff, String.eqb_neq in Hp. }
      split; [now rewrite Hrt |]. split; [exact Hin | now rewrite Hid]. }
  destruct (Hloop (indicesWhere p (Model.nodes s)) s (fun j H => H) eq_refl)
    as [new [He [Hv Hf]]].
  exists new. split; [exact He |]. split; [exact Hv |].
  eapply Forall_impl; [| exact Hf]. intros m Hm. exists newSink. auto.
Qed.

(** *** Queue flush *)

Lemma sendQueuedTriage_spec (now : Z) (i : nat) (triageId : string)
    (severity : TriageSeverity) (s : Model.t) (fromNode : Node.t) :
  nodeAt i s = Some fromNode ->
  exists new,
    emits s (sendQueuedTriage uuidv4 now i triageId severity s) new
    /\ Model.nodes (sendQueuedTriage uuidv4 now i triageId severity s) = Model.nodes s
    /\ Forall
         (fun m =>
            exists msgId toNodeId,
              In toNodeId (Node.connections fromNode)
              /\ m = queuedMessage now fromNode triageId severity msgId toNodeId)
         new.
Proof.
  intros Hnode. unfold sendQueuedTriage. rewrite Hnode.
  destruct (negb (Js.has triageId (Node.triageStore fromNode))).
  { exists []. split; [apply emits_refl |]. split; [reflexivity | constructor]. }
  set (targets := fold_left (fun t peerId => Js.add peerId t) (Node.connections fromNode) []).
  assert (Ht : forall t, In t targets -> In t (Node.connections fromNode)).
  { intros t Hin. apply in_fold_add_iff in Hin. destruct Hin as [[] | Hin]. exact Hin. }
  revert Ht. generalize targets as ts. clear targets.
  intros ts Ht. unfold emits. simpl. revert s Hnode.
  induction ts as [| t ts IH]; intros s Hnode; simpl.
  - exists []. rewrite app_nil_r. repeat split. constructor.
  - match goal with
    | |- context [fold_left ?f ts ?s1] => destruct (IH (fun x H => Ht x (or_intror H)) s1)
        as [new [He [Hn Hf]]]
    end.
    { exact Hnode. }
    eexists (_ :: new). rewrite He, Hn. simpl. rewrite <- app_assoc. simpl.
    split; [reflexivity |]. split; [reflexivity |].
    constructor; [| exact Hf].
    eexists _, t. split; [apply Ht; now left | reflexivity].
Qed.

Lemma othersUntouched_refl (j : nat) (s : Model.t) : othersUntouched j s s.
Proof. intros i _. reflexivity. Qed.

Lemma othersUntouched_trans (j : nat) (s1 s2 s3 : Model.t) :
  othersUntouched j s1 s2 -> othersUntouched j s2 s3 -> othersUntouched j s1 s3.
Proof. intros H1 H2 i Hi. now rewrite H2, H1. Qed.

Lemma othersUntouched_nodes (j : nat) (s s' : Model.t) :
  Model.nodes s' = Model.nodes s -> othersUntouched j s s'.
Proof. intros H i _. unfold nodeAt. now rewrite H. Qed.

Lemma othersUntouched_updNode (j : nat) (f : Node.t -> Node.t) (s : Model.t) :
  othersUntouched j s (updNode j f s).
Proof. intros i Hi. apply nodeAt_updNode_neq. congruence. Qed.

Section QueueViews.
Context {B : Type} (g : Node.t -> B).
Hypothesis g_sent : forall v n, g (Node.set_sentTriagesToSinks v n) = g n.
Hypothesis g_queue : forall v n, g (Node.set_triageQueue v n) = g n.

(** Queue flush: every message carries the severity its queue entry
    recorded. *)
Lemma flushQueue_spec (now : Z) (i : nat) (s : Model.t) (node : Node.t) :
  nodeAt i s = Some node ->
  exists new,
    emits s (flushQueue uuidv4 now i s) new
    /\ viewOf g (flushQueue uuidv4 now i s) = viewOf g s
    /\ othersUntouched i s (flushQueue uuidv4 now i s)
    /\ Forall (flushed node) new.
Proof.
  intros Hnode. unfold flushQueue. rewrite Hnode.
  destruct (_ && _).
  2:{ exists []. split; [apply emits_refl |]. split; [reflexivity |].
      split; [apply othersUntouched_refl | constructor]. }
  set (s1 := updNode i (Node.set_triageQueue []) s).
  set (node1 := Node.set_triageQueue [] node).
  assert (Hn1 : nodeAt i s1 = Some node1)
    by (subst s1 node1; now rewrite nodeAt_updNode_eq, Hnode).
  assert (Hloop : forall qs s2,
             (forall q, In q qs -> In q (Node.triageQueue node)) ->
             Model.nodes s2 = Model.nodes s1 ->
             exists new,
               emits s2
                 (fold_left
                    (fun s0 q =>
                       sendQueuedTriage uuidv4 now i (q_triageId q) (q_severity q) s0)
                    qs s2) new
               /\ Model.nodes
                    (fold_left
                       (fun s0 q =>
                          sendQueuedTriage uuidv4 now i (q_triageId q) (q_severity q) s0)
                       qs s2)
                  = Model.nodes s1
               /\ Forall (flushed node) new).
  { induction qs as [| q qs IH]; intros s2 Hqs Hn2; simpl.
    - exists []. split; [apply emits_refl |]. split; [exact Hn2 | constructor].
    - assert (Hn2' : nodeAt i s2 = Some node1) by (unfold nodeAt in *; now rewrite Hn2).
      destruct (sendQueuedTriage_spec now i (q_triageId q) (q_severity q) s2 node1 Hn2')
        as [new1 [He1 [Hnodes1 Hf1]]].
      destruct (IH (sendQueuedTriage uuidv4 now i (q_triageId q) (q_severity q) s2))
        as [new2 [He2 [Hnodes2 Hf2]]].
      { intros q' Hq'. apply Hqs. now right. }
      { now rewrite Hnodes1. }
      exists (new1 ++ new2). split; [now apply (emits_trans _ _ _ _ _ He1) |].
      split; [exact Hnodes2 |]. apply Forall_app. split; [| exact Hf2].
      eapply Forall_impl; [| exact Hf1].
      intros m [msgId [toNodeId [Hin ->]]]. exists q. simpl in *.
      split; [apply Hqs; now left |]. repeat split; auto. }
  destruct (Hloop (Node.triageQueue node) s1 (fun q H => H) eq_refl)
    as [new [He [Hn Hf]]].
  exists new. split; [| split; [| split; [| exact Hf]]].
  - unfold emits in *. rewrite He. reflexivity.
  - unfold viewOf at 1. rewrite Hn. now apply (viewOf_updNode g).
  - apply (othersUntouched_trans i s s1).
    + apply othersUntouched_updNode.
    + apply othersUntouched_nodes. exact Hn.
Qed.

Lemma replayNewLink_untouched (now : Z) (prev : JsSet) (i : nat) (s : Model.t)
    (peerId : string) :
  othersUntouched i s (replayNewLink uuidv4 now prev i s peerId).
Proof.
  unfold replayNewLink.
  destruct (negb (Js.has peerId prev)); [| apply othersUntouched_refl].
  destruct (nodeAt i s) as [node |]; [| apply othersUntouched_refl].
  destruct (find (idIs peerId) (Model.nodes s)) as [peer |];
    [| apply othersUntouched_refl].
  destruct (_ && _).
  - destruct (replayToSink_spec uuidv4 now node peer s) as [new [_ [Hn _]]].
    now apply othersUntouched_nodes.
  - unfold replayToPeer. destruct (_ && _); [| apply othersUntouched_refl].
    match goal with
    | |- context [notifyIfMessages ?x] =>
        destruct (notifyIfMessages_spec x) as [_ Hn]
    end.
    eapply othersUntouched_trans; [| apply othersUntouched_nodes; exact Hn].
    clear Hn. generalize (Node.triageStore node) as ts. intros ts. revert s.
    induction ts as [| t ts IH]; intros s; simpl; [apply othersUntouched_refl |].
    destruct (nodeAt i s) as [cur |]; [| apply IH].
    destruct (negb (hasNewSinkTarget _ _)); [apply IH |].
    eapply othersUntouched_trans; [| apply IH].
    eapply othersUntouched_trans; [| apply othersUntouched_updNode].
    destruct (negb (Js.has t (Node.triageStore peer))); [| apply othersUntouched_refl].
    apply othersUntouched_nodes. apply pushReplay_spec.
Qed.

Hypothesis g_links : forall n n', g n = g n' ->
  Node.id n = Node.id n' /\ Node.connections n = Node.connections n'.

(** The third loop of [updateConnections], for one node. *)
Lemma syncNode_spec (now : Z) (prevNeighbors : JsMap JsSet) (s : Model.t) (i : nat)
    (node : Node.t) :
  nodeAt i s = Some node ->
  exists new,
    emits s (syncNode uuidv4 now prevNeighbors s i) new
    /\ viewOf g (syncNode uuidv4 now prevNeighbors s i) = viewOf g s
    /\ othersUntouched i s (syncNode uuidv4 now prevNeighbors s i)
    /\ Forall (fun m => flushed node m \/ replayedToNeighbour node m) new.
Proof.
  intros Hnode. unfold syncNode.
  destruct (flushQueue_spec now i s node Hnode) as [new1 [He1 [Hv1 [Hu1 Hf1]]]].
  destruct (viewOf_nodeAt g s (flushQueue uuidv4 now i s) i node Hv1 Hnode)
    as [node1 [Hn1 Hg1]].
  rewrite Hn1.
  destruct (g_links _ _ Hg1) as [Hid1 Hc1].
  set (prev := match Js.get (Node.id node1) prevNeighbors with
               | Some p => p
               | None => []
               end).
  assert (Hloop : forall peers s2,
             (forall p, In p peers -> In p (Node.connections node)) ->
             viewOf g s2 = viewOf g s ->
             exists new,
               emits s2 (fold_left (replayNewLink uuidv4 now prev i) peers s2) new
               /\ viewOf g (fold_left (replayNewLink uuidv4 now prev i) peers s2)
                  = viewOf g s
               /\ othersUntouched i s2
                    (fold_left (replayNewLink uuidv4 now prev i) peers s2)
               /\ Forall (replayedToNeighbour node) new).
  { induction peers as [| p peers IH]; intros s2 Hp Hv2; simpl.
    - exists []. split; [apply emits_refl |]. split; [exact Hv2 |].
      split; [apply othersUntouched_refl | constructor].
    - destruct (viewOf_nodeAt g s s2 i node Hv2 Hnode) as [node2 [Hn2 Hg2]].
      destruct (g_links _ _ Hg2) as [Hid2 Hc2].
      destruct (replayNewLink_spec g uuidv4 g_sent now prev i s2 p node2 Hn2)
        as [new2 [He2 [Hv2' Hf2]]].
      destruct (IH (replayNewLink uuidv4 now prev i s2 p)) as [new3 [He3 [Hv3 [Hu3 Hf3]]]].
      { intros p' Hp'. apply Hp. now right. }
      { now rewrite Hv2'. }
      exists (new2 ++ new3). split; [now apply (emits_trans _ _ _ _ _ He2) |].
      split; [exact Hv3 |].
      split.
      { eapply othersUntouched_trans; [apply replayNewLink_untouched | exact Hu3]. }
      apply Forall_app. split; [| exact Hf3].
      eapply Forall_impl; [| exact Hf2].
      intros m Hm. exists p. split; [apply Hp; now left |]. now rewrite <- Hid2. }
  destruct (Hloop (Node.connections node1) (flushQueue uuidv4 now i s))
    as [new2 [He2 [Hv2 [Hu2 Hf2]]]].
  { intros p Hp. now rewrite <- Hc1. }
  { exact Hv1. }
  exists (new1 ++ new2). split; [now apply (emits_trans _ _ _ _ _ He1) |].
  split; [exact Hv2 |].
  split; [now apply (othersUntouched_trans i _ _ _ Hu1) |].
  apply Forall_app. split.
  - eapply Forall_impl; [| exact Hf1]. auto.
  - eapply Forall_impl; [| exact Hf2]. auto.
Qed.

End QueueViews.

End Flush.

(** ** Link recomputer *)

Lemma sameButLinks_refl (a : Node.t) : sameButLinks a a.
Proof. apply set_connections_same. Qed.

Lemma sameButLinks_trans (a b c : Node.t) :
  sameButLinks a b -> sameButLinks b c -> sameButLinks a c.
Proof. unfold sameButLinks. intros <- <-. reflexivity. Qed.

Lemma sameButLinks_id (a b : Node.t) : sameButLinks a b -> Node.id b = Node.id a.
Proof. intros <-. reflexivity. Qed.

Lemma Forall2_refl {A : Type} (R : A -> A -> Prop) (l : list A) :
  (forall x, R x x) -> Forall2 R l l.
Proof. intros H. induction l; constructor; auto. Qed.

Lemma Forall2_trans {A : Type} (R : A -> A -> Prop) (l1 l2 l3 : list A) :
  (forall x y z, R x y -> R y z -> R x z) ->
  Forall2 R l1 l2 -> Forall2 R l2 l3 -> Forall2 R l1 l3.
Proof.
  intros Ht H12. revert l3. induction H12; intros l3 H23; inversion H23; subst;
    constructor; eauto.
Qed.

Lemma Forall2_update {A : Type} (R : A -> A -> Prop) (i : nat) (f : A -> A) (l : list A) :
  (forall x, R x x) -> (forall x, R x (f x)) -> Forall2 R l (Js.update i f l).
Proof.
  intros Hr Hf. revert i. induction l as [| x l IH]; intros [| i]; simpl;
    constructor; auto. now apply Forall2_refl.
Qed.

Lemma Forall2_map_self {A : Type} (R : A -> A -> Prop) (f : A -> A) (l : list A) :
  (forall x, R x (f x)) -> Forall2 R l (map f l).
Proof. intros H. induction l; simpl; constructor; auto. Qed.

Lemma fold_left_preserves {A B : Type} (P : A -> Prop) (f : A -> B -> A) (l : list B) :
  forall a, P a -> (forall a x, In x l -> P a -> P (f a x)) -> P (fold_left f l a).
Proof.
  induction l as [| x l IH]; intros a Ha Hf; simpl; [assumption |].
  apply IH.
  - apply Hf; [now left | assumption].
  - intros a' x' Hx'. apply Hf. now right.
Qed.

Lemma linkPair_sameButLinks (i j : nat) (ns : list Node.t) :
  Forall2 sameButLinks ns (linkPair i j ns).
Proof.
  unfold linkPair.
  destruct (nth_error ns i) as [a |]; [| apply Forall2_refl, sameButLinks_refl].
  destruct (nth_error ns j) as [b |]; [| apply Forall2_refl, sameButLinks_refl].
  destruct (withinRange a b); [| apply Forall2_refl, sameButLinks_refl].
  eapply Forall2_trans; [apply sameButLinks_trans | |];
    apply Forall2_update; try apply sameButLinks_refl; intros x; reflexivity.
Qed.

(** The link recomputer changes nothing but the link sets. *)
Lemma rebuildLinks_sameButLinks (ns : list Node.t) :
  Forall2 sameButLinks ns (rebuildLinks ns).
Proof.
  unfold rebuildLinks.
  apply (fold_left_preserves (Forall2 sameButLinks ns)).
  - apply Forall2_map_self. intros x. reflexivity.
  - intros ns1 i _ H1.
    apply (fold_left_preserves (Forall2 sameButLinks ns)); [exact H1 |].
    intros ns2 j _ H2.
    eapply Forall2_trans; [apply sameButLinks_trans | exact H2 |].
    apply linkPair_sameButLinks.
Qed.

Lemma Forall2_sameButLinks_ids (ns ns' : list Node.t) :
  Forall2 sameButLinks ns ns' -> map Node.id ns' = map Node.id ns.
Proof.
  induction 1 as [| a b l l' H _ IH]; simpl; [reflexivity |].
  now rewrite IH, (sameButLinks_id _ _ H).
Qed.

Lemma Forall2_nth_error {A : Type} (R : A -> A -> Prop) (l l' : list A) (i : nat) (y : A) :
  Forall2 R l l' -> nth_error l' i = Some y ->
  exists x, nth_error l i = Some x /\ R x y.
Proof.
  intros H. revert i. induction H as [| a b l l' Hab _ IH]; intros [| i] Hy;
    simpl in *; try discriminate.
  - injection Hy as <-. eauto.
  - now apply IH.
Qed.

Lemma nodup_ids_index (ns : list Node.t) (x y : nat) (a b : Node.t) :
  NoDup (map Node.id ns) ->
  nth_error ns x = Some a -> nth_error ns y = Some b ->
  Node.id a = Node.id b -> x = y.
Proof.
  intros Hnd Ha Hb Hid.
  apply (proj1 (NoDup_nth_error (map Node.id ns)) Hnd).
  - rewrite length_map. apply nth_error_Some. congruence.
  - rewrite !nth_error_map, Ha, Hb. simpl. now rewrite Hid.
Qed.

(** The links of the node at [x] after [linkPair i j]. *)
Lemma linkPair_links (i j : nat) (ns : list Node.t) (x : nat) (a' : Node.t) :
  nth_error (linkPair i j ns) x = Some a' ->
  exists a,
    nth_error ns x = Some a
    /\ Node.id a' = Node.id a
    /\ forall q,
         In q (Node.connections a') <->
         In q (Node.connections a)
         \/ exists nodeA nodeB,
              nth_error ns i = Some nodeA /\ nth_error ns j = Some nodeB
              /\ withinRange nodeA nodeB = true
              /\ ((x = i /\ q = Node.id nodeB) \/ (x = j /\ q = Node.id nodeA)).
Proof.
  unfold linkPair. intros H.
  destruct (nth_error ns i) as [nodeA |] eqn:Hi.
  2:{ exists a'. repeat split; auto. intros [H1 | [? [? [? _]]]]; [auto | discriminate]. }
  destruct (nth_error ns j) as [nodeB |] eqn:Hj.
  2:{ exists a'. repeat split; auto. intros [H1 | [? [? [_ [? _]]]]]; [auto | discriminate]. }
  destruct (withinRange nodeA nodeB) eqn:Hr.
  2:{ exists a'. repeat split; auto.
      intros [H1 | [nA [nB [[= <-] [[= <-] [Hw _]]]]]]; [auto | congruence]. }
  assert (Hadd : forall side : Node.t -> Node.t -> Prop, side nodeA nodeB ->
            exists nA nB,
              Some nodeA = Some nA /\ Some nodeB = Some nB
              /\ withinRange nA nB = true /\ side nA nB).
  { intros side Hside. exists nodeA, nodeB. auto. }
  destruct (Nat.eq_dec x j) as [-> | Hxj].
  - rewrite nth_error_update_eq in H.
    destruct (Nat.eq_dec j i) as [-> | Hji].
    + rewrite nth_error_update_eq, Hi in H. simpl in H. injection H as <-.
      rewrite Hi in Hj. injection Hj as <-.
      exists nodeA. split; [exact Hi |]. split; [reflexivity |].
      intros q. simpl. rewrite !in_add_iff. split.
      * intros [-> | [-> | Hq]]; [right | right | now left]; apply Hadd; auto.
      * intros [Hq | [nA [nB [[= <-] [[= <-] [_ [[_ ->] | [_ ->]]]]]]]]; auto.
    + rewrite nth_error_update_neq, Hj in H by congruence. simpl in H. injection H as <-.
      exists nodeB. split; [exact Hj |]. split; [reflexivity |].
      intros q. simpl. rewrite in_add_iff. split.
      * intros [-> | Hq]; [right | now left]. apply Hadd; auto.
      * intros [Hq | [nA [nB [[= <-] [[= <-] [_ [[Hc _] | [_ ->]]]]]]]]; auto. congruence.
  - rewrite nth_error_update_neq in H by congruence.
    destruct (Nat.eq_dec x i) as [-> | Hxi].
    + rewrite nth_error_update_eq, Hi in H. simpl in H. injection H as <-.
      exists nodeA. split; [exact Hi |]. split; [reflexivity |].
      intros q. simpl. rewrite in_add_iff. split.
      * intros [-> | Hq]; [right | now left]. apply Hadd; auto.
      * intros [Hq | [nA [nB [[= <-] [[= <-] [_ [[_ ->] | [Hc _]]]]]]]]; auto. congruence.
    + rewrite nth_error_update_neq in H by congruence.
      exists a'. split; [exact H |]. split; [reflexivity |].
      intros q. split; [auto |].
      intros [Hq | [nA [nB [_ [_ [_ [[Hc _] | [Hc _]]]]]]]]; auto; congruence.
Qed.

Lemma linkPair_wellLinked (i j : nat) (ns : list Node.t) :
  wellLinked ns -> wellLinked (linkPair i j ns).
Proof.
  intros [Hnd [Hcl Hsym]].
  pose proof (Forall2_sameButLinks_ids _ _ (linkPair_sameButLinks i j ns)) as Hids.
  split; [now rewrite Hids |]. split.
  - intros x a' q Hx Hq. rewrite Hids.
    destruct (linkPair_links i j ns x a' Hx) as [a [Ha [_ Hiff]]].
    apply Hiff in Hq.
    destruct Hq as [Hq | [nA [nB [Hi [Hj [_ [[_ ->] | [_ ->]]]]]]]].
    + now apply (Hcl x a).
    + apply in_map. eapply nth_error_In; eassumption.
    + apply in_map. eapply nth_error_In; eassumption.
  - intros x y a' b' Hx Hy Hin.
    destruct (linkPair_links i j ns x a' Hx) as [a [Ha [Hida Hiffa]]].
    destruct (linkPair_links i j ns y b' Hy) as [b [Hb [Hidb Hiffb]]].
    rewrite Hida. apply Hiffb. rewrite Hidb in Hin. apply Hiffa in Hin.
    destruct Hin as [Hin | [nA [nB [Hi [Hj [Hr [[-> Hq] | [-> Hq]]]]]]]].
    + left. now apply (Hsym x y).
    + right. exists nA, nB. repeat split; auto. right.
      rewrite Hi in Ha. injection Ha as <-. split; [| reflexivity].
      now apply (nodup_ids_index ns y j b nB).
    + right. exists nA, nB. repeat split; auto. left.
      rewrite Hj in Ha. injection Ha as <-. split; [| reflexivity].
      now apply (nodup_ids_index ns y i b nA).
Qed.

(** Whatever the links were, the recomputed ones are closed and
    symmetric (identifiers being unique). *)
Lemma rebuildLinks_wellLinked (ns : list Node.t) :
  NoDup (map Node.id ns) -> wellLinked (rebuildLinks ns).
Proof.
  intros Hnd. unfold rebuildLinks.
  apply (fold_left_preserves wellLinked).
  - split; [| split].
    + rewrite map_map. simpl. exact Hnd.
    + intros x a q Hx Hq. rewrite nth_error_map in Hx.
      destruct (nth_error ns x); [| discriminate]. injection Hx as <-. destruct Hq.
    + intros x y a b Hx _ Hq. rewrite nth_error_map in Hx.
      destruct (nth_error ns x); [| discriminate]. injection Hx as <-. destruct Hq.
  - intros ns1 i _ H1. apply (fold_left_preserves wellLinked); [exact H1 |].
    intros ns2 j _ H2. now apply linkPair_wellLinked.
Qed.

(** Being well linked is a property of the identifiers and link sets. *)
Lemma wellLinked_ext (ns ns' : list Node.t) :
  map (fun n => (Node.id n, Node.connections n)) ns'
  = map (fun n => (Node.id n, Node.connections n)) ns ->
  wellLinked ns -> wellLinked ns'.
Proof.
  intros Hl [Hnd [Hcl Hsym]].
  assert (Hids : map Node.id ns' = map Node.id ns).
  { pose proof (f_equal (map fst) Hl) as Hf. rewrite !map_map in Hf. exact Hf. }
  assert (Hnth : forall x a', nth_error ns' x = Some a' ->
             exists a, nth_error ns x = Some a
                       /\ Node.id a = Node.id a'
                       /\ Node.connections a = Node.connections a').
  { intros x a' Hx.
    assert (Hm : nth_error (map (fun n => (Node.id n, Node.connections n)) ns') x
                 = Some (Node.id a', Node.connections a'))
      by now rewrite nth_error_map, Hx.
    rewrite Hl, nth_error_map in Hm.
    destruct (nth_error ns x) as [a |]; [| discriminate].
    simpl in Hm. injection Hm as H1 H2. eauto. }
  split; [now rewrite Hids |]. split.
  - intros x a' q Hx Hq. rewrite Hids.
    destruct (Hnth x a' Hx) as [a [Ha [_ Hc]]]. rewrite <- Hc in Hq.
    now apply (Hcl x a).
  - intros x y a' b' Hx Hy Hin.
    destruct (Hnth x a' Hx) as [a [Ha [Hida Hca]]].
    destruct (Hnth y b' Hy) as [b [Hb [Hidb Hcb]]].
    rewrite <- Hida, <- Hcb. apply (Hsym x y a b Ha Hb).
    now rewrite Hidb, Hca.
Qed.

(** ** Link recomputation as a whole *)

Lemma linkView_links (n n' : Node.t) :
  linkView n = linkView n' ->
  Node.id n = Node.id n' /\ Node.connections n = Node.connections n'.
Proof. unfold linkView. intros [= H1 H2]. auto. Qed.

Section Recompute.
Variable uuidv4 : nat -> string.

(** [updateConnections]: the links are the recomputed ones, and every
    message is a queue flush or a new-link replay of some node, to one of its
    new neighbours. *)
Lemma updateConnections_spec (now : Z) (s : Model.t) :
  exists new,
    emits s (updateConnections uuidv4 now s) new
    /\ linksOf (updateConnections uuidv4 now s)
       = map linkView (rebuildLinks (Model.nodes s))
    /\ Forall
         (fun m =>
            exists node,
              In node (rebuildLinks (Model.nodes s))
              /\ (flushed node m \/ replayedToNeighbour node m))
         new.
Proof.
  unfold updateConnections.
  set (prev := previousNeighbors (Model.nodes s)).
  set (s1 := Model.set_nodes (rebuildLinks (Model.nodes s)) s).
  set (Q := fun m => exists node,
                 In node (rebuildLinks (Model.nodes s))
                 /\ (flushed node m \/ replayedToNeighbour node m)).
  assert (H : (fun k st =>
                 exists new,
                   emits s1 st new
                   /\ viewOf linkView st = viewOf linkView s1
                   /\ (forall i, k <= i -> nodeAt i st = nodeAt i s1)
                   /\ Forall Q new)
              (length (Model.nodes s1))
              (fold_left (syncNode uuidv4 now prev) (seq 0 (length (Model.nodes s1))) s1)).
  { apply fold_left_seq_inv.
    - exists []. split; [apply emits_refl |]. split; [reflexivity |].
      split; [reflexivity | constructor].
    - intros k st Hk [new [He [Hv [Hun Hf]]]].
      destruct (nth_error (Model.nodes s1) k) as [node |] eqn:Hnode.
      2:{ apply nth_error_None in Hnode. lia. }
      assert (Hst : nodeAt k st = Some node) by (rewrite Hun by lia; exact Hnode).
      destruct (syncNode_spec uuidv4 linkView (fun _ _ => eq_refl) (fun _ _ => eq_refl)
                  linkView_links now prev st k node Hst)
        as [new' [He' [Hv' [Hun' Hf']]]].
      exists (new ++ new'). split; [now apply (emits_trans _ _ _ _ _ He) |].
      split; [now rewrite Hv' |]. split.
      + intros i Hi. rewrite Hun' by lia. apply Hun. lia.
      + apply Forall_app. split; [exact Hf |].
        eapply Forall_impl; [| exact Hf']. intros m Hm. exists node.
        split; [| exact Hm]. eapply nth_error_In. exact Hnode. }
  destruct H as [new [He [Hv [_ Hf]]]].
  exists new. split; [exact He |]. split; [exact Hv | exact Hf].
Qed.


End Recompute.

(** A green triage queued at an isolated source, then a sink placed within
    range: the flush sends the triage as green, the new-link replay sends the
    same triage again as red. *)
Example replay_forgets_severity :
  let s :=
    addNode letterUuid 2 1%float 0%float sink
      (sendMessage letterUuid 1 "a" triage (Some green)
         (addNode letterUuid 0 0%float 0%float source emptyModel)) in
  map (fun m => (Message.fromNodeId m, Message.toNodeId m, Message.triageId m,
                 Message.triageSeverity m))
    (Model.messages s)
  = [("a", "c", Some "b", Some green); ("a", "c", Some "b", Some red)]%string.
Proof. vm_compute. reflexivity. Qed.

(** ** Breadth-first search *)

Lemma mhas_false_iff {V : Type} (k : string) (m : JsMap V) :
  Js.mhas k m = false <-> Js.get k m = None.
Proof. unfold Js.mhas. destruct (Js.get k m); split; congruence. Qed.

(** One [connections.forEach] of the search: the distances only grow, every
    neighbour ends with a distance, and the identifiers that join the queue
    are the neighbours that had none. *)
Lemma visitNeighbors_spec (k : nat) (conns : JsSet) :
  forall (dist : JsMap nat) (queue : list string),
  exists added,
    snd (visitNeighbors k conns (dist, queue)) = queue ++ added
    /\ (forall x v, Js.get x dist = Some v ->
          Js.get x (fst (visitNeighbors k conns (dist, queue))) = Some v)
    /\ (forall x v, Js.get x (fst (visitNeighbors k conns (dist, queue))) = Some v ->
          Js.get x dist = Some v
          \/ (v = S k /\ In x conns /\ In x added /\ Js.get x dist = None))
    /\ (forall x, In x conns ->
          exists v, Js.get x (fst (visitNeighbors k conns (dist, queue))) = Some v)
    /\ (forall a, In a added ->
          Js.get a (fst (visitNeighbors k conns (dist, queue))) = Some (S k)
          /\ In a conns).
Proof.
  unfold visitNeighbors.
  induction conns as [| c conns IH]; intros dist queue; simpl.
  - exists []. rewrite app_nil_r.
    split; [reflexivity |]. split; [auto |]. split; [auto |].
    split; [intros x [] | intros a []].
  - destruct (Js.mhas c dist) eqn:Hc; simpl.
    + destruct (IH dist queue) as [added [Hq [Hext [Hnew [Hall Hadd]]]]].
      exists added. split; [exact Hq |]. split; [exact Hext |]. split; [| split].
      * intros x v Hx. destruct (Hnew x v Hx) as [H | [H1 [H2 [H3 H4]]]]; auto 10.
      * intros x [<- | Hx]; [| now apply Hall].
        apply mhas_true_iff in Hc. destruct Hc as [v Hv]. exists v. now apply Hext.
      * intros a Ha. destruct (Hadd a Ha). auto.
    + apply mhas_false_iff in Hc.
      destruct (IH (Js.set c (S k) dist) (queue ++ [c]))
        as [added [Hq [Hext [Hnew [Hall Hadd]]]]].
      exists (c :: added). split; [now rewrite Hq, <- app_assoc |].
      split; [| split; [| split]].
      * intros x v Hx. apply Hext. rewrite get_set_neq; [exact Hx | congruence].
      * intros x v Hx. destruct (Hnew x v Hx) as [H | [H1 [H2 [H3 H4]]]].
        -- destruct (String.eqb_spec x c) as [-> | Hne].
           ++ rewrite get_set_eq in H. injection H as <-. right. simpl. auto.
           ++ rewrite get_set_neq in H by exact Hne. now left.
        -- right. simpl. repeat split; auto.
           destruct (String.eqb_spec x c) as [-> | Hne]; [exact Hc |].
           now rewrite get_set_neq in H4 by exact Hne.
      * intros x [<- | Hx]; [| now apply Hall].
        exists (S k). apply Hext. apply get_set_eq.
      * intros a [<- | Ha].
        -- split; [| now left]. apply Hext. apply get_set_eq.
        -- destruct (Hadd a Ha). auto.
Qed.

Section Bfs.
Variable ns : list Node.t.
Variable sinkId0 : string.

Lemma bfsInv_start : bfsInv ns sinkId0 [(sinkId0, 0)] [sinkId0].
Proof.
  assert (Hget : forall x v, Js.get x [(sinkId0, 0)] = Some v -> x = sinkId0 /\ v = 0).
  { intros x v. simpl. destruct (String.eqb_spec x sinkId0); [| discriminate].
    intros [= <-]. auto. }
  split.
  - intros q [<- | []]. exists 0. simpl. now rewrite String.eqb_refl.
  - repeat constructor.
  - intros h rest vh _ _ x v Hx. destruct (Hget x v Hx) as [_ ->]. lia.
  - intros x v Hx. destruct (Hget x v Hx) as [-> _]. left. now left.
  - intros x v Hx. destruct (Hget x _ Hx) as [_ H]. discriminate.
  - split.
    + simpl. now rewrite String.eqb_refl.
    + intros x Hx. now destruct (Hget x 0 Hx).
Qed.

Lemma StronglySorted_app {A : Type} (R : A -> A -> Prop) (l1 l2 : list A) :
  StronglySorted R l1 -> StronglySorted R l2 ->
  (forall a b, In a l1 -> In b l2 -> R a b) ->
  StronglySorted R (l1 ++ l2).
Proof.
  intros H1 H2 H12. induction H1 as [| a l1 Hs IH Hall]; simpl; [exact H2 |].
  constructor.
  - apply IH. intros x y Hx Hy. apply H12; [now right | exact Hy].
  - apply Forall_app. split; [exact Hall |].
    apply Forall_forall. intros b Hb. apply H12; [now left | exact Hb].
Qed.

Lemma StronglySorted_same {A : Type} (R : A -> A -> Prop) (l : list A) :
  (forall a b, In a l -> In b l -> R a b) -> StronglySorted R l.
Proof.
  induction l as [| x l IH]; intros H; constructor.
  - apply IH. intros a b Ha Hb. apply H; now right.
  - apply Forall_forall. intros b Hb. apply H; [now left | now right].
Qed.

Lemma StronglySorted_impl {A : Type} (R R' : A -> A -> Prop) (l : list A) :
  (forall a b, In a l -> In b l -> R a b -> R' a b) ->
  StronglySorted R l -> StronglySorted R' l.
Proof.
  intros H Hs. induction Hs as [| a l Hs IH Hall]; constructor.
  - apply IH. intros x y Hx Hy. apply H; now right.
  - rewrite Forall_forall in *. intros b Hb. apply H; [now left | now right | auto].
Qed.

(** One turn of the [while] loop keeps the invariant. *)
Lemma bfsInv_skip (dist : JsMap nat) (h : string) (rest : list string) :
  find (idIs h) ns = None ->
  bfsInv ns sinkId0 dist (h :: rest) -> bfsInv ns sinkId0 dist rest.
Proof.
  intros Hfind [Hq Hs Hb He Hp Hr]. inversion Hs as [| a l Hs' Hall]; subst.
  destruct (Hq h (or_introl eq_refl)) as [vh Hvh].
  split; auto.
  - intros q Hin. apply Hq. now right.
  - intros h' rest' vh' -> Hvh' x v Hx.
    pose proof (Hb h _ vh eq_refl Hvh x v Hx) as H1.
    rewrite Forall_forall in Hall.
    pose proof (Hall h' (or_introl eq_refl) vh vh' Hvh Hvh') as H2. lia.
  - intros x v Hx. destruct (He x v Hx) as [[<- | Hin] | Hexp]; auto.
    right. intros node Hnode. congruence.
Qed.

Lemma bfsInv_visit (dist : JsMap nat) (h : string) (rest : list string)
    (node : Node.t) (vh : nat) :
  find (idIs h) ns = Some node ->
  Js.get h dist = Some vh ->
  bfsInv ns sinkId0 dist (h :: rest) ->
  bfsInv ns sinkId0 (fst (visitNeighbors vh (Node.connections node) (dist, rest)))
         (snd (visitNeighbors vh (Node.connections node) (dist, rest))).
Proof.
  intros Hfind Hvh [Hq Hs Hb He Hp Hr].
  destruct (visitNeighbors_spec vh (Node.connections node) dist rest)
    as [added [Hqueue [Hext [Hnew [Hall Hadd]]]]].
  set (dist' := fst (visitNeighbors vh (Node.connections node) (dist, rest))) in *.
  rewrite Hqueue. clear Hqueue.
  inversion Hs as [| a l Hs' Hhead]; subst. rewrite Forall_forall in Hhead.
  assert (Hbound : forall x v, Js.get x dist' = Some v -> v <= S vh).
  { intros x v Hx. destruct (Hnew x v Hx) as [H | [-> _]]; [| lia].
    exact (Hb h rest vh eq_refl Hvh x v H). }
  assert (Hrest : forall q, In q rest -> exists v,
             Js.get q dist = Some v /\ Js.get q dist' = Some v /\ vh <= v).
  { intros q Hin. destruct (Hq q (or_intror Hin)) as [v Hv].
    exists v. split; [exact Hv |]. split; [now apply Hext |].
    exact (Hhead q Hin vh v Hvh Hv). }
  split.
  - intros q Hin. apply in_app_iff in Hin. destruct Hin as [Hin | Hin].
    + destruct (Hrest q Hin) as [v [_ [Hv _]]]. eauto.
    + exists (S vh). now apply Hadd.
  - apply StronglySorted_app.
    + apply (StronglySorted_impl (nearerIn dist)); [| exact Hs'].
      intros a b Ha Hb' Hab va vb Hva Hvb.
      destruct (Hrest a Ha) as [wa [Hwa [Hwa' _]]].
      destruct (Hrest b Hb') as [wb [Hwb [Hwb' _]]].
      assert (va = wa) by congruence. assert (vb = wb) by congruence. subst.
      exact (Hab wa wb Hwa Hwb).
    + apply StronglySorted_same. intros a b Ha Hb' va vb Hva Hvb.
      destruct (Hadd a Ha) as [Ha' _]. destruct (Hadd b Hb') as [Hb'' _].
      assert (va = S vh) by congruence. assert (vb = S vh) by congruence. lia.
    + intros a b Ha Hb' va vb Hva Hvb.
      destruct (Hadd b Hb') as [Hb'' _]. assert (vb = S vh) by congruence. subst.
      now apply (Hbound a).
  - intros h' rest' vh' Heq Hvh' x v Hx.
    pose proof (Hbound x v Hx) as H1.
    assert (H2 : vh <= vh').
    { assert (Hin : In h' (rest ++ added)) by (rewrite Heq; now left).
      apply in_app_iff in Hin. destruct Hin as [Hin | Hin].
      - destruct (Hrest h' Hin) as [w [_ [Hw Hle]]]. congruence.
      - destruct (Hadd h' Hin) as [Hw _]. assert (vh' = S vh) by congruence. lia. }
    lia.
  - intros x v Hx. destruct (Hnew x v Hx) as [H | [-> [_ [Hin _]]]].
    + destruct (He x v H) as [[<- | Hin] | Hexp].
      * right. intros node' Hnode' y Hy.
        assert (node' = node) by congruence. subst node'.
        destruct (Hall y Hy) as [j Hj]. exists j. split; [exact Hj |].
        assert (v = vh) by congruence. subst v. now apply (Hbound y).
      * left. apply in_app_iff. now left.
      * right. intros node' Hnode' y Hy.
        destruct (Hexp node' Hnode' y Hy) as [j [Hj Hle]]. exists j. split; [| exact Hle].
        now apply Hext.
    + left. apply in_app_iff. now right.
  - intros x v Hx. destruct (Hnew x _ Hx) as [H | [Hv [Hin _]]].
    + destruct (Hp x v H) as [c [node' [H1 [H2 H3]]]].
      exists c, node'. repeat split; auto.
    + injection Hv as ->. exists h, node. repeat split; auto.
  - destruct Hr as [Hr1 Hr2]. split; [now apply Hext |].
    intros x Hx. destruct (Hnew x 0 Hx) as [H | [Hv _]]; [now apply Hr2 | discriminate].
Qed.

Lemma bfsLoop_inv (fuel : nat) :
  forall dist queue,
    bfsInv ns sinkId0 dist queue ->
    bfsInv ns sinkId0 (fst (bfsLoop fuel ns dist queue)) (snd (bfsLoop fuel ns dist queue)).
Proof.
  induction fuel as [| fuel IH]; intros dist queue Hinv; simpl; [exact Hinv |].
  destruct queue as [| h rest]; [exact Hinv |].
  destruct (find (idIs h) ns) as [node |] eqn:Hfind.
  - destruct (inv_queued _ _ _ _ Hinv h (or_introl eq_refl)) as [vh Hvh].
    rewrite Hvh.
    pose proof (bfsInv_visit dist h rest node vh Hfind Hvh Hinv) as Hstep.
    destruct (visitNeighbors vh (Node.connections node) (dist, rest)) as [dist' queue'].
    now apply IH.
  - apply IH. now apply (bfsInv_skip dist h rest).
Qed.

(** *** The search ends with an empty queue *)

Lemma undefinedIn_set_le (dist : JsMap nat) (ids : list string) (c : string) (v : nat) :
  undefinedIn (Js.set c v dist) ids <= undefinedIn dist ids.
Proof.
  unfold undefinedIn. induction ids as [| u ids IH]; simpl; [lia |].
  destruct (Js.mhas u dist) eqn:Hu.
  - apply mhas_true_iff in Hu. destruct Hu as [w Hw].
    assert (Hu' : Js.mhas u (Js.set c v dist) = true).
    { apply mhas_true_iff. destruct (String.eqb_spec u c) as [-> | Hne].
      - rewrite get_set_eq. eauto.
      - rewrite get_set_neq by exact Hne. eauto. }
    rewrite Hu'. simpl. exact IH.
  - destruct (Js.mhas u (Js.set c v dist)); simpl; lia.
Qed.

Lemma undefinedIn_set_lt (dist : JsMap nat) (ids : list string) (c : string) (v : nat) :
  In c ids -> Js.mhas c dist = false ->
  S (undefinedIn (Js.set c v dist) ids) <= undefinedIn dist ids.
Proof.
  unfold undefinedIn. induction ids as [| u ids IH]; intros Hin Hc; [destruct Hin |].
  simpl. destruct (String.eqb_spec u c) as [-> | Hne].
  - rewrite Hc. assert (Hc' : Js.mhas c (Js.set c v dist) = true).
    { apply mhas_true_iff. rewrite get_set_eq. eauto. }
    rewrite Hc'. simpl.
    pose proof (undefinedIn_set_le dist ids c v) as H. unfold undefinedIn in H. lia.
  - destruct Hin as [-> | Hin]; [congruence |].
    specialize (IH Hin Hc).
    assert (Hu : Js.mhas u (Js.set c v dist) = Js.mhas u dist).
    { unfold Js.mhas. now rewrite get_set_neq by exact Hne. }
    rewrite Hu. destruct (Js.mhas u dist); simpl; lia.
Qed.

Lemma visitNeighbors_measure (ids : list string) (k : nat) (conns : JsSet) :
  (forall c, In c conns -> In c ids) ->
  forall dist queue,
    length (snd (visitNeighbors k conns (dist, queue)))
    + undefinedIn (fst (visitNeighbors k conns (dist, queue))) ids
    <= length queue + undefinedIn dist ids.
Proof.
  unfold visitNeighbors.
  induction conns as [| c conns IH]; intros Hsub dist queue; simpl; [lia |].
  assert (Hsub' : forall c', In c' conns -> In c' ids)
    by (intros c' Hc'; apply Hsub; now right).
  destruct (Js.mhas c dist) eqn:Hc; simpl.
  - now apply IH.
  - specialize (IH Hsub' (Js.set c (S k) dist) (queue ++ [c])).
    rewrite length_app in IH. simpl in IH.
    pose proof (undefinedIn_set_lt dist ids c (S k) (Hsub c (or_introl eq_refl)) Hc).
    lia.
Qed.

Lemma find_links_in_allLinks (x : string) (node : Node.t) (c : string) :
  find (idIs x) ns = Some node -> In c (Node.connections node) -> In c (allLinks ns).
Proof.
  intros Hfind Hc. apply find_some in Hfind. destruct Hfind as [Hin _].
  unfold allLinks. apply in_concat. exists (Node.connections node).
  split; [now apply in_map | exact Hc].
Qed.

Lemma bfsLoop_done (fuel : nat) :
  forall dist queue,
    length queue + undefinedIn dist (allLinks ns) < fuel ->
    snd (bfsLoop fuel ns dist queue) = [].
Proof.
  induction fuel as [| fuel IH]; intros dist queue Hfuel; [lia |].
  simpl. destruct queue as [| h rest]; [reflexivity |].
  simpl in Hfuel.
  destruct (find (idIs h) ns) as [node |] eqn:Hfind.
  - set (vh := match Js.get h dist with Some d => d | None => 0 end).
    pose proof (visitNeighbors_measure (allLinks ns) vh (Node.connections node)
                  (fun c => find_links_in_allLinks h node c Hfind) dist rest) as Hm.
    destruct (visitNeighbors vh (Node.connections node) (dist, rest)) as [dist' queue'].
    simpl in Hm. apply IH. lia.
  - apply IH. lia.
Qed.

Lemma bfs_done : snd (bfsLoop (bfsFuel ns) ns [(sinkId0, 0)] [sinkId0]) = [].
Proof.
  apply bfsLoop_done. unfold bfsFuel. fold (allLinks ns). simpl.
  pose proof (filter_length_le (fun u => negb (Js.mhas u [(sinkId0, 0)])) (allLinks ns)).
  unfold undefinedIn. lia.
Qed.

(** What the finished search has established. *)
Lemma bfs_result :
  (forall x v, Js.get x (bfs ns sinkId0) = Some v -> expanded ns (bfs ns sinkId0) x v)
  /\ (forall x v, Js.get x (bfs ns sinkId0) = Some (S v) ->
        exists c node,
          find (idIs c) ns = Some node
          /\ Js.get c (bfs ns sinkId0) = Some v
          /\ In x (Node.connections node))
  /\ Js.get sinkId0 (bfs ns sinkId0) = Some 0
  /\ (forall x, Js.get x (bfs ns sinkId0) = Some 0 -> x = sinkId0).
Proof.
  pose proof (bfsLoop_inv (bfsFuel ns) _ _ bfsInv_start) as Hinv.
  rewrite bfs_done in Hinv. fold (bfs ns sinkId0) in Hinv.
  destruct Hinv as [_ _ _ He Hp [Hr1 Hr2]].
  repeat split; auto.
  intros x v Hx. destruct (He x v Hx) as [[] | H]. exact H.
Qed.

(** The hop counts of the search are the distances of the neighbour graph:
    every node the search reaches lies at the end of a walk of that many
    links, and every walk ends at a node the search has reached with no more
    hops. *)
Lemma bfs_walk (d : nat) :
  forall x, Js.get x (bfs ns sinkId0) = Some d -> walk ns sinkId0 x d.
Proof.
  destruct bfs_result as [_ [Hpar [_ Hroot]]].
  induction d as [| v IH]; intros x Hx.
  - rewrite (Hroot x Hx). constructor.
  - destruct (Hpar x v Hx) as [c [node [Hfind [Hc Hin]]]].
    exact (walk_step ns sinkId0 c x v node (IH c Hc) Hfind Hin).
Qed.

Lemma walk_bfs (x : string) (k : nat) :
  walk ns sinkId0 x k ->
  exists d, Js.get x (bfs ns sinkId0) = Some d /\ d <= k.
Proof.
  destruct bfs_result as [Hexp [_ [Hroot _]]].
  induction 1 as [| b c k node _ [db [Hb Hle]] Hfind Hin].
  - exists 0. split; [exact Hroot | lia].
  - destruct (Hexp b db Hb node Hfind c Hin) as [j [Hj Hjle]].
    exists j. split; [exact Hj | lia].
Qed.

Lemma bfs_hopDistance (x : string) (d : nat) :
  Js.get x (bfs ns sinkId0) = Some d <-> hopDistance ns sinkId0 x d.
Proof.
  split.
  - intros Hx. split; [now apply bfs_walk |].
    intros k Hk. destruct (walk_bfs x k Hk) as [d' [Hd' Hle]]. congruence.
  - intros [Hw Hmin]. destruct (walk_bfs x d Hw) as [d' [Hd' Hle]].
    pose proof (Hmin d' (bfs_walk d' x Hd')). now replace d with d' by lia.
Qed.

End Bfs.

(** ** Routing-table builder *)

(** The search reads identifiers and link sets only. *)
Lemma find_linkView (ns ns' : list Node.t) (c : string) :
  map linkView ns' = map linkView ns ->
  match find (idIs c) ns, find (idIs c) ns' with
  | Some n, Some n' => Node.connections n' = Node.connections n
  | None, None => True
  | _, _ => False
  end.
Proof.
  revert ns'. induction ns as [| n ns IH]; intros [| n' ns'] H; simpl in *;
    try discriminate; [exact I |].
  injection H as Hid Hc Hrest.
  assert (E : idIs c n' = idIs c n) by (unfold idIs; now rewrite Hid).
  rewrite E. destruct (idIs c n); [exact Hc | now apply IH].
Qed.

Lemma bfsLoop_linkView (ns ns' : list Node.t) (fuel : nat) :
  map linkView ns' = map linkView ns ->
  forall dist queue, bfsLoop fuel ns' dist queue = bfsLoop fuel ns dist queue.
Proof.
  intros H. induction fuel as [| fuel IH]; intros dist queue; simpl; [reflexivity |].
  destruct queue as [| h rest]; [reflexivity |].
  pose proof (find_linkView ns ns' h H) as Hf.
  destruct (find (idIs h) ns) as [n |], (find (idIs h) ns') as [n' |];
    try contradiction.
  - rewrite Hf. destruct (visitNeighbors _ _ _). apply IH.
  - apply IH.
Qed.

Lemma bfs_linkView (ns ns' : list Node.t) (sinkId0 : string) :
  map linkView ns' = map linkView ns -> bfs ns' sinkId0 = bfs ns sinkId0.
Proof.
  intros H. unfold bfs.
  assert (Hfuel : bfsFuel ns' = bfsFuel ns).
  { unfold bfsFuel. f_equal. f_equal. f_equal.
    pose proof (f_equal (map snd) H) as Hs. rewrite !map_map in Hs. exact Hs. }
  now rewrite Hfuel, (bfsLoop_linkView ns ns' _ H).
Qed.

Lemma in_ids_find (ns : list Node.t) (q : string) :
  In q (map Node.id ns) -> exists node, find (idIs q) ns = Some node.
Proof.
  intros H. apply in_map_iff in H. destruct H as [n [Hid Hin]].
  destruct (find (idIs q) ns) as [node |] eqn:Hf; [eauto |].
  exfalso. apply (find_none _ _ Hf) in Hin. unfold idIs in Hin.
  apply String.eqb_neq in Hin. contradiction.
Qed.

Section Edges.
Variable ns : list Node.t.
Variable sinkId0 : string.
Hypothesis Hwell : wellLinked ns.

(** Across a link the distances differ by at most one. *)
Lemma bfs_edge (x : nat) (node : Node.t) (p : string) (d dp : nat) :
  nth_error ns x = Some node ->
  In p (Node.connections node) ->
  Js.get (Node.id node) (bfs ns sinkId0) = Some d ->
  Js.get p (bfs ns sinkId0) = Some dp ->
  d <= S dp.
Proof.
  intros Hx Hp Hd Hdp. destruct Hwell as [Hnd [Hcl Hsym]].
  destruct (in_ids_find ns p (Hcl x node p Hx Hp)) as [peer Hpeer].
  destruct (find_idIs _ _ _ Hpeer) as [Hin Hid].
  destruct (In_nth_error _ _ Hin) as [y Hy].
  assert (Hback : In (Node.id node) (Node.connections peer)).
  { apply (Hsym x y node peer Hx Hy). now rewrite Hid. }
  destruct (bfs_result ns sinkId0) as [Hexp _].
  destruct (Hexp p dp Hdp peer Hpeer (Node.id node) Hback) as [j [Hj Hle]].
  congruence.
Qed.

(** A node the search reaches, other than the sink, has a neighbour one hop
    nearer. *)
Lemma bfs_parent (x : nat) (node : Node.t) (d : nat) :
  nth_error ns x = Some node ->
  Node.id node <> sinkId0 ->
  Js.get (Node.id node) (bfs ns sinkId0) = Some d ->
  exists d' c,
    d = S d' /\ In c (Node.connections node) /\ Js.get c (bfs ns sinkId0) = Some d'.
Proof.
  intros Hx Hne Hd. destruct Hwell as [Hnd [Hcl Hsym]].
  destruct (bfs_result ns sinkId0) as [_ [Hpar [_ Hroot]]].
  destruct d as [| d']; [exfalso; apply Hne; now apply Hroot |].
  destruct (Hpar _ _ Hd) as [c [parent [Hf [Hc Hin]]]].
  destruct (find_idIs _ _ _ Hf) as [Hinp Hid].
  destruct (In_nth_error _ _ Hinp) as [y Hy].
  exists d', c. split; [reflexivity |]. split; [| exact Hc].
  rewrite <- Hid. now apply (Hsym y x parent node Hy Hx).
Qed.

End Edges.

(** *** Next hops *)

Lemma computeNextHops_acc (distances : JsMap nat) (hopCount : nat) (conns : JsSet) :
  forall acc p h,
    Js.get p
      (fold_left
         (fun nh neighborId =>
            match Js.get neighborId distances with
            | Some neighborDistance =>
                if neighborDistance <? hopCount
                then Js.set neighborId (S neighborDistance) nh
                else nh
            | None => nh
            end)
         conns acc)
    = Some h <->
    (In p conns /\ nearer distances hopCount p h)
    \/ (~ (In p conns /\ exists h', nearer distances hopCount p h')
        /\ Js.get p acc = Some h).
Proof.
  induction conns as [| c conns IH]; intros acc p h; simpl.
  - split; [intros H; right; split; [intros [[] _] | exact H] | intros [[[] _] | [_ H]]; exact H].
  - rewrite IH. clear IH.
    destruct (Js.get c distances) as [dc |] eqn:Hc.
    + destruct (Nat.ltb_spec dc hopCount) as [Hlt | Hge].
      * split.
        -- intros [[Hin Hn] | [Hnot Hget]]; [left; auto |].
           destruct (String.eqb_spec p c) as [-> | Hne].
           ++ rewrite get_set_eq in Hget. injection Hget as <-.
              left. split; [now left |]. exists dc. auto.
           ++ rewrite get_set_neq in Hget by exact Hne.
              right. split; [| exact Hget].
              intros [[Heq | Hin] Hex]; [congruence | apply Hnot; auto].
        -- intros [[[<- | Hin] Hn] | [Hnot Hget]].
           ++ destruct (in_dec string_dec c conns) as [Hin | Hnin]; [left; auto |].
              right. split; [intros [Hin _]; contradiction |].
              destruct Hn as [dp [Hdp [_ ->]]].
              assert (dp = dc) by congruence. subst. apply get_set_eq.
           ++ left. auto.
           ++ right. split; [intros [Hin Hex]; apply Hnot; auto |].
              destruct (String.eqb_spec p c) as [-> | Hne].
              ** exfalso. apply Hnot. split; [now left |]. exists (S dc), dc. auto.
              ** now rewrite get_set_neq by exact Hne.
      * split.
        -- intros [[Hin Hn] | [Hnot Hget]]; [left; auto |].
           right. split; [| exact Hget].
           intros [[<- | Hin] [h' Hn']].
           ++ destruct Hn' as [dp [Hdp [Hlt _]]]. assert (dp = dc) by congruence. lia.
           ++ apply Hnot. split; [exact Hin |]. exists h'. exact Hn'.
        -- intros [[[<- | Hin] Hn] | [Hnot Hget]].
           ++ destruct Hn as [dp [Hdp [Hlt _]]]. assert (dp = dc) by congruence. lia.
           ++ left. auto.
           ++ right. split; [intros [Hin Hex]; apply Hnot; auto | exact Hget].
    + split.
      * intros [[Hin Hn] | [Hnot Hget]]; [left; auto |].
        right. split; [| exact Hget].
        intros [[<- | Hin] [h' Hn']]; [destruct Hn' as [dp [Hdp _]]; congruence |].
        apply Hnot. split; [exact Hin |]. exists h'. exact Hn'.
      * intros [[[<- | Hin] Hn] | [Hnot Hget]].
        -- destruct Hn as [dp [Hdp _]]. congruence.
        -- left. auto.
        -- right. split; [intros [Hin Hex]; apply Hnot; auto | exact Hget].
Qed.

Lemma computeNextHops_spec (distances : JsMap nat) (hopCount : nat) (conns : JsSet)
    (p : string) (h : nat) :
  Js.get p (computeNextHops distances hopCount conns) = Some h
  <-> In p conns /\ nearer distances hopCount p h.
Proof.
  unfold computeNextHops. rewrite computeNextHops_acc. split.
  - intros [H | [_ H]]; [exact H | discriminate].
  - auto.
Qed.

Lemma computeNextHops_keys (distances : JsMap nat) (hopCount : nat) (conns : JsSet)
    (p : string) :
  In p (Js.keys (computeNextHops distances hopCount conns)) -> In p conns.
Proof.
  intros H. apply in_keys_get in H. destruct H as [h Hh].
  now apply computeNextHops_spec in Hh.
Qed.

(** *** One sink, one node *)

Lemma demote_other (now : Z) (k k' : string) (node : Node.t) :
  k' <> k ->
  Js.get k' (Node.routingTable (demote now k node)) = Js.get k' (Node.routingTable node)
  /\ Js.get k' (Node.inactiveRoutingTables (demote now k node))
     = Js.get k' (Node.inactiveRoutingTables node).
Proof.
  intros Hne. unfold demote. destruct (Js.get k (Node.routingTable node)); simpl.
  - now rewrite get_mdelete_neq, get_set_neq.
  - auto.
Qed.

Lemma demote_same (now : Z) (k : string) (node : Node.t) :
  Js.get k (Node.routingTable (demote now k node)) = None.
Proof.
  unfold demote. destruct (Js.get k (Node.routingTable node)) eqn:E; simpl.
  - apply get_mdelete_eq.
  - exact E.
Qed.

Lemma demote_linkView (now : Z) (k : string) (node : Node.t) :
  linkView (demote now k node) = linkView node.
Proof. unfold demote. now destruct (Js.get k (Node.routingTable node)). Qed.

Lemma routeNode_linkView (now : Z) (sinkId0 : string) (distances : JsMap nat)
    (node : Node.t) :
  linkView (routeNode now sinkId0 distances node) = linkView node.
Proof.
  unfold routeNode. destruct (String.eqb (Node.id node) sinkId0); [reflexivity |].
  destruct (Js.get (Node.id node) distances); [| apply demote_linkView].
  destruct (0 <? _); simpl.
  - now destruct (Js.mhas sinkId0 (Node.inactiveRoutingTables node)).
  - now destruct (Js.get sinkId0 (Node.routingTable node)).
Qed.

(** Routing for one sink leaves the entries of the other sinks alone. *)
Lemma routeNode_other (now : Z) (sinkId0 k : string) (distances : JsMap nat)
    (node : Node.t) :
  k <> sinkId0 ->
  Js.get k (Node.routingTable (routeNode now sinkId0 distances node))
  = Js.get k (Node.routingTable node)
  /\ Js.get k (Node.inactiveRoutingTables (routeNode now sinkId0 distances node))
     = Js.get k (Node.inactiveRoutingTables node).
Proof.
  intros Hne. unfold routeNode.
  destruct (String.eqb (Node.id node) sinkId0); [auto |].
  destruct (Js.get (Node.id node) distances); [| now apply demote_other].
  destruct (0 <? _); simpl.
  - destruct (Js.mhas sinkId0 (Node.inactiveRoutingTables node)); simpl;
      rewrite ?get_set_neq, ?get_mdelete_neq by exact Hne; auto.
  - destruct (Js.get sinkId0 (Node.routingTable node)); simpl;
      rewrite ?get_set_neq, ?get_mdelete_neq by exact Hne; auto.
Qed.

(** The entry it writes lists neighbours only. *)
Lemma routeNode_follows (now : Z) (sinkId0 : string) (distances : JsMap nat)
    (node : Node.t) (e : RoutingTableEntry) (p : string) :
  Node.id node <> sinkId0 ->
  Js.get sinkId0 (Node.routingTable (routeNode now sinkId0 distances node)) = Some e ->
  In p (Js.keys (nextHops e)) ->
  In p (Node.connections node).
Proof.
  intros Hne. unfold routeNode. apply String.eqb_neq in Hne. rewrite Hne.
  destruct (Js.get (Node.id node) distances) as [hopCount |].
  2:{ rewrite demote_same. discriminate. }
  destruct (0 <? _); simpl.
  - destruct (Js.mhas sinkId0 (Node.inactiveRoutingTables node)); simpl;
      rewrite get_set_eq; intros [= <-]; simpl; apply computeNextHops_keys.
  - destruct (Js.get sinkId0 (Node.routingTable node)); simpl;
      rewrite get_mdelete_eq; discriminate.
Qed.

(** For a node the search reached: the entry is there, fresh, and no
    inactive entry is left. *)
Lemma routeNode_reached (now : Z) (sinkId0 : string) (distances : JsMap nat)
    (node : Node.t) (hopCount : nat) (c : string) (hc : nat) :
  Node.id node <> sinkId0 ->
  Js.get (Node.id node) distances = Some hopCount ->
  In c (Node.connections node) -> nearer distances hopCount c hc ->
  Js.get sinkId0 (Node.routingTable (routeNode now sinkId0 distances node))
  = Some {| nextHops := computeNextHops distances hopCount (Node.connections node);
            lastUpdate := now |}
  /\ Js.get sinkId0 (Node.inactiveRoutingTables (routeNode now sinkId0 distances node))
     = None.
Proof.
  intros Hne Hd Hc Hn. unfold routeNode. apply String.eqb_neq in Hne. rewrite Hne, Hd.
  assert (Hpos : (0 <? length (computeNextHops distances hopCount (Node.connections node)))
                 = true).
  { apply Nat.ltb_lt.
    assert (Hget : Js.get c (computeNextHops distances hopCount (Node.connections node))
                   = Some hc) by (apply computeNextHops_spec; auto).
    destruct (computeNextHops distances hopCount (Node.connections node));
      [discriminate | simpl; lia]. }
  rewrite Hpos. simpl.
  destruct (Js.mhas sinkId0 (Node.inactiveRoutingTables node)) eqn:Hm; simpl.
  - split; [apply get_set_eq | apply get_mdelete_eq].
  - split; [apply get_set_eq | now apply mhas_false_iff].
Qed.

(** *** The passes before the search *)

Lemma retire_fold (now : Z) (ks : list string) :
  forall node,
    linkView (fold_left (fun n k => demote now k n) ks node) = linkView node
    /\ (forall k, In k ks ->
          Js.get k (Node.routingTable (fold_left (fun n k => demote now k n) ks node))
          = None)
    /\ (forall k, ~ In k ks ->
          Js.get k (Node.routingTable (fold_left (fun n k => demote now k n) ks node))
          = Js.get k (Node.routingTable node)
          /\ Js.get k (Node.inactiveRoutingTables
                         (fold_left (fun n k => demote now k n) ks node))
             = Js.get k (Node.inactiveRoutingTables node)).
Proof.
  induction ks as [| k0 ks IH]; intros node; simpl.
  - repeat split; auto. intros k [].
  - destruct (IH (demote now k0 node)) as [Hl [Hin Hout]].
    split; [now rewrite Hl, demote_linkView |]. split.
    + intros k [<- | Hk]; [| now apply Hin].
      destruct (in_dec string_dec k0 ks) as [Hk | Hk]; [now apply Hin |].
      destruct (Hout k0 Hk) as [-> _]. apply demote_same.
    + intros k Hk.
      assert (Hne : k <> k0) by (intros ->; apply Hk; now left).
      assert (Hk' : ~ In k ks) by (intros H; apply Hk; now right).
      destruct (Hout k Hk') as [-> ->]. now apply demote_other.
Qed.

Lemma retireVanishedSinks_spec (now : Z) (sinkIds : JsSet) (node : Node.t) :
  linkView (retireVanishedSinks now sinkIds node) = linkView node
  /\ (forall k e,
        Js.get k (Node.routingTable (retireVanishedSinks now sinkIds node)) = Some e ->
        In k sinkIds /\ Js.get k (Node.routingTable node) = Some e).
Proof.
  unfold retireVanishedSinks.
  set (ks := filter (fun k => negb (Js.has k sinkIds)) (Js.keys (Node.routingTable node))).
  destruct (retire_fold now ks node) as [Hl [Hin Hout]].
  split; [exact Hl |]. intros k e He.
  destruct (in_dec string_dec k ks) as [Hk | Hk].
  - rewrite (Hin k Hk) in He. discriminate.
  - destruct (Hout k Hk) as [Hrt _]. rewrite Hrt in He. split; [| exact He].
    destruct (Js.has k sinkIds) eqn:Hh; [now apply has_true_iff |].
    exfalso. apply Hk. subst ks. apply filter_In. split.
    + eapply get_some_in_keys. exact He.
    + now rewrite Hh.
Qed.

Lemma dropExpiredInactive_spec (now timeout : Z) (node : Node.t) :
  linkView (dropExpiredInactive now timeout node) = linkView node
  /\ Node.routingTable (dropExpiredInactive now timeout node) = Node.routingTable node.
Proof. unfold dropExpiredInactive. simpl. auto. Qed.

(** *** All sinks *)

Lemma routeSink_linkView (now : Z) (ns : list Node.t) (sinkId0 : string) :
  map linkView (routeSink now ns sinkId0) = map linkView ns.
Proof.
  unfold routeSink. rewrite map_map. apply map_ext. intros n.
  apply routeNode_linkView.
Qed.

Lemma fold_routeSink_linkView (now : Z) (sids : list string) :
  forall ns, map linkView (fold_left (routeSink now) sids ns) = map linkView ns.
Proof.
  induction sids as [| k sids IH]; intros ns; simpl; [reflexivity |].
  now rewrite IH, routeSink_linkView.
Qed.

(** The sinks routed later leave the entry for [k] as it is. *)
Lemma fold_routeSink_other (now : Z) (k : string) (sids : list string) :
  ~ In k sids ->
  forall ns x node,
    nth_error ns x = Some node ->
    exists node',
      nth_error (fold_left (routeSink now) sids ns) x = Some node'
      /\ linkView node' = linkView node
      /\ Js.get k (Node.routingTable node') = Js.get k (Node.routingTable node)
      /\ Js.get k (Node.inactiveRoutingTables node')
         = Js.get k (Node.inactiveRoutingTables node).
Proof.
  induction sids as [| k0 sids IH]; intros Hk ns x node Hx; simpl.
  - exists node. auto.
  - assert (Hne : k <> k0) by (intros ->; apply Hk; now left).
    assert (Hk' : ~ In k sids) by (intros H; apply Hk; now right).
    destruct (IH Hk' (routeSink now ns k0) x (routeNode now k0 (bfs ns k0) node))
      as [node' [Hx' [Hl [Hrt Hin]]]].
    { unfold routeSink. now rewrite nth_error_map, Hx. }
    exists node'. split; [exact Hx' |].
    destruct (routeNode_other now k0 k (bfs ns k0) node Hne) as [Hrt0 Hin0].
    split; [now rewrite Hl, routeNode_linkView |].
    split; congruence.
Qed.

Lemma in_sinkIds_fold (l : list Node.t) (acc : JsSet) (k : string) :
  In k (fold_left (fun acc n => Js.add (Node.id n) acc) l acc)
  <-> In k acc \/ In k (map Node.id l).
Proof.
  revert acc. induction l as [| n l IH]; intros acc; simpl; [tauto |].
  rewrite IH, in_add_iff. intuition (subst; auto).
Qed.

(** The sinks of a world with unique identifiers have unique identifiers. *)
Lemma sink_ids_nodup (ns : list Node.t) :
  NoDup (map Node.id ns) -> NoDup (map Node.id (filter isSink ns)).
Proof.
  induction ns as [| n ns IH]; simpl; intros Hnd; [constructor |].
  apply NoDup_cons_iff in Hnd. destruct Hnd as [Hn Hns].
  destruct (isSink n); simpl; [| now apply IH].
  apply NoDup_cons_iff. split; [| now apply IH].
  intros Hin. apply Hn. apply in_map_iff in Hin. destruct Hin as [m [Hm Hin]].
  apply filter_In in Hin. rewrite <- Hm. apply in_map. apply Hin.
Qed.

Lemma rebuildRoutes_unfold (now timeout : Z) (ns : list Node.t) :
  rebuildRoutes now timeout ns
  = fold_left (routeSink now) (map Node.id (filter isSink ns))
      (beforeSearch now timeout ns).
Proof. reflexivity. Qed.

Lemma beforeSearch_linkView (now timeout : Z) (ns : list Node.t) :
  map linkView (beforeSearch now timeout ns) = map linkView ns.
Proof.
  unfold beforeSearch. rewrite !map_map. apply map_ext. intros n.
  destruct (dropExpiredInactive_spec now timeout
              (retireVanishedSinks now
                 (fold_left (fun acc n0 => Js.add (Node.id n0) acc) (filter isSink ns) [])
                 n)) as [-> _].
  apply retireVanishedSinks_spec.
Qed.

Lemma rebuildRoutes_linkView (now timeout : Z) (ns : list Node.t) :
  map linkView (rebuildRoutes now timeout ns) = map linkView ns.
Proof.
  now rewrite rebuildRoutes_unfold, fold_routeSink_linkView, beforeSearch_linkView.
Qed.

Lemma nth_error_linkView (ns ns' : list Node.t) (x : nat) (node : Node.t) :
  map linkView ns' = map linkView ns -> nth_error ns x = Some node ->
  exists node', nth_error ns' x = Some node' /\ linkView node' = linkView node.
Proof.
  intros H Hx.
  assert (Hm : nth_error (map linkView ns) x = Some (linkView node))
    by now rewrite nth_error_map, Hx.
  rewrite <- H, nth_error_map in Hm.
  destruct (nth_error ns' x) as [node' |]; [| discriminate].
  exists node'. split; [reflexivity |]. simpl in Hm. congruence.
Qed.

(** The table passes on the node array.  In a well-linked world, after them
    a node [node] other than the sink [sinkNode] that the search from the
    sink reaches at hop count [d] has a routing entry for it, stamped [now],
    whose next hops are exactly the neighbours at distance [d - 1], each with
    total hop count [d]; it has no inactive entry for that sink. *)
Lemma rebuildRoutes_reached (now timeout : Z) (ns : list Node.t) (x : nat)
    (node sinkNode : Node.t) (d : nat) :
  wellLinked ns ->
  nth_error ns x = Some node ->
  In sinkNode ns -> isSink sinkNode = true ->
  Node.id node <> Node.id sinkNode ->
  Js.get (Node.id node) (bfs ns (Node.id sinkNode)) = Some d ->
  exists node' entry,
    nth_error (rebuildRoutes now timeout ns) x = Some node'
    /\ Node.id node' = Node.id node
    /\ Node.connections node' = Node.connections node
    /\ Js.get (Node.id sinkNode) (Node.routingTable node') = Some entry
    /\ lastUpdate entry = now
    /\ nextHops entry <> []
    /\ (forall p h,
          Js.get p (nextHops entry) = Some h <->
          In p (Node.connections node)
          /\ Js.get p (bfs ns (Node.id sinkNode)) = Some (d - 1)
          /\ h = d)
    /\ Js.get (Node.id sinkNode) (Node.inactiveRoutingTables node') = None.
Proof.
  intros Hwell Hx Hsink Hsinkb Hne Hd.
  set (k := Node.id sinkNode) in *.
  rewrite rebuildRoutes_unfold.
  assert (Hk : In k (map Node.id (filter isSink ns))).
  { apply in_map. apply filter_In. auto. }
  assert (Hnd : NoDup (map Node.id (filter isSink ns))).
  { apply sink_ids_nodup. apply Hwell. }
  destruct (in_split _ _ Hk) as [l1 [l2 Hsplit]].
  rewrite Hsplit in Hnd |- *.
  assert (Hk2 : ~ In k l2).
  { apply NoDup_remove_2 in Hnd. intros H. apply Hnd. apply in_or_app. now right. }
  rewrite fold_left_app. simpl.
  set (ns1 := fold_left (routeSink now) l1 (beforeSearch now timeout ns)).
  assert (Hl1 : map linkView ns1 = map linkView ns).
  { subst ns1. now rewrite fold_routeSink_linkView, beforeSearch_linkView. }
  destruct (nth_error_linkView ns ns1 x node Hl1 Hx) as [node1 [Hx1 Hv1]].
  destruct (linkView_links _ _ Hv1) as [Hid1 Hc1].
  pose proof (bfs_linkView ns ns1 k Hl1) as Hbfs.
  destruct (bfs_parent ns k Hwell x node d Hx Hne Hd) as [d' [c [-> [Hc Hdc]]]].
  assert (Hnear : nearer (bfs ns k) (S d') c (S d')).
  { exists d'. auto. }
  destruct (routeNode_reached now k (bfs ns k) node1 (S d') c (S d'))
    as [Hrt Hinact]; try (rewrite ?Hid1, ?Hc1; auto).
  destruct (fold_routeSink_other now k l2 Hk2 (routeSink now ns1 k) x
              (routeNode now k (bfs ns1 k) node1))
    as [node' [Hx' [Hl' [Hrt' Hin']]]].
  { unfold routeSink. now rewrite nth_error_map, Hx1. }
  rewrite Hbfs in *.
  rewrite routeNode_linkView in Hl'.
  destruct (linkView_links _ _ Hl') as [Hid' Hc'].
  eexists node', _. split; [exact Hx' |].
  split; [congruence |]. split; [congruence |].
  split; [rewrite Hrt'; exact Hrt |]. simpl.
  split; [reflexivity |]. rewrite Hc1. split; [| split].
  - assert (Hget : Js.get c (computeNextHops (bfs ns k) (S d') (Node.connections node))
                   = Some (S d')) by (apply computeNextHops_spec; auto).
    intros E. rewrite E in Hget. discriminate.
  - intros p h. rewrite computeNextHops_spec. simpl. rewrite Nat.sub_0_r. split.
    + intros [Hp [dp [Hdp [Hlt ->]]]]. split; [exact Hp |].
      pose proof (bfs_edge ns k Hwell x node p (S d') dp Hx Hp Hd Hdp) as Hle.
      assert (dp = d') by lia. subst. auto.
    + intros [Hp [Hdp ->]]. split; [exact Hp |]. exists d'. auto.
  - now rewrite Hin'.
Qed.

(** ** The routing pass as a whole *)

Lemma replayedAlongRoute_view (s s' : Model.t) (newSinkId : string) (m : Message.t) :
  viewOf routeView s = viewOf routeView s' ->
  replayedAlongRoute s newSinkId m -> replayedAlongRoute s' newSinkId m.
Proof.
  intros Hv [sinkJ [routeEntry [Hin [Hne [Hget [Hhop Hrep]]]]]].
  destruct (In_nth_error _ _ Hin) as [j Hj].
  destruct (viewOf_nodeAt routeView s s' j sinkJ (eq_sym Hv) Hj) as [sinkJ' [Hj' Hg]].
  unfold routeView in Hg. injection Hg as Hid Hc Hrt.
  exists sinkJ', routeEntry. rewrite Hid, Hrt.
  split; [eapply nth_error_In; exact Hj' | auto].
Qed.

Section Pass.
Variable uuidv4 : nat -> string.

Section PassViews.
Context {B : Type} (g : Node.t -> B).
Hypothesis g_sent : forall v n, g (Node.set_sentTriagesToSinks v n) = g n.
Hypothesis g_state : forall v n, g (Node.set_routingState v n) = g n.

Lemma syncNewSink_view (now : Z) (k : nat) (s : Model.t) :
  viewOf g (syncNewSinkFromExistingSinks uuidv4 now k s) = viewOf g s.
Proof.
  unfold syncNewSinkFromExistingSinks.
  destruct (nodeAt k s) as [newSink |]; [| reflexivity].
  destruct (negb _); [reflexivity |].
  destruct (length _ =? 0); [reflexivity |].
  match goal with
  | |- viewOf g (notifyListeners (fold_left ?f ?js s)) = _ =>
      change (viewOf g (fold_left f js s) = viewOf g s); generalize js
  end.
  intros js. revert s. induction js as [| j js IH]; intros s; simpl; [reflexivity |].
  rewrite IH.
  destruct (syncFromSink_spec g uuidv4 g_sent now newSink s s j eq_refl)
    as [new [_ [Hv _]]].
  exact Hv.
Qed.

Lemma updateRoutingState_view (now : Z) (ns : list Node.t) :
  map g (map (updateRoutingState now) ns) = map g ns.
Proof.
  rewrite map_map. apply map_ext. intros n. unfold updateRoutingState.
  destruct (countRoutes now (Node.routingTable n)).
  destruct (decideMode n _ _ _). apply g_state.
Qed.

End PassViews.

(** [updateRoutingTables]: the tables are those of [rebuildRoutes], the
    modes those of the classifier, and the only messages are new-sink
    replays along the fresh routes. *)
Lemma updateRoutingTables_spec {B : Type} (g : Node.t -> B) (now : Z) (s : Model.t) :
  (forall v n, g (Node.set_sentTriagesToSinks v n) = g n) ->
  exists new,
    emits s (updateRoutingTables uuidv4 now s) new
    /\ viewOf g (updateRoutingTables uuidv4 now s) = viewOf g (afterTables now s)
    /\ Forall
         (fun m => exists newSinkId, replayedAlongRoute (afterTables now s) newSinkId m)
         new.
Proof.
  intros g_sent. unfold updateRoutingTables. fold (afterTables now s).
  set (s2 := afterTables now s).
  assert (Hm2 : emits s s2 []).
  { unfold emits. subst s2. unfold afterTables, updateRoutingStates. simpl.
    now rewrite app_nil_r. }
  set (sinks := indicesWhere isSink (Model.nodes s)).
  assert (Hloop : forall ks st,
             viewOf g st = viewOf g s2 ->
             viewOf routeView st = viewOf routeView s2 ->
             exists new,
               emits st
                 (fold_left
                    (fun s0 k =>
                       match nodeAt k s0 with
                       | Some potentialNewSink =>
                           if someOtherSinkHasRoute sinks (Node.id potentialNewSink) s0
                           then syncNewSinkFromExistingSinks uuidv4 now k s0
                           else s0
                       | None => s0
                       end)
                    ks st) new
               /\ viewOf g
                    (fold_left
                       (fun s0 k =>
                          match nodeAt k s0 with
                          | Some potentialNewSink =>
                              if someOtherSinkHasRoute sinks (Node.id potentialNewSink) s0
                              then syncNewSinkFromExistingSinks uuidv4 now k s0
                              else s0
                          | None => s0
                          end)
                       ks st)
                  = viewOf g s2
               /\ Forall
                    (fun m => exists newSinkId, replayedAlongRoute s2 newSinkId m) new).
  { induction ks as [| k ks IH]; intros st Hv Hrv; simpl.
    - exists []. split; [apply emits_refl |]. split; [exact Hv | constructor].
    - set (st1 := match nodeAt k st with
                  | Some potentialNewSink =>
                      if someOtherSinkHasRoute sinks (Node.id potentialNewSink) st
                      then syncNewSinkFromExistingSinks uuidv4 now k st
                      else st
                  | None => st
                  end).
      assert (H1 : exists new1,
                 emits st st1 new1
                 /\ viewOf g st1 = viewOf g s2
                 /\ viewOf routeView st1 = viewOf routeView s2
                 /\ Forall
                      (fun m => exists newSinkId, replayedAlongRoute s2 newSinkId m)
                      new1).
      { subst st1. destruct (nodeAt k st) as [pns |].
        2:{ exists []. split; [apply emits_refl |]. repeat split; auto. }
        destruct (someOtherSinkHasRoute sinks (Node.id pns) st).
        2:{ exists []. split; [apply emits_refl |]. repeat split; auto. }
        destruct (syncNewSink_spec uuidv4 now k st) as [new1 [He1 [Hrv1 Hf1]]].
        exists new1. split; [exact He1 |].
        split; [now rewrite (syncNewSink_view g g_sent) |].
        split; [now rewrite Hrv1 |].
        eapply Forall_impl; [| exact Hf1]. intros m [newSink [_ Hm]].
        exists (Node.id newSink). now apply (replayedAlongRoute_view st s2). }
      destruct H1 as [new1 [He1 [Hv1 [Hrv1 Hf1]]]].
      destruct (IH st1 Hv1 Hrv1) as [new2 [He2 [Hv2 Hf2]]].
      exists (new1 ++ new2). split; [now apply (emits_trans _ _ _ _ _ He1) |].
      split; [exact Hv2 |]. apply Forall_app. now split. }
  destruct (Hloop sinks s2 eq_refl eq_refl) as [new [He [Hv Hf]]].
  exists new. split; [| split; [exact Hv | exact Hf]].
  exact (emits_trans _ _ _ _ _ Hm2 He).
Qed.

Lemma updateRoutingTables_tables (now : Z) (s : Model.t) :
  viewOf tablesView (updateRoutingTables uuidv4 now s)
  = map tablesView
      (rebuildRoutes now (Model.inactiveRoutingTimeout s) (Model.nodes s)).
Proof.
  destruct (updateRoutingTables_spec tablesView now s (fun _ _ => eq_refl))
    as [new [_ [Hv _]]].
  rewrite Hv. unfold afterTables, updateRoutingStates, viewOf. simpl.
  apply updateRoutingState_view. intros v n. reflexivity.
Qed.

(** C2.  After a routing pass over a well-linked world, for every non-sink
    node [node] and every sink [sinkNode] that the breadth-first search from
    the sink reaches at hop count [d]: the routing table of the node has an
    entry for the sink; its next hops are exactly the neighbours [p] of the
    node whose search distance is [d - 1], each mapped to the total hop count
    [d]; its [lastUpdate] is the timestamp of the pass; and the node has no
    inactive entry for the sink any more.  So every listed next hop is a
    current neighbour, one hop nearer to the sink than the node.  The hop
    counts of the search are the distances of the neighbour graph: a node is
    reached at [k] hops exactly when its shortest walk from the sink has [k]
    links. *)
Theorem routing_pass_builds_shortest_routes (now : Z) (s : Model.t) (x : nat)
    (node sinkNode : Node.t) (d : nat) :
  wellLinked (Model.nodes s) ->
  nodeAt x s = Some node ->
  isSink node = false ->
  In sinkNode (Model.nodes s) ->
  isSink sinkNode = true ->
  Js.get (Node.id node) (bfs (Model.nodes s) (Node.id sinkNode)) = Some d ->
  exists node' entry,
    nodeAt x (updateRoutingTables uuidv4 now s) = Some node'
    /\ Node.id node' = Node.id node
    /\ Node.connections node' = Node.connections node
    /\ Js.get (Node.id sinkNode) (Node.routingTable node') = Some entry
    /\ lastUpdate entry = now
    /\ nextHops entry <> []
    /\ (forall p h,
          Js.get p (nextHops entry) = Some h <->
          In p (Node.connections node)
          /\ Js.get p (bfs (Model.nodes s) (Node.id sinkNode)) = Some (d - 1)
          /\ h = d)
    /\ Js.get (Node.id sinkNode) (Node.inactiveRoutingTables node') = None
    /\ (forall y k,
          Js.get y (bfs (Model.nodes s) (Node.id sinkNode)) = Some k <->
          hopDistance (Model.nodes s) (Node.id sinkNode) y k).
Proof.
  intros Hwell Hx Hsrc Hin Hsink Hd.
  assert (Hne : Node.id node <> Node.id sinkNode).
  { intros Heq. destruct (In_nth_error _ _ Hin) as [y Hy].
    assert (x = y) by (apply (nodup_ids_index (Model.nodes s) x y node sinkNode);
                       auto; apply Hwell).
    subst y. unfold nodeAt in Hx. congruence. }
  destruct (rebuildRoutes_reached now (Model.inactiveRoutingTimeout s) (Model.nodes s)
              x node sinkNode d Hwell Hx Hin Hsink Hne Hd)
    as [node1 [entry [Hx1 [Hid1 [Hc1 [Hrt1 [Hlu [Hnh [Hhops Hinact1]]]]]]]]].
  pose proof (updateRoutingTables_tables now s) as Hv.
  assert (Hm : nth_error (viewOf tablesView (updateRoutingTables uuidv4 now s)) x
               = Some (tablesView node1)) by now rewrite Hv, nth_error_map, Hx1.
  unfold viewOf in Hm. rewrite nth_error_map in Hm.
  destruct (nth_error (Model.nodes (updateRoutingTables uuidv4 now s)) x)
    as [node' |] eqn:Hx'; [| discriminate].
  simpl in Hm. unfold tablesView in Hm. injection Hm as Hid Hc Hrt Hina.
  exists node', entry. split; [exact Hx' |].
  rewrite Hid, Hc, Hrt, Hina.
  repeat (split; [assumption || reflexivity |]).
  intros y k. apply bfs_hopDistance.
Qed.

End Pass.

(** ** Messages and links *)

Lemma neighbours_of_link (s : Model.t) (node : Node.t) (p : string) :
  wellLinked (Model.nodes s) ->
  In node (Model.nodes s) -> In p (Node.connections node) ->
  neighbours s (Node.id node) p.
Proof.
  intros [Hnd [Hcl Hsym]] Hin Hp.
  destruct (In_nth_error _ _ Hin) as [x Hx].
  destruct (in_ids_find _ _ (Hcl x node p Hx Hp)) as [peer Hpeer].
  destruct (find_idIs _ _ _ Hpeer) as [Hinp Hid].
  destruct (In_nth_error _ _ Hinp) as [y Hy].
  exists node, peer. repeat split; auto.
  apply (Hsym x y node peer Hx Hy). now rewrite Hid.
Qed.

Lemma neighbours_links (s s' : Model.t) (a b : string) :
  linksOf s' = linksOf s -> neighbours s a b -> neighbours s' a b.
Proof.
  intros Hl [nodeA [nodeB [HA [HB [Ha [Hb [Hab Hba]]]]]]].
  destruct (In_nth_error _ _ HA) as [x Hx]. destruct (In_nth_error _ _ HB) as [y Hy].
  destruct (linksOf_nodeAt s s' x nodeA Hl Hx) as [nodeA' [Hx' [HidA HcA]]].
  destruct (linksOf_nodeAt s s' y nodeB Hl Hy) as [nodeB' [Hy' [HidB HcB]]].
  exists nodeA', nodeB'. rewrite HidA, HidB, HcA, HcB.
  repeat split; auto; eapply nth_error_In; eassumption.
Qed.

(** *** Targets are links or listed next hops *)

Lemma coverAdd_keys (sinkId0 peerId : string) (cov : JsMap JsSet) (p : string) :
  In p (Js.keys (coverAdd sinkId0 peerId cov)) -> p = peerId \/ In p (Js.keys cov).
Proof.
  unfold coverAdd. destruct (Js.get peerId cov); rewrite keys_set;
    destruct (Js.mhas peerId cov); auto;
    rewrite in_app_iff; simpl; intuition.
Qed.


Lemma picks_in_remaining (load : string -> nat) (cov : JsMap JsSet)
    (covered remaining : JsSet) (n : nat) (picks : list string) :
  Greedy.Picks load cov covered remaining n picks ->
  forall p, In p picks -> In p remaining.
Proof.
  induction 1 as [| covered remaining n best picks [Hin _] _ IH]; intros p Hp.
  - destruct Hp.
  - destruct Hp as [<- | Hp]; [exact Hin |].
    apply IH in Hp. now apply in_delete_iff in Hp.
Qed.



(** *** A routing pass makes the tables follow the links *)

Lemma keys_mdelete_nodup {V : Type} (k : string) (m : JsMap V) :
  NoDup (Js.keys m) -> NoDup (Js.keys (Js.mdelete k m)).
Proof.
  unfold Js.keys, Js.mdelete. induction m as [| [k0 v0] m IH]; simpl; intros H;
    [constructor |].
  inversion H as [| x l Hx Hl]; subst.
  destruct (negb (String.eqb k k0)); simpl; [| auto].
  constructor; [| auto].
  intros Hin. apply Hx. apply in_map_iff in Hin. destruct Hin as [[k1 v1] [Hk Hin]].
  apply filter_In in Hin. simpl in Hk. subst k1.
  apply in_map_iff. exists (k0, v1). tauto.
Qed.

Lemma in_get_nodup {V : Type} (k : string) (v : V) (m : JsMap V) :
  NoDup (Js.keys m) -> In (k, v) m -> Js.get k m = Some v.
Proof.
  induction m as [| [k0 v0] m IH]; simpl; intros Hnd Hin; [destruct Hin |].
  inversion Hnd as [| x l Hx Hl]; subst.
  destruct Hin as [[= -> ->] | Hin].
  - now rewrite String.eqb_refl.
  - destruct (String.eqb_spec k k0) as [-> | Hne]; [| auto].
    exfalso. apply Hx. apply in_map_iff. exists (k0, v). auto.
Qed.

Lemma demote_nodup (now : Z) (k : string) (node : Node.t) :
  NoDup (Js.keys (Node.routingTable node)) ->
  NoDup (Js.keys (Node.routingTable (demote now k node))).
Proof.
  intros H. unfold demote. destruct (Js.get k (Node.routingTable node)); simpl;
    [now apply keys_mdelete_nodup | exact H].
Qed.

Lemma routeNode_nodup (now : Z) (k : string) (distances : JsMap nat) (node : Node.t) :
  NoDup (Js.keys (Node.routingTable node)) ->
  NoDup (Js.keys (Node.routingTable (routeNode now k distances node))).
Proof.
  intros H. unfold routeNode. destruct (String.eqb (Node.id node) k); [exact H |].
  destruct (Js.get (Node.id node) distances); [| now apply demote_nodup].
  destruct (0 <? _); simpl.
  - destruct (Js.mhas k (Node.inactiveRoutingTables node)); simpl;
      now apply keys_set_nodup.
  - destruct (Js.get k (Node.routingTable node)); simpl; now apply keys_mdelete_nodup.
Qed.

Lemma routeNode_routedExcept (now : Z) (k : string) (pending : list string)
    (distances : JsMap nat) (node : Node.t) :
  routedExcept (k :: pending) node ->
  routedExcept pending (routeNode now k distances node).
Proof.
  intros [Hnd Hall]. split; [now apply routeNode_nodup |].
  pose proof (routeNode_linkView now k distances node) as Hl.
  destruct (linkView_links _ _ Hl) as [Hid Hc]. rewrite Hid, Hc.
  intros k' e He.
  destruct (String.eqb_spec k' k) as [-> | Hne].
  - destruct (String.eqb_spec (Node.id node) k) as [Heq | Hneq].
    + exfalso. unfold routeNode in He. apply String.eqb_eq in Heq. rewrite Heq in He.
      apply String.eqb_eq in Heq. destruct (Hall k e He) as [Hk _]. congruence.
    + split; [congruence |]. right. intros p Hp.
      exact (routeNode_follows now k distances node e p Hneq He Hp).
  - destruct (routeNode_other now k k' distances node Hne) as [Hrt _].
    rewrite Hrt in He. destruct (Hall k' e He) as [Hk [[Heq | Hin] | Hf]]; auto.
    congruence.
Qed.

Lemma fold_routeSink_routedExcept (now : Z) (sids : list string) :
  forall ns,
    Forall (routedExcept sids) ns ->
    Forall (routedExcept []) (fold_left (routeSink now) sids ns).
Proof.
  induction sids as [| k sids IH]; intros ns H; simpl; [exact H |].
  apply IH. unfold routeSink. apply Forall_map.
  eapply Forall_impl; [| exact H]. intros node. apply routeNode_routedExcept.
Qed.

Lemma beforeSearch_routedExcept (now timeout : Z) (ns : list Node.t) :
  tablesOk ns ->
  Forall (routedExcept (map Node.id (filter isSink ns))) (beforeSearch now timeout ns).
Proof.
  intros Hok. unfold beforeSearch. rewrite map_map. apply Forall_map.
  apply Forall_forall. intros node Hin. destruct (Hok node Hin) as [Hnd Hself].
  set (sinkIds := fold_left (fun acc n => Js.add (Node.id n) acc) (filter isSink ns) []).
  destruct (dropExpiredInactive_spec now timeout (retireVanishedSinks now sinkIds node))
    as [Hl Hrt].
  destruct (retireVanishedSinks_spec now sinkIds node) as [Hl' Hkeys].
  rewrite Hl' in Hl. destruct (linkView_links _ _ Hl) as [Hid Hc].
  split.
  - rewrite Hrt. unfold retireVanishedSinks.
    apply (fold_left_preserves
             (fun n => NoDup (Js.keys (Node.routingTable n)))); [exact Hnd |].
    intros n k _. apply demote_nodup.
  - rewrite Hrt, Hid. intros k e He. destruct (Hkeys k e He) as [Hk He0].
    split; [intros ->; congruence |]. left.
    subst sinkIds. apply in_sinkIds_fold in Hk. destruct Hk as [[] | Hk]. exact Hk.
Qed.

Lemma routedExcept_nil (node : Node.t) :
  routedExcept [] node ->
  followsLinks node
  /\ NoDup (Js.keys (Node.routingTable node))
  /\ Js.get (Node.id node) (Node.routingTable node) = None.
Proof.
  intros [Hnd Hall]. split; [| split; [exact Hnd |]].
  - intros k e p Hin Hp. apply (in_get_nodup _ _ _ Hnd) in Hin.
    destruct (Hall k e Hin) as [_ [[] | Hf]]. now apply Hf.
  - destruct (Js.get (Node.id node) (Node.routingTable node)) as [e |] eqn:He;
      [| reflexivity].
    destruct (Hall _ e He) as [Hne _]. congruence.
Qed.

Lemma rebuildRoutes_follow (now timeout : Z) (ns : list Node.t) :
  tablesOk ns ->
  routesFollowLinks (rebuildRoutes now timeout ns)
  /\ tablesOk (rebuildRoutes now timeout ns).
Proof.
  intros Hok. rewrite rebuildRoutes_unfold.
  pose proof (fold_routeSink_routedExcept now _ _ (beforeSearch_routedExcept now timeout ns Hok))
    as H.
  rewrite Forall_forall in H. split.
  - intros node Hin. now apply routedExcept_nil, H.
  - intros node Hin. now apply routedExcept_nil, H.
Qed.

(** The three properties are properties of identifiers, links and routes. *)
Lemma routeView_in (ns ns' : list Node.t) (node' : Node.t) :
  map routeView ns' = map routeView ns -> In node' ns' ->
  exists node, In node ns /\ routeView node' = routeView node.
Proof.
  intros Hv Hin. destruct (In_nth_error _ _ Hin) as [x Hx].
  assert (Hm : nth_error (map routeView ns') x = Some (routeView node'))
    by now rewrite nth_error_map, Hx.
  rewrite Hv, nth_error_map in Hm.
  destruct (nth_error ns x) as [node |] eqn:Hn; [| discriminate].
  exists node. split; [eapply nth_error_In; exact Hn |]. simpl in Hm. congruence.
Qed.

Lemma routesFollowLinks_view (ns ns' : list Node.t) :
  map routeView ns' = map routeView ns ->
  routesFollowLinks ns -> routesFollowLinks ns'.
Proof.
  intros Hv H node' Hin. destruct (routeView_in ns ns' node' Hv Hin) as [node [Hn Hg]].
  unfold routeView in Hg. injection Hg as Hid Hc Hrt.
  unfold followsLinks. rewrite Hc, Hrt. now apply H.
Qed.

Lemma tablesOk_view (ns ns' : list Node.t) :
  map routeView ns' = map routeView ns -> tablesOk ns -> tablesOk ns'.
Proof.
  intros Hv H node' Hin. destruct (routeView_in ns ns' node' Hv Hin) as [node [Hn Hg]].
  unfold routeView in Hg. injection Hg as Hid Hc Hrt.
  rewrite Hid, Hrt. now apply H.
Qed.

Lemma routeView_linkView (ns ns' : list Node.t) :
  map routeView ns' = map routeView ns -> map linkView ns' = map linkView ns.
Proof.
  intros Hv. pose proof (f_equal (map fst) Hv) as H. now rewrite !map_map in H.
Qed.



Section Neighbours.
Variable uuidv4 : nat -> string.

Lemma updateConnections_neighbours (now : Z) (s : Model.t) :
  NoDup (map Node.id (Model.nodes s)) ->
  exists new,
    emits s (updateConnections uuidv4 now s) new
    /\ wellLinked (Model.nodes (updateConnections uuidv4 now s))
    /\ Forall (betweenNeighbours (updateConnections uuidv4 now s)) new.
Proof.
  intros Hnd.
  destruct (updateConnections_spec uuidv4 now s) as [new [He [Hl Hf]]].
  assert (Hwell : wellLinked (Model.nodes (updateConnections uuidv4 now s))).
  { apply (wellLinked_ext (rebuildLinks (Model.nodes s))); [exact Hl |].
    now apply rebuildLinks_wellLinked. }
  exists new. split; [exact He |]. split; [exact Hwell |].
  eapply Forall_impl; [| exact Hf].
  intros m [node1 [Hin Hm]].
  destruct (In_nth_error _ _ Hin) as [x Hx].
  destruct (nth_error_linkView _ _ x node1 Hl Hx) as [node' [Hx' Hv]].
  destruct (linkView_links _ _ Hv) as [Hid Hc].
  assert (Hto : Message.fromNodeId m = Node.id node'
                /\ In (Message.toNodeId m) (Node.connections node')).
  { rewrite Hid, Hc. destruct Hm as [[q [_ [Hfrom [Hto _]]]] | [peerId [Hp Hrep]]].
    - auto.
    - destruct (replayed_fields _ _ _ Hrep) as [Hfrom [Hto _]]. now rewrite Hto. }
  destruct Hto as [Hfrom Hto]. unfold betweenNeighbours. rewrite Hfrom.
  apply neighbours_of_link; [exact Hwell | | exact Hto].
  eapply nth_error_In. exact Hx'.
Qed.



Lemma replayedAlongRoute_neighbours (s : Model.t) (newSinkId : string) (m : Message.t) :
  wellLinked (Model.nodes s) -> routesFollowLinks (Model.nodes s) ->
  replayedAlongRoute s newSinkId m -> betweenNeighbours s m.
Proof.
  intros Hwell Hfollow [sinkJ [routeEntry [Hin [_ [Hget [Hhop Hrep]]]]]].
  destruct (replayed_fields _ _ _ Hrep) as [Hfrom _].
  unfold betweenNeighbours. rewrite Hfrom.
  apply neighbours_of_link; [exact Hwell | exact Hin |].
  exact (Hfollow sinkJ Hin newSinkId routeEntry _ (get_in _ _ _ Hget) Hhop).
Qed.


Lemma updateRoutingTables_neighbours (now : Z) (s : Model.t) :
  wellLinked (Model.nodes s) -> tablesOk (Model.nodes s) ->
  wellLinked (Model.nodes (updateRoutingTables uuidv4 now s))
  /\ tablesOk (Model.nodes (updateRoutingTables uuidv4 now s))
  /\ routesFollowLinks (Model.nodes (updateRoutingTables uuidv4 now s))
  /\ exists new,
       emits s (updateRoutingTables uuidv4 now s) new
       /\ Forall (betweenNeighbours (updateRoutingTables uuidv4 now s)) new.
Proof.
  intros Hwell Hok.
  destruct (updateRoutingTables_spec uuidv4 routeView now s (fun _ _ => eq_refl))
    as [new [He [Hv Hf]]].
  set (ns1 := rebuildRoutes now (Model.inactiveRoutingTimeout s) (Model.nodes s)).
  assert (Hv2 : viewOf routeView (afterTables now s) = map routeView ns1).
  { unfold afterTables, updateRoutingStates, viewOf. simpl.
    apply updateRoutingState_view. intros v n. reflexivity. }
  destruct (rebuildRoutes_follow now (Model.inactiveRoutingTimeout s) (Model.nodes s) Hok)
    as [Hfollow1 Hok1]. fold ns1 in Hfollow1, Hok1.
  assert (Hwell1 : wellLinked ns1).
  { apply (wellLinked_ext (Model.nodes s)); [| exact Hwell].
    apply rebuildRoutes_linkView. }
  assert (Hwell2 : wellLinked (Model.nodes (afterTables now s))).
  { apply (wellLinked_ext ns1); [| exact Hwell1]. now apply routeView_linkView. }
  assert (Hfollow2 : routesFollowLinks (Model.nodes (afterTables now s)))
    by now apply (routesFollowLinks_view ns1).
  assert (Hl : linksOf (updateRoutingTables uuidv4 now s) = linksOf (afterTables now s))
    by now apply routeView_linkView.
  split; [| split; [| split]].
  - apply (wellLinked_ext (Model.nodes (afterTables now s))); [exact Hl | exact Hwell2].
  - apply (tablesOk_view ns1); [| exact Hok1]. unfold viewOf in Hv, Hv2. congruence.
  - apply (routesFollowLinks_view ns1); [| exact Hfollow1].
    unfold viewOf in Hv, Hv2. congruence.
  - exists new. split; [exact He |].
    eapply Forall_impl; [| exact Hf]. intros m [newSinkId Hm].
    apply (neighbours_links (afterTables now s)); [exact Hl |].
    now apply (replayedAlongRoute_neighbours _ newSinkId).
Qed.


End Neighbours.

(** The diamond is well linked, and its tables are in order. *)
Lemma diamond_wellLinked : wellLinked (Model.nodes diamond).
Proof.
  apply (wellLinked_ext (rebuildLinks (Model.nodes diamond))).
  - vm_compute. reflexivity.
  - apply rebuildLinks_wellLinked. vm_compute.
    repeat constructor; simpl; intuition discriminate.
Qed.

Lemma routing_pass_builds_shortest_routes_witness :
  exists node' entry,
    nodeAt 0 (updateRoutingTables letterUuid 9 diamond) = Some node'
    /\ Js.get "d" (Node.routingTable node') = Some entry
    /\ lastUpdate entry = 9%Z
    /\ (forall p h,
          Js.get p (nextHops entry) = Some h <->
          In p ["b"; "c"]%string
          /\ Js.get p (bfs (Model.nodes diamond) "d") = Some 1
          /\ h = 2).
Proof.
  destruct (routing_pass_builds_shortest_routes letterUuid 9 diamond 0
              diamondSource diamondSink 2 diamond_wellLinked)
    as [node' [entry [Hx [_ [_ [Hrt [Hlu [_ [Hhops _]]]]]]]]].
  - vm_compute. reflexivity.
  - vm_compute. reflexivity.
  - vm_compute. do 3 right. left. reflexivity.
  - vm_compute. reflexivity.
  - vm_compute. reflexivity.
  - exists node', entry. split; [exact Hx |]. split; [exact Hrt |].
    split; [exact Hlu | exact Hhops].
Defined.



(** ** The message pipeline and the rest of a node *)

Section PipelineViews.
Context {B : Type} (g : Node.t -> B).
Variable uuidv4 : nat -> string.

Hypothesis g_sent : forall v n, g (Node.set_sentTriagesToSinks v n) = g n.
Hypothesis g_queue : forall v n, g (Node.set_triageQueue v n) = g n.
Hypothesis g_store : forall v n, g (Node.set_triageStore v n) = g n.
Hypothesis g_stamp : forall v n, g (Node.set_lastMessageReceivedAt v n) = g n.

Lemma viewOf_notify (s : Model.t) : viewOf g (notifyListeners s) = viewOf g s.
Proof. reflexivity. Qed.

Lemma markTargeted_view (i : nat) (messageType : MessageType)
    (triageId : option string) (sinkIds : JsSet) (s : Model.t) :
  viewOf g (markTargeted i messageType triageId sinkIds s) = viewOf g s.
Proof.
  unfold markTargeted. destruct (_ && _); [| reflexivity].
  apply viewOf_updNode. intros n. apply g_sent.
Qed.

Lemma enqueue_view (triageId : string) (severity : option TriageSeverity) (now : Z)
    (n : Node.t) :
  g (enqueue triageId severity now n) = g n.
Proof. unfold enqueue. apply g_queue. Qed.

Lemma fold_sendOne_view (now : Z) (i : nat) (fromNodeId : string)
    (messageType : MessageType) (triageId : option string)
    (severity : option TriageSeverity) (sinkIds : JsSet) (targets : list string) :
  forall s,
    viewOf g
      (fold_left (sendOne uuidv4 now i fromNodeId messageType triageId severity sinkIds)
         targets s)
    = viewOf g s.
Proof.
  induction targets as [| t targets IH]; intros s; simpl; [reflexivity |].
  rewrite IH. unfold sendOne, freshUuid. now rewrite markTargeted_view.
Qed.

Lemma fold_forwardOne_view (now : Z) (i : nat) (nodeId : string) (message : Message.t)
    (sinkIds : JsSet) (targets : list string) :
  forall s,
    viewOf g (fold_left (forwardOne uuidv4 now i nodeId message sinkIds) targets s)
    = viewOf g s.
Proof.
  induction targets as [| t targets IH]; intros s; simpl; [reflexivity |].
  rewrite IH. unfold forwardOne, freshUuid. now rewrite markTargeted_view.
Qed.

Lemma sendMessage_view (now : Z) (fromNodeId : string) (messageType : MessageType)
    (triageSeverity : option TriageSeverity) (s : Model.t) :
  viewOf g (sendMessage uuidv4 now fromNodeId messageType triageSeverity s)
  = viewOf g s.
Proof.
  unfold sendMessage.
  destruct (Js.findIndex (idIs fromNodeId) (Model.nodes s)) as [i |]; [| reflexivity].
  set (p := match messageType with
            | triage => let '(u, s0) := freshUuid uuidv4 s in (Some u, s0)
            | normal => (None, s)
            end).
  assert (Hp : viewOf g (snd p) = viewOf g s) by (subst p; now destruct messageType).
  destruct p as [triageId s1]. simpl in Hp.
  set (s2 := if isTriageWithId messageType triageId
             then updNode i
                    (fun n => Node.set_triageStore
                                (Js.add (unwrap triageId) (Node.triageStore n)) n) s1
             else s1).
  assert (H2 : viewOf g s2 = viewOf g s).
  { subst s2. destruct (isTriageWithId messageType triageId); [| exact Hp].
    rewrite viewOf_updNode; [exact Hp |]. intros n. apply g_store. }
  destruct (nodeAt i s2) as [fromNode |]; [| exact H2].
  destruct (_ && _).
  - rewrite viewOf_notify, viewOf_updNode; [exact H2 |].
    intros n. apply enqueue_view.
  - now rewrite viewOf_notify, fold_sendOne_view.
Qed.

Lemma forwardFrom_view (now : Z) (i : nat) (message : Message.t) (s : Model.t) :
  viewOf g (forwardFrom uuidv4 now i message s) = viewOf g s.
Proof.
  unfold forwardFrom. destruct (nodeAt i s) as [node |]; [| reflexivity].
  destruct (_ && _); [reflexivity |].
  now rewrite viewOf_notify, fold_forwardOne_view.
Qed.

Lemma acceptTriage_view (now : Z) (i : nat) (message : Message.t) (node : Node.t)
    (s : Model.t) :
  viewOf g (acceptTriage uuidv4 now i message node s) = viewOf g s.
Proof.
  unfold acceptTriage. destruct (_ =? _); [| apply forwardFrom_view].
  rewrite viewOf_notify. apply viewOf_updNode. intros n. apply enqueue_view.
Qed.

Lemma storeTriage_view (i : nat) (tid : string) (s : Model.t) :
  viewOf g (storeTriage i tid s) = viewOf g s.
Proof. unfold storeTriage. apply viewOf_updNode. intros n. apply g_store. Qed.

Lemma onMessageArrival_view (now : Z) (message : Message.t) (s : Model.t) :
  viewOf g (onMessageArrival uuidv4 now message s) = viewOf g s.
Proof.
  unfold onMessageArrival.
  destruct (Js.findIndex _ _) as [i |]; [| reflexivity].
  set (s1 := updNode i (Node.set_lastMessageReceivedAt (Some now)) s).
  assert (H1 : viewOf g s1 = viewOf g s)
    by (apply viewOf_updNode; intros n; apply g_stamp).
  destruct (nodeAt i s1) as [node |]; [| exact H1].
  destruct (isTriageWithId _ _).
  - destruct (isFloodingStyle _).
    + destruct (Js.has _ _); [exact H1 |].
      now rewrite acceptTriage_view, storeTriage_view.
    + rewrite acceptTriage_view. destruct (negb _); [| exact H1].
      now rewrite storeTriage_view.
  - now rewrite forwardFrom_view.
Qed.

Lemma advanceMessage_view (now : Z) (deltaTime : float) (k : nat) (s : Model.t) :
  viewOf g (fst (advanceMessage uuidv4 now deltaTime k s)) = viewOf g s.
Proof.
  unfold advanceMessage. destruct (nth_error _ _) as [message |]; [| reflexivity].
  destruct (_ && _); [| reflexivity]. simpl. now rewrite onMessageArrival_view.
Qed.

Lemma advanceAll_view (now : Z) (deltaTime : float) (s : Model.t) :
  viewOf g (fst (advanceAll uuidv4 now deltaTime s)) = viewOf g s.
Proof.
  unfold advanceAll.
  change (viewOf g s) with (viewOf g (fst (s, @nil nat))).
  generalize (s, @nil nat) as st.
  generalize (seq 0 (length (Model.messages s))) as ks.
  induction ks as [| k ks IH]; intros st; simpl; [reflexivity |].
  rewrite IH.
  pose proof (advanceMessage_view now deltaTime k (fst st)) as Hk.
  now destruct (advanceMessage uuidv4 now deltaTime k (fst st)).
Qed.

Lemma updateMessages_view (now : Z) (deltaTime : float) (s : Model.t) :
  viewOf g (updateMessages uuidv4 now deltaTime s) = viewOf g s.
Proof. unfold updateMessages. apply advanceAll_view. Qed.

Lemma updateAutoGeneration_view (now : Z) (pickNode pickSeverity : nat) (s : Model.t) :
  viewOf g (updateAutoGeneration uuidv4 now pickNode pickSeverity s) = viewOf g s.
Proof.
  unfold updateAutoGeneration. destruct (_ <=? _)%Z; [| reflexivity].
  destruct (nth_error _ _); [| reflexivity].
  unfold viewOf. simpl. apply sendMessage_view.
Qed.

End PipelineViews.

Lemma routingView_sent v n : routingView (Node.set_sentTriagesToSinks v n) = routingView n.
Proof. reflexivity. Qed.

Lemma routingView_queue v n : routingView (Node.set_triageQueue v n) = routingView n.
Proof. reflexivity. Qed.

Lemma routingView_store v n : routingView (Node.set_triageStore v n) = routingView n.
Proof. reflexivity. Qed.

Lemma routingView_stamp v n :
  routingView (Node.set_lastMessageReceivedAt v n) = routingView n.
Proof. reflexivity. Qed.

Section PipelineFrame.
Variable uuidv4 : nat -> string.

(** X1.  The message pipeline writes the delivery bookkeeping of nodes and
    nothing else of them.  A send, an arrival, the advance of all messages
    and an auto-generation leave the node array with the same nodes in the
    same order, each with its identifier, type, position, velocity, radii,
    colour, selection, links, routing tables and routing state; only
    [triageStore], [triageQueue], [sentTriagesToSinks] and
    [lastMessageReceivedAt] can differ. *)
Theorem pipeline_writes_bookkeeping_only (now : Z) (s : Model.t) :
  (forall fromNodeId messageType triageSeverity,
      viewOf routingView (sendMessage uuidv4 now fromNodeId messageType triageSeverity s)
      = viewOf routingView s)
  /\ (forall message,
        viewOf routingView (onMessageArrival uuidv4 now message s)
        = viewOf routingView s)
  /\ (forall deltaTime,
        viewOf routingView (updateMessages uuidv4 now deltaTime s)
        = viewOf routingView s)
  /\ (forall pickNode pickSeverity,
        viewOf routingView (updateAutoGeneration uuidv4 now pickNode pickSeverity s)
        = viewOf routingView s).
Proof.
  split; [| split; [| split]].
  - intros fromNodeId messageType triageSeverity.
    apply sendMessage_view;
      [apply routingView_sent | apply routingView_queue | apply routingView_store].
  - intros message.
    apply onMessageArrival_view;
      [apply routingView_sent | apply routingView_queue | apply routingView_store
      | apply routingView_stamp].
  - intros deltaTime.
    apply updateMessages_view;
      [apply routingView_sent | apply routingView_queue | apply routingView_store
      | apply routingView_stamp].
  - intros pickNode pickSeverity.
    apply updateAutoGeneration_view;
      [apply routingView_sent | apply routingView_queue | apply routingView_store].
Qed.

End PipelineFrame.
(** ** Links and geometry *)

Lemma in_indexPairs (n i j : nat) : In (i, j) (indexPairs n) <-> i < j /\ j < n.
Proof.
  unfold indexPairs. rewrite in_flat_map. split.
  - intros [i' [Hi' Hin]]. apply in_map_iff in Hin. destruct Hin as [j' [[= -> ->] Hj]].
    apply in_seq in Hi'. apply in_seq in Hj. lia.
  - intros [Hij Hj]. exists i. split; [apply in_seq; lia |].
    apply in_map. apply in_seq. lia.
Qed.

Lemma fold_left_flat_map {A B C : Type} (f : A -> C -> A) (h : B -> list C) (l : list B) :
  forall a, fold_left f (flat_map h l) a = fold_left (fun a x => fold_left f (h x) a) l a.
Proof.
  induction l as [| x l IH]; intros a; simpl; [reflexivity |].
  now rewrite fold_left_app, IH.
Qed.

Lemma fold_left_map {A B C : Type} (f : A -> C -> A) (h : B -> C) (l : list B) :
  forall a, fold_left f (map h l) a = fold_left (fun a x => f a (h x)) l a.
Proof. induction l as [| x l IH]; intros a; simpl; [reflexivity | apply IH]. Qed.

Lemma fold_left_same {A B : Type} (f f' : A -> B -> A) (l : list B) :
  (forall a x, f a x = f' a x) -> forall a, fold_left f l a = fold_left f' l a.
Proof.
  intros H. induction l as [| x l IH]; intros a; simpl; [reflexivity |].
  now rewrite H, IH.
Qed.

(** The double loop, as one loop over the pairs. *)
Lemma rebuildLinks_pairs (ns : list Node.t) :
  rebuildLinks ns
  = fold_left (fun cur p => linkPair (fst p) (snd p) cur) (indexPairs (length ns))
      (map (Node.set_connections []) ns).
Proof.
  unfold rebuildLinks, indexPairs. rewrite fold_left_flat_map.
  apply fold_left_same. intros cur i. now rewrite fold_left_map.
Qed.

Lemma withinRange_sameButLinks (a a' b b' : Node.t) :
  sameButLinks a a' -> sameButLinks b b' -> withinRange a' b' = withinRange a b.
Proof. unfold sameButLinks. intros <- <-. reflexivity. Qed.

Lemma linkedThrough_app (ns : list Node.t) (ps ps' : list (nat * nat)) (x : nat)
    (q : string) :
  linkedThrough ns (ps ++ ps') x q
  <-> linkedThrough ns ps x q \/ linkedThrough ns ps' x q.
Proof.
  unfold linkedThrough. split.
  - intros [i [j [nA [nB [Hin H]]]]]. apply in_app_or in Hin.
    destruct Hin; [left | right]; exists i, j, nA, nB; auto.
  - intros [[i [j [nA [nB [Hin H]]]]] | [i [j [nA [nB [Hin H]]]]]];
      exists i, j, nA, nB; (split; [apply in_or_app; auto | exact H]).
Qed.

(** After the pairs [done], the links of each node are those it got through
    a pair of [done]; the loop keeps it so. *)
Lemma linkPairs_links (ns : list Node.t) (ps : list (nat * nat)) :
  forall cur done,
    Forall2 sameButLinks ns cur ->
    (forall x a', nth_error cur x = Some a' ->
       forall q, In q (Node.connections a') <-> linkedThrough ns done x q) ->
    let res := fold_left (fun cur p => linkPair (fst p) (snd p) cur) ps cur in
    Forall2 sameButLinks ns res
    /\ (forall x a', nth_error res x = Some a' ->
          forall q, In q (Node.connections a') <-> linkedThrough ns (done ++ ps) x q).
Proof.
  induction ps as [| [i j] ps IH]; intros cur done Hsame Hlinks; simpl.
  - split; [exact Hsame |]. now rewrite app_nil_r.
  - replace (done ++ (i, j) :: ps) with ((done ++ [(i, j)]) ++ ps)
      by now rewrite <- app_assoc.
    apply IH.
    + eapply Forall2_trans; [apply sameButLinks_trans | exact Hsame |].
      apply linkPair_sameButLinks.
    + intros x a' Hx q.
      destruct (linkPair_links i j cur x a' Hx) as [a [Ha [_ Hiff]]].
      rewrite Hiff, linkedThrough_app, (Hlinks x a Ha q).
      apply or_iff_compat_l. unfold linkedThrough. split.
      * intros [nA [nB [Hi [Hj [Hr Hside]]]]].
        destruct (Forall2_nth_error _ _ _ _ _ Hsame Hi) as [oA [HoA HsA]].
        destruct (Forall2_nth_error _ _ _ _ _ Hsame Hj) as [oB [HoB HsB]].
        exists i, j, oA, oB. split; [now left |]. split; [exact HoA |].
        split; [exact HoB |].
        split; [now rewrite <- (withinRange_sameButLinks _ _ _ _ HsA HsB) |].
        now rewrite <- (sameButLinks_id _ _ HsA), <- (sameButLinks_id _ _ HsB).
      * intros [i' [j' [oA [oB [[[= <- <-] | []] [HoA [HoB [Hr Hside]]]]]]]].
        assert (Hlen : length ns = length cur) by (eapply Forall2_length; exact Hsame).
        destruct (nth_error cur i) as [nA |] eqn:Hi.
        2:{ apply nth_error_None in Hi. assert (i < length ns) by
              (apply nth_error_Some; congruence). lia. }
        destruct (nth_error cur j) as [nB |] eqn:Hj.
        2:{ apply nth_error_None in Hj. assert (j < length ns) by
              (apply nth_error_Some; congruence). lia. }
        destruct (Forall2_nth_error _ _ _ _ _ Hsame Hi) as [oA' [HoA' HsA]].
        destruct (Forall2_nth_error _ _ _ _ _ Hsame Hj) as [oB' [HoB' HsB]].
        rewrite HoA in HoA'. injection HoA' as <-.
        rewrite HoB in HoB'. injection HoB' as <-.
        exists nA, nB. split; [reflexivity |]. split; [reflexivity |].
        split; [now rewrite (withinRange_sameButLinks _ _ _ _ HsA HsB) |].
        now rewrite (sameButLinks_id _ _ HsA), (sameButLinks_id _ _ HsB).
Qed.

(** The recomputed links of the node at [x]: one per pair in range of which
    it is an end. *)
Lemma rebuildLinks_links (ns : list Node.t) (x : nat) (a' : Node.t) :
  nth_error (rebuildLinks ns) x = Some a' ->
  exists a,
    nth_error ns x = Some a
    /\ sameButLinks a a'
    /\ forall q,
         In q (Node.connections a') <-> linkedThrough ns (indexPairs (length ns)) x q.
Proof.
  intros Hx.
  assert (Hbase : Forall2 sameButLinks ns (map (Node.set_connections []) ns))
    by (apply Forall2_map_self; intros n; reflexivity).
  destruct (linkPairs_links ns (indexPairs (length ns))
              (map (Node.set_connections []) ns) [] Hbase) as [Hsame Hlinks].
  { intros y b' Hy q. rewrite nth_error_map in Hy.
    destruct (nth_error ns y); [| discriminate]. injection Hy as <-. simpl.
    split; [intros [] |]. intros [i [j [nA [nB [[] _]]]]]. }
  rewrite <- rebuildLinks_pairs in Hsame, Hlinks. simpl in Hlinks.
  destruct (Forall2_nth_error _ _ _ _ _ Hsame Hx) as [a [Ha Hs]].
  exists a. split; [exact Ha |]. split; [exact Hs |]. now apply Hlinks.
Qed.

(** In a world with unique identifiers no recomputed link set names its own
    node. *)
Lemma rebuildLinks_no_self (ns : list Node.t) (x : nat) (ar : Node.t) :
  NoDup (map Node.id ns) ->
  nth_error (rebuildLinks ns) x = Some ar ->
  ~ In (Node.id ar) (Node.connections ar).
Proof.
  intros Hnd Hr. destruct (rebuildLinks_links _ _ _ Hr) as [a [Ha [Hs Hl]]].
  rewrite Hl, (sameButLinks_id _ _ Hs).
  intros [i [j [nA [nB [Hin [Hi [Hj [_ [[-> Hq] | [-> Hq]]]]]]]]]];
    apply in_indexPairs in Hin.
  - assert (i = j) by (apply (nodup_ids_index ns i j a nB); auto). lia.
  - assert (j = i) by (apply (nodup_ids_index ns j i a nA); auto). lia.
Qed.

(** And the nodes at [x < y] are linked, each to the other, exactly when they
    are within range. *)
Lemma rebuildLinks_in_range (ns : list Node.t) (x y : nat) (ar br : Node.t) :
  NoDup (map Node.id ns) -> x < y ->
  nth_error (rebuildLinks ns) x = Some ar ->
  nth_error (rebuildLinks ns) y = Some br ->
  exists a b,
    nth_error ns x = Some a /\ nth_error ns y = Some b
    /\ sameButLinks a ar /\ sameButLinks b br
    /\ (In (Node.id b) (Node.connections ar) <-> withinRange a b = true)
    /\ (In (Node.id a) (Node.connections br) <-> withinRange a b = true).
Proof.
  intros Hnd Hxy Har Hbr.
  destruct (rebuildLinks_links _ _ _ Har) as [a [Hx [Hsa Hla]]].
  destruct (rebuildLinks_links _ _ _ Hbr) as [b [Hy [Hsb Hlb]]].
  assert (Hylt : y < length ns) by (apply nth_error_Some; congruence).
  assert (Hidx : forall z z' c c', nth_error ns z = Some c ->
             nth_error ns z' = Some c' -> Node.id c = Node.id c' -> z = z')
    by (intros z z' c c'; now apply nodup_ids_index).
  exists a, b. split; [exact Hx |]. split; [exact Hy |].
  split; [exact Hsa |]. split; [exact Hsb |]. split.
  - rewrite Hla. split.
    + intros [i [j [nA [nB [Hin [Hi [Hj [Hr [[-> Hq] | [-> Hq]]]]]]]]]].
      * rewrite Hx in Hi. injection Hi as <-.
        assert (y = j) by (apply (Hidx y j b nB); auto). subst j.
        rewrite Hy in Hj. now injection Hj as <-.
      * apply in_indexPairs in Hin.
        assert (y = i) by (apply (Hidx y i b nA); auto). lia.
    + intros Hr. exists x, y, a, b. split; [apply in_indexPairs; lia |]. auto 10.
  - rewrite Hlb. split.
    + intros [i [j [nA [nB [Hin [Hi [Hj [Hr [[-> Hq] | [-> Hq]]]]]]]]]].
      * apply in_indexPairs in Hin.
        assert (x = j) by (apply (Hidx x j a nB); auto). lia.
      * rewrite Hy in Hj. injection Hj as <-.
        assert (x = i) by (apply (Hidx x i a nA); auto). subst i.
        rewrite Hx in Hi. now injection Hi as <-.
    + intros Hr. exists x, y, a, b. split; [apply in_indexPairs; lia |]. auto 10.
Qed.

Lemma ForallOrdPairs_nth_error {A : Type} (R : A -> A -> Prop) (l : list A) :
  (forall x y a b, x < y -> nth_error l x = Some a -> nth_error l y = Some b -> R a b) ->
  ForallOrdPairs R l.
Proof.
  induction l as [| a l IH]; intros H; constructor.
  - apply Forall_forall. intros b Hb. destruct (In_nth_error _ _ Hb) as [y Hy].
    apply (H 0 (S y) a b); [lia | reflexivity | exact Hy].
  - apply IH. intros x y c d Hxy Hx Hy. apply (H (S x) (S y) c d); [lia | exact Hx | exact Hy].
Qed.

Lemma rebuildLinks_linksCurrent (ns : list Node.t) :
  NoDup (map Node.id ns) -> linksCurrent (rebuildLinks ns).
Proof.
  intros Hnd. split.
  - apply Forall_forall. intros ar Har. destruct (In_nth_error _ _ Har) as [x Hx].
    now apply (rebuildLinks_no_self ns x).
  - apply ForallOrdPairs_nth_error. intros x y ar br Hxy Har Hbr.
    destruct (rebuildLinks_in_range ns x y ar br Hnd Hxy Har Hbr)
      as [a [b [_ [_ [Hsa [Hsb [L1 L2]]]]]]].
    unfold linkedAsInRange.
    now rewrite (withinRange_sameButLinks _ _ _ _ Hsa Hsb),
      (sameButLinks_id _ _ Hsa), (sameButLinks_id _ _ Hsb).
Qed.

Section RecomputeViews.
Context {B : Type} (g : Node.t -> B).
Variable uuidv4 : nat -> string.

Hypothesis g_sent : forall v n, g (Node.set_sentTriagesToSinks v n) = g n.
Hypothesis g_queue : forall v n, g (Node.set_triageQueue v n) = g n.
Hypothesis g_links : forall n n', g n = g n' ->
  Node.id n = Node.id n' /\ Node.connections n = Node.connections n'.

(** Apart from the links, [updateConnections] writes queues and the
    bookkeeping of sent triages only. *)
Lemma updateConnections_view (now : Z) (s : Model.t) :
  viewOf g (updateConnections uuidv4 now s) = map g (rebuildLinks (Model.nodes s)).
Proof.
  unfold updateConnections.
  set (prev := previousNeighbors (Model.nodes s)).
  set (s1 := Model.set_nodes (rebuildLinks (Model.nodes s)) s).
  change (map g (rebuildLinks (Model.nodes s))) with (viewOf g s1).
  assert (H : (fun k st =>
                 viewOf g st = viewOf g s1
                 /\ (forall i, k <= i -> nodeAt i st = nodeAt i s1))
              (length (Model.nodes s1))
              (fold_left (syncNode uuidv4 now prev) (seq 0 (length (Model.nodes s1))) s1)).
  { apply fold_left_seq_inv.
    - split; reflexivity.
    - intros k st Hk [Hv Hun].
      destruct (nth_error (Model.nodes s1) k) as [node |] eqn:Hnode.
      2:{ apply nth_error_None in Hnode. lia. }
      assert (Hst : nodeAt k st = Some node) by (rewrite Hun by lia; exact Hnode).
      destruct (syncNode_spec uuidv4 g g_sent g_queue g_links now prev st k node Hst)
        as [new' [_ [Hv' [Hun' _]]]].
      split; [now rewrite Hv' |].
      intros i Hi. rewrite Hun' by lia. apply Hun. lia. }
  apply H.
Qed.

End RecomputeViews.

Lemma bodyView_links (n n' : Node.t) :
  bodyView n = bodyView n' ->
  Node.id n = Node.id n' /\ Node.connections n = Node.connections n'.
Proof.
  intros H. split.
  - exact (f_equal Node.id H).
  - exact (f_equal Node.connections H).
Qed.

Lemma withinRange_bodyView (a a' b b' : Node.t) :
  bodyView a' = bodyView a -> bodyView b' = bodyView b ->
  withinRange a' b' = withinRange a b.
Proof.
  intros Ha Hb.
  change (withinRange (bodyView a') (bodyView b') = withinRange (bodyView a) (bodyView b)).
  now rewrite Ha, Hb.
Qed.

Section Geometry.
Variable uuidv4 : nat -> string.

(** X2.  After [updateConnections], whatever the links were before: apart
    from its links, its queue and its bookkeeping of sent triages every node
    is what it was, and two nodes are linked, each in the other's connection
    set, exactly when their distance is at most the larger of their two
    connection radii.  No node is linked to itself.  (Identifiers are
    unique.) *)
Theorem links_are_the_pairs_in_range (now : Z) (s : Model.t) (x y : nat)
    (a b : Node.t) :
  NoDup (map Node.id (Model.nodes s)) ->
  nodeAt x s = Some a ->
  nodeAt y s = Some b ->
  x < y ->
  exists a' b',
    nodeAt x (updateConnections uuidv4 now s) = Some a'
    /\ nodeAt y (updateConnections uuidv4 now s) = Some b'
    /\ sameButLinks (bodyView a) (bodyView a')
    /\ sameButLinks (bodyView b) (bodyView b')
    /\ withinRange a' b' = withinRange a b
    /\ (In (Node.id b') (Node.connections a') <-> withinRange a b = true)
    /\ (In (Node.id a') (Node.connections b') <-> withinRange a b = true)
    /\ ~ In (Node.id a') (Node.connections a')
    /\ ~ In (Node.id b') (Node.connections b').
Proof.
  intros Hnd Hx Hy Hxy. unfold nodeAt in *.
  pose proof (updateConnections_view bodyView uuidv4 (fun _ _ => eq_refl)
                (fun _ _ => eq_refl) bodyView_links now s) as Hv.
  unfold viewOf in Hv.
  assert (Hat : forall z c, nth_error (Model.nodes s) z = Some c ->
            exists c' cr,
              nth_error (Model.nodes (updateConnections uuidv4 now s)) z = Some c'
              /\ nth_error (rebuildLinks (Model.nodes s)) z = Some cr
              /\ bodyView c' = bodyView cr).
  { intros z c Hz.
    pose proof (rebuildLinks_sameButLinks (Model.nodes s)) as Hsame.
    assert (Hlen : length (rebuildLinks (Model.nodes s)) = length (Model.nodes s))
      by (symmetry; eapply Forall2_length; exact Hsame).
    destruct (nth_error (rebuildLinks (Model.nodes s)) z) as [cr |] eqn:Hr.
    2:{ apply nth_error_None in Hr.
        assert (z < length (Model.nodes s)) by (apply nth_error_Some; congruence). lia. }
    assert (Hm : nth_error (map bodyView (Model.nodes (updateConnections uuidv4 now s))) z
                 = Some (bodyView cr)) by now rewrite Hv, nth_error_map, Hr.
    rewrite nth_error_map in Hm.
    destruct (nth_error (Model.nodes (updateConnections uuidv4 now s)) z) as [c' |];
      [| discriminate].
    cbn [option_map] in Hm.
    assert (Hb : bodyView c' = bodyView cr) by congruence. exists c', cr.
    split; [reflexivity |]. split; [reflexivity | exact Hb]. }
  destruct (Hat x a Hx) as [a' [ar [Ha' [Har Hba]]]].
  destruct (Hat y b Hy) as [b' [br [Hb' [Hbr Hbb]]]].
  destruct (rebuildLinks_in_range _ x y ar br Hnd Hxy Har Hbr)
    as [a0 [b0 [Hx0 [Hy0 [Hsa [Hsb [L1 L2]]]]]]].
  rewrite Hx in Hx0. injection Hx0 as <-. rewrite Hy in Hy0. injection Hy0 as <-.
  pose proof (rebuildLinks_no_self _ x ar Hnd Har) as N1.
  pose proof (rebuildLinks_no_self _ y br Hnd Hbr) as N2.
  destruct (bodyView_links _ _ Hba) as [Hida Hca].
  destruct (bodyView_links _ _ Hbb) as [Hidb Hcb].
  exists a', b'. split; [exact Ha' |]. split; [exact Hb' |].
  split.
  { unfold sameButLinks in *. rewrite Hba, <- Hsa. reflexivity. }
  split.
  { unfold sameButLinks in *. rewrite Hbb, <- Hsb. reflexivity. }
  split.
  { rewrite (withinRange_bodyView _ _ _ _ Hba Hbb).
    apply (withinRange_sameButLinks _ _ _ _ Hsa Hsb). }
  rewrite Hida, Hidb, Hca, Hcb.
  rewrite (sameButLinks_id _ _ Hsa) in *. rewrite (sameButLinks_id _ _ Hsb) in *.
  auto.
Qed.

End Geometry.


Lemma links_are_the_pairs_in_range_witness :
  withinRange diamondSource diamondSink = false
  /\ exists a' d',
       nodeAt 0 (updateConnections letterUuid 9 diamond) = Some a'
       /\ nodeAt 3 (updateConnections letterUuid 9 diamond) = Some d'
       /\ ~ In (Node.id d') (Node.connections a').
Proof.
  split; [vm_compute; reflexivity |].
  destruct (links_are_the_pairs_in_range letterUuid 9 diamond 0 3
              diamondSource diamondSink (proj1 diamond_wellLinked))
    as [a' [d' [Ha [Hd [_ [_ [_ [Hiff _]]]]]]]].
  - vm_compute. reflexivity.
  - vm_compute. reflexivity.
  - lia.
  - exists a', d'. split; [exact Ha |]. split; [exact Hd |].
    intros Hin. apply Hiff in Hin. vm_compute in Hin. discriminate Hin.
Defined.
(** ** Removing a node *)

(** The nodes that [removeNode] keeps: every node with another identifier,
    without its link to the one removed. *)
Lemma in_removeNode (x : string) (s : Model.t) (n' : Node.t) :
  In n' (Model.nodes (removeNode x s))
  <-> exists n,
        In n (Model.nodes s) /\ Node.id n <> x
        /\ n' = Node.set_connections (Js.delete x (Node.connections n)) n.
Proof.
  unfold removeNode. simpl. rewrite filter_In, in_map_iff. split.
  - intros [[n [<- Hin]] Hid]. simpl in Hid.
    apply negb_true_iff, String.eqb_neq in Hid. eauto.
  - intros [n [Hin [Hid ->]]]. split; [eauto |]. simpl.
    now apply negb_true_iff, String.eqb_neq.
Qed.

Lemma removeNode_ids (x : string) (s : Model.t) :
  map Node.id (Model.nodes (removeNode x s))
  = filter (fun i => negb (String.eqb i x)) (map Node.id (Model.nodes s)).
Proof.
  unfold removeNode. simpl. induction (Model.nodes s) as [| n ns IH]; simpl;
    [reflexivity |].
  destruct (negb (String.eqb (Node.id n) x)); simpl; now rewrite IH.
Qed.

Lemma removeNode_wellLinked (x : string) (s : Model.t) :
  wellLinked (Model.nodes s) -> wellLinked (Model.nodes (removeNode x s)).
Proof.
  intros [Hnd [Hcl Hsym]].
  assert (Horig : forall k n', nth_error (Model.nodes (removeNode x s)) k = Some n' ->
            exists j n,
              nth_error (Model.nodes s) j = Some n /\ Node.id n <> x
              /\ n' = Node.set_connections (Js.delete x (Node.connections n)) n).
  { intros k n' Hk. apply nth_error_In in Hk. apply in_removeNode in Hk.
    destruct Hk as [n [Hin [Hid ->]]]. destruct (In_nth_error _ _ Hin) as [j Hj].
    eauto. }
  split; [| split].
  - rewrite removeNode_ids. now apply NoDup_filter.
  - intros k a' q Hk Hq. destruct (Horig k a' Hk) as [j [a [Hj [Hid ->]]]].
    simpl in Hq. apply in_delete_iff in Hq. destruct Hq as [Hne Hq].
    rewrite removeNode_ids. apply filter_In. split; [now apply (Hcl j a) |].
    now apply negb_true_iff, String.eqb_neq.
  - intros k l a' b' Hk Hl Hin.
    destruct (Horig k a' Hk) as [i [a [Hi [Hida ->]]]].
    destruct (Horig l b' Hl) as [j [b [Hj [Hidb ->]]]].
    simpl in Hin |- *. apply in_delete_iff in Hin. destruct Hin as [_ Hin].
    apply in_delete_iff. split; [assumption | now apply (Hsym i j a b)].
Qed.

Section Remove.
Variable uuidv4 : nat -> string.

(** X3.  [removeNode id] leaves no node with that identifier and no link to
    it; the node array and the link sets stay well linked; the message list
    is not touched, so messages on their way to the removed node stay in
    flight, and when one of them arrives nothing at all happens. *)
Theorem removeNode_forgets_the_node (now : Z) (x : string) (s : Model.t) :
  unknownId x (Model.nodes (removeNode x s))
  /\ (forall n',
        In n' (Model.nodes (removeNode x s))
        <-> exists n,
              In n (Model.nodes s) /\ Node.id n <> x
              /\ n' = Node.set_connections (Js.delete x (Node.connections n)) n)
  /\ (wellLinked (Model.nodes s) -> wellLinked (Model.nodes (removeNode x s)))
  /\ Model.messages (removeNode x s) = Model.messages s
  /\ (forall message,
        Message.toNodeId message = x ->
        onMessageArrival uuidv4 now message (removeNode x s) = removeNode x s).
Proof.
  split; [apply removeNode_makes_unknown |].
  split; [intros n'; apply in_removeNode |].
  split; [apply removeNode_wellLinked |].
  split; [reflexivity |].
  intros message Hto. unfold onMessageArrival.
  now rewrite Hto, (findIndex_unknown x _ (removeNode_makes_unknown x s)).
Qed.

End Remove.
(** ** The life of a routing entry *)

Lemma demote_inactive (now : Z) (k : string) (node : Node.t) (e : RoutingTableEntry) :
  Js.get k (Node.routingTable node) = Some e ->
  Js.get k (Node.inactiveRoutingTables (demote now k node))
  = Some {| sinkId := k; lastActiveEntry := e; inactiveSince := now |}.
Proof. intros H. unfold demote. rewrite H. simpl. apply get_set_eq. Qed.

Lemma demote_inactive_nodup (now : Z) (k : string) (node : Node.t) :
  NoDup (Js.keys (Node.inactiveRoutingTables node)) ->
  NoDup (Js.keys (Node.inactiveRoutingTables (demote now k node))).
Proof.
  intros H. unfold demote. destruct (Js.get k (Node.routingTable node)); simpl;
    [now apply keys_set_nodup | exact H].
Qed.

(** Where a node has no route to [k], demoting whatever keys leaves its
    inactive entry for [k] alone. *)
Lemma retire_fold_absent (now : Z) (k : string) (ks : list string) :
  forall node,
    Js.get k (Node.routingTable node) = None ->
    Js.get k (Node.inactiveRoutingTables (fold_left (fun n k => demote now k n) ks node))
    = Js.get k (Node.inactiveRoutingTables node).
Proof.
  induction ks as [| k0 ks IH]; intros node Hk; simpl; [reflexivity |].
  destruct (string_dec k k0) as [<- | Hne].
  - unfold demote at 2. rewrite Hk. now apply IH.
  - destruct (demote_other now k0 k node Hne) as [Hrt Hin].
    rewrite IH by now rewrite Hrt. exact Hin.
Qed.

(** A route that is demoted ends in the inactive table, stamped [now]. *)
Lemma retire_fold_inactive (now : Z) (k : string) (e : RoutingTableEntry)
    (ks : list string) :
  forall node,
    In k ks ->
    Js.get k (Node.routingTable node) = Some e ->
    Js.get k (Node.inactiveRoutingTables (fold_left (fun n k => demote now k n) ks node))
    = Some {| sinkId := k; lastActiveEntry := e; inactiveSince := now |}.
Proof.
  induction ks as [| k0 ks IH]; intros node Hin Hk; simpl; [destruct Hin |].
  destruct (string_dec k k0) as [<- | Hne].
  - rewrite retire_fold_absent by apply demote_same. now apply demote_inactive.
  - destruct Hin as [-> | Hin]; [congruence |].
    apply IH; [exact Hin |].
    destruct (demote_other now k0 k node Hne) as [-> _]. exact Hk.
Qed.

Lemma retire_fold_nodup (now : Z) (ks : list string) :
  forall node,
    NoDup (Js.keys (Node.inactiveRoutingTables node)) ->
    NoDup (Js.keys (Node.inactiveRoutingTables
                      (fold_left (fun n k => demote now k n) ks node))).
Proof.
  induction ks as [| k0 ks IH]; intros node H; simpl; [exact H |].
  apply IH. now apply demote_inactive_nodup.
Qed.

Lemma fold_mdelete_in {V : Type} (k : string) (ks : list string) :
  forall m : JsMap V,
    In k ks -> Js.get k (fold_left (fun m k => Js.mdelete k m) ks m) = None.
Proof.
  induction ks as [| k0 ks IH]; intros m Hin; simpl; [destruct Hin |].
  destruct (in_dec string_dec k ks) as [Hk | Hk]; [now apply IH |].
  destruct Hin as [-> | Hin]; [| contradiction].
  clear IH. revert m. induction ks as [| k1 ks IH]; intros m; simpl.
  - apply get_mdelete_eq.
  - assert (Hne : k <> k1) by (intros ->; apply Hk; now left).
    assert (Hk' : ~ In k ks) by (intros H; apply Hk; now right).
    specialize (IH Hk'). 
    assert (Hcomm : Js.mdelete k1 (Js.mdelete k m) = Js.mdelete k (Js.mdelete k1 m)).
    { unfold Js.mdelete. induction m as [| kv m IHm]; simpl; [reflexivity |].
      destruct (negb (String.eqb k (fst kv))) eqn:E1,
               (negb (String.eqb k1 (fst kv))) eqn:E2; simpl;
        rewrite ?E1, ?E2; simpl; now rewrite IHm. }
    rewrite Hcomm. apply IH.
Qed.

Lemma fold_mdelete_out {V : Type} (k : string) (ks : list string) :
  forall m : JsMap V,
    ~ In k ks -> Js.get k (fold_left (fun m k => Js.mdelete k m) ks m) = Js.get k m.
Proof.
  induction ks as [| k0 ks IH]; intros m Hk; simpl; [reflexivity |].
  rewrite IH by (intros H; apply Hk; now right).
  apply get_mdelete_neq. intros ->. apply Hk. now left.
Qed.

(** The second pass deletes an inactive entry exactly when it has been
    inactive for longer than the timeout. *)
Lemma dropExpiredInactive_get (now timeout : Z) (node : Node.t) (k : string) :
  NoDup (Js.keys (Node.inactiveRoutingTables node)) ->
  Js.get k (Node.inactiveRoutingTables (dropExpiredInactive now timeout node))
  = match Js.get k (Node.inactiveRoutingTables node) with
    | Some ie => if (timeout <? now - inactiveSince ie)%Z then None else Some ie
    | None => None
    end.
Proof.
  intros Hnd. unfold dropExpiredInactive. simpl.
  set (m := Node.inactiveRoutingTables node) in *.
  set (expired := fun kv : string * InactiveRoutingTableEntry =>
                    (timeout <? now - inactiveSince (snd kv))%Z).
  destruct (in_dec string_dec k (Js.keys (filter expired m))) as [Hin | Hout].
  - rewrite (fold_mdelete_in k _ m Hin).
    unfold Js.keys in Hin. apply in_map_iff in Hin.
    destruct Hin as [[k' ie] [Hk Hf]]. simpl in Hk. subst k'.
    apply filter_In in Hf. destruct Hf as [Hm He].
    rewrite (in_get_nodup k ie m Hnd Hm). unfold expired in He. simpl in He.
    now rewrite He.
  - rewrite (fold_mdelete_out k _ m Hout).
    destruct (Js.get k m) as [ie |] eqn:Hg; [| reflexivity].
    destruct (timeout <? now - inactiveSince ie)%Z eqn:He; [| reflexivity].
    exfalso. apply Hout. unfold Js.keys. apply in_map_iff. exists (k, ie).
    split; [reflexivity |]. apply filter_In. split; [now apply get_in | exact He].
Qed.

(** What the two first passes leave of the entries for [k] at one node. *)
Lemma beforeSearch_sink_key (now timeout : Z) (sinkIds : JsSet) (node : Node.t)
    (k : string) :
  In k sinkIds ->
  Js.get k (Node.routingTable
              (dropExpiredInactive now timeout (retireVanishedSinks now sinkIds node)))
  = Js.get k (Node.routingTable node).
Proof.
  intros Hk.
  destruct (dropExpiredInactive_spec now timeout (retireVanishedSinks now sinkIds node))
    as [_ ->].
  unfold retireVanishedSinks.
  apply retire_fold. intros Hin. apply filter_In in Hin. destruct Hin as [_ Hh].
  apply negb_true_iff, has_false_iff in Hh. contradiction.
Qed.

Lemma nth_error_beforeSearch (now timeout : Z) (ns : list Node.t) (x : nat)
    (node : Node.t) :
  nth_error ns x = Some node ->
  nth_error (beforeSearch now timeout ns) x
  = Some (dropExpiredInactive now timeout
            (retireVanishedSinks now
               (fold_left (fun acc n => Js.add (Node.id n) acc) (filter isSink ns) [])
               node)).
Proof. intros H. unfold beforeSearch. now rewrite !nth_error_map, H. Qed.

Lemma not_a_sink_id (ns : list Node.t) (k : string) :
  (forall n, In n ns -> isSink n = true -> Node.id n <> k) ->
  ~ In k (map Node.id (filter isSink ns))
  /\ ~ In k (fold_left (fun acc n => Js.add (Node.id n) acc) (filter isSink ns) []).
Proof.
  intros H.
  assert (H1 : ~ In k (map Node.id (filter isSink ns))).
  { intros Hin. apply in_map_iff in Hin. destruct Hin as [n [Hid Hn]].
    apply filter_In in Hn. destruct Hn as [Hn Hs]. now apply (H n Hn Hs). }
  split; [exact H1 |]. rewrite in_sinkIds_fold. intros [[] | Hin]. contradiction.
Qed.

Section Lifecycle.
Variable uuidv4 : nat -> string.

(** The tables of the node at [x] after a routing pass are those that the
    three table passes leave. *)
Lemma updateRoutingTables_at (now : Z) (s : Model.t) (x : nat) (nr : Node.t) :
  nth_error (rebuildRoutes now (Model.inactiveRoutingTimeout s) (Model.nodes s)) x
  = Some nr ->
  exists node',
    nodeAt x (updateRoutingTables uuidv4 now s) = Some node'
    /\ Node.id node' = Node.id nr
    /\ Node.connections node' = Node.connections nr
    /\ Node.routingTable node' = Node.routingTable nr
    /\ Node.inactiveRoutingTables node' = Node.inactiveRoutingTables nr.
Proof.
  intros Hx. pose proof (updateRoutingTables_tables uuidv4 now s) as Hv.
  assert (Hm : nth_error (viewOf tablesView (updateRoutingTables uuidv4 now s)) x
               = Some (tablesView nr)) by now rewrite Hv, nth_error_map, Hx.
  unfold viewOf in Hm. rewrite nth_error_map in Hm. unfold nodeAt.
  destruct (nth_error (Model.nodes (updateRoutingTables uuidv4 now s)) x)
    as [node' |]; [| discriminate].
  simpl in Hm. unfold tablesView in Hm. injection Hm as H1 H2 H3 H4.
  exists node'. auto.
Qed.

(** The entries for a key that names no sink, after the three passes: those
    the two first passes leave. *)
Lemma rebuildRoutes_other_key (now timeout : Z) (ns : list Node.t) (x : nat)
    (node : Node.t) (k : string) :
  nth_error ns x = Some node ->
  (forall n, In n ns -> isSink n = true -> Node.id n <> k) ->
  let sinkIds :=
    fold_left (fun acc n => Js.add (Node.id n) acc) (filter isSink ns) [] in
  let nb := dropExpiredInactive now timeout (retireVanishedSinks now sinkIds node) in
  exists nr,
    nth_error (rebuildRoutes now timeout ns) x = Some nr
    /\ Js.get k (Node.routingTable nr) = Js.get k (Node.routingTable nb)
    /\ Js.get k (Node.inactiveRoutingTables nr)
       = Js.get k (Node.inactiveRoutingTables nb).
Proof.
  intros Hx Hk sinkIds nb. destruct (not_a_sink_id ns k Hk) as [Hk1 _].
  rewrite rebuildRoutes_unfold.
  destruct (fold_routeSink_other now k _ Hk1 (beforeSearch now timeout ns) x nb
              (nth_error_beforeSearch now timeout ns x node Hx))
    as [nr [Hnr [_ [Hrt Hin]]]].
  exists nr. auto.
Qed.

(** X4.  A route to an identifier that names no sink any more (the sink was
    removed, or toggled back to a source) is retired by the next routing
    pass: the entry leaves the routing table and becomes the inactive entry
    for that identifier, with the pass time as [inactiveSince].  (With a
    negative timeout the fresh inactive entry is deleted at once.) *)
Theorem route_to_vanished_sink_is_retired (now : Z) (s : Model.t) (x : nat)
    (node : Node.t) (k : string) (e : RoutingTableEntry) :
  nodeAt x s = Some node ->
  (forall n, In n (Model.nodes s) -> isSink n = true -> Node.id n <> k) ->
  Js.get k (Node.routingTable node) = Some e ->
  NoDup (Js.keys (Node.inactiveRoutingTables node)) ->
  exists node',
    nodeAt x (updateRoutingTables uuidv4 now s) = Some node'
    /\ Node.id node' = Node.id node
    /\ Js.get k (Node.routingTable node') = None
    /\ Js.get k (Node.inactiveRoutingTables node')
       = if (Model.inactiveRoutingTimeout s <? 0)%Z then None
         else Some {| sinkId := k; lastActiveEntry := e; inactiveSince := now |}.
Proof.
  intros Hx Hk He Hnd. unfold nodeAt in Hx.
  destruct (rebuildRoutes_other_key now (Model.inactiveRoutingTimeout s) _ x node k Hx Hk)
    as [nr [Hnr [Hrt Hin]]].
  destruct (updateRoutingTables_at now s x nr Hnr) as [node' [Hx' [Hid [_ [Hrt' Hin']]]]].
  destruct (not_a_sink_id _ k Hk) as [_ Hk2].
  set (sinkIds := fold_left (fun acc n => Js.add (Node.id n) acc)
                    (filter isSink (Model.nodes s)) []) in *.
  assert (Hks : In k (filter (fun k => negb (Js.has k sinkIds))
                        (Js.keys (Node.routingTable node)))).
  { apply filter_In. split; [eapply get_some_in_keys; exact He |].
    now apply negb_true_iff, has_false_iff. }
  exists node'. split; [exact Hx' |]. split.
  { rewrite Hid.
    assert (Hl : map linkView
                   (rebuildRoutes now (Model.inactiveRoutingTimeout s) (Model.nodes s))
                 = map linkView (Model.nodes s)) by apply rebuildRoutes_linkView.
    destruct (nth_error_linkView _ _ x node Hl Hx) as [nr' [Hnr' Hv]].
    rewrite Hnr in Hnr'. injection Hnr' as <-. now apply linkView_links in Hv. }
  rewrite Hrt', Hin', Hrt, Hin. clear Hrt Hin Hrt' Hin'. split.
  - destruct (dropExpiredInactive_spec now (Model.inactiveRoutingTimeout s)
                (retireVanishedSinks now sinkIds node)) as [_ ->].
    unfold retireVanishedSinks. now apply retire_fold.
  - rewrite dropExpiredInactive_get by (apply retire_fold_nodup; exact Hnd).
    unfold retireVanishedSinks. rewrite (retire_fold_inactive now k e _ node Hks He).
    simpl. now rewrite Z.sub_diag.
Qed.

(** X5.  An inactive entry for an identifier that names no sink is kept by a
    routing pass as long as it has been inactive for no longer than the
    timeout, and deleted once [now - inactiveSince] is strictly greater than
    the timeout; no route to the identifier appears. *)
Theorem inactive_route_expires_after_timeout (now : Z) (s : Model.t) (x : nat)
    (node : Node.t) (k : string) (ie : InactiveRoutingTableEntry) :
  nodeAt x s = Some node ->
  (forall n, In n (Model.nodes s) -> isSink n = true -> Node.id n <> k) ->
  Js.get k (Node.routingTable node) = None ->
  Js.get k (Node.inactiveRoutingTables node) = Some ie ->
  NoDup (Js.keys (Node.inactiveRoutingTables node)) ->
  exists node',
    nodeAt x (updateRoutingTables uuidv4 now s) = Some node'
    /\ Js.get k (Node.routingTable node') = None
    /\ Js.get k (Node.inactiveRoutingTables node')
       = if (Model.inactiveRoutingTimeout s <? now - inactiveSince ie)%Z then None
         else Some ie.
Proof.
  intros Hx Hk Hrt0 Hie Hnd. unfold nodeAt in Hx.
  destruct (rebuildRoutes_other_key now (Model.inactiveRoutingTimeout s) _ x node k Hx Hk)
    as [nr [Hnr [Hrt Hin]]].
  destruct (updateRoutingTables_at now s x nr Hnr) as [node' [Hx' [_ [_ [Hrt' Hin']]]]].
  set (sinkIds := fold_left (fun acc n => Js.add (Node.id n) acc)
                    (filter isSink (Model.nodes s)) []) in *.
  assert (Hks : ~ In k (filter (fun k => negb (Js.has k sinkIds))
                          (Js.keys (Node.routingTable node)))).
  { intros H. apply filter_In in H. destruct H as [H _].
    apply in_keys_get in H. destruct H as [v Hv]. congruence. }
  exists node'. split; [exact Hx' |].
  rewrite Hrt', Hin', Hrt, Hin. clear Hrt Hin Hrt' Hin'. split.
  - destruct (dropExpiredInactive_spec now (Model.inactiveRoutingTimeout s)
                (retireVanishedSinks now sinkIds node)) as [_ ->].
    unfold retireVanishedSinks.
    destruct (retire_fold now
                (filter (fun k => negb (Js.has k sinkIds))
                   (Js.keys (Node.routingTable node))) node) as [_ [_ Hout]].
    destruct (Hout k Hks) as [-> _]. exact Hrt0.
  - rewrite dropExpiredInactive_get by (apply retire_fold_nodup; exact Hnd).
    unfold retireVanishedSinks. rewrite retire_fold_absent by exact Hrt0.
    now rewrite Hie.
Qed.

(** X6.  After a routing pass a node that the search from a sink does not
    reach has no route to that sink; a route it had is now its inactive
    entry for the sink, with the pass time as [inactiveSince]. *)
Theorem route_to_unreachable_sink_is_demoted (now : Z) (s : Model.t) (x : nat)
    (node sinkNode : Node.t) :
  NoDup (map Node.id (Model.nodes s)) ->
  nodeAt x s = Some node ->
  In sinkNode (Model.nodes s) ->
  isSink sinkNode = true ->
  Js.get (Node.id node) (bfs (Model.nodes s) (Node.id sinkNode)) = None ->
  (forall d, ~ walk (Model.nodes s) (Node.id sinkNode) (Node.id node) d)
  /\ exists node',
       nodeAt x (updateRoutingTables uuidv4 now s) = Some node'
       /\ Node.id node' = Node.id node
       /\ Js.get (Node.id sinkNode) (Node.routingTable node') = None
       /\ forall e,
            Js.get (Node.id sinkNode) (Node.routingTable node) = Some e ->
            Js.get (Node.id sinkNode) (Node.inactiveRoutingTables node')
            = Some {| sinkId := Node.id sinkNode;
                      lastActiveEntry := e;
                      inactiveSince := now |}.
Proof.
  intros Hnd Hx Hsink Hsinkb Hd. unfold nodeAt in Hx.
  set (ns := Model.nodes s) in *. set (k := Node.id sinkNode) in *.
  set (timeout := Model.inactiveRoutingTimeout s).
  split.
  { intros d Hw. destruct (walk_bfs ns k _ d Hw) as [d' [Hd' _]]. congruence. }
  assert (Hne : Node.id node <> k).
  { intros E. destruct (bfs_result ns k) as [_ [_ [Hroot _]]]. congruence. }
  assert (Hk : In k (map Node.id (filter isSink ns))).
  { apply in_map. apply filter_In. auto. }
  assert (Hnds : NoDup (map Node.id (filter isSink ns))) by now apply sink_ids_nodup.
  destruct (in_split _ _ Hk) as [l1 [l2 Hsplit]].
  assert (Hk1 : ~ In k l1).
  { rewrite Hsplit in Hnds. apply NoDup_remove_2 in Hnds.
    intros H. apply Hnds. apply in_or_app. now left. }
  assert (Hk2 : ~ In k l2).
  { rewrite Hsplit in Hnds. apply NoDup_remove_2 in Hnds.
    intros H. apply Hnds. apply in_or_app. now right. }
  set (sinkIds := fold_left (fun acc n => Js.add (Node.id n) acc) (filter isSink ns) []).
  assert (Hks : In k sinkIds) by (apply in_sinkIds_fold; now right).
  set (nb := dropExpiredInactive now timeout (retireVanishedSinks now sinkIds node)).
  destruct (fold_routeSink_other now k l1 Hk1 (beforeSearch now timeout ns) x nb
              (nth_error_beforeSearch now timeout ns x node Hx))
    as [n1 [Hn1 [Hl1 [Hrt1 _]]]].
  set (ns1 := fold_left (routeSink now) l1 (beforeSearch now timeout ns)) in *.
  assert (Hv1 : map linkView ns1 = map linkView ns).
  { subst ns1. now rewrite fold_routeSink_linkView, beforeSearch_linkView. }
  assert (Hidb : Node.id n1 = Node.id node).
  { destruct (nth_error_linkView ns ns1 x node Hv1 Hx) as [n1' [Hn1' Hv]].
    rewrite Hn1 in Hn1'. injection Hn1' as <-. now apply linkView_links in Hv. }
  destruct (fold_routeSink_other now k l2 Hk2 (routeSink now ns1 k) x
              (routeNode now k (bfs ns1 k) n1))
    as [nr [Hnr [Hlr [Hrtr Hinr]]]].
  { unfold routeSink. now rewrite nth_error_map, Hn1. }
  assert (Hfinal : nth_error (rebuildRoutes now timeout ns) x = Some nr).
  { rewrite rebuildRoutes_unfold, Hsplit, fold_left_app. exact Hnr. }
  destruct (updateRoutingTables_at now s x nr Hfinal)
    as [node' [Hx' [Hid [_ [Hrt' Hin']]]]].
  assert (Hroute : routeNode now k (bfs ns1 k) n1 = demote now k n1).
  { unfold routeNode. rewrite (bfs_linkView ns ns1 k Hv1), Hidb.
    apply String.eqb_neq in Hne. now rewrite Hne, Hd. }
  rewrite Hroute in *.
  exists node'. split; [exact Hx' |]. split.
  { rewrite Hid. rewrite demote_linkView in Hlr. apply linkView_links in Hlr.
    destruct Hlr as [-> _]. exact Hidb. }
  rewrite Hrt', Hin', Hrtr, Hinr. split; [apply demote_same |].
  intros e He. apply demote_inactive. rewrite Hrt1. subst nb.
  now rewrite beforeSearch_sink_key.
Qed.

End Lifecycle.

Lemma route_to_vanished_sink_is_retired_witness :
  exists node',
    nodeAt 0 (updateRoutingTables letterUuid 7 oneNodeWorld) = Some node'
    /\ Js.get "S" (Node.routingTable node') = None
    /\ Js.get "S" (Node.inactiveRoutingTables node')
       = Some {| sinkId := "S";
                 lastActiveEntry := {| nextHops := [("P"%string, 1)]; lastUpdate := 0 |};
                 inactiveSince := 7 |}.
Proof.
  destruct (route_to_vanished_sink_is_retired letterUuid 7 oneNodeWorld 0 nodeAtTimeout
              "S" {| nextHops := [("P"%string, 1)]; lastUpdate := 0 |})
    as [node' [Hx [_ [Hrt Hin]]]].
  - reflexivity.
  - intros n [<- | []] H. vm_compute in H. discriminate H.
  - reflexivity.
  - constructor.
  - exists node'. split; [exact Hx |]. split; [exact Hrt | exact Hin].
Defined.

Lemma inactive_route_expires_after_timeout_witness :
  (exists node',
      nodeAt 0 (updateRoutingTables letterUuid 1007 worldAfterRetire) = Some node'
      /\ Js.mhas "S" (Node.inactiveRoutingTables node') = true)
  /\ (exists node',
        nodeAt 0 (updateRoutingTables letterUuid 1008 worldAfterRetire) = Some node'
        /\ Js.mhas "S" (Node.inactiveRoutingTables node') = false).
Proof.
  assert (Hsinks : forall n, In n (Model.nodes worldAfterRetire) -> isSink n = true ->
                             Node.id n <> "S"%string).
  { intros n Hn H. vm_compute in Hn. destruct Hn as [<- | []].
    vm_compute in H. discriminate H. }
  assert (Hnd : NoDup (Js.keys (Node.inactiveRoutingTables retiredNode))).
  { vm_compute. repeat constructor. intros []. }
  split.
  - destruct (inactive_route_expires_after_timeout letterUuid 1007 worldAfterRetire 0
                retiredNode "S"
                {| sinkId := "S";
                   lastActiveEntry :=
                     {| nextHops := [("P"%string, 1)]; lastUpdate := 0 |};
                   inactiveSince := 7 |})
      as [node' [Hx [_ Hin]]];
      [vm_compute; reflexivity | exact Hsinks | vm_compute; reflexivity
      | vm_compute; reflexivity | exact Hnd |].
    exists node'. split; [exact Hx |]. unfold Js.mhas. rewrite Hin. reflexivity.
  - destruct (inactive_route_expires_after_timeout letterUuid 1008 worldAfterRetire 0
                retiredNode "S"
                {| sinkId := "S";
                   lastActiveEntry :=
                     {| nextHops := [("P"%string, 1)]; lastUpdate := 0 |};
                   inactiveSince := 7 |})
      as [node' [Hx [_ Hin]]];
      [vm_compute; reflexivity | exact Hsinks | vm_compute; reflexivity
      | vm_compute; reflexivity | exact Hnd |].
    exists node'. split; [exact Hx |]. unfold Js.mhas. rewrite Hin. reflexivity.
Defined.

Lemma diamondAfterDrag_ids :
  map Node.id (Model.nodes diamondAfterDrag) = ["a"; "b"; "c"; "d"]%string.
Proof. vm_compute. reflexivity. Qed.

Lemma route_to_unreachable_sink_is_demoted_witness :
  exists node' e,
    nodeAt 1 (updateRoutingTables letterUuid 6 diamondAfterDrag) = Some node'
    /\ Js.get "d" (Node.routingTable draggedNode) = Some e
    /\ Js.get "d" (Node.routingTable node') = None
    /\ Js.get "d" (Node.inactiveRoutingTables node')
       = Some {| sinkId := "d"; lastActiveEntry := e; inactiveSince := 6 |}.
Proof.
  assert (Hnd : NoDup (map Node.id (Model.nodes diamondAfterDrag))).
  { rewrite diamondAfterDrag_ids.
    repeat (constructor; [simpl; intuition discriminate |]). constructor. }
  assert (Hsink : In draggedSink (Model.nodes diamondAfterDrag)).
  { vm_compute. do 3 right. left. reflexivity. }
  destruct (route_to_unreachable_sink_is_demoted letterUuid 6 diamondAfterDrag 1
              draggedNode draggedSink Hnd)
    as [_ [node' [Hx [_ [Hrt Hin]]]]];
    [vm_compute; reflexivity | exact Hsink | vm_compute; reflexivity
    | vm_compute; reflexivity |].
  destruct (Js.get "d" (Node.routingTable draggedNode)) as [e |] eqn:He.
  - exists node', e. split; [exact Hx |]. split; [reflexivity |].
    split; [exact Hrt |]. exact (Hin e He).
  - vm_compute in He. discriminate He.
Defined.
(** ** Whom a message is sent to *)

(** Flooding: every neighbour but the excluded one, once. *)
Lemma selectFlooding_acc (excludeNodeId : option string) (conns : JsSet) :
  forall acc t,
    In t (fold_left
            (fun targets peerId =>
               match excludeNodeId with
               | Some x => if String.eqb peerId x then targets else Js.add peerId targets
               | None => Js.add peerId targets
               end)
            conns acc)
    <-> In t acc \/ (In t conns /\ excludeNodeId <> Some t).
Proof.
  induction conns as [| c conns IH]; intros acc t; simpl; [tauto |].
  rewrite IH. destruct excludeNodeId as [x |].
  - destruct (String.eqb_spec c x) as [-> | Hne].
    + split; [tauto |]. intros [H | [[<- | H] Hx]]; auto. congruence.
    + rewrite in_add_iff. split.
      * intros [[-> | H] | [H Hx]]; auto. right. split; [now left | congruence].
      * intros [H | [[<- | H] Hx]]; auto.
  - rewrite in_add_iff. split.
    + intros [[-> | H] | [H Hx]]; auto. right. split; [now left | discriminate].
    + intros [H | [[<- | H] Hx]]; auto.
Qed.

Lemma selectFlooding_iff (node : Node.t) (excludeNodeId : option string) (t : string) :
  In t (selectFlooding node excludeNodeId)
  <-> In t (Node.connections node) /\ excludeNodeId <> Some t.
Proof.
  unfold selectFlooding. rewrite selectFlooding_acc. simpl. tauto.
Qed.


(** Intelligent routing: the excluded peer is no candidate. *)
Lemma neighborCoverage_excludes (now : Z) (x : string) (rt : JsMap RoutingTableEntry)
    (p : string) :
  In p (Js.keys (neighborCoverage now (Some x) rt)) -> p <> x.
Proof.
  unfold neighborCoverage.
  assert (H : forall cov,
             In p (Js.keys
                     (fold_left
                        (fun cov (kv : string * RoutingTableEntry) =>
                           let routeAge := (now - lastUpdate (snd kv))%Z in
                           if (routeAge <? ROUTE_TIMEOUT)%Z then
                             fold_left
                               (fun cov (hop : string * nat) =>
                                  let peerId := fst hop in
                                  if String.eqb peerId x then cov
                                  else coverAdd (fst kv) peerId cov)
                               (nextHops (snd kv)) cov
                           else cov)
                        rt cov)) ->
             In p (Js.keys cov) \/ p <> x).
  { induction rt as [| [k e] rt IH]; intros cov Hp; simpl in *; [now left |].
    apply IH in Hp. destruct Hp as [Hp | Hp]; [| now right].
    destruct (now - lastUpdate e <? ROUTE_TIMEOUT)%Z; [| now left].
    revert cov Hp. induction (nextHops e) as [| hop hops IHh]; intros cov Hp;
      simpl in *; [now left |].
    apply IHh in Hp. destruct Hp as [Hp | Hp]; [| now right].
    destruct (String.eqb_spec (fst hop) x) as [E | E]; [now left |].
    apply coverAdd_keys in Hp. destruct Hp as [-> | Hp]; auto. }
  intros Hp. apply H in Hp. destruct Hp as [[] | Hp]. exact Hp.
Qed.

(** Whatever the mode, the excluded peer is no target. *)
Lemma selectRoutingTargets_excludes (now : Z) (msgs : list Message.t) (node : Node.t)
    (x : string) (messageType : option MessageType) (severity : option TriageSeverity)
    (t : string) :
  In t (selectRoutingTargets now msgs node (Some x) messageType severity) -> t <> x.
Proof.
  unfold selectRoutingTargets. destruct (mode (Node.routingState node)).
  - intros Ht. apply (neighborCoverage_excludes now x (Node.routingTable node)).
    destruct (selectIntelligent_cases now msgs node (Some x) messageType severity)
      as [Hall Hgreedy].
    destruct (Nat.le_gt_cases
                (length (Js.keys (neighborCoverage now (Some x) (Node.routingTable node))))
                (getMultiRouteCap messageType severity)) as [Hle | Hgt].
    + now rewrite (Hall Hle) in Ht.
    + exact (picks_in_remaining _ _ _ _ _ _ (Hgreedy Hgt) t Ht).
  - intros Ht. apply selectFlooding_iff in Ht. destruct Ht as [_ Hx]. congruence.
  - intros [].
  - intros Ht. apply selectFlooding_iff in Ht. destruct Ht as [_ Hx]. congruence.
Qed.

Lemma Forall2_Forall_r {A B : Type} (R : A -> B -> Prop) (P : B -> Prop)
    (l : list A) (l' : list B) :
  (forall x y, In x l -> R x y -> P y) -> Forall2 R l l' -> Forall P l'.
Proof.
  intros H HF. induction HF as [| x y l l' Hxy _ IH]; constructor.
  - apply (H x y); [now left | exact Hxy].
  - apply IH. intros x' y' Hx'. apply H. now right.
Qed.

Section Targets.
Variable uuidv4 : nat -> string.

(** X7.  Every message a node forwards when a message arrives is a copy of
    it: same type, triage id, severity and colour, sent from the receiving
    node with progress 0 at the default speed, stamped [now]; and none of
    them goes back to the node the message came from. *)
Theorem forward_copies_and_never_returns (now : Z) (message : Message.t)
    (s : Model.t) :
  exists new,
    emits s (onMessageArrival uuidv4 now message s) new
    /\ Forall
         (fun m =>
            Message.fromNodeId m = Message.toNodeId message
            /\ Message.toNodeId m <> Message.fromNodeId message
            /\ Message.type m = Message.type message
            /\ Message.triageId m = Message.triageId message
            /\ Message.triageSeverity m = Message.triageSeverity message
            /\ Message.color m = Message.color message
            /\ Message.progress m = 0%float
            /\ Message.speed m = defaultSpeed
            /\ Message.createdAt m = now)
         new.
Proof.
  destruct (Js.findIndex (idIs (Message.toNodeId message)) (Model.nodes s))
    as [i |] eqn:Hfind.
  2:{ exists []. unfold onMessageArrival. rewrite Hfind.
      split; [apply emits_refl | constructor]. }
  destruct (findIndex_nth_error _ _ _ Hfind) as [node [Hnode [Hid _]]].
  unfold idIs in Hid. apply String.eqb_eq in Hid.
  destruct (onMessageArrival_emits uuidv4 now message s i node Hfind Hnode)
    as [new [He [_ Hf]]].
  exists new. split; [exact He |].
  destruct Hf as [-> | Hf]; [constructor |].
  eapply Forall2_Forall_r; [| exact Hf].
  intros t m Ht [msgId ->]. simpl. rewrite Hid.
  split; [reflexivity |]. split; [| auto 10].
  exact (selectRoutingTargets_excludes _ _ _ _ _ _ _ Ht).
Qed.

End Targets.

Section Sends.
Variable uuidv4 : nat -> string.

(** The sender's store after a send. *)
Lemma sendMessage_store (now : Z) (fromNodeId : string) (messageType : MessageType)
    (triageSeverity : option TriageSeverity) (s : Model.t) (i : nat) (node : Node.t) :
  Js.findIndex (idIs fromNodeId) (Model.nodes s) = Some i ->
  nodeAt i s = Some node ->
  exists node',
    nodeAt i (sendMessage uuidv4 now fromNodeId messageType triageSeverity s) = Some node'
    /\ Node.triageStore node'
       = match messageType with
         | triage =>
             if String.eqb (uuidv4 (Model.uuidCount s)) EmptyString
             then Node.triageStore node
             else Js.add (uuidv4 (Model.uuidCount s)) (Node.triageStore node)
         | normal => Node.triageStore node
         end.
Proof.
  intros Hfind Hnode.
  assert (Hview : forall s1 s2 n1,
             viewOf Node.triageStore s2 = viewOf Node.triageStore s1 ->
             nodeAt i s1 = Some n1 ->
             exists n2, nodeAt i s2 = Some n2
                        /\ Node.triageStore n2 = Node.triageStore n1).
  { intros s1 s2 n1 Hv Hn1. apply (viewOf_nodeAt Node.triageStore s1 s2 i n1 Hv Hn1). }
  unfold sendMessage. rewrite Hfind.
  set (u := uuidv4 (Model.uuidCount s)).
  set (tid := match messageType with triage => Some u | normal => None end).
  set (s1 := match messageType with
             | triage => Model.set_uuidCount (S (Model.uuidCount s)) s
             | normal => s
             end).
  assert (Hp : match messageType with
               | triage => let '(u0, s0) := freshUuid uuidv4 s in (Some u0, s0)
               | normal => (None, s)
               end = (tid, s1)) by (subst tid s1; now destruct messageType).
  rewrite Hp. clear Hp. cbv iota beta.
  assert (Hn1 : nodeAt i s1 = Some node) by (subst s1; now destruct messageType).
  set (b := isTriageWithId messageType tid).
  assert (Hb : b = match messageType with
                   | triage => negb (String.eqb u EmptyString)
                   | normal => false
                   end) by (subst b tid; now destruct messageType).
  set (s2 := if b
             then updNode i
                    (fun n => Node.set_triageStore
                                (Js.add (unwrap tid) (Node.triageStore n)) n) s1
             else s1).
  assert (Hn2 : exists n2,
             nodeAt i s2 = Some n2
             /\ Node.triageStore n2
                = if b then Js.add (unwrap tid) (Node.triageStore node)
                  else Node.triageStore node).
  { subst s2. destruct b.
    - rewrite nodeAt_updNode_eq, Hn1. simpl. eexists. split; reflexivity.
    - exists node. auto. }
  destruct Hn2 as [n2 [Hn2 Hs2]]. rewrite Hn2.
  assert (Hgoal : forall st,
             viewOf Node.triageStore st = viewOf Node.triageStore s2 ->
             exists node',
               nodeAt i st = Some node'
               /\ Node.triageStore node'
                  = match messageType with
                    | triage =>
                        if String.eqb u EmptyString then Node.triageStore node
                        else Js.add u (Node.triageStore node)
                    | normal => Node.triageStore node
                    end).
  { intros st Hv. destruct (Hview s2 st n2 Hv Hn2) as [n3 [Hn3 Hs3]].
    exists n3. split; [exact Hn3 |]. rewrite Hs3, Hs2, Hb. subst tid.
    destruct messageType; [| reflexivity].
    now destruct (String.eqb u EmptyString). }
  destruct (_ && _); apply Hgoal; rewrite viewOf_notify.
  - apply viewOf_updNode. reflexivity.
  - apply fold_sendOne_view. reflexivity.
Qed.

(** X8.  Every message of one send leaves the sender for another node, with
    progress 0 and stamped [now].  A triage send draws one fresh identifier:
    every copy carries it together with the severity given (['red'] when
    none was) and that severity's colour, and the sender's [triageStore]
    holds it afterwards.  A normal send carries neither triage id nor
    severity and leaves the store alone. *)
Theorem send_copies_share_one_triage_id (now : Z) (fromNodeId : string)
    (messageType : MessageType) (triageSeverity : option TriageSeverity)
    (s : Model.t) :
  let s' := sendMessage uuidv4 now fromNodeId messageType triageSeverity s in
  (exists new,
      emits s s' new
      /\ Forall
           (fun m =>
              Message.fromNodeId m = fromNodeId
              /\ Message.toNodeId m <> fromNodeId
              /\ Message.type m = messageType
              /\ Message.triageId m
                 = match messageType with
                   | triage => Some (uuidv4 (Model.uuidCount s))
                   | normal => None
                   end
              /\ Message.triageSeverity m = sendSeverity messageType triageSeverity
              /\ Message.color m
                 = match sendSeverity messageType triageSeverity with
                   | Some sev => triageSeverityColors sev
                   | None => defaultColor
                   end
              /\ Message.progress m = 0%float
              /\ Message.createdAt m = now)
           new)
  /\ (forall i node,
        Js.findIndex (idIs fromNodeId) (Model.nodes s) = Some i ->
        nodeAt i s = Some node ->
        exists node',
          nodeAt i s' = Some node'
          /\ Node.triageStore node'
             = match messageType with
               | triage =>
                   if String.eqb (uuidv4 (Model.uuidCount s)) EmptyString
                   then Node.triageStore node
                   else Js.add (uuidv4 (Model.uuidCount s)) (Node.triageStore node)
               | normal => Node.triageStore node
               end).
Proof.
  intros s'. split; [| intros i node; apply sendMessage_store].
  destruct (Js.findIndex (idIs fromNodeId) (Model.nodes s)) as [i |] eqn:Hfind.
  2:{ exists []. subst s'. unfold sendMessage. rewrite Hfind.
      split; [apply emits_refl | constructor]. }
  destruct (findIndex_nth_error _ _ _ Hfind) as [node [Hnode _]].
  destruct (sendMessage_emits uuidv4 now fromNodeId messageType triageSeverity s i node
              Hfind Hnode) as [new [He [_ Hf]]].
  exists new. split; [exact He |].
  destruct Hf as [-> | Hf]; [constructor |].
  eapply Forall2_Forall_r; [| exact Hf].
  intros t m Ht [msgId ->]. simpl.
  split; [reflexivity |].
  split; [exact (selectRoutingTargets_excludes _ _ _ _ _ _ _ Ht) |].
  destruct messageType; simpl; auto 10.
Qed.

End Sends.

Section Flood.
Variable uuidv4 : nat -> string.





End Flood.

(** ** Delivery happens once *)

Lemma SFcompare_antisym (a b : spec_float) :
  SFcompare b a = option_map CompOpp (SFcompare a b).
Proof.
  destruct a as [sa | sa | | sa ma ea], b as [sb | sb | | sb mb eb]; simpl;
    try reflexivity;
    try (destruct sa; reflexivity); try (destruct sb; reflexivity);
    try (destruct sa, sb; reflexivity).
  destruct sa, sb; simpl; try reflexivity;
    rewrite (Z.compare_antisym ea eb); destruct (ea ?= eb)%Z; simpl;
      try reflexivity;
      rewrite (Pos.compare_cont_antisym ma mb Eq); simpl;
      now destruct (Pos.compare_cont Eq ma mb).
Qed.

(** [x <= y] rules out [y < x], for floating-point numbers too. *)
Lemma leb_not_ltb (x y : float) : PrimFloat.leb x y = true -> PrimFloat.ltb y x = false.
Proof.
  rewrite leb_spec, ltb_spec. unfold SFleb, SFltb.
  rewrite (SFcompare_antisym (Prim2SF x) (Prim2SF y)).
  now destruct (SFcompare (Prim2SF x) (Prim2SF y)) as [[| |] |].
Qed.

Section Delivery.
Variable uuidv4 : nat -> string.

(** X10.  After the advance phase every message left in the list has
    progress below 1.  A message whose arrival was processed in the phase was
    in flight when the phase began and is not in the list afterwards, so no
    message is handed to [onMessageArrival] twice; a message that was not in
    flight when the phase began is not handed to it at all. *)
Theorem delivered_messages_leave_the_list (now : Z) (deltaTime : float)
    (s : Model.t) :
  let old := Model.messages s in
  let arrived := snd (advanceAll uuidv4 now deltaTime s) in
  let kept := Model.messages (updateMessages uuidv4 now deltaTime s) in
  Forall (fun m => inFlight m = true) kept
  /\ (forall k m,
        nth_error old k = Some m -> In k arrived ->
        inFlight m = true
        /\ inFlight (advanced deltaTime m) = false
        /\ ~ In (advanced deltaTime m) kept)
  /\ (forall k m,
        nth_error old k = Some m -> inFlight m = false -> ~ In k arrived).
Proof.
  intros old arrived kept.
  assert (Hkept : Forall (fun m => inFlight m = true) kept).
  { subst kept. unfold updateMessages. simpl. apply Forall_forall.
    intros m Hm. apply filter_In in Hm. apply Hm. }
  destruct (advanceAll_invariant uuidv4 now deltaTime s) as [_ [_ [_ Harr]]].
  fold old in Harr. fold arrived in Harr.
  assert (Hcross : forall k m, nth_error old k = Some m -> In k arrived ->
                               crosses deltaTime m = true).
  { intros k m Hk Hin. rewrite Harr in Hin. apply filter_In in Hin.
    destruct Hin as [_ Hc]. unfold crossesAt in Hc. now rewrite Hk in Hc. }
  split; [exact Hkept |]. split.
  - intros k m Hk Hin. specialize (Hcross k m Hk Hin).
    unfold crosses in Hcross. apply andb_true_iff in Hcross.
    destruct Hcross as [Hold Hnew].
    assert (Hout : inFlight (advanced deltaTime m) = false)
      by (unfold inFlight; now apply leb_not_ltb).
    split; [exact Hold |]. split; [exact Hout |].
    intros Hm. rewrite Forall_forall in Hkept. specialize (Hkept _ Hm). congruence.
  - intros k m Hk Hold Hin. specialize (Hcross k m Hk Hin).
    unfold crosses in Hcross. apply andb_true_iff in Hcross.
    unfold inFlight in Hold. destruct Hcross as [Hc _]. congruence.
Qed.

End Delivery.
(** ** Per-sink suppression in intelligent mode *)



Section Suppression.
Variable uuidv4 : nat -> string.


End Suppression.

(** ** Nothing queued is lost *)

Section FlushAll.
Variable uuidv4 : nat -> string.

(** [sendQueuedTriage] pushes one message per neighbour, in the order of the
    connection set, if the triage is still in the store, and none
    otherwise. *)
Lemma sendQueuedTriage_exact (now : Z) (i : nat) (triageId : string)
    (severity : TriageSeverity) (s : Model.t) (fromNode : Node.t) :
  nodeAt i s = Some fromNode ->
  exists new,
    emits s (sendQueuedTriage uuidv4 now i triageId severity s) new
    /\ Model.nodes (sendQueuedTriage uuidv4 now i triageId severity s) = Model.nodes s
    /\ map (fun m => (Message.toNodeId m, Message.triageId m, Message.triageSeverity m))
         new
       = map (fun p => (p, Some triageId, Some severity))
           (if Js.has triageId (Node.triageStore fromNode)
            then fold_left (fun t peerId => Js.add peerId t) (Node.connections fromNode) []
            else [])
    /\ Forall
         (fun m =>
            Message.fromNodeId m = Node.id fromNode
            /\ Message.type m = triage
            /\ Message.progress m = 0%float
            /\ Message.createdAt m = now)
         new.
Proof.
  intros Hnode. unfold sendQueuedTriage. rewrite Hnode.
  destruct (Js.has triageId (Node.triageStore fromNode)); simpl negb; cbv iota.
  2:{ exists []. split; [apply emits_refl |]. split; [reflexivity |].
      split; [reflexivity | constructor]. }
  generalize (fold_left (fun t peerId => Js.add peerId t) (Node.connections fromNode) [])
    as ts.
  intros ts. unfold emits. simpl. clear Hnode. revert s.
  induction ts as [| t ts IH]; intros s; simpl.
  - exists []. rewrite app_nil_r. repeat split. constructor.
  - match goal with
    | |- context [fold_left ?f ts ?s1] => destruct (IH s1) as [new [He [Hn [Hm Hf]]]]
    end.
    eexists (_ :: new). rewrite He, Hn. simpl. rewrite <- app_assoc. simpl.
    split; [reflexivity |]. split; [reflexivity |].
    split; [now rewrite Hm |].
    constructor; [| exact Hf]. simpl. auto.
Qed.

(** X12.  When a node with at least one neighbour is flushed, its queue is
    emptied and, for every queued triage that is in its store, in queue
    order, one message goes to every neighbour, in the order of the
    connection set, with the triage id and the severity of the queue entry.
    Nothing else of the node changes. *)
Theorem flush_sends_every_queued_triage_to_every_neighbour (now : Z) (i : nat)
    (s : Model.t) (node : Node.t) :
  nodeAt i s = Some node ->
  Node.connections node <> [] ->
  NoDup (Node.connections node) ->
  let s' := flushQueue uuidv4 now i s in
  exists new,
    emits s s' new
    /\ map (fun m => (Message.toNodeId m, Message.triageId m, Message.triageSeverity m))
         new
       = flat_map
           (fun q =>
              map (fun p => (p, Some (q_triageId q), Some (q_severity q)))
                (Node.connections node))
           (filter (fun q => Js.has (q_triageId q) (Node.triageStore node))
              (Node.triageQueue node))
    /\ Forall
         (fun m =>
            Message.fromNodeId m = Node.id node
            /\ Message.type m = triage
            /\ Message.progress m = 0%float
            /\ Message.createdAt m = now)
         new
    /\ nodeAt i s' = Some (Node.set_triageQueue [] node)
    /\ (forall j, j <> i -> nodeAt j s' = nodeAt j s).
Proof.
  intros Hnode Hconn Hnd s'. subst s'. unfold flushQueue. rewrite Hnode.
  assert (Hlen : (0 <? length (Node.connections node)) = true).
  { apply Nat.ltb_lt. destruct (Node.connections node); [congruence | simpl; lia]. }
  rewrite Hlen. simpl andb.
  destruct (Node.triageQueue node) as [| q0 qs0] eqn:Hq.
  { simpl. exists []. split; [apply emits_refl |]. split; [reflexivity |].
    split; [constructor |]. split; [| reflexivity].
    rewrite Hnode. f_equal. destruct node. simpl in *. now rewrite Hq. }
  cbn [length Nat.ltb Nat.leb]. cbv iota.
  set (queue := q0 :: qs0).
  set (s1 := updNode i (Node.set_triageQueue []) s).
  set (node1 := Node.set_triageQueue [] node).
  assert (Hn1 : nodeAt i s1 = Some node1)
    by (subst s1 node1; now rewrite nodeAt_updNode_eq, Hnode).
  assert (Hothers1 : forall j, j <> i -> nodeAt j s1 = nodeAt j s)
    by (intros j Hj; subst s1; apply nodeAt_updNode_neq; congruence).
  assert (Htargets : fold_left (fun t peerId => Js.add peerId t)
                       (Node.connections node1) []
                     = Node.connections node)
    by (subst node1; simpl; now apply (fold_add_app _ [])).
  assert (Hloop : forall qs s2,
             Model.nodes s2 = Model.nodes s1 ->
             exists new,
               emits s2
                 (fold_left
                    (fun st queuedTriage =>
                       sendQueuedTriage uuidv4 now i (q_triageId queuedTriage)
                         (q_severity queuedTriage) st)
                    qs s2)
                 new
               /\ Model.nodes
                    (fold_left
                       (fun st queuedTriage =>
                          sendQueuedTriage uuidv4 now i (q_triageId queuedTriage)
                            (q_severity queuedTriage) st)
                       qs s2)
                  = Model.nodes s1
               /\ map (fun m => (Message.toNodeId m, Message.triageId m,
                                 Message.triageSeverity m)) new
                  = flat_map
                      (fun q =>
                         map (fun p => (p, Some (q_triageId q), Some (q_severity q)))
                           (Node.connections node))
                      (filter (fun q => Js.has (q_triageId q) (Node.triageStore node)) qs)
               /\ Forall
                    (fun m =>
                       Message.fromNodeId m = Node.id node
                       /\ Message.type m = triage
                       /\ Message.progress m = 0%float
                       /\ Message.createdAt m = now)
                    new).
  { induction qs as [| q qs IH]; intros s2 Hs2; simpl.
    - exists []. split; [apply emits_refl |]. split; [exact Hs2 |].
      split; [reflexivity | constructor].
    - assert (Hn2 : nodeAt i s2 = Some node1) by (unfold nodeAt; now rewrite Hs2).
      destruct (sendQueuedTriage_exact now i (q_triageId q) (q_severity q) s2 node1 Hn2)
        as [new1 [He1 [Hnodes1 [Hm1 Hf1]]]].
      destruct (IH (sendQueuedTriage uuidv4 now i (q_triageId q) (q_severity q) s2))
        as [new2 [He2 [Hnodes2 [Hm2 Hf2]]]]; [now rewrite Hnodes1 |].
      exists (new1 ++ new2). split; [exact (emits_trans _ _ _ _ _ He1 He2) |].
      split; [exact Hnodes2 |]. split.
      + rewrite map_app, Hm1, Hm2, Htargets. subst node1. simpl Node.triageStore.
        destruct (Js.has (q_triageId q) (Node.triageStore node)); reflexivity.
      + apply Forall_app. split; [exact Hf1 | exact Hf2]. }
  destruct (Hloop queue s1 eq_refl) as [new [He [Hnodes [Hm Hf]]]].
  exists new. split; [| split; [exact Hm | split; [exact Hf | split]]].
  - unfold emits in *. rewrite He. reflexivity.
  - unfold nodeAt in *. now rewrite Hnodes.
  - intros j Hj. rewrite <- (Hothers1 j Hj). unfold nodeAt. now rewrite Hnodes.
Qed.

End FlushAll.

Lemma flush_sends_every_queued_triage_to_every_neighbour_witness :
  exists new,
    emits (Model.set_nodes [queuedNode] emptyModel)
      (flushQueue letterUuid 9 0 (Model.set_nodes [queuedNode] emptyModel)) new
    /\ map (fun m => (Message.toNodeId m, Message.triageId m, Message.triageSeverity m))
         new
       = [("B", Some "t", Some yellow); ("C", Some "t", Some yellow)]%string.
Proof.
  destruct (flush_sends_every_queued_triage_to_every_neighbour letterUuid 9 0
              (Model.set_nodes [queuedNode] emptyModel) queuedNode)
    as [new [He [Hm _]]].
  - reflexivity.
  - discriminate.
  - vm_compute. repeat (constructor; [simpl; intuition discriminate |]). constructor.
  - exists new. split; [exact He | exact Hm].
Defined.
(** ** Auto-generation *)

Section AutoGeneration.
Variable uuidv4 : nat -> string.



End AutoGeneration.
(** ** The list of connections *)

Lemma append_same_length (x x' r r' : string) :
  String.length x = String.length x' -> (x ++ r)%string = (x' ++ r')%string ->
  x = x' /\ r = r'.
Proof.
  revert x'. induction x as [| c x IH]; intros [| c' x'] Hlen H; simpl in *;
    try discriminate.
  - auto.
  - injection H as -> H. injection Hlen as Hlen.
    destruct (IH x' Hlen H) as [-> ->]. auto.
Qed.

Lemma pairKey_sym (a b : string) : pairKey a b = pairKey b a.
Proof.
  unfold pairKey, String.ltb. rewrite (String.compare_antisym a b).
  destruct (String.compare b a) eqn:E; simpl; try reflexivity.
  apply String.compare_eq_iff in E. now subst.
Qed.

(** Identifiers of one length: a key names its two ends. *)
Lemma pairKey_inj (a b c d : string) :
  String.length a = String.length b ->
  String.length c = String.length a ->
  String.length d = String.length a ->
  pairKey a b = pairKey c d ->
  (a = c /\ b = d) \/ (a = d /\ b = c).
Proof.
  intros Hab Hc Hd. unfold pairKey.
  destruct (String.ltb b a), (String.ltb d c); intros H;
    apply append_same_length in H; try congruence;
    destruct H as [H1 H2]; injection H2 as H2; subst; auto.
Qed.

(** The loop of [getConnections] keeps [seen] the list of the keys of
    [connections], without repetition. *)
Lemma visitConnection_keys (nodeId connectedId : string)
    (st : list (string * string) * JsSet) :
  snd st = map (fun p => pairKey (fst p) (snd p)) (fst st) ->
  NoDup (snd st) ->
  let st' := visitConnection nodeId st connectedId in
  snd st' = map (fun p => pairKey (fst p) (snd p)) (fst st')
  /\ NoDup (snd st')
  /\ In (pairKey nodeId connectedId) (snd st')
  /\ (forall k, In k (snd st) -> In k (snd st'))
  /\ (forall p, In p (fst st') -> In p (fst st) \/ p = (nodeId, connectedId)).
Proof.
  intros Hkeys Hnd. unfold visitConnection.
  destruct (Js.has (pairKey nodeId connectedId) (snd st)) eqn:Hhas; simpl.
  - apply has_true_iff in Hhas. auto 10.
  - apply has_false_iff in Hhas. rewrite (add_fresh _ _ Hhas).
    split; [| split; [| split; [| split]]].
    + rewrite map_app, <- Hkeys. reflexivity.
    + apply NoDup_app; [exact Hnd | repeat constructor; auto |].
      intros k Hk [<- | []]. contradiction.
    + apply in_or_app. right. now left.
    + intros k Hk. apply in_or_app. now left.
    + intros p Hp. apply in_app_or in Hp. destruct Hp as [Hp | [<- | []]]; auto.
Qed.

Lemma getConnections_loop (ns : list Node.t) :
  forall st,
    snd st = map (fun p => pairKey (fst p) (snd p)) (fst st) ->
    NoDup (snd st) ->
    let st' :=
      fold_left
        (fun st node =>
           fold_left (visitConnection (Node.id node)) (Node.connections node) st)
        ns st in
    snd st' = map (fun p => pairKey (fst p) (snd p)) (fst st')
    /\ NoDup (snd st')
    /\ (forall n b, In n ns -> In b (Node.connections n) ->
          In (pairKey (Node.id n) b) (snd st'))
    /\ (forall k, In k (snd st) -> In k (snd st'))
    /\ (forall p, In p (fst st') ->
          In p (fst st)
          \/ exists n, In n ns /\ fst p = Node.id n /\ In (snd p) (Node.connections n)).
Proof.
  assert (Hinner : forall nodeId conns st,
             snd st = map (fun p => pairKey (fst p) (snd p)) (fst st) ->
             NoDup (snd st) ->
             let st' := fold_left (visitConnection nodeId) conns st in
             snd st' = map (fun p => pairKey (fst p) (snd p)) (fst st')
             /\ NoDup (snd st')
             /\ (forall b, In b conns -> In (pairKey nodeId b) (snd st'))
             /\ (forall k, In k (snd st) -> In k (snd st'))
             /\ (forall p, In p (fst st') ->
                   In p (fst st) \/ (fst p = nodeId /\ In (snd p) conns))).
  { intros nodeId conns. induction conns as [| c conns IH]; intros st Hk Hnd; simpl.
    - repeat split; auto. intros b [].
    - destruct (visitConnection_keys nodeId c st Hk Hnd) as [Hk1 [Hnd1 [Hin1 [Hmono1 Hnew1]]]].
      destruct (IH (visitConnection nodeId st c) Hk1 Hnd1)
        as [Hk2 [Hnd2 [Hin2 [Hmono2 Hnew2]]]].
      split; [exact Hk2 |]. split; [exact Hnd2 |]. split; [| split].
      + intros b [<- | Hb]; [now apply Hmono2 | now apply Hin2].
      + intros k Hkin. now apply Hmono2, Hmono1.
      + intros p Hp. destruct (Hnew2 p Hp) as [Hp1 | [Hf Hs]]; [| auto].
        destruct (Hnew1 p Hp1) as [Hp0 | ->]; auto. }
  induction ns as [| n ns IH]; intros st Hk Hnd; simpl.
  - repeat split; auto. intros n b [].
  - destruct (Hinner (Node.id n) (Node.connections n) st Hk Hnd)
      as [Hk1 [Hnd1 [Hin1 [Hmono1 Hnew1]]]].
    destruct (IH _ Hk1 Hnd1) as [Hk2 [Hnd2 [Hin2 [Hmono2 Hnew2]]]].
    split; [exact Hk2 |]. split; [exact Hnd2 |]. split; [| split].
    + intros m b [<- | Hm] Hb; [now apply Hmono2, Hin1 | now apply Hin2].
    + intros k Hkin. now apply Hmono2, Hmono1.
    + intros p Hp. destruct (Hnew2 p Hp) as [Hp1 | [m [Hm [Hf Hs]]]].
      * destruct (Hnew1 p Hp1) as [Hp0 | [Hf Hs]]; [now left |].
        right. exists n. split; [now left | auto].
      * right. exists m. split; [now right | auto].
Qed.

(** X14.  [getConnections] lists links only, and every link of every node
    once: in the direction in which the loop meets it first, and never in
    both.  (The keys that tell two links apart are built from the two
    identifiers joined by ['-']; they do so when all identifiers have the
    same length, as UUIDs have.) *)
Theorem getConnections_lists_every_link_once (s : Model.t) (len : nat) :
  linksClosed (Model.nodes s) ->
  (forall n, In n (Model.nodes s) -> String.length (Node.id n) = len) ->
  (forall a b,
      In (a, b) (getConnections s) ->
      exists n, In n (Model.nodes s) /\ Node.id n = a /\ In b (Node.connections n))
  /\ (forall n b,
        In n (Model.nodes s) -> In b (Node.connections n) ->
        In (Node.id n, b) (getConnections s) \/ In (b, Node.id n) (getConnections s))
  /\ NoDup (map (fun p => pairKey (fst p) (snd p)) (getConnections s))
  /\ NoDup (getConnections s)
  /\ (forall a b,
        a <> b -> In (a, b) (getConnections s) -> ~ In (b, a) (getConnections s)).
Proof.
  intros Hcl Hlen. unfold getConnections.
  destruct (getConnections_loop (Model.nodes s) ([], []) eq_refl (NoDup_nil _))
    as [Hk [Hnd [Hin [_ Hnew]]]].
  set (st := fold_left
               (fun st node =>
                  fold_left (visitConnection (Node.id node)) (Node.connections node) st)
               (Model.nodes s) ([], [])) in *.
  assert (Hsound : forall a b, In (a, b) (fst st) ->
            exists n, In n (Model.nodes s) /\ Node.id n = a
                      /\ In b (Node.connections n)).
  { intros a b Hab. destruct (Hnew _ Hab) as [[] | [n [Hn [Hf Hs]]]].
    exists n. simpl in *. auto. }
  assert (Hall : forall n b, In n (Model.nodes s) -> In b (Node.connections n) ->
            String.length (Node.id n) = len /\ String.length b = len).
  { intros n b Hn Hb. split; [now apply Hlen |].
    destruct (In_nth_error _ _ Hn) as [x Hx].
    pose proof (Hcl x n b Hx Hb) as Hq. apply in_map_iff in Hq.
    destruct Hq as [m [<- Hm]]. now apply Hlen. }
  assert (Hndres : NoDup (fst st)).
  { rewrite Hk in Hnd. now apply NoDup_map_inv in Hnd. }
  split; [exact Hsound |]. split; [| split; [now rewrite <- Hk | split; [exact Hndres |]]].
  - intros n b Hn Hb. specialize (Hin n b Hn Hb). rewrite Hk in Hin.
    apply in_map_iff in Hin. destruct Hin as [[c d] [Hkey Hcd]]. simpl in Hkey.
    destruct (Hsound c d Hcd) as [m [Hm [Hidm Hd]]]. subst c.
    destruct (Hall n b Hn Hb) as [L1 L2]. destruct (Hall m d Hm Hd) as [L3 L4].
    destruct (pairKey_inj (Node.id m) d (Node.id n) b) as [[E1 E2] | [E1 E2]];
      try congruence.
    + left. now rewrite <- E1, <- E2.
    + right. now rewrite <- E1, <- E2.
  - intros a b Hne Hab Hba.
    destruct (In_nth_error _ _ Hab) as [x Hx]. destruct (In_nth_error _ _ Hba) as [y Hy].
    assert (Hxy : x = y).
    { apply (proj1 (NoDup_nth_error (snd st)) Hnd).
      - rewrite Hk, length_map. apply nth_error_Some. congruence.
      - rewrite Hk, !nth_error_map, Hx, Hy. simpl. f_equal. apply pairKey_sym. }
    subst y. rewrite Hx in Hy. injection Hy as E1 E2. congruence.
Qed.

Lemma diamond_ids :
  map Node.id (Model.nodes diamond) = ["a"; "b"; "c"; "d"]%string.
Proof. vm_compute. reflexivity. Qed.

Lemma getConnections_lists_every_link_once_witness :
  In ("a", "b")%string (getConnections diamond)
  /\ ~ In ("b", "a")%string (getConnections diamond)
  /\ NoDup (getConnections diamond).
Proof.
  assert (Hlen : forall n, In n (Model.nodes diamond) -> String.length (Node.id n) = 1).
  { intros n Hn. apply (in_map Node.id) in Hn. rewrite diamond_ids in Hn.
    destruct Hn as [E | [E | [E | [E | []]]]]; rewrite <- E; reflexivity. }
  pose proof (getConnections_lists_every_link_once diamond 1
              (proj1 (proj2 diamond_wellLinked)) Hlen) as H.
  destruct H as [_ [_ [_ [Hnd Hone]]]].
  assert (Hab : In ("a", "b")%string (getConnections diamond))
      by (vm_compute; left; reflexivity).
  split; [exact Hab |]. split; [| exact Hnd].
  apply (Hone "a" "b")%string; [discriminate | exact Hab].
Defined.

(** Without the assumption on the identifiers two links can share a key, and
    the second one is left out. *)
Example getConnections_key_collision :
  getConnections hyphenWorld = [("a-b", "c")]%string.
Proof. vm_compute. reflexivity. Qed.
(** ** Statistics *)

Lemma filter_partition_length {A : Type} (p q : A -> bool) (l : list A) :
  (forall x, q x = negb (p x)) ->
  length l = length (filter p l) + length (filter q l).
Proof.
  intros H. induction l as [| x l IH]; simpl; [reflexivity |].
  rewrite (H x). destruct (p x); simpl; lia.
Qed.

Lemma countMode_total (ns : list Node.t) :
  length ns
  = countMode intelligent ns + countMode flooding ns
    + countMode inactive ns + countMode no_connections ns.
Proof.
  unfold countMode. induction ns as [| n ns IH]; simpl; [reflexivity |].
  destruct (mode (Node.routingState n)); simpl; lia.
Qed.

Lemma queue_sum_acc (ns : list Node.t) :
  forall acc,
    fold_left (fun sum n => sum + length (Node.triageQueue n)) ns acc
    = acc + list_sum (map (fun n => length (Node.triageQueue n)) ns).
Proof.
  induction ns as [| n ns IH]; intros acc; simpl; [lia |]. rewrite IH. lia.
Qed.

Lemma seen_at_sinks (sinks : list Node.t) :
  forall acc,
    NoDup acc ->
    let seen :=
      fold_left
        (fun seen sinkNode =>
           fold_left (fun seen triageId => Js.add triageId seen)
             (Node.triageStore sinkNode) seen)
        sinks acc in
    NoDup seen
    /\ forall t, In t seen
                 <-> In t acc \/ exists n, In n sinks /\ In t (Node.triageStore n).
Proof.
  induction sinks as [| n sinks IH]; intros acc Hnd; simpl.
  - split; [exact Hnd |]. intros t. split; [auto |]. intros [H | [n [[] _]]]. exact H.
  - assert (Hnd1 : NoDup (fold_left (fun seen triageId => Js.add triageId seen)
                            (Node.triageStore n) acc)).
    { apply (fold_left_preserves (@NoDup string)); [exact Hnd |].
      intros a x _ Ha. now apply add_nodup. }
    destruct (IH _ Hnd1) as [Hnd2 Hiff]. split; [exact Hnd2 |].
    intros t. rewrite Hiff, in_fold_add_iff. split.
    + intros [[H | H] | [m [Hm Ht]]]; eauto.
    + intros [H | [m [[<- | Hm] Ht]]]; eauto.
Qed.

Section Statistics.
Variable uuidv4 : nat -> string.

(** What [tick] leaves in the message list went through the last filter of
    [updateMessages]. *)
Lemma tick_messages (now : Z) (pickNode pickSeverity : nat)
    (deltaTime : float) (s : Model.t) :
  exists s0,
    Model.messages (tick uuidv4 now pickNode pickSeverity deltaTime s)
    = filter inFlight (Model.messages s0).
Proof. unfold tick, updateMessages. eexists. reflexivity. Qed.

(** X15.  The numbers [getStats] reports fit together: every node is counted
    once as sink or source and once under its routing mode; the connection
    count is the length of [getConnections]; the queued triages are the sum
    of the queue lengths; the triages seen at sinks are the distinct ids in
    the stores of the sinks; the messages in flight are at most the messages
    of the model, and right after a [tick] they are all of them. *)
Theorem getStats_counts_fit_together (s : Model.t) :
  let st := getStats s in
  Stats.nodeCount st = Stats.sinkCount st + Stats.sourceCount st
  /\ Stats.nodeCount st
     = Stats.intelligentCount st + Stats.floodingCount st
       + Stats.inactiveCount st + Stats.noConnectionsCount st
  /\ Stats.connectionCount st = length (getConnections s)
  /\ Stats.queuedTriages st
     = list_sum (map (fun n => length (Node.triageQueue n)) (Model.nodes s))
  /\ (exists seen,
        Stats.triagesSeenAtSinks st = length seen
        /\ NoDup seen
        /\ forall t,
             In t seen
             <-> exists n, In n (Model.nodes s) /\ Node.type n = sink
                           /\ In t (Node.triageStore n))
  /\ Stats.messagesInFlight st <= length (Model.messages s)
  /\ (forall now pickNode pickSeverity deltaTime,
        let s' := tick uuidv4 now pickNode pickSeverity deltaTime s in
        Stats.messagesInFlight (getStats s') = length (Model.messages s')).
Proof.
  intros st.
  split; [| split; [| split; [| split; [| split; [| split]]]]];
    try (subst st; unfold getStats; cbn [Stats.nodeCount Stats.connectionCount
           Stats.sinkCount Stats.sourceCount Stats.intelligentCount
           Stats.floodingCount Stats.inactiveCount Stats.noConnectionsCount
           Stats.queuedTriages Stats.messagesInFlight Stats.triagesSeenAtSinks]).
  - apply filter_partition_length. intros n. now destruct (Node.type n).
  - apply countMode_total.
  - reflexivity.
  - now rewrite queue_sum_acc.
  - destruct (seen_at_sinks
                (filter (fun node => NodeType_eqb (Node.type node) sink) (Model.nodes s))
                [] (NoDup_nil _)) as [Hnd Hiff].
    eexists. split; [reflexivity |]. split; [exact Hnd |].
    intros t. rewrite Hiff. split.
    + intros [[] | [n [Hn Ht]]]. apply filter_In in Hn. destruct Hn as [Hn Hs].
      exists n. split; [exact Hn |]. split; [| exact Ht]. now destruct (Node.type n).
    + intros [n [Hn [Hs Ht]]]. right. exists n. split; [| exact Ht].
      apply filter_In. split; [exact Hn |]. now rewrite Hs.
  - apply filter_length_le.
  - intros now pickNode pickSeverity deltaTime.
    destruct (tick_messages now pickNode pickSeverity deltaTime s) as [s0 Hs0].
    rewrite Hs0. f_equal. apply filter_all.
    apply Forall_forall. intros m Hm. apply filter_In in Hm. apply Hm.
Qed.

End Statistics.
(** ** Frames of the routing pass *)

Section TableViews.
Context {B : Type} (g : Node.t -> B).
Hypothesis g_table : forall v n, g (Node.set_routingTable v n) = g n.
Hypothesis g_inactive : forall v n, g (Node.set_inactiveRoutingTables v n) = g n.

Lemma demote_view (now : Z) (k : string) (node : Node.t) :
  g (demote now k node) = g node.
Proof.
  unfold demote. destruct (Js.get k (Node.routingTable node)); [| reflexivity].
  now rewrite g_table, g_inactive.
Qed.

Lemma routeNode_view (now : Z) (sinkId0 : string) (distances : JsMap nat)
    (node : Node.t) :
  g (routeNode now sinkId0 distances node) = g node.
Proof.
  unfold routeNode. destruct (String.eqb (Node.id node) sinkId0); [reflexivity |].
  destruct (Js.get (Node.id node) distances); [| apply demote_view].
  destruct (0 <? _).
  - destruct (Js.mhas sinkId0 _); [rewrite g_inactive |]; apply g_table.
  - rewrite g_table. destruct (Js.get sinkId0 (Node.routingTable node));
      [apply g_inactive | reflexivity].
Qed.

Lemma retireVanishedSinks_view (now : Z) (sinkIds : JsSet) (node : Node.t) :
  g (retireVanishedSinks now sinkIds node) = g node.
Proof.
  unfold retireVanishedSinks.
  apply (fold_left_preserves (fun n => g n = g node)); [reflexivity |].
  intros n k _ Hn. now rewrite demote_view.
Qed.

Lemma rebuildRoutes_view (now timeout : Z) (ns : list Node.t) :
  map g (rebuildRoutes now timeout ns) = map g ns.
Proof.
  rewrite rebuildRoutes_unfold.
  transitivity (map g (beforeSearch now timeout ns)).
  - generalize (beforeSearch now timeout ns).
    induction (map Node.id (filter isSink ns)) as [| k sids IH]; intros cur; simpl;
      [reflexivity |].
    rewrite IH. unfold routeSink. rewrite map_map. apply map_ext. intros n.
    apply routeNode_view.
  - unfold beforeSearch. rewrite !map_map. apply map_ext. intros n.
    unfold dropExpiredInactive. rewrite g_inactive. apply retireVanishedSinks_view.
Qed.

End TableViews.

Section PassFrame.
Context {B : Type} (g : Node.t -> B).
Variable uuidv4 : nat -> string.
Hypothesis g_table : forall v n, g (Node.set_routingTable v n) = g n.
Hypothesis g_inactive : forall v n, g (Node.set_inactiveRoutingTables v n) = g n.
Hypothesis g_state : forall v n, g (Node.set_routingState v n) = g n.
Hypothesis g_sent : forall v n, g (Node.set_sentTriagesToSinks v n) = g n.

(** The routing pass writes the two tables, the routing state and the
    bookkeeping of sent triages, and nothing else of a node. *)
Lemma updateRoutingTables_view (now : Z) (s : Model.t) :
  viewOf g (updateRoutingTables uuidv4 now s) = viewOf g s.
Proof.
  destruct (updateRoutingTables_spec uuidv4 g now s g_sent) as [new [_ [Hv _]]].
  rewrite Hv. unfold afterTables, updateRoutingStates, viewOf. simpl.
  rewrite (updateRoutingState_view g g_state). now apply rebuildRoutes_view.
Qed.

End PassFrame.

(** ** Well-formed worlds *)

Lemma placeView_of_shapeView (ns ns' : list Node.t) :
  map shapeView ns' = map shapeView ns -> map placeView ns' = map placeView ns.
Proof.
  intros Hv. pose proof (f_equal (map fst) Hv) as H. now rewrite !map_map in H.
Qed.

Lemma routeView_of_shapeView (ns ns' : list Node.t) :
  map shapeView ns' = map shapeView ns -> map routeView ns' = map routeView ns.
Proof.
  intros Hv.
  pose proof (f_equal (map (fun v : string * JsSet * float * float * float
                                    * JsMap RoutingTableEntry =>
                              (fst (fst (fst (fst (fst v)))), snd (fst (fst (fst (fst v)))),
                               snd v))) Hv) as H.
  now rewrite !map_map in H.
Qed.

Lemma tablesOk_tableView (ns ns' : list Node.t) :
  map tableView ns' = map tableView ns -> tablesOk ns -> tablesOk ns'.
Proof.
  intros Hv Hok node' Hin.
  assert (Hm : In (tableView node') (map tableView ns)) by (rewrite <- Hv; now apply in_map).
  apply in_map_iff in Hm. destruct Hm as [node [Hvn Hn]].
  unfold tableView in Hvn. injection Hvn as Hid Hrt.
  rewrite <- Hid, <- Hrt. now apply Hok.
Qed.

Lemma ids_tableView (ns ns' : list Node.t) :
  map tableView ns' = map tableView ns -> map Node.id ns' = map Node.id ns.
Proof.
  intros Hv. pose proof (f_equal (map fst) Hv) as H. now rewrite !map_map in H.
Qed.

Lemma withinRange_placeView (a a' b b' : Node.t) :
  placeView a' = placeView a -> placeView b' = placeView b ->
  withinRange a' b' = withinRange a b.
Proof.
  unfold placeView. intros [= _ _ Hax Hay Har] [= _ _ Hbx Hby Hbr].
  unfold withinRange. now rewrite Hax, Hay, Har, Hbx, Hby, Hbr.
Qed.

Lemma linkedAsInRange_placeView (a a' b b' : Node.t) :
  placeView a' = placeView a -> placeView b' = placeView b ->
  linkedAsInRange a b -> linkedAsInRange a' b'.
Proof.
  intros Ha Hb. unfold linkedAsInRange.
  rewrite (withinRange_placeView _ _ _ _ Ha Hb).
  unfold placeView in Ha, Hb.
  injection Ha as Hia Hca _ _ _. injection Hb as Hib Hcb _ _ _.
  now rewrite Hia, Hca, Hib, Hcb.
Qed.

Lemma linksCurrent_placeView (ns ns' : list Node.t) :
  map placeView ns' = map placeView ns -> linksCurrent ns -> linksCurrent ns'.
Proof.
  intros Hv [Hself Hpairs]. split.
  - apply Forall_forall. intros n' Hn'.
    assert (Hm : In (placeView n') (map placeView ns)) by (rewrite <- Hv; now apply in_map).
    apply in_map_iff in Hm. destruct Hm as [n [Hvn Hn]].
    unfold placeView in Hvn. injection Hvn as Hid Hc _ _ _.
    pose proof (proj1 (Forall_forall _ _) Hself n Hn) as Hs. simpl in Hs.
    intros H. apply Hs. now rewrite Hid, Hc.
  - clear Hself. revert ns' Hv.
    induction Hpairs as [| a l Ha Hl IH]; intros [| a' l'] Hv; try discriminate;
      [constructor |].
    assert (Hva : placeView a' = placeView a)
      by exact (f_equal (hd (placeView a)) Hv).
    assert (Hvl : map placeView l' = map placeView l)
      by exact (f_equal (@tl _) Hv).
    constructor; [| now apply IH].
    apply Forall_forall. intros b' Hb'.
    assert (Hm : In (placeView b') (map placeView l)) by (rewrite <- Hvl; now apply in_map).
    apply in_map_iff in Hm. destruct Hm as [b [Hvb Hb]].
    apply (linkedAsInRange_placeView a a' b b'); auto.
    now apply (proj1 (Forall_forall _ _) Ha).
Qed.

Lemma wellFormed_shapeView (s s' : Model.t) :
  viewOf shapeView s' = viewOf shapeView s -> wellFormed s -> wellFormed s'.
Proof.
  unfold viewOf. intros Hv [Hwell [Hok Hcur]].
  pose proof (routeView_of_shapeView _ _ Hv) as Hr.
  split; [| split].
  - apply (wellLinked_ext (Model.nodes s)); [| exact Hwell]. now apply routeView_linkView.
  - now apply (tablesOk_view (Model.nodes s)).
  - apply (linksCurrent_placeView (Model.nodes s)); [| exact Hcur].
    now apply placeView_of_shapeView.
Qed.

Lemma wellFormed_same_nodes (s s' : Model.t) :
  Model.nodes s' = Model.nodes s -> wellFormed s -> wellFormed s'.
Proof. unfold wellFormed. now intros ->. Qed.

Lemma wellFormed_no_nodes (s : Model.t) : Model.nodes s = [] -> wellFormed s.
Proof.
  intros H. unfold wellFormed. rewrite H. split; [split; [constructor | split] |].
  - intros x a q Hx. now destruct x.
  - intros x y a b Hx. now destruct x.
  - split; [intros node [] |]. split; constructor.
Qed.

Lemma rebuildLinks_tableView (ns : list Node.t) :
  map tableView (rebuildLinks ns) = map tableView ns.
Proof.
  generalize (rebuildLinks_sameButLinks ns). generalize (rebuildLinks ns).
  intros l' H. induction H as [| a b l l' Hab _ IH]; simpl; [reflexivity |].
  rewrite IH. f_equal. unfold sameButLinks in Hab. now rewrite <- Hab.
Qed.

Section Invariants.
Variable uuidv4 : nat -> string.

(** Recomputing the links of a world with unique identifiers gives links
    that agree with the positions. *)
Lemma linksCurrent_updateConnections (now : Z) (s : Model.t) :
  NoDup (map Node.id (Model.nodes s)) ->
  wellLinked (Model.nodes (updateConnections uuidv4 now s))
  /\ linksCurrent (Model.nodes (updateConnections uuidv4 now s)).
Proof.
  intros Hnd.
  destruct (updateConnections_neighbours uuidv4 now s Hnd) as [_ [_ [Hwell _]]].
  split; [exact Hwell |].
  pose proof (updateConnections_view bodyView uuidv4 (fun _ _ => eq_refl)
                (fun _ _ => eq_refl) bodyView_links now s) as Hv.
  unfold viewOf in Hv.
  apply (linksCurrent_placeView (rebuildLinks (Model.nodes s)));
    [| now apply rebuildLinks_linksCurrent].
  pose proof (f_equal (map placeView) Hv) as H. now rewrite !map_map in H.
Qed.

(** With proper tables, the world is well formed. *)
Lemma wellFormed_updateConnections (now : Z) (s : Model.t) :
  NoDup (map Node.id (Model.nodes s)) -> tablesOk (Model.nodes s) ->
  wellFormed (updateConnections uuidv4 now s).
Proof.
  intros Hnd Hok.
  destruct (linksCurrent_updateConnections now s Hnd) as [Hwell Hcur].
  split; [exact Hwell |]. split; [| exact Hcur].
  apply (tablesOk_tableView (Model.nodes s)); [| exact Hok].
  rewrite <- (rebuildLinks_tableView (Model.nodes s)).
  pose proof (updateConnections_view bodyView uuidv4 (fun _ _ => eq_refl)
                (fun _ _ => eq_refl) bodyView_links now s) as Hv.
  unfold viewOf in Hv.
  pose proof (f_equal (map tableView) Hv) as H. now rewrite !map_map in H.
Qed.

Lemma wellFormed_updateRoutingTables (now : Z) (s : Model.t) :
  wellFormed s ->
  wellFormed (updateRoutingTables uuidv4 now s)
  /\ routesFollowLinks (Model.nodes (updateRoutingTables uuidv4 now s)).
Proof.
  intros [Hwell [Hok Hcur]].
  destruct (updateRoutingTables_neighbours uuidv4 now s Hwell Hok)
    as [Hwell' [Hok' [Hfollow _]]].
  split; [| exact Hfollow]. split; [exact Hwell' |]. split; [exact Hok' |].
  apply (linksCurrent_placeView (Model.nodes s)); [| exact Hcur].
  apply (updateRoutingTables_view placeView uuidv4); reflexivity.
Qed.

Lemma syncNewSink_wellFormed (now : Z) (k : nat) (s : Model.t) :
  wellFormed s -> wellFormed (syncNewSinkFromExistingSinks uuidv4 now k s).
Proof.
  apply wellFormed_shapeView.
  apply (syncNewSink_view uuidv4 shapeView). intros v n. reflexivity.
Qed.

End Invariants.

Section RelinkFrame.
Context {B : Type} (g : Node.t -> B).
Variable uuidv4 : nat -> string.
Hypothesis g_links : forall v n, g (Node.set_connections v n) = g n.
Hypothesis g_queue : forall v n, g (Node.set_triageQueue v n) = g n.
Hypothesis g_sent : forall v n, g (Node.set_sentTriagesToSinks v n) = g n.

Lemma sameButLinks_map (l l' : list Node.t) :
  Forall2 sameButLinks l l' -> map g l' = map g l.
Proof.
  induction 1 as [| a b l l' Hab _ IH]; simpl; [reflexivity |].
  rewrite IH. f_equal. unfold sameButLinks in Hab. now rewrite <- Hab.
Qed.

(** Link recomputation writes links, queues and the bookkeeping of sent
    triages, and nothing else of a node. *)
Lemma updateConnections_frame (now : Z) (s : Model.t) :
  viewOf g (updateConnections uuidv4 now s) = viewOf g s.
Proof.
  pose proof (updateConnections_view bodyView uuidv4 (fun _ _ => eq_refl)
                (fun _ _ => eq_refl) bodyView_links now s) as Hv.
  assert (Hb : forall n, g (bodyView n) = g n)
    by (intros n; unfold bodyView; now rewrite g_queue, g_sent).
  unfold viewOf in *.
  rewrite <- (map_ext _ _ Hb (Model.nodes (updateConnections uuidv4 now s))).
  rewrite <- (map_map bodyView g), Hv, map_map, (map_ext _ _ Hb).
  apply sameButLinks_map, rebuildLinks_sameButLinks.
Qed.

End RelinkFrame.

Section Operations.
Variable uuidv4 : nat -> string.

Lemma wellFormed_relink (now : Z) (s0 s : Model.t) :
  map tableView (Model.nodes s0) = map tableView (Model.nodes s) ->
  wellFormed s -> wellFormed (updateConnections uuidv4 now s0).
Proof.
  intros Hv [[Hnd _] [Hok _]]. apply wellFormed_updateConnections.
  - now rewrite (ids_tableView _ _ Hv).
  - now apply (tablesOk_tableView (Model.nodes s)).
Qed.

Lemma wellFormed_addNode (now : Z) (x y : float) (type : NodeType) (s : Model.t) :
  ~ In (uuidv4 (Model.uuidCount s)) (map Node.id (Model.nodes s)) ->
  wellFormed s -> wellFormed (addNode uuidv4 now x y type s).
Proof.
  intros Hfresh [[Hnd _] [Hok _]]. unfold addNode, freshUuid.
  set (node := createNode now (uuidv4 (Model.uuidCount s)) x y type _).
  set (s1 := Model.set_nodes _ _).
  assert (H1 : wellFormed (updateConnections uuidv4 now s1)).
  { apply wellFormed_updateConnections; subst s1; simpl.
    - rewrite map_app. simpl. apply NoDup_app; [exact Hnd | repeat constructor; intros [] |].
      intros i Hi [<- | []]. now apply Hfresh.
    - intros n Hn. apply in_app_iff in Hn. destruct Hn as [Hn | [<- | []]].
      + now apply Hok.
      + split; [constructor | reflexivity]. }
  destruct (wellFormed_updateRoutingTables uuidv4 now _ H1) as [H2 _].
  set (s2 := updateRoutingTables uuidv4 now (updateConnections uuidv4 now s1)) in *.
  set (s3 := match type with
             | sink => syncNewSinkFromExistingSinks uuidv4 now _ s2
             | source => s2
             end).
  assert (H3 : wellFormed s3)
    by (subst s3; destruct type; [exact H2 | now apply syncNewSink_wellFormed]).
  destruct (negb (existsb Node.selected (Model.nodes s3))); [| exact H3].
  apply (wellFormed_shapeView s3); [| exact H3].
  unfold notifyListeners, viewOf, updNode. simpl.
  rewrite (map_update shapeView) by reflexivity. rewrite map_map. now apply map_ext.
Qed.

Lemma wellFormed_removeNode (nodeId : string) (s : Model.t) :
  wellFormed s -> wellFormed (removeNode nodeId s).
Proof.
  intros [Hwell [Hok [Hself Hpairs]]]. split; [now apply removeNode_wellLinked |]. split.
  - intros n' Hn'. apply in_removeNode in Hn'. destruct Hn' as [n [Hn [_ ->]]].
    exact (Hok n Hn).
  - unfold removeNode. simpl.
    set (cut := fun n => Node.set_connections (Js.delete nodeId (Node.connections n)) n).
    set (keep := fun n => negb (String.eqb (Node.id n) nodeId)).
    assert (Hin : forall l n', In n' (filter keep (map cut l)) ->
              exists n, In n l /\ Node.id n <> nodeId /\ n' = cut n).
    { intros l n' Hn'. apply filter_In in Hn'. destruct Hn' as [Hm Hk].
      apply in_map_iff in Hm. destruct Hm as [n [<- Hn]]. exists n.
      split; [exact Hn |]. split; [| reflexivity].
      unfold keep in Hk. simpl in Hk. now apply negb_true_iff, String.eqb_neq in Hk. }
    split.
    + apply Forall_forall. intros n' Hn'. destruct (Hin _ _ Hn') as [n [Hn [_ ->]]].
      simpl. rewrite in_delete_iff. intros [_ H].
      now apply (proj1 (Forall_forall _ _) Hself n Hn).
    + clear Hself Hwell Hok.
      induction Hpairs as [| a l Ha Hl IH]; simpl; [constructor |].
      destruct (keep (cut a)) eqn:Hk; [| exact IH].
      constructor; [| exact IH].
      apply Forall_forall. intros b' Hb'. destruct (Hin _ _ Hb') as [b [Hb [Hidb ->]]].
      assert (Hida : Node.id a <> nodeId)
        by (unfold keep in Hk; simpl in Hk; now apply negb_true_iff, String.eqb_neq in Hk).
      destruct (proj1 (Forall_forall _ _) Ha b Hb) as [L1 L2].
      assert (Hw : withinRange (cut a) (cut b) = withinRange a b) by reflexivity.
      unfold linkedAsInRange. rewrite Hw. unfold cut.
      cbn [Node.id Node.connections Node.set_connections].
      rewrite !in_delete_iff. tauto.
Qed.

Lemma wellFormed_toggleNodeType (now : Z) (nodeId : string) (s : Model.t) :
  wellFormed s -> wellFormed (toggleNodeType uuidv4 now nodeId s).
Proof.
  intros H. unfold toggleNodeType.
  destruct (Js.findIndex (idIs nodeId) (Model.nodes s)) as [i |]; [| exact H].
  destruct (nodeAt i s) as [node |]; [| exact H].
  set (s1 := updNode i _ s).
  assert (H1 : wellFormed s1).
  { apply (wellFormed_shapeView s); [| exact H]. subst s1.
    apply viewOf_updNode. reflexivity. }
  destruct (_ && _); [| exact H1].
  apply (wellFormed_same_nodes (syncNewSinkFromExistingSinks uuidv4 now i
                                  (updateRoutingTables uuidv4 now s1))); [reflexivity |].
  apply syncNewSink_wellFormed. now apply wellFormed_updateRoutingTables.
Qed.

Lemma wellFormed_updateNodePosition (now : Z) (nodeId : string) (x y : float)
    (s : Model.t) :
  wellFormed s -> wellFormed (updateNodePosition uuidv4 now nodeId x y s).
Proof.
  intros H. unfold updateNodePosition.
  destruct (Js.findIndex (idIs nodeId) (Model.nodes s)) as [i |]; [| exact H].
  apply (wellFormed_relink now _ s); [| exact H].
  apply (viewOf_updNode tableView). reflexivity.
Qed.

Lemma wellFormed_updateNodeVelocity (nodeId : string) (vx vy : float) (s : Model.t) :
  wellFormed s -> wellFormed (updateNodeVelocity nodeId vx vy s).
Proof.
  intros H. unfold updateNodeVelocity.
  destruct (Js.findIndex (idIs nodeId) (Model.nodes s)) as [i |]; [| exact H].
  apply (wellFormed_shapeView s); [| exact H].
  apply (viewOf_updNode shapeView). reflexivity.
Qed.

Lemma wellFormed_setConnectionRadius (now : Z) (radius : float) (s : Model.t) :
  wellFormed s -> wellFormed (setConnectionRadius uuidv4 now radius s).
Proof.
  intros H. unfold setConnectionRadius.
  apply (wellFormed_relink now _ s); [| exact H].
  simpl. rewrite map_map. now apply map_ext.
Qed.

Lemma wellFormed_sendMessage (now : Z) (fromNodeId : string) (messageType : MessageType)
    (triageSeverity : option TriageSeverity) (s : Model.t) :
  wellFormed s ->
  wellFormed (sendMessage uuidv4 now fromNodeId messageType triageSeverity s).
Proof.
  apply wellFormed_shapeView. apply (sendMessage_view shapeView); reflexivity.
Qed.

(** The stages of [tick] after the move. *)
Lemma tick_stages {B : Type} (g : Node.t -> B) (now : Z) (pickNode pickSeverity : nat)
    (deltaTime : float) (s : Model.t) :
  (forall v n, g (Node.set_sentTriagesToSinks v n) = g n) ->
  (forall v n, g (Node.set_triageQueue v n) = g n) ->
  (forall v n, g (Node.set_triageStore v n) = g n) ->
  (forall v n, g (Node.set_lastMessageReceivedAt v n) = g n) ->
  viewOf g (tick uuidv4 now pickNode pickSeverity deltaTime s)
  = viewOf g
      (updateRoutingTables uuidv4 now
         (updateConnections uuidv4 now
            (Model.set_nodes (map (moveNode deltaTime) (Model.nodes s)) s))).
Proof.
  intros g_sent g_queue g_store g_stamp. unfold tick.
  set (s2 := updateRoutingTables uuidv4 now _).
  change (viewOf g (updateMessages uuidv4 now deltaTime
                      (if Model.isAutoGenerating s2
                       then updateAutoGeneration uuidv4 now pickNode pickSeverity s2
                       else s2)) = viewOf g s2).
  rewrite (updateMessages_view g uuidv4 g_sent g_queue g_store g_stamp).
  destruct (Model.isAutoGenerating s2); [| reflexivity].
  apply (updateAutoGeneration_view g uuidv4 g_sent g_queue g_store).
Qed.

Lemma wellFormed_tick_from (now : Z) (pickNode pickSeverity : nat) (deltaTime : float)
    (s : Model.t) :
  NoDup (map Node.id (Model.nodes s)) -> tablesOk (Model.nodes s) ->
  wellFormed (tick uuidv4 now pickNode pickSeverity deltaTime s)
  /\ routesFollowLinks
       (Model.nodes (tick uuidv4 now pickNode pickSeverity deltaTime s)).
Proof.
  intros Hnd Hok.
  set (s0 := Model.set_nodes (map (moveNode deltaTime) (Model.nodes s)) s).
  assert (Hv : map tableView (Model.nodes s0) = map tableView (Model.nodes s))
    by (subst s0; simpl; rewrite map_map; now apply map_ext).
  assert (H1 : wellFormed (updateConnections uuidv4 now s0)).
  { apply wellFormed_updateConnections.
    - now rewrite (ids_tableView _ _ Hv).
    - now apply (tablesOk_tableView (Model.nodes s)). }
  destruct (wellFormed_updateRoutingTables uuidv4 now _ H1) as [H2 Hf].
  pose proof (tick_stages shapeView now pickNode pickSeverity deltaTime s
                (fun _ _ => eq_refl) (fun _ _ => eq_refl) (fun _ _ => eq_refl)
                (fun _ _ => eq_refl)) as Hs.
  fold s0 in Hs. split.
  - now apply (wellFormed_shapeView _ _ Hs).
  - apply (routesFollowLinks_view _ _ (routeView_of_shapeView _ _ Hs)). exact Hf.
Qed.

End Operations.

Section WorldInvariants.
Variable uuidv4 : nat -> string.

(** X16.  The routing pass ([updateRoutingTables]) writes the routing table,
    the inactive tables, the routing state and the bookkeeping of sent
    triages of a node, and nothing else: no node is added, dropped, renamed,
    moved or relinked, and no triage store or queue changes. *)
Theorem routing_pass_writes_tables_only (now : Z) (s : Model.t) :
  viewOf staticView (updateRoutingTables uuidv4 now s) = viewOf staticView s.
Proof.
  apply (updateRoutingTables_view staticView uuidv4); reflexivity.
Qed.

(** X17.  One [tick] on a world with unique identifiers and proper routing
    tables: every node has moved by its velocity times [deltaTime]; the
    links are those of the new positions, mutual and between nodes of the
    world; and every next hop a routing table lists is a neighbour of its
    node. *)
Theorem tick_moves_relinks_and_reroutes (now : Z) (pickNode pickSeverity : nat)
    (deltaTime : float) (s : Model.t) :
  NoDup (map Node.id (Model.nodes s)) ->
  tablesOk (Model.nodes s) ->
  let s' := tick uuidv4 now pickNode pickSeverity deltaTime s in
  map (fun n => (Node.id n, Node.position_x n, Node.position_y n)) (Model.nodes s')
  = map (fun n =>
           (Node.id n,
            PrimFloat.add (Node.position_x n) (PrimFloat.mul (Node.velocity_x n) deltaTime),
            PrimFloat.add (Node.position_y n) (PrimFloat.mul (Node.velocity_y n) deltaTime)))
      (Model.nodes s)
  /\ wellFormed s'
  /\ routesFollowLinks (Model.nodes s').
Proof.
  intros Hnd Hok s'. split; [| now apply wellFormed_tick_from].
  set (g := fun n => (Node.id n, Node.position_x n, Node.position_y n)).
  pose proof (tick_stages uuidv4 g now pickNode pickSeverity deltaTime s
                (fun _ _ => eq_refl) (fun _ _ => eq_refl) (fun _ _ => eq_refl)
                (fun _ _ => eq_refl)) as Hs.
  rewrite (updateRoutingTables_view g uuidv4) in Hs by reflexivity.
  rewrite (updateConnections_frame g uuidv4) in Hs by reflexivity.
  unfold viewOf in Hs. subst s'. rewrite Hs. simpl. rewrite map_map. now apply map_ext.
Qed.

(** X18.  Every world the public interface reaches from a world without
    nodes is well formed, provided each added node gets an identifier that
    is not in use: identifiers are unique; links are mutual, name nodes of
    the world, never the node itself, and two nodes are linked exactly when
    they are within range at their present positions; and no routing table
    has two entries for a sink or an entry for its own node. *)
Theorem reachable_worlds_are_well_formed (s : Model.t) :
  reachable uuidv4 s -> wellFormed s.
Proof.
  induction 1 as [s Hs | now x y type s _ IH Hfresh | nodeId s _ IH | now nodeId s _ IH
                 | now nodeId x y s _ IH | nodeId vx vy s _ IH | now radius s _ IH
                 | now fromNodeId messageType triageSeverity s _ IH
                 | now pickNode pickSeverity deltaTime s _ IH
                 | s _ IH | s _ IH | timeout s _ IH | interval s _ IH | now s _ IH
                 | s _ IH].
  - now apply wellFormed_no_nodes.
  - now apply wellFormed_addNode.
  - now apply wellFormed_removeNode.
  - now apply wellFormed_toggleNodeType.
  - now apply wellFormed_updateNodePosition.
  - now apply wellFormed_updateNodeVelocity.
  - now apply wellFormed_setConnectionRadius.
  - now apply wellFormed_sendMessage.
  - destruct IH as [[Hnd _] [Hok _]]. now apply wellFormed_tick_from.
  - now apply wellFormed_no_nodes.
  - now apply wellFormed_no_nodes.
  - exact IH.
  - exact IH.
  - exact IH.
  - exact IH.
Qed.

End WorldInvariants.

Lemma tablesOk_Forall (ns : list Node.t) :
  Forall (fun node => NoDup (Js.keys (Node.routingTable node))
                      /\ Js.get (Node.id node) (Node.routingTable node) = None) ns ->
  tablesOk ns.
Proof. intros H node Hin. exact (proj1 (Forall_forall _ _) H node Hin). Qed.

Lemma tick_moves_relinks_and_reroutes_witness :
  let s' := tick letterUuid 6 0 0 1%float diamondAfterDrag in
  map (fun n => (Node.id n, Node.position_x n, Node.position_y n)) (Model.nodes s')
  = [("a"%string, 0%float, 0%float); ("b"%string, 100%float, 100%float);
     ("c"%string, 1%float, (-1)%float); ("d"%string, 2%float, 0%float)]
  /\ wellFormed s'
  /\ routesFollowLinks (Model.nodes s').
Proof.
  assert (Hnd : NoDup (map Node.id (Model.nodes diamondAfterDrag))).
  { rewrite diamondAfterDrag_ids. repeat constructor; simpl; intuition discriminate. }
  assert (Hok : tablesOk (Model.nodes diamondAfterDrag)).
  { apply tablesOk_Forall. vm_compute.
    repeat constructor; simpl; intuition discriminate. }
  destruct (tick_moves_relinks_and_reroutes letterUuid 6 0 0 1%float diamondAfterDrag
              Hnd Hok) as [Hmove Hrest].
  split; [| exact Hrest]. rewrite Hmove. vm_compute. reflexivity.
Defined.

Lemma reachable_worlds_are_well_formed_witness : wellFormed diamond.
Proof.
  apply (reachable_worlds_are_well_formed letterUuid). unfold diamond.
  apply reach_addNode;
    [apply reach_addNode;
       [apply reach_addNode;
          [apply reach_addNode; [apply reach_start; reflexivity |] |] |] |];
    vm_compute; intros H; repeat (destruct H as [H | H]; [discriminate |]); exact H.
Defined.
(** ** What no operation undoes *)

Lemma grows_refl (n : Node.t) : grows n n.
Proof. split; [reflexivity | apply incl_refl]. Qed.

Lemma grows_trans (a b c : Node.t) : grows a b -> grows b c -> grows a c.
Proof.
  intros [Hi Hs] [Hi' Hs']. split; [congruence | eapply incl_tran; eassumption].
Qed.

Lemma grows_store (t : string) (n : Node.t) :
  grows n (Node.set_triageStore (Js.add t (Node.triageStore n)) n).
Proof. split; [reflexivity |]. intros z Hz. apply in_add_iff. now right. Qed.

(** Whatever else a step writes: the identifier and the store are as they
    were. *)
Lemma grows_same (n n' : Node.t) :
  Node.id n' = Node.id n -> Node.triageStore n' = Node.triageStore n -> grows n n'.
Proof. intros Hi Hs. split; [exact Hi | rewrite Hs; apply incl_refl]. Qed.

Lemma Forall2_grows_refl (l : list Node.t) : Forall2 grows l l.
Proof. induction l; constructor; auto using grows_refl. Qed.

Lemma Forall2_grows_trans (l1 l2 l3 : list Node.t) :
  Forall2 grows l1 l2 -> Forall2 grows l2 l3 -> Forall2 grows l1 l3.
Proof.
  intros H. revert l3. induction H as [| a b l l' Hab _ IH]; intros l3 H3;
    inversion H3; subst; constructor; eauto using grows_trans.
Qed.

Lemma Forall2_grows_update (i : nat) (f : Node.t -> Node.t) (l : list Node.t) :
  (forall n, grows n (f n)) -> Forall2 grows l (Js.update i f l).
Proof.
  intros H. revert i. induction l as [| n l IH]; intros [| i]; simpl; constructor;
    auto using grows_refl, Forall2_grows_refl.
Qed.

Lemma Forall2_grows_map (f : Node.t -> Node.t) (l : list Node.t) :
  (forall n, grows n (f n)) -> Forall2 grows l (map f l).
Proof. intros H. induction l; simpl; constructor; auto. Qed.

Lemma Forall2_grows_view (l l' : list Node.t) :
  map (fun n => (Node.id n, Node.triageStore n)) l'
  = map (fun n => (Node.id n, Node.triageStore n)) l ->
  Forall2 grows l l'.
Proof.
  revert l'. induction l as [| n l IH]; intros [| n' l'] H; try discriminate;
    constructor.
  - simpl in H. injection H as Hi Hs _. now apply grows_same.
  - apply IH. exact (f_equal (@tl _) H).
Qed.

(** A property [P] of the state that survives the writes the pipeline is
    made of survives every procedure built from them.  [P_f] says so for
    [f].  The advance phase also rewrites and filters the message list; [P]
    has to survive that too where it runs. *)
Section Lineage.
Variable uuidv4 : nat -> string.
Variable P : Model.t -> Prop.
Hypothesis P_survives : survives uuidv4 P.

Lemma P_pushFresh (m : Message.t) (s : Model.t) :
  Message.id m = uuidv4 (Model.uuidCount s) -> P s ->
  P (pushMessage m (Model.set_uuidCount (S (Model.uuidCount s)) s)).
Proof. apply P_survives. Qed.

Lemma P_draw (s : Model.t) : P s -> P (Model.set_uuidCount (S (Model.uuidCount s)) s).
Proof. apply P_survives. Qed.

Lemma P_notifications (v : nat) (s : Model.t) : P s -> P (Model.set_notifications v s).
Proof. apply P_survives. Qed.

Lemma P_nodes (ns : list Node.t) (s : Model.t) :
  Forall2 grows (Model.nodes s) ns -> P s -> P (Model.set_nodes ns s).
Proof. apply P_survives. Qed.

Lemma P_updNode (i : nat) (f : Node.t -> Node.t) (s : Model.t) :
  (forall n, grows n (f n)) -> P s -> P (updNode i f s).
Proof. intros Hf Hs. apply P_nodes; [now apply Forall2_grows_update | exact Hs]. Qed.

Lemma P_fold {A : Type} (f : Model.t -> A -> Model.t) (l : list A) :
  (forall s a, P s -> P (f s a)) -> forall s, P s -> P (fold_left f l s).
Proof. intros Hf. induction l as [| a l IH]; simpl; auto. Qed.

(** A write to a field other than the identifier and the store. *)
Ltac same := intros; apply grows_same; reflexivity.

(** Follow the structure of the goal down to the state [P] is known of. *)

Ltac descend :=
  repeat
    match goal with
    | H : P ?s |- P ?s => exact H
    | |- P (notifyListeners _) => apply P_notifications
    | |- P (notifyIfMessages _) => unfold notifyIfMessages
    | |- P (pushMessage _ (Model.set_uuidCount _ _)) =>
        apply P_pushFresh; [reflexivity |]
    | |- P (Model.set_uuidCount _ _) => apply P_draw
    | |- P (Model.set_notifications _ _) => apply P_notifications
    | |- P (storeTriage _ _ _) => apply P_updNode; [intros; apply grows_store |]
    | |- P (updNode _ _ _) =>
        apply P_updNode; [first [same | intros; apply grows_store] |]
    | |- P (fold_left _ _ _) => apply P_fold; [intros |]
    | |- P (if ?c then _ else _) => destruct c
    | |- P (match ?x with _ => _ end) => destruct x
    end.

Lemma P_markTargeted (i : nat) (messageType : MessageType) (triageId : option string)
    (sinkIds : JsSet) (s : Model.t) :
  P s -> P (markTargeted i messageType triageId sinkIds s).
Proof. intros H. unfold markTargeted. descend. Qed.

Lemma P_sendOne (now : Z) (i : nat) (fromNodeId : string) (messageType : MessageType)
    (triageId : option string) (severity : option TriageSeverity) (sinkIds : JsSet)
    (s : Model.t) (toNodeId : string) :
  P s -> P (sendOne uuidv4 now i fromNodeId messageType triageId severity sinkIds s toNodeId).
Proof. intros H. unfold sendOne, freshUuid. apply P_markTargeted. descend. Qed.

Lemma P_sendMessage (now : Z) (fromNodeId : string) (messageType : MessageType)
    (triageSeverity : option TriageSeverity) (s : Model.t) :
  P s -> P (sendMessage uuidv4 now fromNodeId messageType triageSeverity s).
Proof.
  intros H. unfold sendMessage.
  destruct (Js.findIndex (idIs fromNodeId) (Model.nodes s)) as [i |]; [| exact H].
  set (p := match messageType with
            | triage => let '(u, s0) := freshUuid uuidv4 s in (Some u, s0)
            | normal => (None, s)
            end).
  assert (Hp : P (snd p)) by (subst p; destruct messageType; unfold freshUuid; simpl; descend).
  destruct p as [triageId s0]. simpl in Hp.
  set (s1 := if isTriageWithId messageType triageId then updNode i _ s0 else s0).
  assert (H1 : P s1) by (subst s1; descend).
  destruct (nodeAt i s1) as [fromNode |]; [| exact H1].
  destruct (_ && _).
  - descend.
  - apply P_notifications. apply P_fold; [| exact H1]. intros s2 a H2. now apply P_sendOne.
Qed.

Lemma P_sendQueuedTriage (now : Z) (i : nat) (triageId : string)
    (severity : TriageSeverity) (s : Model.t) :
  P s -> P (sendQueuedTriage uuidv4 now i triageId severity s).
Proof.
  intros H. unfold sendQueuedTriage.
  destruct (nodeAt i s) as [fromNode |]; [| exact H].
  destruct (negb _); [exact H |].
  apply P_notifications. apply P_fold; [| exact H]. intros s2 a H2.
  unfold freshUuid. descend.
Qed.

Lemma P_forwardOne (now : Z) (i : nat) (nodeId : string) (message : Message.t)
    (sinkIds : JsSet) (s : Model.t) (toNodeId : string) :
  P s -> P (forwardOne uuidv4 now i nodeId message sinkIds s toNodeId).
Proof. intros H. unfold forwardOne, freshUuid. apply P_markTargeted. descend. Qed.

Lemma P_forwardFrom (now : Z) (i : nat) (message : Message.t) (s : Model.t) :
  P s -> P (forwardFrom uuidv4 now i message s).
Proof.
  intros H. unfold forwardFrom. destruct (nodeAt i s) as [node |]; [| exact H].
  destruct (_ && _); [exact H |].
  apply P_notifications. apply P_fold; [| exact H]. intros s2 a H2. now apply P_forwardOne.
Qed.

Lemma P_acceptTriage (now : Z) (i : nat) (message : Message.t) (node : Node.t)
    (s : Model.t) :
  P s -> P (acceptTriage uuidv4 now i message node s).
Proof.
  intros H. unfold acceptTriage. destruct (_ =? _); [| now apply P_forwardFrom].
  apply P_notifications. apply P_updNode; [| exact H].
  intros n. apply grows_same; reflexivity.
Qed.

Lemma P_onMessageArrival (now : Z) (message : Message.t) (s : Model.t) :
  P s -> P (onMessageArrival uuidv4 now message s).
Proof.
  intros H. unfold onMessageArrival.
  destruct (Js.findIndex _ _) as [i |]; [| exact H].
  set (s1 := updNode i _ s).
  assert (H1 : P s1)
    by (subst s1; apply P_updNode; [intros n; apply grows_same; reflexivity | exact H]).
  destruct (nodeAt i s1) as [node |]; [| exact H1].
  assert (H2 : forall tid, P (storeTriage i tid s1))
    by (intros tid; apply P_updNode; [intros n; apply grows_store | exact H1]).
  destruct (isTriageWithId _ _); [| now apply P_forwardFrom].
  destruct (isFloodingStyle _).
  - destruct (Js.has _ _); [exact H1 | now apply P_acceptTriage].
  - apply P_acceptTriage. destruct (negb _); auto.
Qed.

Lemma P_updateMessages (now : Z) (deltaTime : float) (s : Model.t) :
  survivesAdvance P -> P s -> P (updateMessages uuidv4 now deltaTime s).
Proof.
  intros [P_progress P_filter] H. unfold updateMessages. apply P_filter.
  unfold advanceAll.
  change (P (fst (s, @nil nat))) in H. revert H.
  generalize (s, @nil nat). generalize (seq 0 (length (Model.messages s))).
  intros ks. induction ks as [| k ks IH]; intros st H; simpl; [exact H |].
  apply IH. unfold advanceMessage.
  destruct (nth_error (Model.messages (fst st)) k) as [message |] eqn:Hk; [| exact H].
  destruct (_ && _); simpl.
  - apply P_onMessageArrival. now apply P_progress.
  - now apply P_progress.
Qed.

Lemma P_flushQueue (now : Z) (i : nat) (s : Model.t) :
  P s -> P (flushQueue uuidv4 now i s).
Proof.
  intros H. unfold flushQueue. destruct (nodeAt i s) as [node |]; [| exact H].
  destruct (_ && _); [| exact H].
  apply P_fold; [intros s2 a H2; now apply P_sendQueuedTriage |].
  apply P_updNode; [intros n; apply grows_same; reflexivity | exact H].
Qed.

Lemma P_pushReplay (now : Z) (fromId toId triageId : string) (s : Model.t) :
  P s -> P (pushReplay uuidv4 now fromId toId triageId s).
Proof. intros H. unfold pushReplay, freshUuid. descend. Qed.

Lemma P_notifyIfMessages (s : Model.t) : P s -> P (notifyIfMessages s).
Proof. intros H. unfold notifyIfMessages. descend. Qed.

Lemma P_replayNewLink (now : Z) (prev : JsSet) (i : nat) (s : Model.t) (peerId : string) :
  P s -> P (replayNewLink uuidv4 now prev i s peerId).
Proof.
  intros H. unfold replayNewLink. destruct (negb _); [| exact H].
  destruct (nodeAt i s) as [node |]; [| exact H].
  destruct (find _ _) as [peer |]; [| exact H].
  destruct (_ && _).
  - unfold replayToSink. apply P_notifyIfMessages. apply P_fold; [| exact H].
    intros s2 a H2. destruct (negb _); [now apply P_pushReplay | exact H2].
  - unfold replayToPeer. destruct (_ && _); [| exact H].
    apply P_notifyIfMessages. apply P_fold; [| exact H].
    intros s2 a H2. destruct (nodeAt i s2) as [cur |]; [| exact H2].
    destruct (negb (hasNewSinkTarget _ _)); [exact H2 |].
    apply P_updNode; [intros n; apply grows_same; reflexivity |].
    destruct (negb _); [now apply P_pushReplay | exact H2].
Qed.

Lemma P_syncNode (now : Z) (prevNeighbors : JsMap JsSet) (s : Model.t) (i : nat) :
  P s -> P (syncNode uuidv4 now prevNeighbors s i).
Proof.
  intros H. unfold syncNode.
  pose proof (P_flushQueue now i s H) as H1.
  destruct (nodeAt i (flushQueue uuidv4 now i s)) as [node |]; [| exact H1].
  apply P_fold; [| exact H1]. intros s2 a H2. now apply P_replayNewLink.
Qed.

Lemma P_updateConnections (now : Z) (s : Model.t) :
  P s -> P (updateConnections uuidv4 now s).
Proof.
  intros H. unfold updateConnections.
  apply P_fold; [intros s2 a H2; now apply P_syncNode |].
  apply P_nodes; [| exact H].
  apply Forall2_grows_view.
  apply (sameButLinks_map (fun n => (Node.id n, Node.triageStore n))); [reflexivity |].
  apply rebuildLinks_sameButLinks.
Qed.

Lemma P_syncNewSink (now : Z) (k : nat) (s : Model.t) :
  P s -> P (syncNewSinkFromExistingSinks uuidv4 now k s).
Proof.
  intros H. unfold syncNewSinkFromExistingSinks.
  destruct (nodeAt k s) as [newSink |]; [| exact H].
  destruct (negb _); [exact H |]. destruct (_ =? _); [exact H |].
  apply P_notifications. apply P_fold; [| exact H]. intros s2 j H2.
  unfold syncFromSink. destruct (nodeAt j s2) as [sinkJ |]; [| exact H2].
  destruct (Js.get _ _) as [routeEntry |]; [| exact H2].
  destruct (_ =? _); [exact H2 |].
  apply P_fold; [| exact H2]. intros s3 t H3.
  unfold syncTriage. destruct (Js.has _ _); [exact H3 |].
  destruct (nodeAt j s3) as [cur |]; [| exact H3].
  destruct (match Js.get t (Node.sentTriagesToSinks cur) with
            | Some perTriage => Js.has (Node.id newSink) perTriage
            | None => false
            end); [exact H3 |].
  apply P_updNode; [intros n; apply grows_same; reflexivity |].
  apply P_fold; [| exact H3]. intros s4 hop H4. now apply P_pushReplay.
Qed.

Lemma P_updateRoutingTables (now : Z) (s : Model.t) :
  P s -> P (updateRoutingTables uuidv4 now s).
Proof.
  intros H. unfold updateRoutingTables.
  apply P_fold.
  - intros s2 k H2. destruct (nodeAt k s2) as [n |]; [| exact H2].
    destruct (someOtherSinkHasRoute _ _ _); [now apply P_syncNewSink | exact H2].
  - unfold updateRoutingStates. apply P_nodes.
    + apply Forall2_grows_view. simpl.
      apply (updateRoutingState_view (fun n => (Node.id n, Node.triageStore n))).
      reflexivity.
    + apply P_nodes; [| exact H]. apply Forall2_grows_view.
      apply (rebuildRoutes_view (fun n => (Node.id n, Node.triageStore n))); reflexivity.
Qed.

(** The operations of the public interface built from these. *)

Lemma tick_phases (now : Z) (pickNode pickSeverity : nat) (deltaTime : float)
    (s : Model.t) :
  tick uuidv4 now pickNode pickSeverity deltaTime s
  = notifyListeners
      (updateMessages uuidv4 now deltaTime
         (beforeAdvance uuidv4 now pickNode pickSeverity deltaTime s)).
Proof. reflexivity. Qed.

(** [tick] up to the advance phase. *)
Lemma P_beforeAdvance (now : Z) (pickNode pickSeverity : nat) (deltaTime : float)
    (s : Model.t) :
  (forall v s0, P s0 -> P (Model.set_lastTriageGeneration v s0)) ->
  P s -> P (beforeAdvance uuidv4 now pickNode pickSeverity deltaTime s).
Proof.
  intros P_last H. unfold beforeAdvance.
  set (s2 := updateRoutingTables uuidv4 now _).
  assert (H2 : P s2).
  { subst s2. apply P_updateRoutingTables, P_updateConnections.
    apply P_nodes; [| exact H]. apply Forall2_grows_map.
    intros n. apply grows_same; reflexivity. }
  destruct (Model.isAutoGenerating s2); [| exact H2].
  unfold updateAutoGeneration. destruct (_ <=? _)%Z; [| exact H2].
  apply P_last. destruct (nth_error _ _); [now apply P_sendMessage | exact H2].
Qed.

Lemma P_tick (now : Z) (pickNode pickSeverity : nat) (deltaTime : float) (s : Model.t) :
  survivesAdvance P ->
  (forall v s0, P s0 -> P (Model.set_lastTriageGeneration v s0)) ->
  P s -> P (tick uuidv4 now pickNode pickSeverity deltaTime s).
Proof.
  intros P_advance P_last H. rewrite tick_phases.
  apply P_notifications, P_updateMessages; [exact P_advance |].
  now apply P_beforeAdvance.
Qed.

Lemma P_addNode (now : Z) (x y : float) (type : NodeType) (s : Model.t) :
  (forall n s0, P s0 -> P (Model.set_nodes (Model.nodes s0 ++ [n]) s0)) ->
  P s -> P (addNode uuidv4 now x y type s).
Proof.
  intros P_append H. unfold addNode, freshUuid.
  set (s1 := Model.set_nodes _ _).
  assert (H1 : P s1) by (subst s1; apply P_append; now apply P_draw).
  set (s2 := updateRoutingTables uuidv4 now (updateConnections uuidv4 now s1)).
  assert (H2 : P s2) by (subst s2; now apply P_updateRoutingTables, P_updateConnections).
  set (s3 := match type with
             | sink => syncNewSinkFromExistingSinks uuidv4 now _ s2
             | source => s2
             end).
  assert (H3 : P s3) by (subst s3; destruct type; [exact H2 | now apply P_syncNewSink]).
  apply P_notifications. destruct (negb _); [| exact H3].
  apply P_updNode; [intros n; apply grows_same; reflexivity |].
  apply P_nodes; [| exact H3]. apply Forall2_grows_map.
  intros n. apply grows_same; reflexivity.
Qed.

Lemma P_toggleNodeType (now : Z) (nodeId : string) (s : Model.t) :
  P s -> P (toggleNodeType uuidv4 now nodeId s).
Proof.
  intros H. unfold toggleNodeType.
  destruct (Js.findIndex _ _) as [i |]; [| exact H].
  destruct (nodeAt i s) as [node |]; [| exact H].
  set (s1 := updNode i _ s).
  assert (H1 : P s1)
    by (subst s1; apply P_updNode; [intros n; apply grows_same; reflexivity | exact H]).
  apply P_notifications. destruct (_ && _); [| exact H1].
  now apply P_syncNewSink, P_updateRoutingTables.
Qed.

Lemma P_updateNodePosition (now : Z) (nodeId : string) (x y : float) (s : Model.t) :
  P s -> P (updateNodePosition uuidv4 now nodeId x y s).
Proof.
  intros H. unfold updateNodePosition.
  destruct (Js.findIndex _ _) as [i |]; [| exact H].
  apply P_notifications, P_updateConnections.
  apply P_updNode; [intros n; apply grows_same; reflexivity | exact H].
Qed.

Lemma P_updateNodeVelocity (nodeId : string) (vx vy : float) (s : Model.t) :
  P s -> P (updateNodeVelocity nodeId vx vy s).
Proof.
  intros H. unfold updateNodeVelocity.
  destruct (Js.findIndex _ _) as [i |]; [| exact H].
  apply P_notifications.
  apply P_updNode; [intros n; apply grows_same; reflexivity | exact H].
Qed.

Lemma P_setConnectionRadius (now : Z) (radius : float) (s : Model.t) :
  P (Model.set_connectionRadius radius s) ->
  P (setConnectionRadius uuidv4 now radius s).
Proof.
  intros H. unfold setConnectionRadius.
  apply P_notifications, P_updateConnections.
  apply P_nodes; [| exact H]. apply Forall2_grows_map.
  intros n. apply grows_same; reflexivity.
Qed.

End Lineage.

Lemma Forall2_grows_firstn (k : nat) (l l' : list Node.t) :
  Forall2 grows l l' -> Forall2 grows (firstn k l) (firstn k l').
Proof.
  intros H. revert k. induction H as [| a b l l' Hab _ IH]; intros [| k]; simpl;
    constructor; auto.
Qed.

Lemma Forall2_nth_error_l {A : Type} (R : A -> A -> Prop) (l l' : list A) (i : nat)
    (x : A) :
  Forall2 R l l' -> nth_error l i = Some x ->
  exists y, nth_error l' i = Some y /\ R x y.
Proof.
  intros H. revert i. induction H as [| a b l l' Hab _ IH]; intros [| i] Hx;
    simpl in *; try discriminate.
  - injection Hx as <-. eauto.
  - now apply IH.
Qed.

Lemma descendsFrom_start (s0 : Model.t) : descendsFrom s0 s0.
Proof. unfold descendsFrom. rewrite firstn_all. apply Forall2_grows_refl. Qed.

Lemma descendsFrom_nodes (s0 : Model.t) (ns : list Node.t) (s : Model.t) :
  Forall2 grows (Model.nodes s) ns -> descendsFrom s0 s ->
  descendsFrom s0 (Model.set_nodes ns s).
Proof.
  unfold descendsFrom. simpl. intros Hg H.
  eapply Forall2_grows_trans; [exact H |]. now apply Forall2_grows_firstn.
Qed.

Lemma descendsFrom_push (s0 : Model.t) (n : Node.t) (s : Model.t) :
  descendsFrom s0 s -> descendsFrom s0 (Model.set_nodes (Model.nodes s ++ [n]) s).
Proof.
  unfold descendsFrom. simpl. intros H.
  pose proof (Forall2_length H) as Hlen. rewrite length_firstn in Hlen.
  rewrite firstn_app.
  replace (length (Model.nodes s0) - length (Model.nodes s)) with 0 by lia.
  simpl. now rewrite app_nil_r.
Qed.

Lemma descendsFrom_keeps (s0 s : Model.t) : descendsFrom s0 s -> keeps s0 s.
Proof.
  unfold descendsFrom, keeps, nodeAt. intros H x n Hx.
  destruct (Forall2_nth_error_l _ _ _ _ _ H Hx) as [n' [Hx' Hg]].
  exists n'. split; [| exact Hg].
  assert (Hlt : x < length (Model.nodes s0)) by (apply nth_error_Some; congruence).
  now rewrite nth_error_firstn, (proj2 (Nat.ltb_lt _ _) Hlt) in Hx'.
Qed.

(** The three properties followed through the pipeline. *)
Lemma survives_descendsFrom (uuidv4 : nat -> string) (s0 : Model.t) :
  survives uuidv4 (descendsFrom s0) /\ survivesAdvance (descendsFrom s0).
Proof.
  split; repeat apply conj; try (intros; assumption).
  intros ns t. apply descendsFrom_nodes.
Qed.

Lemma survives_settings (uuidv4 : nat -> string) (c : float * Z * bool * Z) :
  survives uuidv4 (fun t => settingsOf t = c)
  /\ survivesAdvance (fun t => settingsOf t = c).
Proof. split; repeat apply conj; intros; assumption. Qed.

Section NothingLost.
Variable uuidv4 : nat -> string.

Lemma setConnectionRadius_settings (now : Z) (radius : float) (s : Model.t) :
  settingsOf (setConnectionRadius uuidv4 now radius s)
  = (radius, Model.inactiveRoutingTimeout s, Model.isAutoGenerating s,
     Model.triageGenerationInterval s).
Proof.
  now apply (P_setConnectionRadius uuidv4 _ (proj1 (survives_settings uuidv4 _))).
Qed.

(** X19.  No operation that keeps the nodes makes one of them forget a
    triage: after [sendMessage], [tick], [addNode], [toggleNodeType],
    [updateNodePosition], [updateNodeVelocity] or [setConnectionRadius]
    every node is still at its index, under its identifier, and its triage
    store holds all it held before. *)
Theorem no_operation_forgets_a_triage (now : Z) (s : Model.t) :
  (forall fromNodeId messageType triageSeverity,
      keeps s (sendMessage uuidv4 now fromNodeId messageType triageSeverity s))
  /\ (forall pickNode pickSeverity deltaTime,
        keeps s (tick uuidv4 now pickNode pickSeverity deltaTime s))
  /\ (forall x y type, keeps s (addNode uuidv4 now x y type s))
  /\ (forall nodeId, keeps s (toggleNodeType uuidv4 now nodeId s))
  /\ (forall nodeId x y, keeps s (updateNodePosition uuidv4 now nodeId x y s))
  /\ (forall nodeId vx vy, keeps s (updateNodeVelocity nodeId vx vy s))
  /\ (forall radius, keeps s (setConnectionRadius uuidv4 now radius s)).
Proof.
  pose proof (descendsFrom_start s) as H0.
  destruct (survives_descendsFrom uuidv4 s) as [Hs Ha].
  repeat apply conj; intros; apply descendsFrom_keeps.
  - now apply (P_sendMessage uuidv4 _ Hs).
  - apply (P_tick uuidv4 _ Hs); auto.
  - apply (P_addNode uuidv4 _ Hs); auto. intros n t. apply descendsFrom_push.
  - now apply (P_toggleNodeType uuidv4 _ Hs).
  - now apply (P_updateNodePosition uuidv4 _ Hs).
  - now apply (P_updateNodeVelocity uuidv4 _ Hs).
  - now apply (P_setConnectionRadius uuidv4 _ Hs).
Qed.

(** X20.  The settings (connection radius, timeout of inactive routes,
    auto-generation flag and interval) change only through their setters:
    sending, a tick, adding, removing, toggling or moving a node and
    clearing the nodes leave all four as they are; [setConnectionRadius]
    changes the radius only, and [reset] the auto-generation flag only. *)
Theorem settings_change_only_through_setters (now : Z) (s : Model.t) :
  (forall fromNodeId messageType triageSeverity,
      settingsOf (sendMessage uuidv4 now fromNodeId messageType triageSeverity s)
      = settingsOf s)
  /\ (forall pickNode pickSeverity deltaTime,
        settingsOf (tick uuidv4 now pickNode pickSeverity deltaTime s) = settingsOf s)
  /\ (forall x y type, settingsOf (addNode uuidv4 now x y type s) = settingsOf s)
  /\ (forall nodeId, settingsOf (removeNode nodeId s) = settingsOf s)
  /\ (forall nodeId, settingsOf (toggleNodeType uuidv4 now nodeId s) = settingsOf s)
  /\ (forall nodeId x y,
        settingsOf (updateNodePosition uuidv4 now nodeId x y s) = settingsOf s)
  /\ (forall nodeId vx vy, settingsOf (updateNodeVelocity nodeId vx vy s) = settingsOf s)
  /\ settingsOf (clearNodes s) = settingsOf s
  /\ (forall radius,
        settingsOf (setConnectionRadius uuidv4 now radius s)
        = (radius, Model.inactiveRoutingTimeout s, Model.isAutoGenerating s,
           Model.triageGenerationInterval s))
  /\ settingsOf (reset s)
     = (Model.connectionRadius s, Model.inactiveRoutingTimeout s, false,
        Model.triageGenerationInterval s).
Proof.
  destruct (survives_settings uuidv4 (settingsOf s)) as [Hs Ha].
  repeat apply conj; intros.
  - now apply (P_sendMessage uuidv4 _ Hs).
  - apply (P_tick uuidv4 _ Hs); auto.
  - apply (P_addNode uuidv4 _ Hs); auto.
  - reflexivity.
  - now apply (P_toggleNodeType uuidv4 _ Hs).
  - now apply (P_updateNodePosition uuidv4 _ Hs).
  - now apply (P_updateNodeVelocity uuidv4 _ Hs).
  - reflexivity.
  - apply setConnectionRadius_settings.
  - reflexivity.
Qed.

End NothingLost.
(** ** The editing operations *)

Lemma map_update_commute {A B : Type} (g : A -> B) (f : A -> A) (f' : B -> B)
    (i : nat) (l : list A) :
  (forall x, g (f x) = f' (g x)) -> map g (Js.update i f l) = Js.update i f' (map g l).
Proof.
  intros H. revert i. induction l as [| x l IH]; intros [| i]; simpl; auto.
  - now rewrite H.
  - now rewrite IH.
Qed.




Lemma update_ext_at {A : Type} (f f' : A -> A) (i : nat) (l : list A) :
  (forall x, nth_error l i = Some x -> f x = f' x) ->
  Js.update i f l = Js.update i f' l.
Proof.
  revert i. induction l as [| y l IH]; intros [| i] H; simpl; auto.
  - now rewrite (H y eq_refl).
  - now rewrite (IH i H).
Qed.

Lemma update_twice {A : Type} (f : A -> A) (i : nat) (l : list A) :
  (forall x, f (f x) = x) -> Js.update i f (Js.update i f l) = l.
Proof.
  intros H. revert i. induction l as [| y l IH]; intros [| i]; simpl; auto.
  - now rewrite H.
  - now rewrite IH.
Qed.

Lemma findIndex_ids (x : string) (l l' : list Node.t) :
  map Node.id l' = map Node.id l ->
  Js.findIndex (idIs x) l' = Js.findIndex (idIs x) l.
Proof.
  revert l'. induction l as [| n l IH]; intros [| n' l'] H; try discriminate;
    [reflexivity |].
  simpl in H. injection H as Hn Hl. simpl. unfold idIs at 1 3. rewrite Hn.
  now rewrite (IH l' Hl).
Qed.

(** *** Range at a common radius *)

Lemma SFeqb_refl_false (f : spec_float) : SFeqb f f = false -> f = S754_nan.
Proof.
  unfold SFeqb. destruct f as [sg | sg | | sg m e]; simpl; try discriminate; auto.
  - destruct sg; discriminate.
  - rewrite Z.compare_refl, Pos.compare_cont_refl. destruct sg; discriminate.
Qed.

Lemma leb_Math_max_same (d r : float) :
  PrimFloat.leb d (Math_max r r) = PrimFloat.leb d r.
Proof.
  unfold Math_max. destruct (PrimFloat.is_nan r) eqn:E; simpl.
  - unfold PrimFloat.is_nan in E. apply negb_true_iff in E. rewrite eqb_spec in E.
    apply SFeqb_refl_false in E. rewrite !leb_spec, E. reflexivity.
  - now destruct (PrimFloat.ltb r r).
Qed.

Lemma ForallOrdPairs_impl_in {A : Type} (R R' : A -> A -> Prop) (l : list A) :
  (forall a b, In a l -> In b l -> R a b -> R' a b) ->
  ForallOrdPairs R l -> ForallOrdPairs R' l.
Proof.
  intros H Hl. induction Hl as [| a l Ha Hl IH]; constructor.
  - apply Forall_forall. intros b Hb. apply H; [now left | now right |].
    now apply (proj1 (Forall_forall _ _) Ha).
  - apply IH. intros c d Hc Hd. apply H; now right.
Qed.

Section Editing.
Variable uuidv4 : nat -> string.


Lemma toggleNodeType_view (now : Z) (nodeId : string) (s : Model.t) (i : nat) :
  Js.findIndex (idIs nodeId) (Model.nodes s) = Some i ->
  viewOf staticView (toggleNodeType uuidv4 now nodeId s)
  = Js.update i flipType (viewOf staticView s).
Proof.
  intros Hi. unfold toggleNodeType. rewrite Hi.
  destruct (findIndex_nth_error _ _ _ Hi) as [node [Hnode _]].
  unfold nodeAt. rewrite Hnode.
  set (s1 := updNode i _ s).
  assert (H1 : viewOf staticView s1 = Js.update i flipType (viewOf staticView s)).
  { subst s1. unfold viewOf, updNode. simpl.
    rewrite <- (map_update_commute staticView flipType flipType) by reflexivity.
    f_equal. apply update_ext_at. intros n Hn. rewrite Hnode in Hn.
    now injection Hn as <-. }
  destruct (_ && _); [| exact H1].
  rewrite <- H1.
  change (viewOf staticView
            (syncNewSinkFromExistingSinks uuidv4 now i (updateRoutingTables uuidv4 now s1))
          = viewOf staticView s1).
  rewrite (syncNewSink_view uuidv4 staticView) by reflexivity.
  apply (updateRoutingTables_view staticView uuidv4); reflexivity.
Qed.

(** X22.  [toggleNodeType] flips the type of the first node with the
    identifier and gives it the colour of its new type; apart from what the
    routing pass writes (tables, routing state, bookkeeping of sent triages)
    nothing else of any node changes.  When the node was a sink nothing else
    changes at all: no routing pass runs and no message is sent.  An unknown
    identifier changes nothing.  Toggling the same identifier twice gives
    every node its type back. *)
Theorem toggleNodeType_flips_one_type (now : Z) (nodeId : string) (s : Model.t) :
  let s' := toggleNodeType uuidv4 now nodeId s in
  match Js.findIndex (idIs nodeId) (Model.nodes s) with
  | Some i =>
      viewOf staticView s' = Js.update i flipType (viewOf staticView s)
      /\ (forall node, nodeAt i s = Some node -> Node.type node = sink ->
            Model.nodes s' = Js.update i flipType (Model.nodes s)
            /\ Model.messages s' = Model.messages s)
  | None => s' = s
  end
  /\ forall now',
       map (fun n => (Node.id n, Node.type n))
         (Model.nodes (toggleNodeType uuidv4 now' nodeId s'))
       = map (fun n => (Node.id n, Node.type n)) (Model.nodes s).
Proof.
  intros s'.
  destruct (Js.findIndex (idIs nodeId) (Model.nodes s)) as [i |] eqn:Hi.
  - pose proof (toggleNodeType_view now nodeId s i Hi) as Hv. fold s' in Hv.
    split; [split; [exact Hv |] |].
    + intros node Hnode Hsink. subst s'. unfold toggleNodeType. rewrite Hi, Hnode, Hsink.
      simpl. split; [| reflexivity]. apply update_ext_at. intros n Hn.
      unfold nodeAt in Hnode. rewrite Hnode in Hn. injection Hn as <-.
      unfold flipType. now rewrite Hsink.
    + intros now'.
      set (g := fun n => (Node.id n, Node.type n)).
      set (flipG := fun p : string * NodeType =>
                      (fst p, match snd p with source => sink | sink => source end)).
      assert (Hg : forall t, map g (Model.nodes t) = map g (viewOf staticView t))
        by (intros t; unfold viewOf; now rewrite map_map).
      assert (Hstep : forall t now0,
                Js.findIndex (idIs nodeId) (Model.nodes t) = Some i ->
                map g (Model.nodes (toggleNodeType uuidv4 now0 nodeId t))
                = Js.update i flipG (map g (Model.nodes t))).
      { intros t now0 Ht. rewrite Hg, (toggleNodeType_view now0 nodeId t i Ht).
        rewrite (map_update_commute g flipType flipG) by reflexivity. now rewrite <- Hg. }
      assert (Hi' : Js.findIndex (idIs nodeId) (Model.nodes s') = Some i).
      { rewrite <- Hi. apply findIndex_ids.
        pose proof (f_equal (map fst) (Hstep s now Hi)) as H. fold s' in H.
        rewrite (map_update fst) in H by reflexivity. now rewrite !map_map in H. }
      rewrite (Hstep s' now' Hi'). subst s'. rewrite (Hstep s now Hi).
      apply update_twice. intros [a [|]]; reflexivity.
  - assert (Hs : s' = s) by (subst s'; unfold toggleNodeType; now rewrite Hi).
    split; [exact Hs |]. intros now'. rewrite Hs. unfold toggleNodeType. now rewrite Hi.
Qed.

(** X23.  [setConnectionRadius r], on a world with unique identifiers:
    the model and every node have radius [r]; apart from that and from
    links, queues and bookkeeping of sent triages every node is what it was;
    and two nodes are linked, each to the other, exactly when the distance
    computed for them is at most [r] in binary64. *)
Theorem setConnectionRadius_relinks_by_distance (now : Z) (radius : float)
    (s : Model.t) :
  NoDup (map Node.id (Model.nodes s)) ->
  let s' := setConnectionRadius uuidv4 now radius s in
  Model.connectionRadius s' = radius
  /\ viewOf placedView s'
     = map (fun n => placedView (Node.set_connectionRadius radius n)) (Model.nodes s)
  /\ ForallOrdPairs
       (fun a b =>
          (In (Node.id b) (Node.connections a)
           <-> PrimFloat.leb (distance a b) radius = true)
          /\ (In (Node.id a) (Node.connections b)
              <-> PrimFloat.leb (distance a b) radius = true))
       (Model.nodes s').
Proof.
  intros Hnd s'.
  set (s0 := Model.set_nodes (map (Node.set_connectionRadius radius) (Model.nodes s))
               (Model.set_connectionRadius radius s)).
  assert (Hs' : Model.nodes s' = Model.nodes (updateConnections uuidv4 now s0))
    by reflexivity.
  assert (Hv : viewOf placedView s'
               = map (fun n => placedView (Node.set_connectionRadius radius n))
                   (Model.nodes s)).
  { unfold viewOf. rewrite Hs'.
    change (viewOf placedView (updateConnections uuidv4 now s0)
            = map (fun n => placedView (Node.set_connectionRadius radius n))
                (Model.nodes s)).
    rewrite (updateConnections_frame placedView uuidv4) by reflexivity.
    subst s0. unfold viewOf. simpl. now rewrite map_map. }
  split; [exact (f_equal (fun c => fst (fst (fst c)))
                   (setConnectionRadius_settings uuidv4 now radius s)) |].
  split; [exact Hv |].
  assert (Hnd0 : NoDup (map Node.id (Model.nodes s0)))
    by (subst s0; simpl; rewrite map_map; exact Hnd).
  destruct (linksCurrent_updateConnections uuidv4 now s0 Hnd0) as [_ [_ Hcur]].
  rewrite <- Hs' in Hcur.
  assert (Hrad : forall n, In n (Model.nodes s') -> Node.connectionRadius n = radius).
  { intros n Hn.
    assert (Hm : In (placedView n) (viewOf placedView s')) by now apply in_map.
    rewrite Hv in Hm. apply in_map_iff in Hm. destruct Hm as [m [Hm _]].
    exact (eq_sym (f_equal Node.connectionRadius Hm)). }
  apply (ForallOrdPairs_impl_in linkedAsInRange); [| exact Hcur].
  intros a b Ha Hb. unfold linkedAsInRange, withinRange. fold (distance a b).
  now rewrite (Hrad a Ha), (Hrad b Hb), leb_Math_max_same.
Qed.

(** X24.  [updateNodePosition], on a world with unique identifiers, sets
    the position of the first node with the identifier and recomputes the
    links: apart from links, queues and bookkeeping of sent triages nothing
    else changes (the routing tables are left as they were), and afterwards
    the links are mutual, between nodes of the world, and agree with the new
    positions.  An unknown identifier changes nothing. *)
Theorem updateNodePosition_moves_one_node (now : Z) (nodeId : string) (x y : float)
    (s : Model.t) :
  NoDup (map Node.id (Model.nodes s)) ->
  let s' := updateNodePosition uuidv4 now nodeId x y s in
  match Js.findIndex (idIs nodeId) (Model.nodes s) with
  | Some i =>
      viewOf placedView s'
      = Js.update i (fun n => Node.set_position_y y (Node.set_position_x x n))
          (viewOf placedView s)
      /\ wellLinked (Model.nodes s')
      /\ linksCurrent (Model.nodes s')
  | None => s' = s
  end.
Proof.
  intros Hnd s'. subst s'. unfold updateNodePosition.
  destruct (Js.findIndex (idIs nodeId) (Model.nodes s)) as [i |]; [| reflexivity].
  set (s0 := updNode i _ s).
  change (viewOf placedView (updateConnections uuidv4 now s0)
          = Js.update i (fun n => Node.set_position_y y (Node.set_position_x x n))
              (viewOf placedView s)
          /\ wellLinked (Model.nodes (updateConnections uuidv4 now s0))
          /\ linksCurrent (Model.nodes (updateConnections uuidv4 now s0))).
  split.
  - rewrite (updateConnections_frame placedView uuidv4) by reflexivity.
    subst s0. unfold viewOf, updNode. simpl.
    now apply map_update_commute.
  - apply linksCurrent_updateConnections. subst s0. unfold updNode. simpl.
    now rewrite (map_update Node.id).
Qed.

End Editing.

Lemma setConnectionRadius_relinks_by_distance_witness :
  let s' := setConnectionRadius letterUuid 1 1%float diamond in
  Model.connectionRadius s' = 1%float
  /\ map Node.connections (Model.nodes s') = [[]; []; []; []].
Proof.
  intros s'.
  pose proof (setConnectionRadius_relinks_by_distance letterUuid 1 1%float diamond
              (proj1 diamond_wellLinked)) as H.
  cbv zeta in H. fold s' in H.
  destruct H as [Hr _].
  split; [exact Hr |].
  vm_compute. reflexivity.
Defined.

Lemma updateNodePosition_moves_one_node_witness :
  wellLinked (Model.nodes diamondAfterDrag)
  /\ linksCurrent (Model.nodes diamondAfterDrag).
Proof.
  pose proof (updateNodePosition_moves_one_node letterUuid 5 "b" 100%float 100%float
                diamond (proj1 diamond_wellLinked)) as H.
  cbv zeta in H.
  assert (Hi : Js.findIndex (idIs "b") (Model.nodes diamond) = Some 1)
    by (vm_compute; reflexivity).
  rewrite Hi in H. exact (proj2 H).
Defined.
(** ** Delivery *)

Lemma extends_refl (s : Model.t) : extends s s.
Proof. split; [apply descendsFrom_start | exists []; apply emits_refl]. Qed.

(** What came after [s0] still does after any write of the pipeline but
    those of the advance phase. *)
Lemma survives_extends (uuidv4 : nat -> string) (s0 : Model.t) :
  survives uuidv4 (extends s0).
Proof.
  repeat apply conj; try (intros; assumption).
  - intros m t _ [Hd [new He]]. split; [exact Hd |]. exists (new ++ [m]).
    unfold emits, pushMessage in *. simpl. now rewrite He, app_assoc.
  - intros ns t Hg [Hd He]. split; [now apply descendsFrom_nodes | exact He].
Qed.



Section Delivery.
Variable uuidv4 : nat -> string.






(** X26.  Outside the advance phase of [tick] (and [reset]) no operation
    changes or removes a message: [sendMessage], [addNode],
    [toggleNodeType], [updateNodePosition], [setConnectionRadius] and the
    phases of [tick] before the advance only add messages at the end of the
    list; [removeNode], [updateNodeVelocity] and [clearNodes] leave the list
    as it is. *)
Theorem messages_are_only_appended (now : Z) (s : Model.t) :
  (forall fromNodeId messageType triageSeverity,
      exists new,
        emits s (sendMessage uuidv4 now fromNodeId messageType triageSeverity s) new)
  /\ (forall x y type, exists new, emits s (addNode uuidv4 now x y type s) new)
  /\ (forall nodeId, emits s (removeNode nodeId s) [])
  /\ (forall nodeId, exists new, emits s (toggleNodeType uuidv4 now nodeId s) new)
  /\ (forall nodeId x y,
        exists new, emits s (updateNodePosition uuidv4 now nodeId x y s) new)
  /\ (forall nodeId vx vy, emits s (updateNodeVelocity nodeId vx vy s) [])
  /\ (forall radius, exists new, emits s (setConnectionRadius uuidv4 now radius s) new)
  /\ emits s (clearNodes s) []
  /\ (forall pickNode pickSeverity deltaTime,
        exists new,
          emits s (beforeAdvance uuidv4 now pickNode pickSeverity deltaTime s) new).
Proof.
  pose proof (survives_extends uuidv4 s) as Hs.
  pose proof (extends_refl s) as H0.
  assert (Hsame : forall s', Model.messages s' = Model.messages s -> emits s s' [])
    by (intros s' E; unfold emits; now rewrite E, app_nil_r).
  repeat apply conj; intros.
  - now apply (P_sendMessage uuidv4 _ Hs).
  - apply (P_addNode uuidv4 _ Hs); [| exact H0].
    intros n t [Hd He]. split; [now apply descendsFrom_push | exact He].
  - now apply Hsame.
  - now apply (P_toggleNodeType uuidv4 _ Hs).
  - now apply (P_updateNodePosition uuidv4 _ Hs).
  - apply Hsame. unfold updateNodeVelocity. now destruct (Js.findIndex _ _).
  - now apply (P_setConnectionRadius uuidv4 _ Hs).
  - now apply Hsame.
  - apply (P_beforeAdvance uuidv4 _ Hs); [| exact H0]. intros v t H. exact H.
Qed.

End Delivery.

(** ** Message identifiers *)

Lemma filter_drawn (uuidv4 : nat -> string) (f : Message.t -> bool) :
  forall (msgs : list Message.t) (ks : list nat),
    map Message.id msgs = map uuidv4 ks ->
    exists ks',
      map Message.id (filter f msgs) = map uuidv4 ks'
      /\ incl ks' ks
      /\ (NoDup ks -> NoDup ks').
Proof.
  induction msgs as [| m msgs IH]; intros [| k ks] H; try discriminate.
  - exists []. repeat split; [apply incl_refl | auto].
  - simpl in H. injection H as Hm Hrest.
    destruct (IH ks Hrest) as [ks' [Hmap [Hincl Hnd]]]. simpl.
    destruct (f m).
    + exists (k :: ks'). split; [simpl; now rewrite Hm, Hmap |]. split.
      * intros x [<- | Hx]; [now left | right; now apply Hincl].
      * intros Hn. apply NoDup_cons_iff in Hn. destruct Hn as [Hk Hn].
        apply NoDup_cons_iff. split; [| now apply Hnd].
        intros Hin. apply Hk. now apply Hincl.
    + exists ks'. split; [exact Hmap |]. split.
      * intros x Hx. right. now apply Hincl.
      * intros Hn. apply NoDup_cons_iff in Hn. now apply Hnd.
Qed.

Lemma NoDup_map_injective {A B : Type} (f : A -> B) (l : list A) :
  (forall a b, f a = f b -> a = b) -> NoDup l -> NoDup (map f l).
Proof.
  intros Hf Hnd. induction Hnd as [| x l Hx _ IH]; simpl; constructor; [| exact IH].
  intros Hin. apply in_map_iff in Hin. destruct Hin as [y [Hy Hin]].
  apply Hf in Hy. now subst.
Qed.

Lemma survives_idsDrawn (uuidv4 : nat -> string) :
  survives uuidv4 (idsDrawn uuidv4) /\ survivesAdvance (idsDrawn uuidv4).
Proof.
  split; repeat apply conj; try (intros; assumption).
  - intros m s Hm [ks [Hmap [Hnd Hlt]]]. exists (ks ++ [Model.uuidCount s]).
    unfold pushMessage. simpl. rewrite !map_app, Hmap. simpl. rewrite Hm.
    split; [reflexivity |]. split.
    + apply NoDup_app; [exact Hnd | repeat constructor; intros [] |].
      intros k Hk [<- | []].
      pose proof (proj1 (Forall_forall _ _) Hlt _ Hk) as H. simpl in H. lia.
    + apply Forall_app. split; [| repeat constructor].
      eapply Forall_impl; [| exact Hlt]. simpl. intros k Hk. lia.
  - intros s [ks [Hmap [Hnd Hlt]]]. exists ks. simpl.
    split; [exact Hmap |]. split; [exact Hnd |].
    eapply Forall_impl; [| exact Hlt]. simpl. intros k Hk. lia.
  - intros k m p s Hk [ks [Hmap [Hnd Hlt]]]. exists ks. simpl.
    split; [| split; assumption].
    rewrite (update_ext_at _ (Message.set_progress p) k (Model.messages s)).
    + now rewrite (map_update Message.id) by reflexivity.
    + intros x Hx. rewrite Hk in Hx. now injection Hx as <-.
  - intros f s [ks [Hmap [Hnd Hlt]]].
    destruct (filter_drawn uuidv4 f _ _ Hmap) as [ks' [Hmap' [Hincl Hnd']]].
    exists ks'. simpl. split; [exact Hmap' |]. split; [now apply Hnd' |].
    apply Forall_forall. intros k Hk.
    exact (proj1 (Forall_forall _ _) Hlt k (Hincl k Hk)).
Qed.

Section Identifiers.
Variable uuidv4 : nat -> string.

(** X27.  Message identifiers are never reused.  If the identifiers of the
    messages in the list are distinct draws of the identifier factory made
    so far (as they are when the list is empty), they still are after every
    operation: each new message gets a draw of its own, and forwarding,
    flushing and replaying never copy an identifier.  So with a factory that
    never returns the same identifier twice no two messages of the list
    share one. *)
Theorem message_ids_are_never_reused (now : Z) (s : Model.t) :
  idsDrawn uuidv4 s ->
  (forall fromNodeId messageType triageSeverity,
      idsDrawn uuidv4 (sendMessage uuidv4 now fromNodeId messageType triageSeverity s))
  /\ (forall pickNode pickSeverity deltaTime,
        idsDrawn uuidv4 (tick uuidv4 now pickNode pickSeverity deltaTime s))
  /\ (forall x y type, idsDrawn uuidv4 (addNode uuidv4 now x y type s))
  /\ (forall nodeId, idsDrawn uuidv4 (removeNode nodeId s))
  /\ (forall nodeId, idsDrawn uuidv4 (toggleNodeType uuidv4 now nodeId s))
  /\ (forall nodeId x y, idsDrawn uuidv4 (updateNodePosition uuidv4 now nodeId x y s))
  /\ (forall nodeId vx vy, idsDrawn uuidv4 (updateNodeVelocity nodeId vx vy s))
  /\ (forall radius, idsDrawn uuidv4 (setConnectionRadius uuidv4 now radius s))
  /\ idsDrawn uuidv4 (clearNodes s)
  /\ idsDrawn uuidv4 (reset s)
  /\ ((forall a b, uuidv4 a = uuidv4 b -> a = b) ->
      NoDup (map Message.id (Model.messages s))).
Proof.
  intros H0. destruct (survives_idsDrawn uuidv4) as [Hs Ha].
  repeat apply conj; intros.
  - now apply (P_sendMessage uuidv4 _ Hs).
  - apply (P_tick uuidv4 _ Hs); auto.
  - apply (P_addNode uuidv4 _ Hs); auto.
  - exact H0.
  - now apply (P_toggleNodeType uuidv4 _ Hs).
  - now apply (P_updateNodePosition uuidv4 _ Hs).
  - now apply (P_updateNodeVelocity uuidv4 _ Hs).
  - now apply (P_setConnectionRadius uuidv4 _ Hs).
  - exact H0.
  - exists []. repeat split; constructor.
  - destruct H0 as [ks [Hmap [Hnd _]]]. rewrite Hmap.
    now apply NoDup_map_injective.
Qed.

End Identifiers.

Lemma message_ids_are_never_reused_witness :
  idsDrawn letterUuid
    (tick letterUuid 9 0 0 0x1p-2%float
       (sendMessage letterUuid 8 "a" triage (Some red) diamond)).
Proof.
  assert (H0 : idsDrawn letterUuid diamond).
  { exists []. split; [reflexivity |]. split; constructor. }
  pose proof (proj1 (message_ids_are_never_reused letterUuid 8 diamond H0)
                "a"%string triage (Some red)) as H1.
  exact (proj1 (proj2 (message_ids_are_never_reused letterUuid 9 _ H1)) 0 0 0x1p-2%float).
Defined.
